(** * cwalk: a shallow embedding of the path library in [include/cwalk.h]

    Paths are C strings.  A string is modelled by the list of the bytes
    stored at its address; every read goes through [deref], which yields
    the terminator ['\0'] at and after the end of the list, so a byte
    list with an embedded ['\0'] behaves as the C string that stops
    there.  A [const char *] into a string is a natural-number offset
    from the start of that string.  [size_t] values are natural numbers
    and the [int] counters of the visibility resolver are integers: the
    model is the code on inputs whose sizes fit the machine types.

    The output buffer is a function from offsets to bytes, so that every
    store the code performs is visible, also one outside the capacity
    the caller announced.  Source strings and the buffer are distinct
    objects: the model covers the calls whose buffer does not overlap
    the inputs.  [assert]s are not modelled (release build). *)

From Stdlib Require Import String Ascii List Arith ZArith Lia Bool.
Import ListNotations.

Open Scope nat_scope.
Open Scope list_scope.

(** ** Characters and strings *)

Definition NUL : ascii := Ascii.zero.

Definition is_nul (c : ascii) : bool := Ascii.eqb c NUL.

(** The byte at [s + i]. *)
Definition deref (s : list ascii) (i : nat) : ascii := nth i s NUL.

(** A string literal. *)
Definition lit (s : string) : list ascii := list_ascii_of_string s.

(** [strlen(s + off)], written on the bytes from [off] on. *)
Fixpoint strlen_from (l : list ascii) : nat :=
  match l with
  | [] => 0
  | x :: l' => if is_nul x then 0 else S (strlen_from l')
  end.

Definition strlen (s : list ascii) (off : nat) : nat :=
  strlen_from (skipn off s).

(** [strncmp(a, b, n) == 0] on the bytes at the two pointers. *)
Fixpoint strncmp_eq (a b : list ascii) (n : nat) : bool :=
  match n with
  | 0 => true
  | S n' =>
      let x := hd NUL a in
      let y := hd NUL b in
      if negb (Ascii.eqb x y) then false
      else if is_nul x then true
      else strncmp_eq (tl a) (tl b) n'
  end.

(** [tolower] of the "C" locale. *)
Definition tolower (c : ascii) : ascii :=
  let n := nat_of_ascii c in
  if (65 <=? n) && (n <=? 90) then ascii_of_nat (n + 32) else c.

(** ** Styles and segments *)

Inductive cwk_path_style := CWK_STYLE_WINDOWS | CWK_STYLE_UNIX.

Inductive cwk_segment_type := CWK_NORMAL | CWK_CURRENT | CWK_BACK.

Record cwk_segment := mk_segment {
  path : list ascii;
  segments : nat;
  begin : nat;
  end_ : nat;
  size : nat
}.

Record cwk_segment_joined := mk_joined {
  segment : cwk_segment;
  paths : list (list ascii);
  path_index : nat
}.

(** [separators[path_style]] *)
Definition separators (st : cwk_path_style) : list ascii :=
  match st with
  | CWK_STYLE_WINDOWS => lit "\/"
  | CWK_STYLE_UNIX => lit "/"
  end.

Fixpoint is_separator_loop (c : list ascii) (ch : ascii) : bool :=
  match c with
  | [] => false
  | x :: c' =>
      if is_nul x then false
      else if Ascii.eqb x ch then true
      else is_separator_loop c' ch
  end.

(** [is_separator(str)], applied to the byte [*str]. *)
Definition is_separator (st : cwk_path_style) (ch : ascii) : bool :=
  is_separator_loop (separators st) ch.

(** ** Stops *)

(** [while ( *c != 0 && !is_separator(c)) ++c;] on the bytes from [c]. *)
Fixpoint find_next_stop_from (st : cwk_path_style) (l : list ascii) (c : nat)
  : nat :=
  match l with
  | [] => c
  | x :: l' =>
      if negb (is_nul x) && negb (is_separator st x)
      then find_next_stop_from st l' (S c)
      else c
  end.

Definition find_next_stop (st : cwk_path_style) (s : list ascii) (c : nat)
  : nat :=
  find_next_stop_from st (skipn c s) c.

(** [while (is_separator(c)) ++c;] on the bytes from [c]. *)
Fixpoint skip_separators_from (st : cwk_path_style) (l : list ascii) (c : nat)
  : nat :=
  match l with
  | [] => c
  | x :: l' =>
      if is_separator st x then skip_separators_from st l' (S c) else c
  end.

Definition skip_separators (st : cwk_path_style) (s : list ascii) (c : nat)
  : nat :=
  skip_separators_from st (skipn c s) c.

(** [while (c > begin && !is_separator(c)) --c;] *)
Fixpoint find_previous_stop_loop (st : cwk_path_style) (s : list ascii)
  (b c : nat) : nat :=
  match c with
  | 0 => 0
  | S c' =>
      if (b <? c) && negb (is_separator st (deref s c))
      then find_previous_stop_loop st s b c'
      else c
  end.

Definition find_previous_stop (st : cwk_path_style) (s : list ascii)
  (b c : nat) : nat :=
  let c := find_previous_stop_loop st s b c in
  if is_separator st (deref s c) then c + 1 else c.

(** ** Roots *)

Definition get_root_windows (st : cwk_path_style) (p : list ascii) : nat :=
  let c := 0 in
  if is_nul (deref p c) then 0
  else if is_separator st (deref p c) then
    let c := S c in
    if negb (is_separator st (deref p c)) then 1
    else
      let c := S c in
      let marked :=
        Ascii.eqb (deref p c) "?" || Ascii.eqb (deref p c) "." in
      (* [is_separator(++c)] is evaluated only after the mark matched *)
      let c := if marked then S c else c in
      let is_device_path := marked && is_separator st (deref p c) in
      if is_device_path then 4
      else
        let c := find_next_stop st p c in
        let c := skip_separators st p c in
        let c := find_next_stop st p c in
        let c := if is_separator st (deref p c) then S c else c in
        c
  else
    let c := S c in
    if Ascii.eqb (deref p c) ":" then
      let c := S c in
      if is_separator st (deref p c) then 3 else 2
    else 0.

Definition get_root_unix (st : cwk_path_style) (p : list ascii) : nat :=
  if is_separator st (deref p 0) then 1 else 0.

Definition get_root (st : cwk_path_style) (p : list ascii) : nat :=
  match st with
  | CWK_STYLE_WINDOWS => get_root_windows st p
  | CWK_STYLE_UNIX => get_root_unix st p
  end.

Definition is_root_absolute (st : cwk_path_style) (p : list ascii)
  (length : nat) : bool :=
  if length =? 0 then false
  else is_separator st (deref p (length - 1)).

Definition is_absolute (st : cwk_path_style) (p : list ascii) : bool :=
  let length := get_root st p in
  is_root_absolute st p length.

Definition is_relative (st : cwk_path_style) (p : list ascii) : bool :=
  negb (is_absolute st p).

(** ** The segment iterator of one string *)

(** [while (is_separator(segments)) { ++segments; if ( *segments == 0)
    return false; }]: [None] is the early return. *)
Fixpoint skip_leading_from (st : cwk_path_style) (l : list ascii) (c : nat)
  : option nat :=
  match l with
  | [] => Some c
  | x :: l' =>
      if is_separator st x then
        if is_nul (hd NUL l') then None
        else skip_leading_from st l' (S c)
      else Some c
  end.

Definition get_first_segment_without_root (st : cwk_path_style)
  (p : list ascii) (segs : nat) : bool * cwk_segment :=
  let seg := mk_segment p segs segs segs 0 in
  if is_nul (deref p segs) then (false, seg)
  else
    match skip_leading_from st (skipn segs p) segs with
    | None => (false, seg)
    | Some b =>
        let e := find_next_stop st p b in
        (true, mk_segment p segs b e (e - b))
    end.

Definition get_first_segment (st : cwk_path_style) (p : list ascii)
  : bool * cwk_segment :=
  let length := get_root st p in
  get_first_segment_without_root st p length.

Definition get_next_segment (st : cwk_path_style) (seg : cwk_segment)
  : bool * cwk_segment :=
  let c := begin seg + size seg in
  if is_nul (deref (path seg) c) then (false, seg)
  else
    (* do { ++c; } while (is_separator(c)); *)
    let c := skip_separators st (path seg) (S c) in
    if is_nul (deref (path seg) c) then (false, seg)
    else
      let e := find_next_stop st (path seg) c in
      (true, mk_segment (path seg) (segments seg) c e (e - c)).

(** [do { --c; if (c < segment->segments) return false; }
    while (is_separator(c));]: [None] is the early return. *)
Fixpoint back_over_separators (st : cwk_path_style) (s : list ascii)
  (segs c : nat) : option nat :=
  match c with
  | 0 => None
  | S c' =>
      if c' <? segs then None
      else if is_separator st (deref s c')
           then back_over_separators st s segs c'
           else Some c'
  end.

Definition get_previous_segment (st : cwk_path_style) (seg : cwk_segment)
  : bool * cwk_segment :=
  let c := begin seg in
  if c <=? segments seg then (false, seg)
  else
    match back_over_separators st (path seg) (segments seg) c with
    | None => (false, seg)
    | Some c =>
        let e := c + 1 in
        let b := find_previous_stop st (path seg) (segments seg) c in
        (true, mk_segment (path seg) (segments seg) b e (e - b))
    end.

(** [while (get_next_segment(segment)) {}]; every successful step moves
    [begin] forward, so [fuel] = the length of the string is never used
    up. *)
Fixpoint last_segment_loop (st : cwk_path_style) (fuel : nat)
  (seg : cwk_segment) : cwk_segment :=
  match fuel with
  | 0 => seg
  | S fuel' =>
      let '(r, seg') := get_next_segment st seg in
      if r then last_segment_loop st fuel' seg' else seg'
  end.

Definition get_last_segment (st : cwk_path_style) (p : list ascii)
  : bool * cwk_segment :=
  let '(r, seg) := get_first_segment st p in
  if negb r then (false, seg)
  else (true, last_segment_loop st (length p) seg).

Definition get_last_segment_without_root (st : cwk_path_style)
  (p : list ascii) : bool * cwk_segment :=
  let '(r, seg) := get_first_segment_without_root st p 0 in
  if negb r then (false, seg)
  else (true, last_segment_loop st (length p) seg).

Definition get_segment_type (seg : cwk_segment) : cwk_segment_type :=
  let here := skipn (begin seg) (path seg) in
  if strncmp_eq here (lit ".") (size seg) then CWK_CURRENT
  else if strncmp_eq here (lit "..") (size seg) then CWK_BACK
  else CWK_NORMAL.

(** ** The joined segment stream *)

(** [paths[i]]; the array ends with [NULL], which is [None]. *)
Definition path_at (ps : list (list ascii)) (i : nat) : option (list ascii) :=
  nth_error ps i.

(** [while (paths[i] != NULL && (result = get_first_segment(paths[i],
    &sj->segment)) == false) ++i;] on the entries from [i]. *)
Fixpoint first_segment_joined_loop (st : cwk_path_style)
  (rest : list (list ascii)) (i : nat) (seg : cwk_segment)
  : bool * nat * cwk_segment :=
  match rest with
  | [] => (false, i, seg)
  | p :: rest' =>
      let '(r, seg') := get_first_segment st p in
      if r then (true, i, seg')
      else first_segment_joined_loop st rest' (S i) seg'
  end.

(** The segment of a joined stream before any call has filled it. *)
Definition no_segment : cwk_segment := mk_segment [] 0 0 0 0.

Definition get_first_segment_joined (st : cwk_path_style)
  (ps : list (list ascii)) : bool * cwk_segment_joined :=
  let '(r, i, seg) := first_segment_joined_loop st ps 0 no_segment in
  (r, mk_joined seg ps i).

(** [do { ++i; if (paths[i] == NULL) break; result =
    get_first_segment_without_root(paths[i], paths[i], &sj->segment); }
    while (!result);] on the entries after [i]. *)
Fixpoint next_path_loop (st : cwk_path_style) (rest : list (list ascii))
  (i : nat) (seg : cwk_segment) : bool * nat * cwk_segment :=
  match rest with
  | [] => (false, S i, seg)
  | p :: rest' =>
      let '(r, seg') := get_first_segment_without_root st p 0 in
      if r then (true, S i, seg')
      else next_path_loop st rest' (S i) seg'
  end.

Definition get_next_segment_joined (st : cwk_path_style)
  (sj : cwk_segment_joined) : bool * cwk_segment_joined :=
  match path_at (paths sj) (path_index sj) with
  | None => (false, sj)
  | Some _ =>
      let '(r, seg) := get_next_segment st (segment sj) in
      if r then (true, mk_joined seg (paths sj) (path_index sj))
      else
        let '(r, i, seg) :=
          next_path_loop st (skipn (S (path_index sj)) (paths sj))
            (path_index sj) (segment sj) in
        (r, mk_joined seg (paths sj) i)
  end.

(** [do { if (i == 0) break; --i; result = i == 0 ? get_last_segment(..)
    : get_last_segment_without_root(..); } while (!result);] *)
Fixpoint previous_path_loop (st : cwk_path_style) (ps : list (list ascii))
  (i : nat) (seg : cwk_segment) : bool * nat * cwk_segment :=
  match i with
  | 0 => (false, 0, seg)
  | S i' =>
      let '(r, seg') :=
        if i' =? 0 then get_last_segment st (nth i' ps [])
        else get_last_segment_without_root st (nth i' ps []) in
      if r then (true, i', seg')
      else previous_path_loop st ps i' seg'
  end.

Definition get_previous_segment_joined (st : cwk_path_style)
  (sj : cwk_segment_joined) : bool * cwk_segment_joined :=
  match path_at (paths sj) 0 with
  | None => (false, sj)
  | Some _ =>
      let '(r, seg) := get_previous_segment st (segment sj) in
      if r then (true, mk_joined seg (paths sj) (path_index sj))
      else
        let '(r, i, seg) :=
          previous_path_loop st (paths sj) (path_index sj) (segment sj) in
        (r, mk_joined seg (paths sj) i)
  end.

(** A bound on the number of steps a walk over the joined stream can
    take: every step passes a byte or an entry of [paths]. *)
Definition stream_fuel (ps : list (list ascii)) : nat :=
  S (length (concat ps) + length ps).

(** ** The visibility resolver *)

(** [while (get_previous_segment_joined(sj)) { ... }] with the counter. *)
Fixpoint back_will_be_removed_loop (st : cwk_path_style) (fuel : nat)
  (sj : cwk_segment_joined) (counter : Z) : bool :=
  match fuel with
  | 0 => false
  | S fuel' =>
      let '(r, sj') := get_previous_segment_joined st sj in
      if negb r then false
      else
        match get_segment_type (segment sj') with
        | CWK_NORMAL =>
            let counter := (counter + 1)%Z in
            if (0 <? counter)%Z then true
            else back_will_be_removed_loop st fuel' sj' counter
        | CWK_BACK =>
            back_will_be_removed_loop st fuel' sj' (counter - 1)%Z
        | CWK_CURRENT =>
            back_will_be_removed_loop st fuel' sj' counter
        end
  end.

Definition segment_back_will_be_removed (st : cwk_path_style)
  (sj : cwk_segment_joined) : bool :=
  back_will_be_removed_loop st (stream_fuel (paths sj)) sj 0%Z.

(** [while (get_next_segment_joined(sj)) { ... }] with the counter. *)
Fixpoint normal_will_be_removed_loop (st : cwk_path_style) (fuel : nat)
  (sj : cwk_segment_joined) (counter : Z) : bool :=
  match fuel with
  | 0 => false
  | S fuel' =>
      let '(r, sj') := get_next_segment_joined st sj in
      if negb r then false
      else
        match get_segment_type (segment sj') with
        | CWK_NORMAL =>
            normal_will_be_removed_loop st fuel' sj' (counter + 1)%Z
        | CWK_BACK =>
            let counter := (counter - 1)%Z in
            if (counter <? 0)%Z then true
            else normal_will_be_removed_loop st fuel' sj' counter
        | CWK_CURRENT =>
            normal_will_be_removed_loop st fuel' sj' counter
        end
  end.

Definition segment_normal_will_be_removed (st : cwk_path_style)
  (sj : cwk_segment_joined) : bool :=
  normal_will_be_removed_loop st (stream_fuel (paths sj)) sj 0%Z.

Definition segment_will_be_removed (st : cwk_path_style)
  (sj : cwk_segment_joined) (absolute : bool) : bool :=
  let sjc := sj in
  match get_segment_type (segment sj) with
  | CWK_CURRENT => true
  | CWK_BACK =>
      if absolute then true else segment_back_will_be_removed st sjc
  | CWK_NORMAL => segment_normal_will_be_removed st sjc
  end.

(** [while (segment_will_be_removed(sj, absolute)) { if
    (!get_next_segment_joined(sj)) return false; } return true;] *)
Fixpoint skip_invisible_loop (st : cwk_path_style) (fuel : nat)
  (sj : cwk_segment_joined) (absolute : bool) : bool * cwk_segment_joined :=
  if segment_will_be_removed st sj absolute then
    let '(r, sj') := get_next_segment_joined st sj in
    if negb r then (false, sj')
    else
      match fuel with
      | 0 => (false, sj')
      | S fuel' => skip_invisible_loop st fuel' sj' absolute
      end
  else (true, sj).

Definition segment_joined_skip_invisible (st : cwk_path_style)
  (sj : cwk_segment_joined) (absolute : bool) : bool * cwk_segment_joined :=
  skip_invisible_loop st (stream_fuel (paths sj)) sj absolute.

(** [is_string_equal(first, second, n)] on the bytes at the two
    pointers. *)
Fixpoint is_string_equal_loop (a b : list ascii) (n : nat) : bool :=
  let x := hd NUL a in
  let y := hd NUL b in
  match n with
  | 0 => true
  | S n' =>
      if negb (is_nul x) && negb (is_nul y) then
        if negb (Ascii.eqb (tolower x) (tolower y)) then false
        else is_string_equal_loop (tl a) (tl b) n'
      else is_nul x && is_nul y
  end.

Definition is_string_equal (st : cwk_path_style) (a b : list ascii) (n : nat)
  : bool :=
  match st with
  | CWK_STYLE_UNIX => strncmp_eq a b n
  | CWK_STYLE_WINDOWS => is_string_equal_loop a b n
  end.

(** ** The buffer output protocol *)

Definition buffer := nat -> ascii.

(** [memmove(&buffer[position], str + off, amount)] *)
Definition memmove (buf : buffer) (position : nat) (str : list ascii)
  (off amount : nat) : buffer :=
  fun i =>
    if (position <=? i) && (i <? position + amount)
    then deref str (off + (i - position))
    else buf i.

(** [buffer[i] = ch] *)
Definition store (buf : buffer) (i : nat) (ch : ascii) : buffer :=
  fun j => if j =? i then ch else buf j.

(** [output_sized(buffer, buffer_size, position, str + off, length)] *)
Definition output_sized (buf : buffer) (buffer_size position : nat)
  (str : list ascii) (off length : nat) : nat * buffer :=
  let amount_written :=
    if position + length <? buffer_size then length
    else if position <? buffer_size then buffer_size - position
    else 0 in
  let buf :=
    if 0 <? amount_written
    then memmove buf position str off amount_written
    else buf in
  (length, buf).

Definition output_current (buf : buffer) (buffer_size position : nat)
  : nat * buffer :=
  output_sized buf buffer_size position (lit ".") 0 1.

Definition output_back (buf : buffer) (buffer_size position : nat)
  : nat * buffer :=
  output_sized buf buffer_size position (lit "..") 0 2.

Definition output_separator (st : cwk_path_style) (buf : buffer)
  (buffer_size position : nat) : nat * buffer :=
  output_sized buf buffer_size position (separators st) 0 1.

Definition output_dot (buf : buffer) (buffer_size position : nat)
  : nat * buffer :=
  output_sized buf buffer_size position (lit ".") 0 1.

Definition output (buf : buffer) (buffer_size position : nat)
  (str : list ascii) (off : nat) : nat * buffer :=
  let length := strlen str off in
  output_sized buf buffer_size position str off length.

Definition terminate_output (buf : buffer) (buffer_size pos : nat) : buffer :=
  if 0 <? buffer_size then
    if buffer_size <=? pos then store buf (buffer_size - 1) NUL
    else store buf pos NUL
  else buf.

(** The first [n] bytes of the buffer. *)
Definition buffer_prefix (buf : buffer) (n : nat) : list ascii :=
  map buf (seq 0 n).

(** ** Join and normalize *)

(** The [do { ... } while (get_next_segment_joined(&sj));] of
    [join_and_normalize_multiple]. *)
Fixpoint join_loop (st : cwk_path_style) (fuel : nat) (absolute : bool)
  (sj : cwk_segment_joined) (pos : nat) (has_segment_output : bool)
  (buf : buffer) (buffer_size : nat) : nat * bool * buffer :=
  let '(pos, has_segment_output, buf) :=
    if segment_will_be_removed st sj absolute
    then (pos, has_segment_output, buf)
    else
      let '(pos, buf) :=
        if has_segment_output then
          let '(n, buf) := output_separator st buf buffer_size pos in
          (pos + n, buf)
        else (pos, buf) in
      let '(n, buf) :=
        output_sized buf buffer_size pos (path (segment sj))
          (begin (segment sj)) (size (segment sj)) in
      (pos + n, true, buf) in
  let '(r, sj') := get_next_segment_joined st sj in
  if negb r then (pos, has_segment_output, buf)
  else
    match fuel with
    | 0 => (pos, has_segment_output, buf)
    | S fuel' =>
        join_loop st fuel' absolute sj' pos has_segment_output buf buffer_size
    end.

Definition join_and_normalize_multiple (st : cwk_path_style)
  (ps : list (list ascii)) (buf : buffer) (buffer_size : nat) : nat * buffer :=
  let p0 := nth 0 ps [] in
  let pos := get_root st p0 in
  let absolute := is_root_absolute st p0 pos in
  let '(_, buf) := output_sized buf buffer_size 0 p0 0 pos in
  let '(r, sj) := get_first_segment_joined st ps in
  if negb r then (pos, terminate_output buf buffer_size pos)
  else
    let '(pos, has_segment_output, buf) :=
      join_loop st (stream_fuel ps) absolute sj pos false buf buffer_size in
    let '(pos, buf) :=
      if negb has_segment_output && (pos =? 0) then
        let '(n, buf) := output_current buf buffer_size pos in
        (pos + n, buf)
      else (pos, buf) in
    (pos, terminate_output buf buffer_size pos).

Definition join (st : cwk_path_style) (path_a path_b : list ascii)
  (buf : buffer) (buffer_size : nat) : nat * buffer :=
  join_and_normalize_multiple st [path_a; path_b] buf buffer_size.

Definition join_multiple (st : cwk_path_style) (ps : list (list ascii))
  (buf : buffer) (buffer_size : nat) : nat * buffer :=
  join_and_normalize_multiple st ps buf buffer_size.

Definition normalize (st : cwk_path_style) (p : list ascii)
  (buf : buffer) (buffer_size : nat) : nat * buffer :=
  join_and_normalize_multiple st [p] buf buffer_size.

Definition get_absolute (st : cwk_path_style) (base p : list ascii)
  (buf : buffer) (buffer_size : nat) : nat * buffer :=
  let fake :=
    if is_absolute st base then []
    else
      match st with
      | CWK_STYLE_WINDOWS => [lit "\"]
      | CWK_STYLE_UNIX => [lit "/"]
      end in
  let ps :=
    if is_absolute st p then fake ++ [p]
    else fake ++ [base; p] in
  join_and_normalize_multiple st ps buf buffer_size.

(** ** Relative paths and intersections *)

(** The [do { ... } while ( *base_available && *other_available);] of
    [skip_segments_until_diverge]. *)
Fixpoint skip_segments_until_diverge_loop (st : cwk_path_style) (fuel : nat)
  (bsj osj : cwk_segment_joined) (absolute : bool)
  : cwk_segment_joined * cwk_segment_joined * bool * bool :=
  let '(base_available, bsj) := segment_joined_skip_invisible st bsj absolute in
  let '(other_available, osj) :=
    segment_joined_skip_invisible st osj absolute in
  if negb base_available || negb other_available
  then (bsj, osj, base_available, other_available)
  else if negb (is_string_equal st
                  (skipn (begin (segment bsj)) (path (segment bsj)))
                  (skipn (begin (segment osj)) (path (segment osj)))
                  (size (segment bsj)))
  then (bsj, osj, base_available, other_available)
  else
    let '(base_available, bsj) := get_next_segment_joined st bsj in
    let '(other_available, osj) := get_next_segment_joined st osj in
    if base_available && other_available then
      match fuel with
      | 0 => (bsj, osj, base_available, other_available)
      | S fuel' => skip_segments_until_diverge_loop st fuel' bsj osj absolute
      end
    else (bsj, osj, base_available, other_available).

Definition skip_segments_until_diverge (st : cwk_path_style)
  (bsj osj : cwk_segment_joined) (absolute : bool)
  : cwk_segment_joined * cwk_segment_joined * bool * bool :=
  skip_segments_until_diverge_loop st (stream_fuel (paths bsj)) bsj osj
    absolute.

(** The first [do { ... } while (get_next_segment_joined(&bsj));] of
    [get_relative]: a back segment for every visible base segment. *)
Fixpoint relative_back_loop (st : cwk_path_style) (fuel : nat)
  (bsj : cwk_segment_joined) (absolute : bool) (pos : nat) (has_output : bool)
  (buf : buffer) (buffer_size : nat) : nat * bool * buffer :=
  let '(r, bsj) := segment_joined_skip_invisible st bsj absolute in
  if negb r then (pos, has_output, buf)
  else
    let has_output := true in
    let '(n, buf) := output_back buf buffer_size pos in
    let pos := pos + n in
    let '(n, buf) := output_separator st buf buffer_size pos in
    let pos := pos + n in
    let '(r, bsj) := get_next_segment_joined st bsj in
    if negb r then (pos, has_output, buf)
    else
      match fuel with
      | 0 => (pos, has_output, buf)
      | S fuel' =>
          relative_back_loop st fuel' bsj absolute pos has_output buf
            buffer_size
      end.

(** The second loop of [get_relative]: the visible target segments. *)
Fixpoint relative_other_loop (st : cwk_path_style) (fuel : nat)
  (osj : cwk_segment_joined) (absolute : bool) (pos : nat) (has_output : bool)
  (buf : buffer) (buffer_size : nat) : nat * bool * buffer :=
  let '(r, osj) := segment_joined_skip_invisible st osj absolute in
  if negb r then (pos, has_output, buf)
  else
    let has_output := true in
    let '(n, buf) :=
      output_sized buf buffer_size pos (path (segment osj))
        (begin (segment osj)) (size (segment osj)) in
    let pos := pos + n in
    let '(n, buf) := output_separator st buf buffer_size pos in
    let pos := pos + n in
    let '(r, osj) := get_next_segment_joined st osj in
    if negb r then (pos, has_output, buf)
    else
      match fuel with
      | 0 => (pos, has_output, buf)
      | S fuel' =>
          relative_other_loop st fuel' osj absolute pos has_output buf
            buffer_size
      end.

Definition get_relative (st : cwk_path_style) (base_directory p : list ascii)
  (buf : buffer) (buffer_size : nat) : nat * buffer :=
  let pos := 0 in
  let base_root_length := get_root st base_directory in
  let path_root_length := get_root st p in
  if negb (base_root_length =? path_root_length)
     || negb (is_string_equal st base_directory p base_root_length)
  then (pos, terminate_output buf buffer_size pos)
  else
    let absolute := is_root_absolute st base_directory base_root_length in
    let '(_, bsj) := get_first_segment_joined st [base_directory] in
    let '(_, osj) := get_first_segment_joined st [p] in
    let '(bsj, osj, base_available, other_available) :=
      skip_segments_until_diverge st bsj osj absolute in
    let has_output := false in
    let '(pos, has_output, buf) :=
      if base_available
      then relative_back_loop st (stream_fuel (paths bsj)) bsj absolute pos
             has_output buf buffer_size
      else (pos, has_output, buf) in
    let '(pos, has_output, buf) :=
      if other_available
      then relative_other_loop st (stream_fuel (paths osj)) osj absolute pos
             has_output buf buffer_size
      else (pos, has_output, buf) in
    let '(pos, buf) :=
      if has_output then (pos - 1, buf)
      else
        let '(n, buf) := output_current buf buffer_size pos in
        (pos + n, buf) in
    (pos, terminate_output buf buffer_size pos).

(** The [do { ... } while (get_next_segment_joined(&base) &&
    get_next_segment_joined(&other));] of [get_intersection]; the result
    is the offset [end - path_base]. *)
Fixpoint intersection_loop (st : cwk_path_style) (fuel : nat)
  (base other : cwk_segment_joined) (absolute : bool) (e : nat) : nat :=
  let '(rb, base) := segment_joined_skip_invisible st base absolute in
  if negb rb then e
  else
    let '(ro, other) := segment_joined_skip_invisible st other absolute in
    if negb ro then e
    else if negb (is_string_equal st
                    (skipn (begin (segment base)) (path (segment base)))
                    (skipn (begin (segment other)) (path (segment other)))
                    (size (segment base)))
    then e
    else
      let e := end_ (segment base) in
      let '(rb, base) := get_next_segment_joined st base in
      if negb rb then e
      else
        let '(ro, other) := get_next_segment_joined st other in
        if negb ro then e
        else
          match fuel with
          | 0 => e
          | S fuel' => intersection_loop st fuel' base other absolute e
          end.

Definition get_intersection (st : cwk_path_style)
  (path_base path_other : list ascii) : nat :=
  let base_root_length := get_root st path_base in
  let other_root_length := get_root st path_other in
  if negb (is_string_equal st path_base path_other base_root_length) then 0
  else
    let '(rb, base) := get_first_segment_joined st [path_base] in
    if negb rb then base_root_length
    else
      let '(ro, other) := get_first_segment_joined st [path_other] in
      if negb ro then base_root_length
      else
        let absolute := is_root_absolute st path_base base_root_length in
        let e := base_root_length in
        intersection_loop st (stream_fuel [path_base]) base other absolute e.

(** ** Changing the root, a segment, the basename, the extension *)

Definition change_root (st : cwk_path_style) (p new_root : list ascii)
  (buf : buffer) (buffer_size : nat) : nat * buffer :=
  let root_length := get_root st p in
  let new_root_length := strlen new_root 0 in
  let path_length := strlen p 0 in
  let tail := root_length in
  let tail_length := path_length - root_length in
  let '(_, buf) :=
    output_sized buf buffer_size new_root_length p tail tail_length in
  let '(_, buf) := output_sized buf buffer_size 0 new_root 0 new_root_length in
  let new_path_size := tail_length + new_root_length in
  (new_path_size, terminate_output buf buffer_size new_path_size).

(** [while (n > 0 && is_separator(&value[n - 1])) --n;] *)
Fixpoint trim_trailing (st : cwk_path_style) (value : list ascii)
  (off n : nat) : nat :=
  match n with
  | 0 => 0
  | S n' =>
      if is_separator st (deref value (off + n'))
      then trim_trailing st value off n'
      else n
  end.

Definition change_segment (st : cwk_path_style) (seg : cwk_segment)
  (value : list ascii) (buf : buffer) (buffer_size : nat) : nat * buffer :=
  let '(pos, buf) :=
    output_sized buf buffer_size 0 (path seg) 0 (begin seg) in
  let value_off := skip_separators st value 0 in
  let value_size := strlen value value_off in
  let value_size := trim_trailing st value value_off value_size in
  let tail_size := strlen (path seg) (end_ seg) in
  let '(_, buf) :=
    output_sized buf buffer_size (pos + value_size) (path seg) (end_ seg)
      tail_size in
  let '(n, buf) :=
    output_sized buf buffer_size pos value value_off value_size in
  let pos := pos + n in
  let pos := pos + tail_size in
  (pos, terminate_output buf buffer_size pos).

Definition change_basename (st : cwk_path_style) (p new_basename : list ascii)
  (buf : buffer) (buffer_size : nat) : nat * buffer :=
  let '(r, seg) := get_last_segment st p in
  if negb r then
    let root_size := get_root st p in
    let '(pos, buf) := output_sized buf buffer_size 0 p 0 root_size in
    let off := skip_separators st new_basename 0 in
    let new_basename_size := strlen new_basename off in
    let new_basename_size :=
      trim_trailing st new_basename off new_basename_size in
    let '(n, buf) :=
      output_sized buf buffer_size pos new_basename off new_basename_size in
    let pos := pos + n in
    (pos, terminate_output buf buffer_size pos)
  else change_segment st seg new_basename buf buffer_size.

(** [for (c = segment.begin; c < segment.end; ++c) if ( *c == '.')
    old_extension = c;] over the [n] bytes from [c]. *)
Fixpoint find_old_extension (s : list ascii) (c n old_extension : nat)
  : nat :=
  match n with
  | 0 => old_extension
  | S n' =>
      find_old_extension s (S c) n'
        (if Ascii.eqb (deref s c) "." then c else old_extension)
  end.

Definition change_extension (st : cwk_path_style)
  (p new_extension : list ascii) (buf : buffer) (buffer_size : nat)
  : nat * buffer :=
  let '(r, seg) := get_last_segment st p in
  if negb r then
    let root_size := get_root st p in
    let '(pos, buf) := output_sized buf buffer_size 0 p 0 root_size in
    let '(pos, buf) :=
      if negb (Ascii.eqb (deref new_extension 0) ".") then
        let '(n, buf) := output_dot buf buffer_size pos in
        (pos + n, buf)
      else (pos, buf) in
    let '(n, buf) := output buf buffer_size pos new_extension 0 in
    let pos := pos + n in
    (pos, terminate_output buf buffer_size pos)
  else
    let old_extension :=
      find_old_extension (path seg) (begin seg) (end_ seg - begin seg)
        (end_ seg) in
    let '(pos, buf) :=
      output_sized buf buffer_size 0 (path seg) 0 old_extension in
    let ext_off := if Ascii.eqb (deref new_extension 0) "." then 1 else 0 in
    let new_extension_size := strlen new_extension ext_off + 1 in
    let '(trail_size, buf) :=
      output buf buffer_size (pos + new_extension_size) (path seg)
        (end_ seg) in
    let '(n, buf) := output_dot buf buffer_size pos in
    let pos := pos + n in
    let '(n, buf) := output buf buffer_size pos new_extension ext_off in
    let pos := pos + n in
    let pos := pos + trail_size in
    (pos, terminate_output buf buffer_size pos).

(** ** What is asked of a buffer-producing call *)

(** The bytes at and after [cap] are those of [b]. *)
Definition untouched_from (cap : nat) (b b' : buffer) : Prop :=
  forall i, cap <= i -> b' i = b i.

(** The returned length does not depend on the buffer or its capacity. *)
Definition measures (op : buffer -> nat -> nat * buffer) : Prop :=
  forall buf buf' cap cap', fst (op buf cap) = fst (op buf' cap').

(** No byte at or after the capacity is changed. *)
Definition confined (op : buffer -> nat -> nat * buffer) : Prop :=
  forall buf cap, untouched_from cap buf (snd (op buf cap)).

(** With a capacity above zero, the buffer holds the terminator at
    [min(returned length, capacity - 1)]. *)
Definition terminated (op : buffer -> nat -> nat * buffer) : Prop :=
  forall buf cap, 0 < cap ->
    snd (op buf cap) (Nat.min (fst (op buf cap)) (cap - 1)) = NUL.

(** The call ends with [terminate_output] at the length it returns,
    after stores that stay below the capacity. *)
Definition ends_terminated (op : buffer -> nat -> nat * buffer) : Prop :=
  forall buf cap, exists pos buf',
    op buf cap = (pos, terminate_output buf' cap pos)
    /\ untouched_from cap buf buf'.


(** [P] holds of every buffer-producing operation, whatever its other
    arguments. *)
Definition every_operation (st : cwk_path_style)
  (P : (buffer -> nat -> nat * buffer) -> Prop) : Prop :=
  (forall path_a path_b, P (join st path_a path_b))
  /\ (forall ps, P (join_multiple st ps))
  /\ (forall p, P (normalize st p))
  /\ (forall base p, P (get_absolute st base p))
  /\ (forall base_directory p, P (get_relative st base_directory p))
  /\ (forall p new_root, P (change_root st p new_root))
  /\ (forall p new_basename, P (change_basename st p new_basename))
  /\ (forall p new_extension, P (change_extension st p new_extension))
  /\ (forall seg value, P (change_segment st seg value)).

(** ** The layout of a string, as the iterator sees it *)

(** A byte of a segment: neither the terminator nor a separator. *)
Definition regular (st : cwk_path_style) (ch : ascii) : bool :=
  negb (is_nul ch) && negb (is_separator st ch).

(** The bytes of [s] in [[a, b)] are separators. *)
Definition seps (st : cwk_path_style) (s : list ascii) (a b : nat) : Prop :=
  forall i, a <= i < b -> is_separator st (deref s i) = true.

(** The bytes of [s] in [[a, b)] are bytes of a segment. *)
Definition regs (st : cwk_path_style) (s : list ascii) (a b : nat) : Prop :=
  forall i, a <= i < b -> regular st (deref s i) = true.

(** [seg] is a segment of its string as the iterator delivers them: a
    non-empty maximal run of segment bytes at or after [segments]. *)
Definition segment_ok (st : cwk_path_style) (seg : cwk_segment) : Prop :=
  segments seg <= begin seg
  /\ begin seg < end_ seg
  /\ size seg = end_ seg - begin seg
  /\ regs st (path seg) (begin seg) (end_ seg)
  /\ regular st (deref (path seg) (end_ seg)) = false
  /\ (begin seg = segments seg
      \/ is_separator st (deref (path seg) (begin seg - 1)) = true).

(** The segments the iterator reaches on [p]: the first one, and the
    next of one it reached. *)
Inductive iterated (st : cwk_path_style) (p : list ascii)
  : cwk_segment -> Prop :=
| iterated_first seg :
    get_first_segment st p = (true, seg) -> iterated st p seg
| iterated_next seg seg' :
    iterated st p seg -> get_next_segment st seg = (true, seg') ->
    iterated st p seg'.

(** ** The counter rules of the visibility resolver, in the spec's words *)

Definition type_of (sj : cwk_segment_joined) : cwk_segment_type :=
  get_segment_type (segment sj).

(** The positions a forward walk from [sj] (exclusive) passes, up to the
    end of the stream. *)
Inductive walk_forward (st : cwk_path_style)
  : cwk_segment_joined -> list cwk_segment_joined -> Prop :=
| walk_forward_end sj sj' :
    get_next_segment_joined st sj = (false, sj') -> walk_forward st sj []
| walk_forward_step sj sj' rest :
    get_next_segment_joined st sj = (true, sj') ->
    walk_forward st sj' rest -> walk_forward st sj (sj' :: rest).

(** The positions a backward walk from [sj] (exclusive) passes, down to
    the start of the stream. *)
Inductive walk_backward (st : cwk_path_style)
  : cwk_segment_joined -> list cwk_segment_joined -> Prop :=
| walk_backward_end sj sj' :
    get_previous_segment_joined st sj = (false, sj') -> walk_backward st sj []
| walk_backward_step sj sj' rest :
    get_previous_segment_joined st sj = (true, sj') ->
    walk_backward st sj' rest -> walk_backward st sj (sj' :: rest).

(** Look-behind: increment on Normal, decrement on Back; the answer is
    true as soon as the counter is positive, false at the start. *)
Fixpoint counter_goes_positive (seen : list cwk_segment_type) (counter : Z)
  : bool :=
  match seen with
  | [] => false
  | CWK_NORMAL :: rest =>
      if (0 <? counter + 1)%Z then true
      else counter_goes_positive rest (counter + 1)%Z
  | CWK_BACK :: rest => counter_goes_positive rest (counter - 1)%Z
  | CWK_CURRENT :: rest => counter_goes_positive rest counter
  end.

(** Look-ahead: increment on Normal, decrement on Back; the answer is
    true as soon as the counter is negative, false at the end. *)
Fixpoint counter_goes_negative (seen : list cwk_segment_type) (counter : Z)
  : bool :=
  match seen with
  | [] => false
  | CWK_NORMAL :: rest => counter_goes_negative rest (counter + 1)%Z
  | CWK_BACK :: rest =>
      if (counter - 1 <? 0)%Z then true
      else counter_goes_negative rest (counter - 1)%Z
  | CWK_CURRENT :: rest => counter_goes_negative rest counter
  end.

(** The rule of the spec for a segment of type [t], with the types seen
    walking backward ([behind]) and forward ([ahead]) from it. *)
Definition elided_by_rule (t : cwk_segment_type) (absolute : bool)
  (behind ahead : list cwk_segment_type) : bool :=
  match t with
  | CWK_CURRENT => true
  | CWK_BACK => if absolute then true else counter_goes_positive behind 0%Z
  | CWK_NORMAL => counter_goes_negative ahead 0%Z
  end.


(** No terminator before the end of the segment. *)
Definition within (seg : cwk_segment) : Prop :=
  forall i, i < end_ seg -> is_nul (deref (path seg) i) = false.

(** [sj] stands on a segment of one of its paths. *)
Definition position_ok (st : cwk_path_style) (sj : cwk_segment_joined)
  : Prop :=
  path_index sj < length (paths sj)
  /\ path (segment sj) = nth (path_index sj) (paths sj) []
  /\ segment_ok st (segment sj)
  /\ within (segment sj).

(** What a forward walk from [sj] can still pass: bytes of the current
    path and the later entries. *)
Definition ahead_measure (sj : cwk_segment_joined) : nat :=
  (length (path (segment sj)) - begin (segment sj))
  + (length (concat (skipn (S (path_index sj)) (paths sj)))
     + length (skipn (S (path_index sj)) (paths sj))).

(** What a backward walk from [sj] can still pass. *)
Definition behind_measure (sj : cwk_segment_joined) : nat :=
  begin (segment sj)
  + (length (concat (firstn (path_index sj) (paths sj)))
     + path_index sj).

(** ** Tokens: the segments of a string, by position *)

(** The bytes of [s] in [[b, e)]. *)
Definition slice (s : list ascii) (b e : nat) : list ascii :=
  firstn (e - b) (skipn b s).

(** From [c] on, [s] holds separators, then the segments [ts] (each a
    pair of its begin and end) with separators between them, then
    separators up to the terminator. *)
Fixpoint chain (st : cwk_path_style) (s : list ascii) (c : nat)
  (ts : list (nat * nat)) : Prop :=
  match ts with
  | [] => exists z, c <= z /\ seps st s c z /\ is_nul (deref s z) = true
  | (b, e) :: ts' =>
      c <= b /\ seps st s c b /\ b < e /\ regs st s b e
      /\ regular st (deref s e) = false /\ chain st s e ts'
  end.

(** The segment structure standing on the token [t] of [p]. *)
Definition token_segment (p : list ascii) (segs : nat) (t : nat * nat)
  : cwk_segment :=
  mk_segment p segs (fst t) (snd t) (snd t - fst t).

(** The position of a stream of [ps] standing on the token [t] of entry
    [i]. *)
Definition token_position (ps : list (list ascii)) (i segs : nat)
  (t : nat * nat) : cwk_segment_joined :=
  mk_joined (token_segment (nth i ps []) segs t) ps i.

(** The type of a segment with the given text. *)
Definition classify (text : list ascii) : cwk_segment_type :=
  get_segment_type (mk_segment text 0 0 (length text) (length text)).

(** The text of the token [t] of [p]. *)
Definition token_text (p : list ascii) (t : nat * nat) : list ascii :=
  slice p (fst t) (snd t).

(** The [len] bytes [memmove] reads at [str + off]. *)
Definition bytes_at (str : list ascii) (off len : nat) : list ascii :=
  map (fun k => deref str (off + k)) (seq 0 len).

(** The bytes of the segment a position stands on. *)
Definition position_bytes (sj : cwk_segment_joined) : list ascii :=
  bytes_at (path (segment sj)) (begin (segment sj)) (size (segment sj)).

(** The separator the output uses: the first of the style. *)
Definition output_separator_char (st : cwk_path_style) : ascii :=
  deref (separators st) 0.

(** The texts one after the other with a separator between them, and
    before the first one when [has_segment_output] is set. *)
Fixpoint render (st : cwk_path_style) (has_segment_output : bool)
  (texts : list (list ascii)) : list ascii :=
  match texts with
  | [] => []
  | t :: rest =>
      (if has_segment_output then [output_separator_char st] else [])
      ++ t ++ render st true rest
  end.

(** The elements of [l] the rule does not elide, when [behind] are the
    elements before [l], nearest first. *)
Fixpoint survivors {A : Type} (ty : A -> cwk_segment_type) (absolute : bool)
  (behind l : list A) : list A :=
  match l with
  | [] => []
  | x :: rest =>
      (if elided_by_rule (ty x) absolute (map ty behind) (map ty rest)
       then [] else [x])
      ++ survivors ty absolute (x :: behind) rest
  end.

(** The root of [p], as text. *)
Definition root_text (st : cwk_path_style) (p : list ascii) : list ascii :=
  firstn (get_root st p) p.

(** The type of the token [t] of [p]. *)
Definition token_type_of (p : list ascii) (t : nat * nat)
  : cwk_segment_type :=
  classify (token_text p t).

(** The texts of the tokens of [p] that normalization keeps, when [ts]
    are all its tokens. *)
Definition kept_texts (st : cwk_path_style) (p : list ascii)
  (ts : list (nat * nat)) : list (list ascii) :=
  map (token_text p)
    (survivors (token_type_of p) (is_absolute st p) [] ts).

(** The text [normalize] produces for [p], when [ts] are all its
    tokens: the root as it is, then the kept segments; a single dot when
    there are segments, none is kept and there is no root. *)
Definition normalized_text (st : cwk_path_style) (p : list ascii)
  (ts : list (nat * nat)) : list ascii :=
  match ts with
  | [] => root_text st p
  | _ :: _ =>
      match kept_texts st p ts with
      | [] => if get_root st p =? 0 then lit "." else root_text st p
      | _ :: _ => root_text st p ++ render st false (kept_texts st p ts)
      end
  end.

(** Normal segments minus Back segments. *)
Fixpoint balance (l : list cwk_segment_type) : Z :=
  match l with
  | [] => 0%Z
  | CWK_NORMAL :: rest => (1 + balance rest)%Z
  | CWK_BACK :: rest => (balance rest - 1)%Z
  | CWK_CURRENT :: rest => balance rest
  end.

(** Back segments followed by Normal segments. *)
Definition backs_then_normals {A : Type} (ty : A -> cwk_segment_type)
  (l : list A) : Prop :=
  exists a b, l = a ++ b
    /\ Forall (fun x => ty x = CWK_BACK) a
    /\ Forall (fun x => ty x = CWK_NORMAL) b.

(** Where [render] puts the texts, when the rendering starts at [c]. *)
Fixpoint layout (c : nat) (has_segment_output : bool)
  (texts : list (list ascii)) : list (nat * nat) :=
  match texts with
  | [] => []
  | t :: rest =>
      let b := if has_segment_output then S c else c in
      (b, b + length t) :: layout (b + length t) true rest
  end.

(** A text a segment can have: not empty, segment bytes only. *)
Definition segment_text (st : cwk_path_style) (t : list ascii) : Prop :=
  t <> [] /\ Forall (fun ch => regular st ch = true) t.

(** The texts after the root in [normalized_text]. *)
Definition body_texts (st : cwk_path_style) (p : list ascii)
  (ts : list (nat * nat)) : list (list ascii) :=
  match ts with
  | [] => []
  | _ :: _ =>
      match kept_texts st p ts with
      | [] => if get_root st p =? 0 then [lit "."] else []
      | k :: K => k :: K
      end
  end.

(** The tokens of [s] from [c] on, found as the iterator finds them;
    every token passes a byte, so [fuel] above the length of [s] is
    never used up. *)
Fixpoint tokens_from (st : cwk_path_style) (s : list ascii) (fuel c : nat)
  : list (nat * nat) :=
  match fuel with
  | 0 => []
  | S fuel' =>
      let b := skip_separators st s c in
      if is_nul (deref s b) then []
      else
        let e := find_next_stop st s b in
        (b, e) :: tokens_from st s fuel' e
  end.

(** The tokens of the path [p], after its root. *)
Definition tokens (st : cwk_path_style) (p : list ascii)
  : list (nat * nat) :=
  tokens_from st p (S (length p)) (get_root st p).

(** The texts of the segments of [p] that survive normalization. *)
Definition visible_segments (st : cwk_path_style) (p : list ascii)
  : list (list ascii) :=
  kept_texts st p (tokens st p).

(** [a] is the start of [b]. *)
Fixpoint text_prefix (a b : list ascii) : bool :=
  match a, b with
  | [], _ => true
  | x :: a', y :: b' => Ascii.eqb x y && text_prefix a' b'
  | _ :: _, [] => false
  end.

(** The comparison of two segments, on their texts: the text of the
    base is the start of the text of the target, without regard to case
    under the Windows style. *)
Definition segments_match (st : cwk_path_style) (a b : list ascii) : bool :=
  match st with
  | CWK_STYLE_UNIX => text_prefix a b
  | CWK_STYLE_WINDOWS => text_prefix (map tolower a) (map tolower b)
  end.


Definition no_nul_before (s : list ascii) (n : nat) : Prop :=
  forall i, i < n -> is_nul (deref s i) = false.

(** The server and share part of a UNC root. *)
Definition unc_tail (st : cwk_path_style) (p : list ascii) (c : nat) : nat :=
  let c := find_next_stop st p c in
  let c := skip_separators st p c in
  let c := find_next_stop st p c in
  if is_separator st (deref p c) then S c else c.

(** The entries from [k] on, each counted with its terminator. *)
Definition tail_measure (ps : list (list ascii)) (k : nat) : nat :=
  length (concat (skipn k ps)) + length (skipn k ps).

(** The entries before [k], each counted with its terminator. *)
Definition head_measure (ps : list (list ascii)) (k : nat) : nat :=
  length (concat (firstn k ps)) + k.

(** ** Walking two streams until they diverge, on lists of positions *)

(** The positions of [l] from the first one the resolver keeps. *)
Fixpoint skip_removed (st : cwk_path_style) (absolute : bool)
  (l : list cwk_segment_joined) : list cwk_segment_joined :=
  match l with
  | [] => []
  | x :: rest =>
      if segment_will_be_removed st x absolute
      then skip_removed st absolute rest
      else l
  end.

(** [sj] stands on the first of the positions [l] that are left of its
    stream; when none is left, skipping the invisible ones fails. *)
Definition stands_at (st : cwk_path_style) (absolute : bool)
  (sj : cwk_segment_joined) (l : list cwk_segment_joined) : Prop :=
  match l with
  | [] => fst (segment_joined_skip_invisible st sj absolute) = false
  | x :: rest => sj = x /\ position_ok st x /\ walk_forward st x rest
  end.

(** The comparison of [skip_segments_until_diverge] and
    [get_intersection]: the first [size] bytes at the two segments. *)
Definition segments_equal (st : cwk_path_style) (b o : cwk_segment_joined)
  : bool :=
  is_string_equal st
    (skipn (begin (segment b)) (path (segment b)))
    (skipn (begin (segment o)) (path (segment o)))
    (size (segment b)).

(** How many leading pairs of the two lists the comparison takes for
    equal. *)
Fixpoint common (st : cwk_path_style) (B T : list cwk_segment_joined)
  : nat :=
  match B, T with
  | b :: B', t :: T' =>
      if segments_equal st b t then S (common st B' T') else 0
  | _, _ => 0
  end.

(** The resolver keeps the position. *)
Definition kept (st : cwk_path_style) (absolute : bool)
  (sj : cwk_segment_joined) : bool :=
  negb (segment_will_be_removed st sj absolute).

(** What is left of a stream after the divergence walk: when the stream
    is still available its position stands on positions of which the
    kept ones are [K]; otherwise no kept position is left. *)
Definition left_over (st : cwk_path_style) (absolute : bool)
  (sj : cwk_segment_joined) (available : bool)
  (K : list cwk_segment_joined) : Prop :=
  if available
  then exists R, stands_at st absolute sj R
                 /\ filter (kept st absolute) R = K
  else K = [].

(** The texts, each followed by the output separator. *)
Definition trailing (st : cwk_path_style) (items : list (list ascii))
  : list ascii :=
  concat (map (fun t => t ++ [output_separator_char st]) items).

(** The positions of the stream of the single path [p], when [ts] are
    its tokens. *)
Definition positions (st : cwk_path_style) (p : list ascii)
  (ts : list (nat * nat)) : list cwk_segment_joined :=
  map (token_position [p] 0 (get_root st p)) ts.

(** The text [get_relative] produces from the items it emits: the items
    with separators between them, or a dot when there is none. *)
Definition relative_text (st : cwk_path_style) (items : list (list ascii))
  : list ascii :=
  match items with
  | [] => lit "."
  | _ :: _ => removelast (trailing st items)
  end.

(** The items [get_relative] emits: a back segment for every kept base
    position after the common part, then the kept target segments after
    the common part. *)
Definition relative_items (st : cwk_path_style) (absolute : bool)
  (Lb Lo : list cwk_segment_joined) : list (list ascii) :=
  let B := filter (kept st absolute) Lb in
  let T := filter (kept st absolute) Lo in
  map (fun _ => lit "..") (skipn (common st B T) B)
  ++ map position_bytes (skipn (common st B T) T).

(** The lowest balance a start of the list reaches. *)
Fixpoint low (l : list cwk_segment_type) : Z :=
  match l with
  | [] => 0%Z
  | CWK_NORMAL :: rest => Z.min 0 (1 + low rest)
  | CWK_BACK :: rest => (low rest - 1)%Z
  | CWK_CURRENT :: rest => low rest
  end.


(** The positions of the stream of the two paths [a] and [r], when [tsa]
    are the tokens of [a] after its root and [tsr] those of [r], which
    has no root. *)
Definition pair_positions (st : cwk_path_style) (a r : list ascii)
  (tsa tsr : list (nat * nat)) : list cwk_segment_joined :=
  map (token_position [a; r] 0 (get_root st a)) tsa
  ++ map (token_position [a; r] 1 0) tsr.


(** ** The basename, the dirname and the extension *)

(** [get_basename]: the offset of the basename in the path, [None] for
    the [NULL] the code stores when there is no segment, and the
    length. *)
Definition get_basename (st : cwk_path_style) (p : list ascii)
  : option nat * nat :=
  let '(r, seg) := get_last_segment st p in
  if negb r then (None, 0)
  else (Some (begin seg), size seg).

(** [get_dirname]: the length [segment.begin - path]. *)
Definition get_dirname (st : cwk_path_style) (p : list ascii) : nat :=
  let '(r, seg) := get_last_segment st p in
  if negb r then 0
  else begin seg.

(** [for (c = segment.end; c >= segment.begin; --c) if ( *c == '.')
    ...], with [c = b + n]: the offset of the dot found, if any. *)
Fixpoint find_extension (s : list ascii) (b n : nat) : option nat :=
  if Ascii.eqb (deref s (b + n)) "." then Some (b + n)
  else
    match n with
    | 0 => None
    | S n' => find_extension s b n'
    end.

(** [get_extension]: [None] when the code returns false and leaves its
    two outputs untouched, else the offset of the extension and its
    length. *)
Definition get_extension (st : cwk_path_style) (p : list ascii)
  : option (nat * nat) :=
  let '(r, seg) := get_last_segment st p in
  if negb r then None
  else
    match find_extension (path seg) (begin seg) (end_ seg - begin seg) with
    | Some c => Some (c, end_ seg - c)
    | None => None
    end.

Definition has_extension (st : cwk_path_style) (p : list ascii) : bool :=
  match get_extension st p with
  | Some _ => true
  | None => false
  end.


(** The text of a C string: the bytes before its terminator. *)
Definition text_of (s : list ascii) : list ascii :=
  firstn (strlen s 0) s.

(** The value [change_segment] and [change_basename] write: the bytes of
    [value] without the separators at its start and at its end. *)
Definition trimmed (st : cwk_path_style) (value : list ascii) : list ascii :=
  let off := skip_separators st value 0 in
  bytes_at value off (trim_trailing st value off (strlen value off)).


(** The extension [change_extension] writes after the dot: the bytes of
    [new_extension] without the dot it may start with. *)
Definition extension_text (new_extension : list ascii) : list ascii :=
  let off := if Ascii.eqb (deref new_extension 0) "." then 1 else 0 in
  bytes_at new_extension off (strlen new_extension off).


(** ** Positions linked in both directions *)

(** From [x] the stream goes through the positions [l] and ends, and
    from each of them it goes back to the one before. *)
Fixpoint linked (st : cwk_path_style) (x : cwk_segment_joined)
  (l : list cwk_segment_joined) : Prop :=
  match l with
  | [] => fst (get_next_segment_joined st x) = false
  | y :: l' =>
      get_next_segment_joined st x = (true, y)
      /\ get_previous_segment_joined st y = (true, x)
      /\ linked st y l'
  end.

(** The text of the join of two paths, as the rule gives it: the root
    of the first path, then the segments of the two paths the rule
    keeps; a single dot when there are segments, none is kept and there
    is no root. *)
Definition joined_text (st : cwk_path_style) (a r : list ascii)
  : list ascii :=
  let texts :=
    map (token_text a) (tokens st a) ++ map (token_text r) (tokens st r) in
  match texts with
  | [] => root_text st a
  | _ :: _ =>
      match survivors classify (is_absolute st a) [] texts with
      | [] => if get_root st a =? 0 then lit "." else root_text st a
      | k :: K => root_text st a ++ render st false (k :: K)
      end
  end.


(** ** Guessing the style *)

(** [for (c = path; *c; ++c) { if ( *c == *separators[CWK_STYLE_UNIX])
    return CWK_STYLE_UNIX; else if ( *c == *separators[CWK_STYLE_WINDOWS])
    return CWK_STYLE_WINDOWS; }]: the style the loop returns, if it
    returns. *)
Fixpoint first_slash (l : list ascii) : option cwk_path_style :=
  match l with
  | [] => None
  | ch :: l' =>
      if is_nul ch then None
      else if Ascii.eqb ch (deref (separators CWK_STYLE_UNIX) 0)
      then Some CWK_STYLE_UNIX
      else if Ascii.eqb ch (deref (separators CWK_STYLE_WINDOWS) 0)
      then Some CWK_STYLE_WINDOWS
      else first_slash l'
  end.

(** [for (c = segment.begin; *c; ++c) if ( *c == '.') return ...;]:
    whether the loop finds a dot. *)
Fixpoint dot_ahead (l : list ascii) : bool :=
  match l with
  | [] => false
  | ch :: l' =>
      if is_nul ch then false
      else if Ascii.eqb ch "." then true
      else dot_ahead l'
  end.

(** [guess_style]; the root and the last segment are found under the
    configured style [st]. *)
Definition guess_style (st : cwk_path_style) (p : list ascii)
  : cwk_path_style :=
  let root_length := get_root_windows st p in
  if 1 <? root_length then CWK_STYLE_WINDOWS
  else
    match first_slash p with
    | Some s => s
    | None =>
        let '(r, seg) := get_last_segment st p in
        if negb r then CWK_STYLE_UNIX
        else if Ascii.eqb (deref (path seg) (begin seg)) "."
        then CWK_STYLE_UNIX
        else if dot_ahead (skipn (begin seg) (path seg))
        then CWK_STYLE_WINDOWS
        else CWK_STYLE_UNIX
    end.


(** How many leading pairs of the two lists of texts the comparison of
    [get_relative] takes for equal. *)
Fixpoint common_texts (st : cwk_path_style) (B T : list (list ascii))
  : nat :=
  match B, T with
  | b :: B', t :: T' =>
      if segments_match st b t then S (common_texts st B' T') else 0
  | _, _ => 0
  end.


(* ================================================================== *)
(** * Properties *)
(* ================================================================== *)

(** ** Roots and absoluteness *)

Lemma is_separator_spec (st : cwk_path_style) (ch : ascii) :
  is_separator st ch =
  match st with
  | CWK_STYLE_WINDOWS => Ascii.eqb "\" ch || Ascii.eqb "/" ch
  | CWK_STYLE_UNIX => Ascii.eqb "/" ch
  end.
Proof.
  destruct st; unfold is_separator, separators, lit;
    cbn [list_ascii_of_string is_separator_loop];
    change (is_nul "\") with false; change (is_nul "/") with false;
    cbv iota.
  - destruct (Ascii.eqb "\" ch); [reflexivity|].
    destruct (Ascii.eqb "/" ch); reflexivity.
  - destruct (Ascii.eqb "/" ch); reflexivity.
Qed.

Lemma is_separator_NUL (st : cwk_path_style) : is_separator st NUL = false.
Proof. destruct st; reflexivity. Qed.

Lemma is_separator_not_nul (st : cwk_path_style) (ch : ascii) :
  is_separator st ch = true -> is_nul ch = false.
Proof.
  intros H. unfold is_nul. destruct (Ascii.eqb ch NUL) eqn:E; [|reflexivity].
  apply Ascii.eqb_eq in E. subst ch. rewrite is_separator_NUL in H.
  discriminate.
Qed.

(** C4.  For every style and path, [is_absolute] holds exactly when the
    root is not empty and its last character is a separator of the
    style, and [is_relative] is the negation of [is_absolute]. *)
Theorem is_absolute_iff_root_ends_with_separator
  (st : cwk_path_style) (p : list ascii) :
  is_absolute st p =
    (0 <? get_root st p) && is_separator st (deref p (get_root st p - 1))
  /\ is_relative st p = negb (is_absolute st p).
Proof.
  split; [|reflexivity].
  unfold is_absolute, is_root_absolute.
  destruct (get_root st p) as [|n]; reflexivity.
Qed.

(** C8.  Under the Windows style the root of [C:test.txt] has length 2
    and the path is relative, while the root of [C:\test.txt] has length
    3 and the path is absolute. *)
Theorem windows_drive_roots :
  get_root CWK_STYLE_WINDOWS (lit "C:test.txt") = 2
  /\ is_relative CWK_STYLE_WINDOWS (lit "C:test.txt") = true
  /\ get_root CWK_STYLE_WINDOWS (lit "C:\test.txt") = 3
  /\ is_absolute CWK_STYLE_WINDOWS (lit "C:\test.txt") = true.
Proof. repeat split; reflexivity. Qed.

(** ** Intersections *)

(** C5.  [get_intersection] compares the first [base_root_length] bytes
    of the two paths and never the two root lengths: for the relative
    base [a] and the absolute other path [/a] of the Unix style the
    roots differ (lengths 0 and 1) and the result is 1, not 0. *)
Theorem get_intersection_ignores_other_root_length :
  get_root CWK_STYLE_UNIX (lit "a") = 0
  /\ get_root CWK_STYLE_UNIX (lit "/a") = 1
  /\ get_intersection CWK_STYLE_UNIX (lit "a") (lit "/a") = 1.
Proof. repeat split; reflexivity. Qed.

(** ** The buffer output protocol: confinement and measuring *)

Lemma untouched_refl cap b : untouched_from cap b b.
Proof. intros i _. reflexivity. Qed.

Lemma untouched_trans cap b1 b2 b3 :
  untouched_from cap b1 b2 -> untouched_from cap b2 b3 ->
  untouched_from cap b1 b3.
Proof. intros H12 H23 i Hi. rewrite H23, H12; auto. Qed.

Lemma output_sized_eq buf cap pos str off len :
  output_sized buf cap pos str off len =
  (len, snd (output_sized buf cap pos str off len)).
Proof. reflexivity. Qed.

Lemma output_sized_untouched buf cap pos str off len :
  untouched_from cap buf (snd (output_sized buf cap pos str off len)).
Proof.
  intros i Hi. unfold output_sized. cbn [snd].
  destruct (pos + len <? cap) eqn:E1.
  - apply Nat.ltb_lt in E1. destruct (0 <? len); [|reflexivity].
    unfold memmove.
    destruct (Nat.ltb_spec i (pos + len)); [lia|].
    rewrite andb_false_r. reflexivity.
  - destruct (pos <? cap) eqn:E2.
    + apply Nat.ltb_lt in E2. destruct (0 <? cap - pos); [|reflexivity].
      unfold memmove.
      destruct (Nat.ltb_spec i (pos + (cap - pos))); [lia|].
      rewrite andb_false_r. reflexivity.
    + reflexivity.
Qed.

Lemma terminate_output_untouched buf cap pos :
  untouched_from cap buf (terminate_output buf cap pos).
Proof.
  intros i Hi. unfold terminate_output.
  destruct (Nat.ltb_spec 0 cap); [|reflexivity].
  destruct (Nat.leb_spec cap pos); unfold store.
  - destruct (Nat.eqb_spec i (cap - 1)); [lia|reflexivity].
  - destruct (Nat.eqb_spec i pos); [lia|reflexivity].
Qed.

Lemma terminate_output_terminates buf cap pos :
  0 < cap -> terminate_output buf cap pos (Nat.min pos (cap - 1)) = NUL.
Proof.
  intros Hc. unfold terminate_output.
  destruct (Nat.ltb_spec 0 cap); [|lia].
  destruct (Nat.leb_spec cap pos); unfold store.
  - replace (Nat.min pos (cap - 1)) with (cap - 1) by lia.
    rewrite Nat.eqb_refl. reflexivity.
  - replace (Nat.min pos (cap - 1)) with pos by lia.
    rewrite Nat.eqb_refl. reflexivity.
Qed.

Arguments memmove : simpl never.
Arguments store : simpl never.
Arguments is_separator : simpl never.
Arguments deref : simpl never.
Arguments segment_will_be_removed : simpl never.
Arguments get_next_segment_joined : simpl never.
Arguments segment_joined_skip_invisible : simpl never.
Arguments terminate_output : simpl never.

Ltac split_pairs :=
  repeat match goal with
  | |- context [let '(_, _) := ?e in _] =>
      let r := fresh "r" in let x := fresh "x" in
      destruct e as [r x] eqn:?
  end.

(** Split the conjunctions of the goal, leaving definitions folded. *)
Ltac splits :=
  repeat match goal with
  | |- _ /\ _ => split
  end.

Lemma output_sized_step buf cap pos str off len :
  exists buf', output_sized buf cap pos str off len = (len, buf')
               /\ untouched_from cap buf buf'.
Proof.
  eexists. split; [apply output_sized_eq|apply output_sized_untouched].
Qed.

(** Replace the next [output_sized] call of the goal by its result. *)
Ltac step_output :=
  match goal with
  | |- context [output_sized ?b ?c ?p ?s ?o ?l] =>
      let b' := fresh "b" in
      let E := fresh "E" in
      let U := fresh "U" in
      destruct (output_sized_step b c p s o l) as (b' & E & U);
      rewrite E; clear E; cbn beta iota
  end.

Ltac untouched_chain :=
  repeat first
    [ assumption
    | apply untouched_refl
    | apply terminate_output_untouched
    | match goal with
      | U : untouched_from ?c ?b ?b' |- untouched_from ?c ?b0 ?b' =>
          apply (untouched_trans c b0 b b'); [|exact U]
      | |- untouched_from ?c ?b0 (terminate_output ?b ?c ?p) =>
          apply (untouched_trans c b0 b _);
          [|apply terminate_output_untouched]
      end ].

Section BufferProtocol.

Variable st : cwk_path_style.

Lemma join_loop_measures fuel absolute :
  forall sj pos hso buf buf' cap cap',
    fst (join_loop st fuel absolute sj pos hso buf cap) =
    fst (join_loop st fuel absolute sj pos hso buf' cap').
Proof.
  induction fuel as [|fuel IH]; intros; cbn [join_loop];
    unfold output_separator;
    destruct (segment_will_be_removed st sj absolute);
    destruct hso; repeat step_output;
    destruct (get_next_segment_joined st sj) as [[] sj'];
    cbn [negb fst snd]; try reflexivity; apply IH.
Qed.

Lemma join_loop_untouched fuel absolute :
  forall sj pos hso buf cap,
    untouched_from cap buf
      (snd (join_loop st fuel absolute sj pos hso buf cap)).
Proof.
  induction fuel as [|fuel IH]; intros; cbn [join_loop];
    unfold output_separator;
    destruct (segment_will_be_removed st sj absolute);
    destruct hso; repeat step_output;
    destruct (get_next_segment_joined st sj) as [[] sj'];
    cbn [negb fst snd]; untouched_chain;
    try (eapply untouched_trans; [|apply IH]); untouched_chain.
Qed.

Lemma relative_back_loop_measures fuel absolute :
  forall sj pos ho buf buf' cap cap',
    fst (relative_back_loop st fuel sj absolute pos ho buf cap) =
    fst (relative_back_loop st fuel sj absolute pos ho buf' cap').
Proof.
  induction fuel as [|fuel IH]; intros; cbn [relative_back_loop];
    unfold output_back, output_separator;
    destruct (segment_joined_skip_invisible st sj absolute) as [[] sj1];
    cbn [negb]; try reflexivity; repeat step_output;
    destruct (get_next_segment_joined st sj1) as [[] sj'];
    cbn [negb fst snd]; try reflexivity; apply IH.
Qed.

Lemma relative_back_loop_untouched fuel absolute :
  forall sj pos ho buf cap,
    untouched_from cap buf
      (snd (relative_back_loop st fuel sj absolute pos ho buf cap)).
Proof.
  induction fuel as [|fuel IH]; intros; cbn [relative_back_loop];
    unfold output_back, output_separator;
    destruct (segment_joined_skip_invisible st sj absolute) as [[] sj1];
    cbn [negb snd]; try apply untouched_refl; repeat step_output;
    destruct (get_next_segment_joined st sj1) as [[] sj'];
    cbn [negb fst snd]; untouched_chain;
    try (eapply untouched_trans; [|apply IH]); untouched_chain.
Qed.

Lemma relative_other_loop_measures fuel absolute :
  forall sj pos ho buf buf' cap cap',
    fst (relative_other_loop st fuel sj absolute pos ho buf cap) =
    fst (relative_other_loop st fuel sj absolute pos ho buf' cap').
Proof.
  induction fuel as [|fuel IH]; intros; cbn [relative_other_loop];
    unfold output_separator;
    destruct (segment_joined_skip_invisible st sj absolute) as [[] sj1];
    cbn [negb]; try reflexivity; repeat step_output;
    destruct (get_next_segment_joined st sj1) as [[] sj'];
    cbn [negb fst snd]; try reflexivity; apply IH.
Qed.

Lemma relative_other_loop_untouched fuel absolute :
  forall sj pos ho buf cap,
    untouched_from cap buf
      (snd (relative_other_loop st fuel sj absolute pos ho buf cap)).
Proof.
  induction fuel as [|fuel IH]; intros; cbn [relative_other_loop];
    unfold output_separator;
    destruct (segment_joined_skip_invisible st sj absolute) as [[] sj1];
    cbn [negb snd]; try apply untouched_refl; repeat step_output;
    destruct (get_next_segment_joined st sj1) as [[] sj'];
    cbn [negb fst snd]; untouched_chain;
    try (eapply untouched_trans; [|apply IH]); untouched_chain.
Qed.

(** *** [join_and_normalize_multiple] and its callers *)

Lemma join_and_normalize_multiple_result ps buf cap :
  exists pos buf',
    join_and_normalize_multiple st ps buf cap
    = (pos, terminate_output buf' cap pos)
    /\ untouched_from cap buf buf'.
Proof.
  unfold join_and_normalize_multiple. step_output.
  destruct (get_first_segment_joined st ps) as [[] sj]; cbn [negb].
  - pose proof (join_loop_untouched (stream_fuel ps)
      (is_root_absolute st (nth 0 ps []) (get_root st (nth 0 ps [])))
      sj (get_root st (nth 0 ps [])) false b cap) as HU.
    destruct (join_loop st (stream_fuel ps) _ sj _ false b cap)
      as [[pos hso] b1].
    cbn [snd] in HU.
    destruct (negb hso && (pos =? 0)); unfold output_current;
      repeat step_output; do 2 eexists; (split; [reflexivity|]);
      untouched_chain.
  - do 2 eexists. split; [reflexivity|]. untouched_chain.
Qed.

Lemma join_and_normalize_multiple_measures ps :
  measures (join_and_normalize_multiple st ps).
Proof.
  intros buf buf' cap cap'. unfold join_and_normalize_multiple.
  repeat step_output.
  destruct (get_first_segment_joined st ps) as [[] sj]; cbn [negb];
    [|reflexivity].
  pose proof (join_loop_measures (stream_fuel ps)
    (is_root_absolute st (nth 0 ps []) (get_root st (nth 0 ps [])))
    sj (get_root st (nth 0 ps [])) false b b0 cap cap') as HM.
  destruct (join_loop st (stream_fuel ps) _ sj _ false b cap)
    as [[pos hso] b1].
  destruct (join_loop st (stream_fuel ps) _ sj _ false b0 cap')
    as [[pos' hso'] b1'].
  cbn [fst] in HM. inversion HM; subst.
  destruct (negb hso' && (pos' =? 0)); unfold output_current;
    repeat step_output; reflexivity.
Qed.

Lemma join_and_normalize_multiple_confined ps :
  confined (join_and_normalize_multiple st ps).
Proof.
  intros buf cap.
  destruct (join_and_normalize_multiple_result ps buf cap)
    as (pos & b' & E & U).
  rewrite E. cbn [snd]. untouched_chain.
Qed.

Lemma join_and_normalize_multiple_terminated ps :
  terminated (join_and_normalize_multiple st ps).
Proof.
  intros buf cap Hc.
  destruct (join_and_normalize_multiple_result ps buf cap)
    as (pos & b' & E & U).
  rewrite E. cbn [fst snd]. apply terminate_output_terminates, Hc.
Qed.

Lemma ends_terminated_safe op :
  ends_terminated op -> confined op /\ terminated op.
Proof.
  intros H. split; intros buf cap; [|intros Hc];
    destruct (H buf cap) as (pos & b' & E & U); rewrite E; cbn [fst snd].
  - untouched_chain.
  - apply terminate_output_terminates, Hc.
Qed.

Lemma get_relative_ends base p : ends_terminated (get_relative st base p).
Proof.
  intros buf cap. unfold get_relative.
  destruct (negb (get_root st base =? get_root st p)
            || negb (is_string_equal st base p (get_root st base))).
  { do 2 eexists. split; [reflexivity|apply untouched_refl]. }
  destruct (get_first_segment_joined st [base]) as [r1 bsj].
  destruct (get_first_segment_joined st [p]) as [r2 osj].
  destruct (skip_segments_until_diverge st bsj osj _)
    as [[[bsj' osj'] ba] oa].
  set (absolute := is_root_absolute st base (get_root st base)).
  assert (H1 : exists pos1 ho1 b1,
    (if ba then relative_back_loop st (stream_fuel (paths bsj')) bsj'
                  absolute 0 false buf cap
     else (0, false, buf)) = (pos1, ho1, b1)
    /\ untouched_from cap buf b1).
  { destruct ba.
    - pose proof (relative_back_loop_untouched
        (stream_fuel (paths bsj')) absolute bsj' 0 false buf cap) as HU.
      destruct (relative_back_loop st _ bsj' absolute 0 false buf cap)
        as [[pos1 ho1] b1].
      do 3 eexists. split; [reflexivity|exact HU].
    - do 3 eexists. split; [reflexivity|apply untouched_refl]. }
  destruct H1 as (pos1 & ho1 & b1 & E1 & U1). rewrite E1.
  assert (H2 : exists pos2 ho2 b2,
    (if oa then relative_other_loop st (stream_fuel (paths osj')) osj'
                  absolute pos1 ho1 b1 cap
     else (pos1, ho1, b1)) = (pos2, ho2, b2)
    /\ untouched_from cap b1 b2).
  { destruct oa.
    - pose proof (relative_other_loop_untouched
        (stream_fuel (paths osj')) absolute osj' pos1 ho1 b1 cap) as HU.
      destruct (relative_other_loop st _ osj' absolute pos1 ho1 b1 cap)
        as [[pos2 ho2] b2].
      do 3 eexists. split; [reflexivity|exact HU].
    - do 3 eexists. split; [reflexivity|apply untouched_refl]. }
  destruct H2 as (pos2 & ho2 & b2 & E2 & U2). rewrite E2.
  destruct ho2; unfold output_current; repeat step_output;
    do 2 eexists; (split; [reflexivity|]); untouched_chain.
Qed.

Lemma get_relative_measures base p : measures (get_relative st base p).
Proof.
  intros buf buf' cap cap'. unfold get_relative.
  destruct (negb (get_root st base =? get_root st p)
            || negb (is_string_equal st base p (get_root st base)));
    [reflexivity|].
  destruct (get_first_segment_joined st [base]) as [r1 bsj].
  destruct (get_first_segment_joined st [p]) as [r2 osj].
  destruct (skip_segments_until_diverge st bsj osj _)
    as [[[bsj' osj'] ba] oa].
  set (absolute := is_root_absolute st base (get_root st base)).
  assert (H1 :
    fst (if ba then relative_back_loop st (stream_fuel (paths bsj')) bsj'
                      absolute 0 false buf cap
         else (0, false, buf)) =
    fst (if ba then relative_back_loop st (stream_fuel (paths bsj')) bsj'
                      absolute 0 false buf' cap'
         else (0, false, buf'))).
  { destruct ba; [apply relative_back_loop_measures|reflexivity]. }
  destruct (if ba then relative_back_loop st _ bsj' absolute 0 false buf cap
            else (0, false, buf)) as [[pos1 ho1] b1].
  destruct (if ba then relative_back_loop st _ bsj' absolute 0 false buf'
                         cap'
            else (0, false, buf')) as [[pos1' ho1'] b1'].
  cbn [fst] in H1. inversion H1; subst.
  assert (H2 :
    fst (if oa then relative_other_loop st (stream_fuel (paths osj')) osj'
                      absolute pos1' ho1' b1 cap
         else (pos1', ho1', b1)) =
    fst (if oa then relative_other_loop st (stream_fuel (paths osj')) osj'
                      absolute pos1' ho1' b1' cap'
         else (pos1', ho1', b1'))).
  { destruct oa; [apply relative_other_loop_measures|reflexivity]. }
  destruct (if oa then relative_other_loop st _ osj' absolute pos1' ho1' b1
                         cap
            else (pos1', ho1', b1)) as [[pos2 ho2] b2].
  destruct (if oa then relative_other_loop st _ osj' absolute pos1' ho1' b1'
                         cap'
            else (pos1', ho1', b1')) as [[pos2' ho2'] b2'].
  cbn [fst] in H2. inversion H2; subst.
  destruct ho2'; unfold output_current; repeat step_output; reflexivity.
Qed.

(** *** The change operations *)

Lemma change_root_ends p new_root :
  ends_terminated (change_root st p new_root).
Proof.
  intros buf cap. unfold change_root. repeat step_output.
  do 2 eexists. split; [reflexivity|]. untouched_chain.
Qed.


Lemma change_segment_ends seg value :
  ends_terminated (change_segment st seg value).
Proof.
  intros buf cap. unfold change_segment. repeat step_output.
  do 2 eexists. split; [reflexivity|]. untouched_chain.
Qed.

Lemma change_segment_measures seg value :
  measures (change_segment st seg value).
Proof.
  intros buf buf' cap cap'. unfold change_segment. repeat step_output.
  reflexivity.
Qed.

Lemma change_basename_ends p new_basename :
  ends_terminated (change_basename st p new_basename).
Proof.
  intros buf cap. unfold change_basename.
  destruct (get_last_segment st p) as [[] seg]; cbn [negb].
  - apply change_segment_ends.
  - repeat step_output. do 2 eexists. split; [reflexivity|].
    untouched_chain.
Qed.

Lemma change_basename_measures p new_basename :
  measures (change_basename st p new_basename).
Proof.
  intros buf buf' cap cap'. unfold change_basename.
  destruct (get_last_segment st p) as [[] seg]; cbn [negb].
  - apply change_segment_measures.
  - repeat step_output. reflexivity.
Qed.

Lemma change_extension_ends p new_extension :
  ends_terminated (change_extension st p new_extension).
Proof.
  intros buf cap. unfold change_extension, output, output_dot.
  destruct (get_last_segment st p) as [[] seg]; cbn [negb].
  - repeat step_output. do 2 eexists. split; [reflexivity|].
    untouched_chain.
  - step_output.
    destruct (negb (Ascii.eqb (deref new_extension 0) "."));
      repeat step_output; do 2 eexists; (split; [reflexivity|]);
      untouched_chain.
Qed.

Lemma change_extension_measures p new_extension :
  measures (change_extension st p new_extension).
Proof.
  intros buf buf' cap cap'. unfold change_extension, output, output_dot.
  destruct (get_last_segment st p) as [[] seg]; cbn [negb].
  - repeat step_output. reflexivity.
  - repeat step_output.
    destruct (negb (Ascii.eqb (deref new_extension 0) "."));
      repeat step_output; reflexivity.
Qed.

End BufferProtocol.

Lemma every_operation_intro (st : cwk_path_style)
  (P : (buffer -> nat -> nat * buffer) -> Prop) :
  (forall ps, P (join_and_normalize_multiple st ps)) ->
  (forall base p, P (get_relative st base p)) ->
  (forall p r, P (change_root st p r)) ->
  (forall p n, P (change_basename st p n)) ->
  (forall p e, P (change_extension st p e)) ->
  (forall seg v, P (change_segment st seg v)) ->
  every_operation st P.
Proof.
  intros Hj Hrel Hroot Hbase Hext Hseg.
  unfold every_operation, join, join_multiple, normalize, get_absolute.
  repeat split; auto.
Qed.



Lemma ends_terminated_terminated op : ends_terminated op -> terminated op.
Proof. intros H. apply ends_terminated_safe, H. Qed.

Lemma join_and_normalize_multiple_ends st ps :
  ends_terminated (join_and_normalize_multiple st ps).
Proof. intros buf cap. apply join_and_normalize_multiple_result. Qed.

Lemma every_operation_ends (st : cwk_path_style) :
  every_operation st ends_terminated.
Proof.
  apply every_operation_intro; intros.
  - apply join_and_normalize_multiple_ends.
  - apply get_relative_ends.
  - apply change_root_ends.
  - apply change_basename_ends.
  - apply change_extension_ends.
  - apply change_segment_ends.
Qed.



Lemma every_operation_impl (st : cwk_path_style)
  (P Q : (buffer -> nat -> nat * buffer) -> Prop) :
  (forall op, P op -> Q op) ->
  every_operation st P -> every_operation st Q.
Proof.
  unfold every_operation. intros HPQ HP.
  repeat match goal with
  | H : _ /\ _ |- _ => destruct H
  end.
  repeat split; intros; apply HPQ; auto.
Qed.


(** C7.  Called with a capacity above zero, no buffer-producing
    operation changes a byte at an index at or above the capacity, and
    on return the buffer holds the terminator at index
    [min(returned length, capacity - 1)]; a truncated result therefore
    ends with the terminator at the last writable position. *)
Theorem truncation_safety (st : cwk_path_style) (cap : nat) :
  0 < cap ->
  every_operation st (fun op =>
    forall buf,
      untouched_from cap buf (snd (op buf cap))
      /\ snd (op buf cap) (Nat.min (fst (op buf cap)) (cap - 1)) = NUL
      /\ (cap <= fst (op buf cap) -> snd (op buf cap) (cap - 1) = NUL)).
Proof.
  intros Hc.
  assert (G : forall op, confined op /\ terminated op ->
    forall buf,
      untouched_from cap buf (snd (op buf cap))
      /\ snd (op buf cap) (Nat.min (fst (op buf cap)) (cap - 1)) = NUL
      /\ (cap <= fst (op buf cap) -> snd (op buf cap) (cap - 1) = NUL)).
  { intros op [H1 H2] buf. split; [apply H1|]. split; [apply H2, Hc|].
    intros Hle. specialize (H2 buf cap Hc).
    replace (Nat.min (fst (op buf cap)) (cap - 1)) with (cap - 1) in H2
      by lia.
    exact H2. }
  apply (every_operation_impl st ends_terminated); [|apply every_operation_ends].
  intros op H. apply G. apply ends_terminated_safe, H.
Qed.

Lemma truncation_safety_witness :
  0 < 3 /\
  every_operation CWK_STYLE_UNIX (fun op =>
    forall buf,
      untouched_from 3 buf (snd (op buf 3))
      /\ snd (op buf 3) (Nat.min (fst (op buf 3)) (3 - 1)) = NUL
      /\ (3 <= fst (op buf 3) -> snd (op buf 3) (3 - 1) = NUL)).
Proof.
  split; [lia|apply (truncation_safety CWK_STYLE_UNIX 3); lia].
Defined.

(** ** Scanning a string *)

Lemma skipn_cons_inv (s : list ascii) c x l :
  skipn c s = x :: l -> deref s c = x /\ skipn (S c) s = l.
Proof.
  revert c. induction s as [|y s IH]; intros c H.
  - destruct c; discriminate.
  - destruct c as [|c].
    + cbn in H. inversion H; subst. split; reflexivity.
    + cbn [skipn] in H. apply IH in H. exact H.
Qed.

Lemma skipn_nil_inv (s : list ascii) c :
  skipn c s = [] -> deref s c = NUL.
Proof.
  revert c. induction s as [|y s IH]; intros c H.
  - destruct c; reflexivity.
  - destruct c as [|c]; [discriminate|]. cbn [skipn] in H.
    apply IH in H. exact H.
Qed.

Lemma regular_true st ch :
  regular st ch = true <-> is_nul ch = false /\ is_separator st ch = false.
Proof.
  unfold regular. rewrite andb_true_iff, !negb_true_iff. tauto.
Qed.

Lemma separator_not_regular st ch :
  is_separator st ch = true -> regular st ch = false.
Proof. intros H. unfold regular. rewrite H, andb_false_r. reflexivity. Qed.

Lemma nul_not_regular st ch : is_nul ch = true -> regular st ch = false.
Proof. intros H. unfold regular. rewrite H. reflexivity. Qed.

Lemma is_nul_true ch : is_nul ch = true <-> ch = NUL.
Proof. unfold is_nul. apply Ascii.eqb_eq. Qed.

Lemma find_next_stop_from_spec st s :
  forall l c, skipn c s = l ->
    let e := find_next_stop_from st l c in
    c <= e /\ regs st s c e /\ regular st (deref s e) = false.
Proof.
  induction l as [|x l IH]; intros c Hl; cbn [find_next_stop_from].
  - apply skipn_nil_inv in Hl. cbv zeta. split; [lia|]. split.
    + intros i Hi. lia.
    + apply nul_not_regular, is_nul_true, Hl.
  - apply skipn_cons_inv in Hl. destruct Hl as [Hx Hl].
    fold (regular st x). destruct (regular st x) eqn:Ex.
    + specialize (IH (S c) Hl). cbv zeta in IH |- *.
      destruct IH as (Hle & Hregs & Hstop).
      split; [lia|]. split; [|exact Hstop].
      intros i Hi. destruct (Nat.eq_dec i c) as [->|Hne].
      * rewrite Hx. exact Ex.
      * apply Hregs. lia.
    + cbv zeta. split; [lia|]. split.
      * intros i Hi. lia.
      * rewrite Hx. exact Ex.
Qed.

Lemma find_next_stop_spec st s c :
  c <= find_next_stop st s c
  /\ regs st s c (find_next_stop st s c)
  /\ regular st (deref s (find_next_stop st s c)) = false.
Proof. apply (find_next_stop_from_spec st s (skipn c s) c eq_refl). Qed.

(** A run of segment bytes followed by a stop is what
    [find_next_stop] passes. *)
Lemma find_next_stop_unique st s c e :
  c <= e -> regs st s c e -> regular st (deref s e) = false ->
  find_next_stop st s c = e.
Proof.
  intros Hle Hregs Hstop.
  destruct (find_next_stop_spec st s c) as (Hle' & Hregs' & Hstop').
  destruct (Nat.lt_trichotomy (find_next_stop st s c) e) as [H|[H|H]].
  - rewrite Hregs in Hstop' by lia. discriminate.
  - exact H.
  - rewrite Hregs' in Hstop by lia. discriminate.
Qed.

Lemma skip_separators_from_spec st s :
  forall l c, skipn c s = l ->
    let c' := skip_separators_from st l c in
    c <= c' /\ seps st s c c' /\ is_separator st (deref s c') = false.
Proof.
  induction l as [|x l IH]; intros c Hl; cbn [skip_separators_from].
  - apply skipn_nil_inv in Hl. cbv zeta. split; [lia|]. split.
    + intros i Hi. lia.
    + rewrite Hl. apply is_separator_NUL.
  - apply skipn_cons_inv in Hl. destruct Hl as [Hx Hl].
    destruct (is_separator st x) eqn:Ex.
    + specialize (IH (S c) Hl). cbv zeta in IH |- *.
      destruct IH as (Hle & Hseps & Hstop).
      split; [lia|]. split; [|exact Hstop].
      intros i Hi. destruct (Nat.eq_dec i c) as [->|Hne].
      * rewrite Hx. exact Ex.
      * apply Hseps. lia.
    + cbv zeta. split; [lia|]. split.
      * intros i Hi. lia.
      * rewrite Hx. exact Ex.
Qed.

Lemma skip_separators_spec st s c :
  c <= skip_separators st s c
  /\ seps st s c (skip_separators st s c)
  /\ is_separator st (deref s (skip_separators st s c)) = false.
Proof. apply (skip_separators_from_spec st s (skipn c s) c eq_refl). Qed.

Lemma skip_separators_unique st s c c' :
  c <= c' -> seps st s c c' -> is_separator st (deref s c') = false ->
  skip_separators st s c = c'.
Proof.
  intros Hle Hseps Hstop.
  destruct (skip_separators_spec st s c) as (Hle' & Hseps' & Hstop').
  destruct (Nat.lt_trichotomy (skip_separators st s c) c') as [H|[H|H]].
  - rewrite Hseps in Hstop' by lia. discriminate.
  - exact H.
  - rewrite Hseps' in Hstop by lia. discriminate.
Qed.

(** The loop of [get_first_segment_without_root] is [skip_separators]
    with the terminator test folded in. *)
Lemma skip_leading_from_spec st s :
  forall l c, skipn c s = l -> is_nul (deref s c) = false ->
    skip_leading_from st l c =
    if is_nul (deref s (skip_separators_from st l c)) then None
    else Some (skip_separators_from st l c).
Proof.
  induction l as [|x l IH]; intros c Hl Hc;
    cbn [skip_leading_from skip_separators_from].
  - rewrite Hc. reflexivity.
  - apply skipn_cons_inv in Hl. destruct Hl as [Hx Hl].
    destruct (is_separator st x) eqn:Ex.
    + assert (Hhd : hd NUL l = deref s (S c)).
      { destruct l as [|y l'].
        - apply skipn_nil_inv in Hl. rewrite Hl. reflexivity.
        - apply skipn_cons_inv in Hl. destruct Hl as [Hy _].
          rewrite Hy. reflexivity. }
      rewrite Hhd. destruct (is_nul (deref s (S c))) eqn:En.
      * destruct l as [|y l'].
        -- cbn [skip_separators_from]. rewrite En. reflexivity.
        -- apply skipn_cons_inv in Hl. destruct Hl as [Hy _].
           cbn [skip_separators_from].
           assert (Hs : is_separator st y = false).
           { rewrite <- Hy. pose proof En as En'. apply is_nul_true in En'.
             rewrite En'. apply is_separator_NUL. }
           rewrite Hs, En. reflexivity.
      * apply IH; assumption.
    + rewrite Hc. reflexivity.
Qed.

Lemma back_over_separators_none st s segs :
  forall c, seps st s segs c -> back_over_separators st s segs c = None.
Proof.
  induction c as [|c IH]; intros H; cbn [back_over_separators];
    [reflexivity|].
  destruct (Nat.ltb_spec c segs); [reflexivity|].
  rewrite H by lia. apply IH. intros i Hi. apply H. lia.
Qed.

Lemma back_over_separators_some st s segs e :
  forall c, segs <= e -> e < c ->
    is_separator st (deref s e) = false -> seps st s (S e) c ->
    back_over_separators st s segs c = Some e.
Proof.
  induction c as [|c IH]; intros Hse Hec He H; [lia|].
  cbn [back_over_separators].
  destruct (Nat.ltb_spec c segs); [lia|].
  destruct (Nat.eq_dec c e) as [->|Hne].
  - rewrite He. reflexivity.
  - rewrite H by lia. apply IH; try assumption; try lia.
    intros i Hi. apply H. lia.
Qed.

Lemma find_previous_stop_loop_stays st s b c :
  c <= b \/ is_separator st (deref s c) = true ->
  find_previous_stop_loop st s b c = c.
Proof.
  intros H. destruct c as [|c]; [reflexivity|].
  cbn [find_previous_stop_loop].
  destruct H as [H|H].
  - destruct (Nat.ltb_spec b (S c)); [lia|]. reflexivity.
  - rewrite H, andb_false_r. reflexivity.
Qed.

Lemma find_previous_stop_loop_spec st s segs b0 :
  forall c, segs <= b0 -> b0 <= c ->
    (forall i, b0 <= i <= c -> is_separator st (deref s i) = false) ->
    (b0 = segs \/ is_separator st (deref s (b0 - 1)) = true) ->
    find_previous_stop_loop st s segs c = if b0 =? segs then segs else b0 - 1.
Proof.
  induction c as [|c IH]; intros Hs Hc Hreg Hb.
  - assert (b0 = 0) by lia. assert (segs = 0) by lia. subst. reflexivity.
  - cbn [find_previous_stop_loop].
    rewrite (Hreg (S c)) by lia. cbn [negb]. rewrite andb_true_r.
    destruct (Nat.ltb_spec segs (S c)).
    + destruct (Nat.eq_dec b0 (S c)) as [E|Hne].
      * destruct (Nat.eqb_spec b0 segs); [lia|].
        destruct Hb as [Hb|Hb]; [lia|].
        subst b0. cbn [Nat.sub] in Hb |- *. rewrite Nat.sub_0_r in *.
        apply find_previous_stop_loop_stays. right. exact Hb.
      * apply IH; try assumption; try lia.
        intros i Hi. apply Hreg. lia.
    + assert (b0 = segs) by lia. subst b0. rewrite Nat.eqb_refl. lia.
Qed.

Lemma find_previous_stop_spec st s segs b0 c :
  segs <= b0 -> b0 <= c ->
  (forall i, b0 <= i <= c -> is_separator st (deref s i) = false) ->
  (b0 = segs \/ is_separator st (deref s (b0 - 1)) = true) ->
  find_previous_stop st s segs c = b0.
Proof.
  intros Hs Hc Hreg Hb. unfold find_previous_stop.
  rewrite (find_previous_stop_loop_spec st s segs b0 c Hs Hc Hreg Hb).
  destruct (Nat.eqb_spec b0 segs) as [E|Hne].
  - subst. rewrite (Hreg segs) by lia. reflexivity.
  - destruct Hb as [Hb|Hb]; [contradiction|]. rewrite Hb. lia.
Qed.

(** ** The segments the iterator delivers *)

Lemma regular_not_separator st ch :
  regular st ch = true -> is_separator st ch = false.
Proof. intros H. apply regular_true in H. tauto. Qed.

Lemma regular_not_nul st ch : regular st ch = true -> is_nul ch = false.
Proof. intros H. apply regular_true in H. tauto. Qed.

Lemma not_regular_not_nul_separator st ch :
  regular st ch = false -> is_nul ch = false -> is_separator st ch = true.
Proof.
  unfold regular. intros H Hn. rewrite Hn in H. cbn in H.
  destruct (is_separator st ch); [reflexivity|discriminate].
Qed.

Lemma seps_last st s a b :
  a < b -> seps st s a b -> is_separator st (deref s (b - 1)) = true.
Proof. intros Hab H. apply H. lia. Qed.

Lemma get_first_segment_without_root_true st p segs seg :
  get_first_segment_without_root st p segs = (true, seg) ->
  segment_ok st seg /\ path seg = p /\ segments seg = segs
  /\ seps st p segs (begin seg).
Proof.
  unfold get_first_segment_without_root.
  destruct (is_nul (deref p segs)) eqn:En; [discriminate|].
  rewrite (skip_leading_from_spec st p (skipn segs p) segs eq_refl En).
  fold (skip_separators st p segs).
  destruct (skip_separators_spec st p segs) as (Hle & Hseps & Hns).
  set (b := skip_separators st p segs) in *.
  destruct (is_nul (deref p b)) eqn:Enb; [discriminate|].
  destruct (find_next_stop_spec st p b) as (Hle' & Hregs & Hstop).
  set (e := find_next_stop st p b) in *.
  intros H. inversion H; subst seg; clear H.
  unfold segment_ok. cbn [path segments begin end_ size].
  assert (Hbe : b < e).
  { destruct (Nat.eq_dec b e) as [E|]; [|lia].
    rewrite <- E in Hstop. unfold regular in Hstop.
    rewrite Enb, Hns in Hstop. discriminate. }
  repeat split; try assumption; try reflexivity.
  destruct (Nat.eq_dec b segs) as [E|Hne]; [left; exact E|right].
  apply (seps_last st p segs b); [lia|exact Hseps].
Qed.

Lemma get_first_segment_without_root_false st p segs seg :
  get_first_segment_without_root st p segs = (false, seg) ->
  seg = mk_segment p segs segs segs 0.
Proof.
  unfold get_first_segment_without_root.
  destruct (is_nul (deref p segs)); [intros H; inversion H; reflexivity|].
  destruct (skip_leading_from st (skipn segs p) segs);
    intros H; inversion H; reflexivity.
Qed.

Lemma get_next_segment_true st seg seg' :
  segment_ok st seg ->
  get_next_segment st seg = (true, seg') ->
  segment_ok st seg' /\ path seg' = path seg /\ segments seg' = segments seg
  /\ end_ seg < begin seg'
  /\ seps st (path seg) (end_ seg) (begin seg').
Proof.
  intros (Hsb & Hbe & Hsz & Hregs & Hstop & Hleft).
  unfold get_next_segment.
  replace (begin seg + size seg) with (end_ seg) by lia.
  destruct (is_nul (deref (path seg) (end_ seg))) eqn:En; [discriminate|].
  destruct (skip_separators_spec st (path seg) (S (end_ seg)))
    as (Hle & Hseps & Hns).
  set (c := skip_separators st (path seg) (S (end_ seg))) in *.
  destruct (is_nul (deref (path seg) c)) eqn:Enc; [discriminate|].
  destruct (find_next_stop_spec st (path seg) c) as (Hle' & Hregs' & Hstop').
  set (e := find_next_stop st (path seg) c) in *.
  intros H. inversion H; subst seg'; clear H.
  unfold segment_ok. cbn [path segments begin end_ size].
  assert (Hce : c < e).
  { destruct (Nat.eq_dec c e) as [E|]; [|lia].
    rewrite <- E in Hstop'. unfold regular in Hstop'.
    rewrite Enc, Hns in Hstop'. discriminate. }
  assert (Hseps' : seps st (path seg) (end_ seg) c).
  { intros i Hi. destruct (Nat.eq_dec i (end_ seg)) as [->|Hne].
    - apply not_regular_not_nul_separator; assumption.
    - apply Hseps. lia. }
  repeat split; try assumption; try reflexivity; try lia.
  right. apply (seps_last st (path seg) (end_ seg) c); [lia|exact Hseps'].
Qed.

Lemma get_next_segment_false st seg seg' :
  get_next_segment st seg = (false, seg') -> seg' = seg.
Proof.
  unfold get_next_segment.
  destruct (is_nul (deref (path seg) (begin seg + size seg)));
    [intros H; inversion H; reflexivity|].
  destruct (is_nul (deref (path seg) _));
    intros H; inversion H; reflexivity.
Qed.

Lemma segment_eta seg :
  seg = mk_segment (path seg) (segments seg) (begin seg) (end_ seg) (size seg).
Proof. destruct seg; reflexivity. Qed.

(** Stepping back over the separators before [seg'] lands on the segment
    that ends there. *)
Lemma get_previous_segment_of_next st seg seg' :
  segment_ok st seg -> path seg' = path seg -> segments seg' = segments seg ->
  end_ seg < begin seg' ->
  seps st (path seg) (end_ seg) (begin seg') ->
  get_previous_segment st seg' = (true, seg).
Proof.
  intros (Hsb & Hbe & Hsz & Hregs & Hstop & Hleft) Hp Hs Hlt Hseps.
  unfold get_previous_segment. rewrite Hp, Hs.
  destruct (Nat.leb_spec (begin seg') (segments seg)); [lia|].
  rewrite (back_over_separators_some st (path seg) (segments seg)
             (end_ seg - 1)); try lia.
  - rewrite (find_previous_stop_spec st (path seg) (segments seg)
               (begin seg)); try lia; try assumption.
    + f_equal. rewrite (segment_eta seg).
      cbn [path segments begin end_ size]. f_equal; lia.
    + intros i Hi. apply regular_not_separator, Hregs. lia.
  - apply regular_not_separator, Hregs. lia.
  - intros i Hi. apply Hseps. lia.
Qed.

Lemma get_previous_segment_first st seg :
  seps st (path seg) (segments seg) (begin seg) ->
  get_previous_segment st seg = (false, seg).
Proof.
  intros Hseps. unfold get_previous_segment.
  destruct (begin seg <=? segments seg); [reflexivity|].
  rewrite back_over_separators_none by exact Hseps. reflexivity.
Qed.

Lemma iterated_ok st p seg : iterated st p seg -> segment_ok st seg.
Proof.
  induction 1 as [seg H|seg seg' _ IH H].
  - unfold get_first_segment in H.
    apply get_first_segment_without_root_true in H. tauto.
  - apply (get_next_segment_true st seg seg' IH) in H. tauto.
Qed.

(** C9.  On every path of every style, if [get_next_segment] takes a
    segment the iterator reached to a next segment, then
    [get_previous_segment] on that next segment succeeds and gives back
    the original segment, field by field; and [get_previous_segment] on
    the first segment returns false and leaves it as it is. *)
Theorem segment_iterator_round_trip (st : cwk_path_style) (p : list ascii) :
  (forall seg seg',
     iterated st p seg -> get_next_segment st seg = (true, seg') ->
     get_previous_segment st seg' = (true, seg))
  /\ (forall seg,
        get_first_segment st p = (true, seg) ->
        get_previous_segment st seg = (false, seg)).
Proof.
  split.
  - intros seg seg' Hit Hnext.
    pose proof (iterated_ok st p seg Hit) as Hok.
    destruct (get_next_segment_true st seg seg' Hok Hnext)
      as (_ & Hp & Hs & Hlt & Hseps).
    apply get_previous_segment_of_next; assumption.
  - intros seg H. unfold get_first_segment in H.
    apply get_first_segment_without_root_true in H.
    destruct H as (_ & Hp & Hs & Hseps).
    apply get_previous_segment_first. rewrite Hp, Hs. exact Hseps.
Qed.

Arguments skip_separators : simpl never.
Arguments find_next_stop : simpl never.
Arguments find_previous_stop : simpl never.
Arguments get_root : simpl never.

(** ** The root lies within the string *)

Lemma no_nul_before_regs st s a b :
  no_nul_before s a -> regs st s a b -> no_nul_before s b.
Proof.
  intros Ha Hr i Hi. destruct (Nat.lt_ge_cases i a) as [H|H]; [auto|].
  apply (regular_not_nul st), Hr. lia.
Qed.

Lemma no_nul_before_seps st s a b :
  no_nul_before s a -> seps st s a b -> no_nul_before s b.
Proof.
  intros Ha Hr i Hi. destruct (Nat.lt_ge_cases i a) as [H|H]; [auto|].
  apply (is_separator_not_nul st), Hr. lia.
Qed.

Lemma no_nul_before_S s a :
  no_nul_before s a -> is_nul (deref s a) = false -> no_nul_before s (S a).
Proof.
  intros Ha Hn i Hi. destruct (Nat.eq_dec i a) as [->|]; [exact Hn|].
  apply Ha. lia.
Qed.

Lemma unc_tail_within st p c :
  no_nul_before p c -> no_nul_before p (unc_tail st p c).
Proof.
  intros H. unfold unc_tail.
  destruct (find_next_stop_spec st p c) as (_ & R1 & _).
  set (c1 := find_next_stop st p c) in *.
  destruct (skip_separators_spec st p c1) as (_ & R2 & _).
  set (c2 := skip_separators st p c1) in *.
  destruct (find_next_stop_spec st p c2) as (_ & R3 & _).
  set (c3 := find_next_stop st p c2) in *.
  assert (H3 : no_nul_before p c3).
  { eapply no_nul_before_regs; [|exact R3].
    eapply no_nul_before_seps; [|exact R2].
    eapply no_nul_before_regs; [|exact R1]. exact H. }
  destruct (is_separator st (deref p c3)) eqn:E; [|exact H3].
  apply no_nul_before_S; [exact H3|].
  apply (is_separator_not_nul st), E.
Qed.

Lemma get_root_windows_unfold st p :
  get_root_windows st p =
  if is_nul (deref p 0) then 0
  else if is_separator st (deref p 0) then
    if negb (is_separator st (deref p 1)) then 1
    else if Ascii.eqb (deref p 2) "?" || Ascii.eqb (deref p 2) "." then
      if is_separator st (deref p 3) then 4 else unc_tail st p 3
    else unc_tail st p 2
  else if Ascii.eqb (deref p 1) ":" then
    if is_separator st (deref p 2) then 3 else 2
  else 0.
Proof.
  unfold get_root_windows, unc_tail.
  destruct (is_nul (deref p 0)); [reflexivity|].
  destruct (is_separator st (deref p 0)); [|reflexivity].
  destruct (negb (is_separator st (deref p 1))); [reflexivity|].
  destruct (Ascii.eqb (deref p 2) "?" || Ascii.eqb (deref p 2) ".");
    cbn [andb]; [|reflexivity].
  destruct (is_separator st (deref p 3)); reflexivity.
Qed.

Lemma get_root_windows_within st p :
  no_nul_before p (get_root_windows st p).
Proof.
  rewrite get_root_windows_unfold.
  destruct (is_nul (deref p 0)) eqn:E0; [intros i Hi; lia|].
  assert (H1 : no_nul_before p 1).
  { intros i Hi. replace i with 0 by lia. exact E0. }
  destruct (is_separator st (deref p 0)) eqn:S0.
  - destruct (is_separator st (deref p 1)) eqn:S1; cbn [negb];
      [|exact H1].
    assert (H2 : no_nul_before p 2).
    { apply no_nul_before_S; [exact H1|].
      apply (is_separator_not_nul st), S1. }
    destruct (Ascii.eqb (deref p 2) "?" || Ascii.eqb (deref p 2) ".")
      eqn:M; [|apply unc_tail_within, H2].
    assert (H3 : no_nul_before p 3).
    { apply no_nul_before_S; [exact H2|].
      apply orb_true_iff in M. destruct M as [M|M];
        apply Ascii.eqb_eq in M; rewrite M; reflexivity. }
    destruct (is_separator st (deref p 3)) eqn:S3;
      [|apply unc_tail_within, H3].
    apply no_nul_before_S; [exact H3|].
    apply (is_separator_not_nul st), S3.
  - destruct (Ascii.eqb (deref p 1) ":") eqn:C1; [|intros i Hi; lia].
    assert (H2 : no_nul_before p 2).
    { apply no_nul_before_S; [exact H1|].
      apply Ascii.eqb_eq in C1. rewrite C1. reflexivity. }
    destruct (is_separator st (deref p 2)) eqn:S2; [|exact H2].
    apply no_nul_before_S; [exact H2|].
    apply (is_separator_not_nul st), S2.
Qed.

Lemma get_root_within st p : no_nul_before p (get_root st p).
Proof.
  unfold get_root. destruct st.
  - apply get_root_windows_within.
  - unfold get_root_unix.
    destruct (is_separator CWK_STYLE_UNIX (deref p 0)) eqn:E;
      intros i Hi; [|lia].
    replace i with 0 by lia. apply (is_separator_not_nul _ _ E).
Qed.

(** ** Stepping back from any segment *)

Lemma back_over_separators_inv st s segs :
  forall c e, back_over_separators st s segs c = Some e ->
    segs <= e /\ e < c /\ is_separator st (deref s e) = false
    /\ seps st s (S e) c.
Proof.
  induction c as [|c IH]; intros e H; cbn [back_over_separators] in H;
    [discriminate|].
  destruct (Nat.ltb_spec c segs); [discriminate|].
  destruct (is_separator st (deref s c)) eqn:E.
  - apply IH in H. destruct H as (H1 & H2 & H3 & H4).
    repeat split; try assumption; try lia.
    intros i Hi. destruct (Nat.eq_dec i c) as [->|]; [exact E|].
    apply H4. lia.
  - inversion H; subst e. repeat split; try assumption; try lia.
    intros i Hi. lia.
Qed.

Lemma find_previous_stop_loop_inv st s segs :
  forall c,
    let r := find_previous_stop_loop st s segs c in
    r <= c
    /\ (forall i, r < i <= c -> is_separator st (deref s i) = false)
    /\ (r <= segs \/ is_separator st (deref s r) = true)
    /\ (segs <= c -> segs <= r).
Proof.
  induction c as [|c IH]; cbn [find_previous_stop_loop]; cbv zeta.
  - split; [lia|]. split; [intros i Hi; lia|]. split; [left; lia|lia].
  - destruct (Nat.ltb_spec segs (S c)) as [Hlt|Hge]; cbn [andb].
    + destruct (is_separator st (deref s (S c))) eqn:E; cbn [negb].
      * split; [lia|]. split; [intros i Hi; lia|].
        split; [right; exact E|lia].
      * cbv zeta in IH. destruct IH as (H1 & H2 & H3 & H4).
        split; [lia|]. split; [|split; [exact H3|lia]].
        intros i Hi. destruct (Nat.eq_dec i (S c)) as [->|]; [exact E|].
        apply H2. lia.
    + split; [lia|]. split; [intros i Hi; lia|]. split; [left; lia|lia].
Qed.

Lemma find_previous_stop_inv st s segs c :
  segs <= c -> is_separator st (deref s c) = false ->
  segs <= find_previous_stop st s segs c
  /\ find_previous_stop st s segs c <= c
  /\ (forall i, find_previous_stop st s segs c <= i <= c ->
        is_separator st (deref s i) = false)
  /\ (find_previous_stop st s segs c = segs
      \/ is_separator st (deref s (find_previous_stop st s segs c - 1))
         = true).
Proof.
  intros Hsc Hc. unfold find_previous_stop.
  destruct (find_previous_stop_loop_inv st s segs c) as (H1 & H2 & H3 & H4).
  set (r := find_previous_stop_loop st s segs c) in *.
  specialize (H4 Hsc).
  destruct (is_separator st (deref s r)) eqn:E.
  - assert (r <> c) by (intros Heq; rewrite Heq in E; congruence).
    split; [lia|]. split; [lia|]. split.
    + intros i Hi. apply H2. lia.
    + right. replace (r + 1 - 1) with r by lia. exact E.
  - destruct H3 as [H3|H3]; [|discriminate].
    assert (r = segs) by lia.
    split; [lia|]. split; [lia|]. split.
    + intros i Hi. destruct (Nat.eq_dec i r) as [->|]; [exact E|].
      apply H2. lia.
    + left. assumption.
Qed.

Lemma get_previous_segment_true st seg seg' :
  segment_ok st seg -> within seg ->
  get_previous_segment st seg = (true, seg') ->
  segment_ok st seg' /\ within seg' /\ path seg' = path seg
  /\ segments seg' = segments seg /\ begin seg' < begin seg.
Proof.
  intros (Hsb & Hbe & Hsz & Hregs & Hstop & Hleft) Hin.
  unfold get_previous_segment.
  destruct (Nat.leb_spec (begin seg) (segments seg)); [discriminate|].
  destruct (back_over_separators st (path seg) (segments seg) (begin seg))
    as [c|] eqn:Eb; [|discriminate].
  apply back_over_separators_inv in Eb. destruct Eb as (B1 & B2 & B3 & B4).
  destruct (find_previous_stop_inv st (path seg) (segments seg) c B1 B3)
    as (F1 & F2 & F3 & F4).
  set (b := find_previous_stop st (path seg) (segments seg) c) in *.
  intros H'. inversion H'; subst seg'; clear H'.
  unfold segment_ok, within. cbn [path segments begin end_ size].
  destruct Hleft as [Hleft|Hleft]; [lia|].
  assert (c + 1 < begin seg).
  { destruct (Nat.eq_dec (c + 1) (begin seg)) as [E|]; [|lia].
    replace (begin seg - 1) with c in Hleft by lia. congruence. }
  repeat split; try assumption; try reflexivity; try lia.
  - intros i Hi. apply regular_true. split.
    + apply Hin. lia.
    + apply F3. lia.
  - apply separator_not_regular. apply B4. lia.
  - intros i Hi. apply Hin. lia.
Qed.

Lemma get_previous_segment_false st seg seg' :
  get_previous_segment st seg = (false, seg') -> seg' = seg.
Proof.
  unfold get_previous_segment.
  destruct (begin seg <=? segments seg);
    [intros H; inversion H; reflexivity|].
  destruct (back_over_separators st (path seg) (segments seg) (begin seg));
    intros H; inversion H; reflexivity.
Qed.

(** ** Segments stay within their string *)

Lemma get_first_segment_without_root_within st p segs seg :
  no_nul_before p segs ->
  get_first_segment_without_root st p segs = (true, seg) ->
  within seg.
Proof.
  intros Hroot H. apply get_first_segment_without_root_true in H.
  destruct H as ((_ & _ & _ & Hregs & _) & Hp & Hs & Hseps).
  unfold within. rewrite Hp in *.
  apply (no_nul_before_regs st p (begin seg)); [|exact Hregs].
  apply (no_nul_before_seps st p segs); assumption.
Qed.

Lemma get_next_segment_within st seg seg' :
  segment_ok st seg -> within seg ->
  get_next_segment st seg = (true, seg') -> within seg'.
Proof.
  intros Hok Hin H.
  destruct (get_next_segment_true st seg seg' Hok H)
    as ((_ & _ & _ & Hregs & _) & Hp & _ & _ & Hseps).
  unfold within. rewrite Hp in *.
  apply (no_nul_before_regs st (path seg) (begin seg')); [|exact Hregs].
  apply (no_nul_before_seps st (path seg) (end_ seg)); assumption.
Qed.

Lemma last_segment_loop_ok st :
  forall fuel seg, segment_ok st seg -> within seg ->
    segment_ok st (last_segment_loop st fuel seg)
    /\ within (last_segment_loop st fuel seg)
    /\ path (last_segment_loop st fuel seg) = path seg
    /\ segments (last_segment_loop st fuel seg) = segments seg.
Proof.
  induction fuel as [|fuel IH]; intros seg Hok Hin; cbn [last_segment_loop].
  - auto.
  - destruct (get_next_segment st seg) as [[] seg'] eqn:E.
    + pose proof (get_next_segment_within st seg seg' Hok Hin E) as Hin'.
      destruct (get_next_segment_true st seg seg' Hok E)
        as (Hok' & Hp & Hs & _).
      destruct (IH seg' Hok' Hin') as (A & B & C & D).
      splits; try assumption; congruence.
    + apply get_next_segment_false in E. subst seg'. auto.
Qed.

Lemma get_first_segment_true st p seg :
  get_first_segment st p = (true, seg) ->
  segment_ok st seg /\ within seg /\ path seg = p.
Proof.
  unfold get_first_segment. intros H. split; [|split].
  - apply get_first_segment_without_root_true in H. tauto.
  - apply (get_first_segment_without_root_within st p _ seg
             (get_root_within st p) H).
  - apply get_first_segment_without_root_true in H. tauto.
Qed.

Lemma get_first_segment_without_root_0_true st p seg :
  get_first_segment_without_root st p 0 = (true, seg) ->
  segment_ok st seg /\ within seg /\ path seg = p.
Proof.
  intros H. split; [|split].
  - apply get_first_segment_without_root_true in H. tauto.
  - apply (get_first_segment_without_root_within st p 0 seg); [|exact H].
    intros i Hi. lia.
  - apply get_first_segment_without_root_true in H. tauto.
Qed.

Lemma get_last_segment_true st p seg :
  get_last_segment st p = (true, seg) ->
  segment_ok st seg /\ within seg /\ path seg = p.
Proof.
  unfold get_last_segment.
  destruct (get_first_segment st p) as [[] seg0] eqn:E; cbn [negb];
    [|discriminate].
  intros H. inversion H; subst seg; clear H.
  apply get_first_segment_true in E. destruct E as (Hok & Hin & Hp).
  destruct (last_segment_loop_ok st (length p) seg0 Hok Hin)
    as (A & B & C & D).
  splits; try assumption; congruence.
Qed.

Lemma get_last_segment_without_root_true st p seg :
  get_last_segment_without_root st p = (true, seg) ->
  segment_ok st seg /\ within seg /\ path seg = p.
Proof.
  unfold get_last_segment_without_root.
  destruct (get_first_segment_without_root st p 0) as [[] seg0] eqn:E;
    cbn [negb]; [|discriminate].
  intros H. inversion H; subst seg; clear H.
  apply get_first_segment_without_root_0_true in E.
  destruct E as (Hok & Hin & Hp).
  destruct (last_segment_loop_ok st (length p) seg0 Hok Hin)
    as (A & B & C & D).
  splits; try assumption; congruence.
Qed.

(** ** Positions of the joined stream *)

Lemma not_nul_in_range (s : list ascii) i :
  is_nul (deref s i) = false -> i < length s.
Proof.
  intros H. destruct (Nat.lt_ge_cases i (length s)) as [Hlt|Hge];
    [exact Hlt|].
  unfold deref in H. rewrite nth_overflow in H by exact Hge. discriminate.
Qed.

Lemma segment_ok_in_range st seg :
  segment_ok st seg -> begin seg < length (path seg).
Proof.
  intros (_ & Hbe & _ & Hregs & _).
  apply not_nul_in_range, (regular_not_nul st), Hregs. lia.
Qed.

Lemma skipn_S_nth {A} (l : list A) k d :
  k < length l -> skipn k l = nth k l d :: skipn (S k) l.
Proof.
  revert k. induction l as [|x l IH]; intros k Hk; [cbn in Hk; lia|].
  destruct k as [|k]; [reflexivity|].
  cbn [skipn nth]. apply IH. cbn in Hk. lia.
Qed.

Lemma first_segment_joined_loop_true st ps :
  forall rest i seg0 i' seg,
    skipn i ps = rest ->
    first_segment_joined_loop st rest i seg0 = (true, i', seg) ->
    i' < length ps /\ path seg = nth i' ps []
    /\ segment_ok st seg /\ within seg.
Proof.
  induction rest as [|p rest IH]; intros i seg0 i' seg Hr H;
    cbn [first_segment_joined_loop] in H; [discriminate|].
  assert (Hi : i < length ps).
  { destruct (Nat.lt_ge_cases i (length ps)) as [Hlt|Hge]; [exact Hlt|].
    rewrite skipn_all2 in Hr by exact Hge. discriminate. }
  rewrite (skipn_S_nth ps i [] Hi) in Hr. inversion Hr as [[Hp Hrest]].
  destruct (get_first_segment st p) as [[] seg1] eqn:E.
  - inversion H; subst i' seg. apply get_first_segment_true in E.
    destruct E as (Hok & Hin & Hpath). splits; try assumption.
    rewrite Hpath. rewrite Hp. reflexivity.
  - apply (IH (S i) seg1 i' seg Hrest H).
Qed.

Lemma in_stream_first_ok st ps sj :
  get_first_segment_joined st ps = (true, sj) ->
  position_ok st sj /\ paths sj = ps.
Proof.
  unfold get_first_segment_joined.
  destruct (first_segment_joined_loop st ps 0 no_segment) as [[r i] seg] eqn:E.
  intros H. inversion H; subst r sj; clear H.
  apply (first_segment_joined_loop_true st ps ps 0 no_segment i seg eq_refl)
    in E.
  unfold position_ok. cbn [paths path_index segment]. tauto.
Qed.

Lemma next_path_loop_true st ps :
  forall rest i seg0 i' seg,
    skipn (S i) ps = rest ->
    next_path_loop st rest i seg0 = (true, i', seg) ->
    i < i' /\ i' < length ps /\ path seg = nth i' ps []
    /\ segment_ok st seg /\ within seg.
Proof.
  induction rest as [|p rest IH]; intros i seg0 i' seg Hr H;
    cbn [next_path_loop] in H; [discriminate|].
  assert (Hi : S i < length ps).
  { destruct (Nat.lt_ge_cases (S i) (length ps)) as [Hlt|Hge]; [exact Hlt|].
    rewrite skipn_all2 in Hr by exact Hge. discriminate. }
  rewrite (skipn_S_nth ps (S i) [] Hi) in Hr. inversion Hr as [[Hp Hrest]].
  destruct (get_first_segment_without_root st p 0) as [[] seg1] eqn:E.
  - inversion H; subst i' seg. apply get_first_segment_without_root_0_true in E.
    destruct E as (Hok & Hin & Hpath). splits; try assumption; try lia.
    rewrite Hpath, Hp. reflexivity.
  - destruct (IH (S i) seg1 i' seg Hrest H) as (A & B & C & D & F).
    splits; try assumption; lia.
Qed.

Lemma tail_measure_S ps k :
  k < length ps ->
  tail_measure ps k = S (length (nth k ps [])) + tail_measure ps (S k).
Proof.
  intros Hk. unfold tail_measure. rewrite (skipn_S_nth ps k [] Hk).
  cbn [concat length]. rewrite length_app. lia.
Qed.

Lemma tail_measure_mono ps :
  forall d k, tail_measure ps (k + d) <= tail_measure ps k.
Proof.
  induction d as [|d IH]; intros k.
  - rewrite Nat.add_0_r. lia.
  - replace (k + S d) with (S k + d) by lia.
    destruct (Nat.lt_ge_cases k (length ps)) as [Hlt|Hge].
    + rewrite (tail_measure_S ps k Hlt). specialize (IH (S k)). lia.
    + unfold tail_measure. rewrite !skipn_all2 by lia. cbn. lia.
Qed.

Lemma tail_measure_lt ps i i' :
  i < i' -> i' < length ps ->
  S (length (nth i' ps [])) + tail_measure ps (S i') <= tail_measure ps (S i).
Proof.
  intros Hlt Hi'. rewrite <- (tail_measure_S ps i' Hi').
  replace i' with (S i + (i' - S i)) by lia. apply tail_measure_mono.
Qed.

Lemma get_next_segment_joined_true st sj sj' :
  position_ok st sj ->
  get_next_segment_joined st sj = (true, sj') ->
  position_ok st sj' /\ paths sj' = paths sj
  /\ ahead_measure sj' < ahead_measure sj.
Proof.
  intros (Hi & Hp & Hok & Hin). unfold get_next_segment_joined, path_at.
  destruct (nth_error (paths sj) (path_index sj)); [|discriminate].
  destruct (get_next_segment st (segment sj)) as [[] seg] eqn:E.
  - intros H. inversion H; subst sj'; clear H.
    pose proof (get_next_segment_within st _ _ Hok Hin E) as Hin'.
    destruct (get_next_segment_true st _ _ Hok E)
      as (Hok' & Hp' & Hs' & Hlt & _).
    pose proof (segment_ok_in_range st seg Hok') as Hr.
    destruct Hok as (_ & Hbe & _).
    unfold position_ok, ahead_measure. cbn [paths path_index segment].
    splits; try assumption; try reflexivity; try congruence.
    rewrite Hp' in *. lia.
  - destruct (next_path_loop st (skipn (S (path_index sj)) (paths sj))
                (path_index sj) (segment sj)) as [[r i'] seg'] eqn:E'.
    intros H. inversion H; subst r sj'; clear H.
    destruct (next_path_loop_true st (paths sj) _ _ _ _ _ eq_refl E')
      as (A & B & C & D & F).
    pose proof (segment_ok_in_range st seg' D) as Hr.
    pose proof (tail_measure_lt (paths sj) _ _ A B) as Hm.
    unfold position_ok, ahead_measure. cbn [paths path_index segment].
    splits; try assumption; try reflexivity.
    fold (tail_measure (paths sj) (S i')).
    fold (tail_measure (paths sj) (S (path_index sj))).
    rewrite C in *. lia.
Qed.


Lemma firstn_S_nth {A} (l : list A) k d :
  k < length l -> firstn (S k) l = firstn k l ++ [nth k l d].
Proof.
  revert k. induction l as [|x l IH]; intros k Hk; [cbn in Hk; lia|].
  destruct k as [|k]; [reflexivity|].
  cbn [firstn nth app]. f_equal. apply IH. cbn in Hk. lia.
Qed.

Lemma head_measure_S ps k :
  k < length ps ->
  head_measure ps (S k) = head_measure ps k + S (length (nth k ps [])).
Proof.
  intros Hk. unfold head_measure. rewrite (firstn_S_nth ps k [] Hk).
  rewrite concat_app, length_app. cbn [concat length].
  rewrite app_nil_r. lia.
Qed.

Lemma head_measure_mono ps :
  forall d k, k + d <= length ps ->
    head_measure ps k <= head_measure ps (k + d).
Proof.
  induction d as [|d IH]; intros k Hk.
  - rewrite Nat.add_0_r. lia.
  - replace (k + S d) with (S (k + d)) by lia.
    rewrite head_measure_S by lia. specialize (IH k). lia.
Qed.

Lemma head_measure_lt ps i i' :
  i' < i -> i <= length ps ->
  head_measure ps i' + S (length (nth i' ps [])) <= head_measure ps i.
Proof.
  intros Hlt Hi. rewrite <- (head_measure_S ps i') by lia.
  replace i with (S i' + (i - S i')) by lia.
  apply head_measure_mono. lia.
Qed.

Lemma previous_path_loop_true st ps :
  forall i seg0 i' seg,
    previous_path_loop st ps i seg0 = (true, i', seg) ->
    i' < i /\ path seg = nth i' ps []
    /\ segment_ok st seg /\ within seg.
Proof.
  induction i as [|i IH]; intros seg0 i' seg H;
    cbn [previous_path_loop] in H; [discriminate|].
  destruct (if i =? 0 then get_last_segment st (nth i ps [])
            else get_last_segment_without_root st (nth i ps []))
    as [[] seg1] eqn:E.
  - inversion H; subst i' seg; clear H.
    assert (Hs : segment_ok st seg1 /\ within seg1
                 /\ path seg1 = nth i ps []).
    { destruct (i =? 0);
        [apply get_last_segment_true
        |apply get_last_segment_without_root_true]; exact E. }
    destruct Hs as (A & B & C). splits; try assumption. lia.
  - destruct (IH seg1 i' seg H) as (A & B & C & D).
    splits; try assumption. lia.
Qed.

Lemma get_previous_segment_joined_true st sj sj' :
  position_ok st sj ->
  get_previous_segment_joined st sj = (true, sj') ->
  position_ok st sj' /\ paths sj' = paths sj
  /\ behind_measure sj' < behind_measure sj.
Proof.
  intros (Hi & Hp & Hok & Hin). unfold get_previous_segment_joined, path_at.
  destruct (nth_error (paths sj) 0); [|discriminate].
  destruct (get_previous_segment st (segment sj)) as [[] seg] eqn:E.
  - intros H. inversion H; subst sj'; clear H.
    destruct (get_previous_segment_true st _ _ Hok Hin E)
      as (Hok' & Hin' & Hp' & Hs' & Hlt).
    unfold position_ok, behind_measure. cbn [paths path_index segment].
    splits; try assumption; try reflexivity; try congruence. lia.
  - destruct (previous_path_loop st (paths sj) (path_index sj) (segment sj))
      as [[r i'] seg'] eqn:E'.
    intros H. inversion H; subst r sj'; clear H.
    destruct (previous_path_loop_true st (paths sj) _ _ _ _ E')
      as (A & C & D & F).
    pose proof (segment_ok_in_range st seg' D) as Hr.
    pose proof (head_measure_lt (paths sj) (path_index sj) i' A) as Hm.
    unfold position_ok, behind_measure. cbn [paths path_index segment].
    splits; try assumption; try reflexivity; try lia.
    fold (head_measure (paths sj) i').
    fold (head_measure (paths sj) (path_index sj)).
    rewrite C in *. lia.
Qed.

(** ** Walks over the stream end, within the fuel of the model *)

Lemma walk_forward_exists st :
  forall n sj, position_ok st sj -> ahead_measure sj < n ->
    exists sjs, walk_forward st sj sjs /\ length sjs <= ahead_measure sj.
Proof.
  induction n as [|n IH]; intros sj Hok Hn; [lia|].
  destruct (get_next_segment_joined st sj) as [[] sj'] eqn:E.
  - destruct (get_next_segment_joined_true st sj sj' Hok E)
      as (Hok' & _ & Hlt).
    destruct (IH sj' Hok') as (sjs & Hw & Hlen); [lia|].
    exists (sj' :: sjs). split.
    + eapply walk_forward_step; eassumption.
    + cbn [length]. lia.
  - exists []. split.
    + eapply walk_forward_end; eassumption.
    + cbn [length]. lia.
Qed.

Lemma walk_backward_exists st :
  forall n sj, position_ok st sj -> behind_measure sj < n ->
    exists sjs, walk_backward st sj sjs /\ length sjs <= behind_measure sj.
Proof.
  induction n as [|n IH]; intros sj Hok Hn; [lia|].
  destruct (get_previous_segment_joined st sj) as [[] sj'] eqn:E.
  - destruct (get_previous_segment_joined_true st sj sj' Hok E)
      as (Hok' & _ & Hlt).
    destruct (IH sj' Hok') as (sjs & Hw & Hlen); [lia|].
    exists (sj' :: sjs). split.
    + eapply walk_backward_step; eassumption.
    + cbn [length]. lia.
  - exists []. split.
    + eapply walk_backward_end; eassumption.
    + cbn [length]. lia.
Qed.

Lemma measures_below_fuel st sj :
  position_ok st sj ->
  ahead_measure sj < stream_fuel (paths sj)
  /\ behind_measure sj < stream_fuel (paths sj).
Proof.
  intros (Hi & Hp & Hok & Hin).
  pose proof (segment_ok_in_range st _ Hok) as Hr.
  unfold ahead_measure, behind_measure, stream_fuel.
  fold (tail_measure (paths sj) (S (path_index sj))).
  fold (head_measure (paths sj) (path_index sj)).
  pose proof (tail_measure_S (paths sj) (path_index sj) Hi) as HS.
  pose proof (tail_measure_mono (paths sj) (path_index sj) 0) as HM.
  cbn [Nat.add] in HM.
  pose proof (head_measure_lt (paths sj) (length (paths sj)) (path_index sj)
                Hi (Nat.le_refl _)) as HH.
  assert (HT : tail_measure (paths sj) 0
               = length (concat (paths sj)) + length (paths sj))
    by reflexivity.
  assert (HL : head_measure (paths sj) (length (paths sj))
               = length (concat (paths sj)) + length (paths sj)).
  { unfold head_measure. rewrite firstn_all. reflexivity. }
  rewrite Hp in *. lia.
Qed.

Lemma normal_will_be_removed_loop_walk st sj sjs :
  walk_forward st sj sjs ->
  forall fuel counter, length sjs < fuel ->
    normal_will_be_removed_loop st fuel sj counter =
    counter_goes_negative (map type_of sjs) counter.
Proof.
  induction 1 as [sj sj' E|sj sj' rest E _ IH]; intros fuel counter Hf;
    (destruct fuel as [|fuel]; [cbn [length] in Hf; lia|]);
    cbn [normal_will_be_removed_loop]; rewrite E; cbn [negb];
    [reflexivity|].
  cbn [map counter_goes_negative length] in *. unfold type_of at 1.
  destruct (get_segment_type (segment sj')); try apply IH; try lia.
  destruct (counter - 1 <? 0)%Z; [reflexivity|]. apply IH. lia.
Qed.

Lemma back_will_be_removed_loop_walk st sj sjs :
  walk_backward st sj sjs ->
  forall fuel counter, length sjs < fuel ->
    back_will_be_removed_loop st fuel sj counter =
    counter_goes_positive (map type_of sjs) counter.
Proof.
  induction 1 as [sj sj' E|sj sj' rest E _ IH]; intros fuel counter Hf;
    (destruct fuel as [|fuel]; [cbn [length] in Hf; lia|]);
    cbn [back_will_be_removed_loop]; rewrite E; cbn [negb];
    [reflexivity|].
  cbn [map counter_goes_positive length] in *. unfold type_of at 1.
  destruct (get_segment_type (segment sj')); try apply IH; try lia.
  destruct (0 <? counter + 1)%Z; [reflexivity|]. apply IH. lia.
Qed.

(** The resolver at a position with known walks. *)
Lemma segment_will_be_removed_walks st sj absolute behind ahead :
  position_ok st sj ->
  walk_backward st sj behind -> length behind <= behind_measure sj ->
  walk_forward st sj ahead -> length ahead <= ahead_measure sj ->
  segment_will_be_removed st sj absolute =
  elided_by_rule (type_of sj) absolute (map type_of behind)
    (map type_of ahead).
Proof.
  intros Hok Hb Hbl Ha Hal.
  destruct (measures_below_fuel st sj Hok) as [Hfa Hfb].
  unfold segment_will_be_removed, elided_by_rule, type_of at 1.
  destruct (get_segment_type (segment sj)); [| reflexivity |].
  - unfold segment_normal_will_be_removed.
    apply normal_will_be_removed_loop_walk; [exact Ha|lia].
  - destruct absolute; [reflexivity|].
    unfold segment_back_will_be_removed.
    apply back_will_be_removed_loop_walk; [exact Hb|lia].
Qed.


(** ** Tokens *)

Lemma chain_exists st s :
  forall n c, length s - c < n -> exists ts, chain st s c ts.
Proof.
  induction n as [|n IH]; intros c Hn; [lia|].
  destruct (skip_separators_spec st s c) as (Hle & Hseps & Hns).
  set (b := skip_separators st s c) in *.
  destruct (is_nul (deref s b)) eqn:En.
  - exists []. exists b. auto.
  - destruct (find_next_stop_spec st s b) as (Hle' & Hregs & Hstop).
    set (e := find_next_stop st s b) in *.
    assert (Hbe : b < e).
    { destruct (Nat.eq_dec b e) as [E|]; [|lia].
      rewrite <- E in Hstop. unfold regular in Hstop.
      rewrite En, Hns in Hstop. discriminate. }
    pose proof (not_nul_in_range s b En) as Hb.
    destruct (IH e) as [ts Hts]; [lia|].
    exists ((b, e) :: ts). cbn [chain]. splits; assumption.
Qed.

Lemma chain_first st s c ts :
  chain st s c ts ->
  get_first_segment_without_root st s c =
  match ts with
  | [] => (false, mk_segment s c c c 0)
  | t :: _ => (true, token_segment s c t)
  end.
Proof.
  unfold get_first_segment_without_root. destruct ts as [|[b e] ts].
  - intros (z & Hle & Hseps & Hz).
    destruct (is_nul (deref s c)) eqn:En; [reflexivity|].
    rewrite (skip_leading_from_spec st s (skipn c s) c eq_refl En).
    fold (skip_separators st s c).
    rewrite (skip_separators_unique st s c z Hle Hseps).
    + rewrite Hz. reflexivity.
    + apply is_nul_true in Hz. rewrite Hz. apply is_separator_NUL.
  - intros (Hle & Hseps & Hbe & Hregs & Hstop & _).
    assert (Hb : regular st (deref s b) = true) by (apply Hregs; lia).
    assert (En : is_nul (deref s c) = false).
    { destruct (Nat.eq_dec c b) as [->|Hne].
      - apply (regular_not_nul st), Hb.
      - apply (is_separator_not_nul st), Hseps. lia. }
    rewrite En.
    rewrite (skip_leading_from_spec st s (skipn c s) c eq_refl En).
    fold (skip_separators st s c).
    rewrite (skip_separators_unique st s c b Hle Hseps
               (regular_not_separator st _ Hb)).
    rewrite (regular_not_nul st _ Hb).
    rewrite (find_next_stop_unique st s b e (Nat.lt_le_incl _ _ Hbe) Hregs
               Hstop).
    reflexivity.
Qed.

Lemma chain_next st s segs t ts :
  fst t < snd t -> regular st (deref s (snd t)) = false ->
  chain st s (snd t) ts ->
  get_next_segment st (token_segment s segs t) =
  match ts with
  | [] => (false, token_segment s segs t)
  | t' :: _ => (true, token_segment s segs t')
  end.
Proof.
  destruct t as [b0 e0]. cbn [fst snd]. intros Hbe0 Hstop0.
  unfold get_next_segment, token_segment. cbn [path segments begin size fst snd].
  replace (b0 + (e0 - b0)) with e0 by lia.
  destruct ts as [|[b e] ts].
  - intros (z & Hle & Hseps & Hz).
    destruct (is_nul (deref s e0)) eqn:En; [reflexivity|].
    assert (e0 < z).
    { destruct (Nat.eq_dec e0 z) as [E|]; [|lia]. congruence. }
    rewrite (skip_separators_unique st s (S e0) z).
    + rewrite Hz. reflexivity.
    + lia.
    + intros i Hi. apply Hseps. lia.
    + apply is_nul_true in Hz. rewrite Hz. apply is_separator_NUL.
  - intros (Hle & Hseps & Hbe & Hregs & Hstop & Hch).
    assert (Hb : regular st (deref s b) = true) by (apply Hregs; lia).
    assert (e0 < b).
    { destruct (Nat.eq_dec e0 b) as [E|]; [|lia]. congruence. }
    rewrite (is_separator_not_nul st (deref s e0)) by (apply Hseps; lia).
    rewrite (skip_separators_unique st s (S e0) b).
    + rewrite (regular_not_nul st _ Hb).
      rewrite (find_next_stop_unique st s b e (Nat.lt_le_incl _ _ Hbe) Hregs
                 Hstop).
      reflexivity.
    + lia.
    + intros i Hi. apply Hseps. lia.
    + apply (regular_not_separator st), Hb.
Qed.

(** Where the chain stands after the tokens [pre]. *)
Lemma chain_app st s pre :
  forall c l, chain st s c (pre ++ l) ->
    exists c', chain st s c' l /\ c <= c'
      /\ (pre = [] /\ c' = c
          \/ pre <> [] /\ regular st (deref s c') = false).
Proof.
  induction pre as [|[b e] pre IH]; intros c l H.
  - exists c. split; [exact H|]. split; [lia|]. left. auto.
  - cbn [app chain] in H. destruct H as (Hle & Hseps & Hbe & Hregs & Hstop & H).
    destruct (IH e l H) as (c' & Hc' & Hle' & Hcase).
    exists c'. split; [exact Hc'|]. split; [lia|]. right.
    split; [discriminate|].
    destruct Hcase as [[-> ->]|[_ Hr]]; assumption.
Qed.

Lemma chain_token_ok st s segs pre t post :
  chain st s segs (pre ++ t :: post) ->
  segment_ok st (token_segment s segs t)
  /\ chain st s (snd t) post.
Proof.
  intros H. destruct (chain_app st s pre segs (t :: post) H)
    as (c' & Hc' & Hle' & Hcase).
  destruct t as [b e]. cbn [chain] in Hc'.
  destruct Hc' as (Hle & Hseps & Hbe & Hregs & Hstop & Hch).
  split; [|exact Hch].
  unfold segment_ok, token_segment. cbn [path segments begin end_ size fst snd].
  splits; try assumption; try reflexivity; try lia.
  assert (Hb : regular st (deref s b) = true) by (apply Hregs; lia).
  destruct Hcase as [[_ ->]|[_ Hr]].
  - destruct (Nat.eq_dec b segs) as [E|]; [left; exact E|right].
    apply Hseps. lia.
  - right. apply Hseps.
    assert (c' <> b) by (intros ->; congruence). lia.
Qed.

Lemma chain_previous st s segs pre t1 t2 post :
  chain st s segs (pre ++ t1 :: t2 :: post) ->
  get_previous_segment st (token_segment s segs t2)
  = (true, token_segment s segs t1).
Proof.
  intros H.
  destruct (chain_token_ok st s segs pre t1 (t2 :: post) H) as [Hok Hch].
  destruct t2 as [b2 e2]. cbn [chain] in Hch.
  destruct Hch as (Hle & Hseps & Hbe & Hregs & Hstop & _).
  assert (Hb : regular st (deref s b2) = true) by (apply Hregs; lia).
  destruct Hok as (A1 & A2 & A3 & A4 & A5 & A6).
  apply get_previous_segment_of_next.
  - unfold segment_ok. splits; assumption.
  - reflexivity.
  - reflexivity.
  - cbn [token_segment begin end_ path segments size fst snd] in *.
    assert (snd t1 <> b2) by (intros E; rewrite E in A5; congruence). lia.
  - cbn [token_segment begin end_ path segments size fst snd] in *.
    exact Hseps.
Qed.

Lemma chain_previous_first st s segs t post :
  chain st s segs (t :: post) ->
  get_previous_segment st (token_segment s segs t)
  = (false, token_segment s segs t).
Proof.
  destruct t as [b e]. cbn [chain]. intros (Hle & Hseps & _).
  apply get_previous_segment_first. exact Hseps.
Qed.

(** ** The type of a token is the type of its text *)

Lemma strncmp_eq_firstn :
  forall n a l, strncmp_eq a l n = strncmp_eq (firstn n a) l n.
Proof.
  induction n as [|n IH]; intros a l; [reflexivity|].
  cbn [strncmp_eq]. destruct a as [|x a]; [reflexivity|].
  cbn [firstn hd tl]. rewrite (IH a (tl l)). reflexivity.
Qed.

Lemma regs_in_range st s b e : regs st s b e -> b < e -> e <= length s.
Proof.
  intros H Hbe.
  assert (e - 1 < length s).
  { apply not_nul_in_range, (regular_not_nul st), H. lia. }
  lia.
Qed.

Lemma length_slice st s b e :
  regs st s b e -> b < e -> length (slice s b e) = e - b.
Proof.
  intros H Hbe. pose proof (regs_in_range st s b e H Hbe).
  unfold slice. rewrite length_firstn, length_skipn. lia.
Qed.

Lemma token_type st s segs b e :
  regs st s b e -> b < e ->
  get_segment_type (token_segment s segs (b, e)) = classify (slice s b e).
Proof.
  intros H Hbe. unfold classify, get_segment_type, token_segment.
  cbn [path begin size fst snd skipn].
  rewrite (length_slice st s b e H Hbe). unfold slice.
  rewrite <- !strncmp_eq_firstn. reflexivity.
Qed.

(** ** The stream of a single path *)

Lemma single_first st p ts :
  chain st p (get_root st p) ts ->
  get_first_segment_joined st [p] =
  match ts with
  | [] => (false,
           mk_joined (mk_segment p (get_root st p) (get_root st p)
                        (get_root st p) 0) [p] 1)
  | t :: _ => (true, token_position [p] 0 (get_root st p) t)
  end.
Proof.
  intros H. unfold get_first_segment_joined.
  cbn [first_segment_joined_loop]. unfold get_first_segment.
  rewrite (chain_first st p _ ts H). destruct ts; reflexivity.
Qed.

Lemma single_next st p pre t post :
  chain st p (get_root st p) (pre ++ t :: post) ->
  get_next_segment_joined st (token_position [p] 0 (get_root st p) t) =
  match post with
  | [] => (false, mk_joined (token_segment p (get_root st p) t) [p] 1)
  | t' :: _ => (true, token_position [p] 0 (get_root st p) t')
  end.
Proof.
  intros H. destruct (chain_token_ok st p _ pre t post H) as [Hok Hch].
  destruct Hok as (_ & Hbe & _ & _ & Hstop & _).
  unfold get_next_segment_joined, token_position, path_at.
  cbn [paths path_index segment nth_error nth].
  rewrite (chain_next st p _ t post Hbe Hstop Hch).
  destruct post; reflexivity.
Qed.

Lemma single_previous st p pre t post :
  chain st p (get_root st p) (pre ++ t :: post) ->
  get_previous_segment_joined st (token_position [p] 0 (get_root st p) t) =
  match rev pre with
  | [] => (false, token_position [p] 0 (get_root st p) t)
  | t' :: _ => (true, token_position [p] 0 (get_root st p) t')
  end.
Proof.
  intros H. unfold get_previous_segment_joined, token_position, path_at.
  cbn [paths path_index segment nth_error nth].
  destruct (rev pre) as [|t' rpre] eqn:E.
  - assert (pre = []).
    { rewrite <- (rev_involutive pre), E. reflexivity. }
    subst pre. cbn [app] in H.
    rewrite (chain_previous_first st p _ t post H). reflexivity.
  - assert (Hpre : pre = rev rpre ++ [t']).
    { rewrite <- (rev_involutive pre), E. reflexivity. }
    rewrite Hpre, <- app_assoc in H. cbn [app] in H.
    rewrite (chain_previous st p _ (rev rpre) t' t post H). reflexivity.
Qed.

Lemma single_walk_forward st p :
  forall post pre t,
    chain st p (get_root st p) (pre ++ t :: post) ->
    walk_forward st (token_position [p] 0 (get_root st p) t)
      (map (token_position [p] 0 (get_root st p)) post).
Proof.
  induction post as [|t' post IH]; intros pre t H.
  - eapply walk_forward_end. apply (single_next st p pre t [] H).
  - cbn [map]. eapply walk_forward_step.
    + apply (single_next st p pre t (t' :: post) H).
    + apply (IH (pre ++ [t]) t'). rewrite <- app_assoc. exact H.
Qed.

Lemma single_walk_backward st p :
  forall rpre t post,
    chain st p (get_root st p) (rev rpre ++ t :: post) ->
    walk_backward st (token_position [p] 0 (get_root st p) t)
      (map (token_position [p] 0 (get_root st p)) rpre).
Proof.
  induction rpre as [|t' rpre IH]; intros t post H.
  - eapply walk_backward_end.
    pose proof (single_previous st p (rev []) t post H) as E.
    cbn [rev] in E. exact E.
  - cbn [map]. pose proof (single_previous st p (rev (t' :: rpre)) t post H)
      as E.
    rewrite rev_involutive in E.
    eapply walk_backward_step; [exact E|].
    apply (IH t' (t :: post)). cbn [rev] in H. rewrite <- app_assoc in H.
    exact H.
Qed.

(** ** Walks are functions of the position *)

Lemma walk_forward_unique st sj l1 :
  walk_forward st sj l1 -> forall l2, walk_forward st sj l2 -> l1 = l2.
Proof.
  induction 1 as [sj sj' E|sj sj' rest E _ IH]; intros l2 H2;
    inversion H2 as [? ? E2|? ? ? E2 H2']; subst;
    rewrite E in E2; inversion E2; subst; [reflexivity|].
  f_equal. apply IH. assumption.
Qed.

Lemma walk_backward_unique st sj l1 :
  walk_backward st sj l1 -> forall l2, walk_backward st sj l2 -> l1 = l2.
Proof.
  induction 1 as [sj sj' E|sj sj' rest E _ IH]; intros l2 H2;
    inversion H2 as [? ? E2|? ? ? E2 H2']; subst;
    rewrite E in E2; inversion E2; subst; [reflexivity|].
  f_equal. apply IH. assumption.
Qed.

Lemma segment_will_be_removed_rule st sj absolute behind ahead :
  position_ok st sj ->
  walk_backward st sj behind -> walk_forward st sj ahead ->
  segment_will_be_removed st sj absolute =
  elided_by_rule (type_of sj) absolute (map type_of behind)
    (map type_of ahead).
Proof.
  intros Hok Hb Ha.
  destruct (walk_backward_exists st (S (behind_measure sj)) sj Hok)
    as (behind' & Hb' & Hbl); [lia|].
  destruct (walk_forward_exists st (S (ahead_measure sj)) sj Hok)
    as (ahead' & Ha' & Hal); [lia|].
  rewrite (walk_backward_unique st sj behind Hb behind' Hb').
  rewrite (walk_forward_unique st sj ahead Ha ahead' Ha').
  apply segment_will_be_removed_walks; assumption.
Qed.

(** In an absolute path only the look-ahead matters. *)
Lemma segment_will_be_removed_absolute st sj ahead :
  position_ok st sj -> walk_forward st sj ahead ->
  segment_will_be_removed st sj true =
  elided_by_rule (type_of sj) true [] (map type_of ahead).
Proof.
  intros Hok Ha.
  destruct (walk_backward_exists st (S (behind_measure sj)) sj Hok)
    as (behind & Hb & _); [lia|].
  rewrite (segment_will_be_removed_rule st sj true behind ahead Hok Hb Ha).
  unfold elided_by_rule. destruct (type_of sj); reflexivity.
Qed.

(** ** The resolver on the tokens of a single path *)

Lemma chain_within st s pre :
  forall c t post, chain st s c (pre ++ t :: post) ->
    no_nul_before s c -> no_nul_before s (snd t).
Proof.
  induction pre as [|[b e] pre IH]; intros c t post H Hc.
  - destruct t as [b e]. cbn [app chain] in H.
    destruct H as (Hle & Hseps & Hbe & Hregs & _). cbn [snd].
    apply (no_nul_before_regs st s b); [|exact Hregs].
    apply (no_nul_before_seps st s c); assumption.
  - cbn [app chain] in H.
    destruct H as (Hle & Hseps & Hbe & Hregs & _ & H).
    apply (IH e t post H).
    apply (no_nul_before_regs st s b); [|exact Hregs].
    apply (no_nul_before_seps st s c); assumption.
Qed.

Lemma single_position_ok st p pre t post :
  chain st p (get_root st p) (pre ++ t :: post) ->
  position_ok st (token_position [p] 0 (get_root st p) t).
Proof.
  intros H. unfold position_ok, token_position.
  cbn [paths path_index segment length nth].
  split; [lia|]. split; [reflexivity|]. split.
  - apply (chain_token_ok st p _ pre t post H).
  - unfold within, token_segment. cbn [path end_].
    apply (chain_within st p pre _ t post H), get_root_within.
Qed.

Lemma single_token_type st p pre t post :
  chain st p (get_root st p) (pre ++ t :: post) ->
  type_of (token_position [p] 0 (get_root st p) t)
  = classify (token_text p t).
Proof.
  intros H. destruct (chain_token_ok st p _ pre t post H) as [Hok _].
  destruct Hok as (_ & Hbe & _ & Hregs & _). destruct t as [b e].
  unfold type_of, token_position. cbn [segment nth].
  apply (token_type st); assumption.
Qed.

Lemma single_types_in st p ts t :
  chain st p (get_root st p) ts -> In t ts ->
  type_of (token_position [p] 0 (get_root st p) t)
  = classify (token_text p t).
Proof.
  intros H Hin. apply in_split in Hin. destruct Hin as (pre & post & ->).
  apply (single_token_type st p pre t post H).
Qed.

Lemma single_types st p ts l :
  chain st p (get_root st p) ts -> incl l ts ->
  map type_of (map (token_position [p] 0 (get_root st p)) l)
  = map (fun t => classify (token_text p t)) l.
Proof.
  intros H Hl. rewrite map_map. apply map_ext_in. intros t Ht.
  apply (single_types_in st p ts t H), Hl, Ht.
Qed.

Lemma single_removed st p absolute pre t post :
  chain st p (get_root st p) (pre ++ t :: post) ->
  segment_will_be_removed st (token_position [p] 0 (get_root st p) t)
    absolute
  = elided_by_rule (classify (token_text p t)) absolute
      (map (fun t => classify (token_text p t)) (rev pre))
      (map (fun t => classify (token_text p t)) post).
Proof.
  intros H.
  rewrite (segment_will_be_removed_rule st _ absolute
             (map (token_position [p] 0 (get_root st p)) (rev pre))
             (map (token_position [p] 0 (get_root st p)) post)).
  - rewrite (single_token_type st p pre t post H).
    rewrite (single_types st p _ (rev pre) H).
    + rewrite (single_types st p _ post H); [reflexivity|].
      intros x Hx. apply in_or_app. right. right. exact Hx.
    + intros x Hx. apply in_or_app. left. apply in_rev. exact Hx.
  - apply (single_position_ok st p pre t post H).
  - apply (single_walk_backward st p (rev pre) t post).
    rewrite rev_involutive. exact H.
  - apply (single_walk_forward st p post pre t H).
Qed.

Lemma single_filter st p absolute :
  forall l pre,
    chain st p (get_root st p) (pre ++ l) ->
    filter (fun x => negb (segment_will_be_removed st x absolute))
      (map (token_position [p] 0 (get_root st p)) l)
    = map (token_position [p] 0 (get_root st p))
        (survivors (fun t => classify (token_text p t)) absolute
           (rev pre) l).
Proof.
  induction l as [|t post IH]; intros pre H; [reflexivity|].
  cbn [map filter survivors].
  rewrite (single_removed st p absolute pre t post H).
  specialize (IH (pre ++ [t])). rewrite <- app_assoc in IH.
  specialize (IH H). rewrite rev_unit in IH.
  destruct (elided_by_rule _ absolute _ _); cbn [negb app map];
    rewrite IH; reflexivity.
Qed.

(** ** What a large enough buffer holds *)

Lemma buffer_prefix_app buf n m :
  buffer_prefix buf (n + m) = buffer_prefix buf n ++ map buf (seq n m).
Proof. unfold buffer_prefix. rewrite seq_app, map_app. reflexivity. Qed.

Lemma length_buffer_prefix buf n : length (buffer_prefix buf n) = n.
Proof. unfold buffer_prefix. rewrite length_map, length_seq. reflexivity. Qed.

Lemma length_bytes_at str off len : length (bytes_at str off len) = len.
Proof. unfold bytes_at. rewrite length_map, length_seq. reflexivity. Qed.

Lemma map_seq_shift {A : Type} (f : nat -> A) :
  forall m n, map f (seq n m) = map (fun k => f (n + k)) (seq 0 m).
Proof.
  induction m as [|m IH]; intros n; cbn [seq map]; [reflexivity|].
  f_equal; [f_equal; lia|].
  rewrite (IH (S n)), <- seq_shift, map_map.
  apply map_ext. intros k. f_equal. lia.
Qed.

Lemma output_sized_fits buf cap pos str off len :
  pos + len < cap ->
  buffer_prefix (snd (output_sized buf cap pos str off len)) (pos + len)
  = buffer_prefix buf pos ++ bytes_at str off len.
Proof.
  intros Hfit. unfold output_sized. cbn [snd].
  destruct (Nat.ltb_spec (pos + len) cap); [|lia].
  rewrite buffer_prefix_app. unfold buffer_prefix, bytes_at.
  destruct (Nat.ltb_spec 0 len) as [Hl|Hl].
  - f_equal.
    + apply map_ext_in. intros i Hi. apply in_seq in Hi. unfold memmove.
      destruct (Nat.leb_spec pos i); [lia|]. reflexivity.
    + rewrite map_seq_shift. apply map_ext_in. intros k Hk.
      apply in_seq in Hk. unfold memmove.
      destruct (Nat.leb_spec pos (pos + k)); [|lia].
      destruct (Nat.ltb_spec (pos + k) (pos + len)); [|lia].
      cbn [andb]. f_equal. lia.
  - assert (len = 0) by lia. subst len. reflexivity.
Qed.

Lemma output_sized_fits_le buf cap pos str off len :
  pos + len <= cap ->
  buffer_prefix (snd (output_sized buf cap pos str off len)) (pos + len)
  = buffer_prefix buf pos ++ bytes_at str off len.
Proof.
  intros Hfit. destruct (Nat.eq_dec (pos + len) cap) as [E|N];
    [|apply output_sized_fits; lia].
  unfold output_sized. cbn [snd].
  destruct (Nat.ltb_spec (pos + len) cap); [lia|].
  rewrite buffer_prefix_app. unfold buffer_prefix, bytes_at.
  destruct (Nat.ltb_spec pos cap) as [Hp|Hp].
  - replace (cap - pos) with len by lia.
    destruct (Nat.ltb_spec 0 len) as [Hl|Hl]; [|lia].
    f_equal.
    + apply map_ext_in. intros i Hi. apply in_seq in Hi. unfold memmove.
      destruct (Nat.leb_spec pos i); [lia|]. reflexivity.
    + rewrite map_seq_shift. apply map_ext_in. intros k Hk.
      apply in_seq in Hk. unfold memmove.
      destruct (Nat.leb_spec pos (pos + k)); [|lia].
      destruct (Nat.ltb_spec (pos + k) (pos + len)); [|lia].
      cbn [andb]. f_equal. lia.
  - assert (len = 0) by lia. subst len. cbn [Nat.ltb Nat.leb seq map].
    rewrite app_nil_r. reflexivity.
Qed.

Lemma terminate_output_fits buf cap pos :
  pos < cap ->
  buffer_prefix (terminate_output buf cap pos) pos = buffer_prefix buf pos
  /\ terminate_output buf cap pos pos = NUL.
Proof.
  intros Hfit. unfold terminate_output, store.
  destruct (Nat.ltb_spec 0 cap); [|lia].
  destruct (Nat.leb_spec cap pos); [lia|]. split.
  - unfold buffer_prefix. apply map_ext_in. intros i Hi.
    apply in_seq in Hi. destruct (Nat.eqb_spec i pos); [lia|reflexivity].
  - rewrite Nat.eqb_refl. reflexivity.
Qed.

Lemma join_loop_unfold st fuel absolute sj pos hso buf cap :
  join_loop st fuel absolute sj pos hso buf cap =
  let '(pos, hso, buf) :=
    if segment_will_be_removed st sj absolute
    then (pos, hso, buf)
    else
      let '(pos, buf) :=
        if hso then
          let '(n, buf) := output_separator st buf cap pos in
          (pos + n, buf)
        else (pos, buf) in
      let '(n, buf) :=
        output_sized buf cap pos (path (segment sj))
          (begin (segment sj)) (size (segment sj)) in
      (pos + n, true, buf) in
  let '(r, sj') := get_next_segment_joined st sj in
  if negb r then (pos, hso, buf)
  else
    match fuel with
    | 0 => (pos, hso, buf)
    | S fuel' => join_loop st fuel' absolute sj' pos hso buf cap
    end.
Proof. destruct fuel; reflexivity. Qed.

(** One round of the loop of [join_and_normalize_multiple]. *)
Lemma join_round st absolute sj pos hso buf cap :
  pos + length (render st hso
                  (if segment_will_be_removed st sj absolute then []
                   else [position_bytes sj])) < cap ->
  exists buf',
    (if segment_will_be_removed st sj absolute
     then (pos, hso, buf)
     else
       let '(pos, buf) :=
         if hso then
           let '(n, buf) := output_separator st buf cap pos in
           (pos + n, buf)
         else (pos, buf) in
       let '(n, buf) :=
         output_sized buf cap pos (path (segment sj))
           (begin (segment sj)) (size (segment sj)) in
       (pos + n, true, buf))
    = (pos + length (render st hso
                       (if segment_will_be_removed st sj absolute then []
                        else [position_bytes sj])),
       hso || negb (segment_will_be_removed st sj absolute), buf')
    /\ buffer_prefix buf'
         (pos + length (render st hso
                          (if segment_will_be_removed st sj absolute then []
                           else [position_bytes sj])))
       = buffer_prefix buf pos
         ++ render st hso
              (if segment_will_be_removed st sj absolute then []
               else [position_bytes sj]).
Proof.
  destruct (segment_will_be_removed st sj absolute).
  - cbn [render length negb]. intros _. exists buf.
    rewrite Nat.add_0_r, orb_false_r, app_nil_r. auto.
  - cbn [render negb]. rewrite app_nil_r, orb_true_r.
    unfold position_bytes, output_separator.
    destruct hso; cbn [app length]; rewrite ?length_bytes_at; intros Hfit.
    + pose proof (output_sized_fits buf cap pos (separators st) 0 1) as P1.
      destruct (output_sized buf cap pos (separators st) 0 1) as [n1 b1] eqn:E1.
      assert (n1 = 1) by (unfold output_sized in E1; congruence). subst n1.
      cbn [snd] in P1.
      pose proof (output_sized_fits b1 cap (pos + 1) (path (segment sj))
                    (begin (segment sj)) (size (segment sj))) as P2.
      destruct (output_sized b1 cap (pos + 1) (path (segment sj))
                  (begin (segment sj)) (size (segment sj))) as [n2 b2] eqn:E2.
      assert (n2 = size (segment sj))
        by (unfold output_sized in E2; congruence).
      subst n2. cbn [snd] in P2. exists b2. split.
      * f_equal. f_equal. lia.
      * replace (pos + S (size (segment sj)))
          with (pos + 1 + size (segment sj)) by lia.
        rewrite P2 by lia. rewrite P1 by lia.
        rewrite <- app_assoc. reflexivity.
    + pose proof (output_sized_fits buf cap pos (path (segment sj))
                    (begin (segment sj)) (size (segment sj))) as P2.
      destruct (output_sized buf cap pos (path (segment sj))
                  (begin (segment sj)) (size (segment sj))) as [n2 b2] eqn:E2.
      assert (n2 = size (segment sj))
        by (unfold output_sized in E2; congruence).
      subst n2. cbn [snd] in P2. exists b2. split; [reflexivity|].
      apply P2. exact Hfit.
Qed.

Lemma render_opt_app st hso (k : bool) x l :
  render st hso ((if k then [] else [x]) ++ l)
  = render st hso (if k then [] else [x]) ++ render st (hso || negb k) l.
Proof.
  destruct k; cbn [app render negb].
  - rewrite orb_false_r. reflexivity.
  - rewrite orb_true_r, app_nil_r, <- !app_assoc. reflexivity.
Qed.

Lemma kept_cons st absolute sj rest :
  map position_bytes
    (filter (fun x => negb (segment_will_be_removed st x absolute))
       (sj :: rest))
  = (if segment_will_be_removed st sj absolute then []
     else [position_bytes sj])
    ++ map position_bytes
         (filter (fun x => negb (segment_will_be_removed st x absolute))
            rest).
Proof.
  cbn [filter]. destruct (segment_will_be_removed st sj absolute);
    reflexivity.
Qed.

(** The loop of [join_and_normalize_multiple] over the positions of a
    forward walk: it writes the segments the resolver keeps. *)
Lemma join_loop_walk st absolute cap sj rest :
  walk_forward st sj rest ->
  forall fuel pos hso buf,
    length rest <= fuel ->
    pos + length (render st hso (map position_bytes
            (filter (fun x => negb (segment_will_be_removed st x absolute))
               (sj :: rest)))) < cap ->
    exists buf',
      join_loop st fuel absolute sj pos hso buf cap
      = (pos + length (render st hso (map position_bytes
              (filter (fun x => negb (segment_will_be_removed st x absolute))
                 (sj :: rest)))),
         hso || existsb (fun x => negb (segment_will_be_removed st x absolute))
                  (sj :: rest),
         buf')
      /\ buffer_prefix buf'
           (pos + length (render st hso (map position_bytes
              (filter (fun x => negb (segment_will_be_removed st x absolute))
                 (sj :: rest)))))
         = buffer_prefix buf pos
           ++ render st hso (map position_bytes
                (filter (fun x => negb (segment_will_be_removed st x absolute))
                   (sj :: rest))).
Proof.
  induction 1 as [sj sj' E|sj sj' rest E _ IH]; intros fuel pos hso buf Hf;
    rewrite kept_cons, render_opt_app, length_app; intros Hfit;
    rewrite join_loop_unfold;
    (destruct (join_round st absolute sj pos hso buf cap) as (b1 & E1 & P1);
     [lia|]); rewrite E1, E; cbn [negb existsb].
  - cbn [filter map render length] in *. exists b1.
    rewrite Nat.add_0_r, app_nil_r, orb_false_r. auto.
  - destruct fuel as [|fuel]; [cbn [length] in Hf; lia|].
    cbn [length] in Hf.
    destruct (IH fuel
                (pos + length (render st hso
                                 (if segment_will_be_removed st sj absolute
                                  then [] else [position_bytes sj])))
                (hso || negb (segment_will_be_removed st sj absolute))
                b1 (le_S_n _ _ Hf)) as (b2 & E2 & P2); [lia|].
    exists b2. rewrite E2. split.
    + rewrite orb_assoc, Nat.add_assoc. reflexivity.
    + rewrite Nat.add_assoc, P2, P1, <- app_assoc. reflexivity.
Qed.

(** ** The text [normalize] writes *)

Lemma bytes_at_S s b n :
  bytes_at s b (S n) = deref s b :: bytes_at s (S b) n.
Proof.
  unfold bytes_at. cbn [seq map]. rewrite Nat.add_0_r. f_equal.
  rewrite <- seq_shift, map_map. apply map_ext. intros k. f_equal. lia.
Qed.

Lemma bytes_at_firstn :
  forall n s b, b + n <= length s -> bytes_at s b n = firstn n (skipn b s).
Proof.
  induction n as [|n IH]; intros s b H; [reflexivity|].
  rewrite bytes_at_S, (skipn_S_nth s b NUL) by lia.
  cbn [firstn]. f_equal. apply IH. lia.
Qed.

Lemma bytes_at_slice st s b e :
  regs st s b e -> b < e -> bytes_at s b (e - b) = slice s b e.
Proof.
  intros H Hbe. pose proof (regs_in_range st s b e H Hbe).
  apply bytes_at_firstn. lia.
Qed.

Lemma get_root_le_length st p : get_root st p <= length p.
Proof.
  destruct (get_root st p) as [|r] eqn:E; [lia|].
  pose proof (get_root_within st p r) as H. rewrite E in H.
  specialize (H (Nat.lt_succ_diag_r r)).
  apply not_nul_in_range in H. lia.
Qed.

Lemma bytes_at_root st p : bytes_at p 0 (get_root st p) = root_text st p.
Proof.
  unfold root_text. rewrite bytes_at_firstn; [reflexivity|].
  pose proof (get_root_le_length st p). lia.
Qed.

Lemma single_token_bytes st p ts t :
  chain st p (get_root st p) ts -> In t ts ->
  position_bytes (token_position [p] 0 (get_root st p) t) = token_text p t.
Proof.
  intros H Hin. apply in_split in Hin. destruct Hin as (pre & post & ->).
  destruct (chain_token_ok st p _ pre t post H) as [Hok _].
  destruct Hok as (_ & Hbe & _ & Hregs & _). destruct t as [b e].
  unfold position_bytes, token_position, token_text.
  cbn [segment nth token_segment path begin size fst snd] in *.
  apply (bytes_at_slice st); assumption.
Qed.

Lemma survivors_incl {A : Type} (ty : A -> cwk_segment_type) absolute :
  forall l behind, incl (survivors ty absolute behind l) l.
Proof.
  induction l as [|x l IH]; intros behind y Hy; [exact Hy|].
  cbn [survivors] in Hy. apply in_app_or in Hy. destruct Hy as [Hy|Hy].
  - destruct (elided_by_rule _ _ _ _); [destruct Hy|].
    destruct Hy as [<-|[]]. left. reflexivity.
  - right. apply (IH _ _ Hy).
Qed.

Lemma existsb_filter {A : Type} (f : A -> bool) l :
  existsb f l = match filter f l with [] => false | _ :: _ => true end.
Proof.
  induction l as [|x l IH]; [reflexivity|]. cbn [existsb filter].
  destruct (f x); [reflexivity|]. exact IH.
Qed.

Lemma single_token_count st p t post :
  chain st p (get_root st p) (t :: post) ->
  length post <= stream_fuel [p].
Proof.
  intros H.
  pose proof (single_position_ok st p [] t post H) as Hok.
  pose proof (single_walk_forward st p post [] t H) as Hw.
  destruct (walk_forward_exists st (S (ahead_measure _)) _ Hok
              (Nat.lt_succ_diag_r _)) as (l & Hl & Hlen).
  pose proof (walk_forward_unique st _ _ Hw _ Hl) as Heq.
  rewrite <- Heq, length_map in Hlen.
  destruct (measures_below_fuel st _ Hok) as [Hm _].
  cbn [token_position paths] in Hm. lia.
Qed.

Lemma single_kept st p ts :
  chain st p (get_root st p) ts ->
  filter (fun x => negb (segment_will_be_removed st x (is_absolute st p)))
    (map (token_position [p] 0 (get_root st p)) ts)
  = map (token_position [p] 0 (get_root st p))
      (survivors (token_type_of p) (is_absolute st p) [] ts).
Proof. intros H. apply (single_filter st p (is_absolute st p) ts [] H). Qed.

Lemma single_kept_texts st p ts :
  chain st p (get_root st p) ts ->
  map position_bytes
    (filter (fun x => negb (segment_will_be_removed st x (is_absolute st p)))
       (map (token_position [p] 0 (get_root st p)) ts))
  = kept_texts st p ts.
Proof.
  intros H. rewrite (single_kept st p ts H). unfold kept_texts.
  rewrite map_map. apply map_ext_in. intros t Ht.
  apply (single_token_bytes st p ts t H).
  apply (survivors_incl _ _ _ _ _ Ht).
Qed.

Lemma single_kept_any st p ts :
  chain st p (get_root st p) ts ->
  existsb (fun x => negb (segment_will_be_removed st x (is_absolute st p)))
    (map (token_position [p] 0 (get_root st p)) ts)
  = match kept_texts st p ts with [] => false | _ :: _ => true end.
Proof.
  intros H. rewrite existsb_filter, (single_kept st p ts H).
  unfold kept_texts.
  destruct (survivors (token_type_of p) (is_absolute st p) [] ts);
    reflexivity.
Qed.

Lemma length_root_text st p : length (root_text st p) = get_root st p.
Proof.
  unfold root_text. rewrite length_firstn.
  pose proof (get_root_le_length st p). lia.
Qed.

Lemma buffer_prefix_0 buf : buffer_prefix buf 0 = [].
Proof. reflexivity. Qed.

(** With a buffer that holds it, [normalize] writes [normalized_text],
    terminated, and returns its length. *)
Lemma normalize_writes st p ts buf cap :
  chain st p (get_root st p) ts ->
  length (normalized_text st p ts) < cap ->
  exists buf',
    normalize st p buf cap = (length (normalized_text st p ts), buf')
    /\ buffer_prefix buf' (length (normalized_text st p ts))
       = normalized_text st p ts
    /\ buf' (length (normalized_text st p ts)) = NUL.
Proof.
  intros H Hcap. unfold normalize, join_and_normalize_multiple. cbn [nth].
  change (is_root_absolute st p (get_root st p)) with (is_absolute st p).
  pose proof (length_root_text st p) as Hr.
  assert (Hrc : 0 + get_root st p < cap).
  { unfold normalized_text in Hcap. destruct ts as [|t post].
    - lia.
    - destruct (kept_texts st p (t :: post)).
      + destruct (Nat.eqb_spec (get_root st p) 0); [lia|]. lia.
      + rewrite length_app in Hcap. lia. }
  pose proof (output_sized_fits buf cap 0 p 0 (get_root st p) Hrc) as P0.
  destruct (output_sized buf cap 0 p 0 (get_root st p)) as [n0 b0].
  cbn [snd] in P0. rewrite buffer_prefix_0, bytes_at_root in P0.
  cbn [app Nat.add] in P0.
  rewrite (single_first st p ts H). destruct ts as [|t post]; cbn [negb].
  - unfold normalized_text in *. rewrite Hr in *.
    destruct (terminate_output_fits b0 cap (get_root st p)) as [T1 T2];
      [lia|].
    eexists. split; [reflexivity|]. split; [|exact T2].
    rewrite T1. exact P0.
  - pose proof (single_kept_texts st p (t :: post) H) as HK.
    pose proof (single_kept_any st p (t :: post) H) as HE.
    cbn [map] in HK, HE.
    destruct (join_loop_walk st (is_absolute st p) cap
                (token_position [p] 0 (get_root st p) t)
                (map (token_position [p] 0 (get_root st p)) post)
                (single_walk_forward st p post [] t H)
                (stream_fuel [p]) (get_root st p) false b0)
      as (b1 & E1 & P1).
    + rewrite length_map. apply (single_token_count st p t post H).
    + rewrite HK. unfold normalized_text in Hcap.
      destruct (kept_texts st p (t :: post)).
      * cbn [render length]. lia.
      * rewrite length_app in Hcap. lia.
    + rewrite E1. rewrite HK in *. rewrite HE. cbn [orb].
      unfold normalized_text in *.
      destruct (kept_texts st p (t :: post)) as [|k K].
      * cbn [render length negb andb] in *. rewrite Nat.add_0_r in *.
        rewrite app_nil_r in P1.
        destruct (Nat.eqb_spec (get_root st p) 0) as [E0|N0].
        -- rewrite E0 in *. unfold output_current.
           pose proof (output_sized_fits b1 cap 0 (lit ".") 0 1) as P2.
           destruct (output_sized b1 cap 0 (lit ".") 0 1) as [n2 b2] eqn:E2.
           assert (n2 = 1) by (unfold output_sized in E2; congruence).
           subst n2. cbn [snd] in P2. cbn [length lit list_ascii_of_string]
             in Hcap |- *.
           destruct (terminate_output_fits b2 cap 1) as [T1 T2]; [lia|].
           cbn [Nat.add]. eexists. split; [reflexivity|].
           split; [|exact T2].
           rewrite T1. cbn [Nat.add] in P2. rewrite P2 by lia.
           reflexivity.
        -- rewrite Hr in *.
           destruct (terminate_output_fits b1 cap (get_root st p))
             as [T1 T2]; [lia|].
           eexists. split; [reflexivity|]. split; [|exact T2].
           rewrite T1, P1. exact P0.
      * cbn [negb andb]. rewrite length_app, Hr in *.
        destruct (terminate_output_fits b1 cap
                    (get_root st p + length (render st false (k :: K))))
          as [T1 T2]; [lia|].
        eexists. split; [reflexivity|]. split; [|exact T2].
        rewrite T1, P1, P0. reflexivity.
Qed.

(** ** The shape of what the resolver keeps *)

Lemma counter_goes_negative_normals l :
  Forall (fun t => t = CWK_NORMAL) l ->
  forall c, counter_goes_negative l c = false.
Proof.
  induction 1 as [|t l Ht _ IH]; intros c; [reflexivity|].
  subst t. cbn [counter_goes_negative]. apply IH.
Qed.

Lemma counter_goes_positive_backs l :
  Forall (fun t => t = CWK_BACK) l ->
  forall c, counter_goes_positive l c = false.
Proof.
  induction 1 as [|t l Ht _ IH]; intros c; [reflexivity|].
  subst t. cbn [counter_goes_positive]. apply IH.
Qed.

Lemma counter_goes_positive_rises :
  forall l X c, (c <= 0)%Z -> (0 < c + balance l)%Z ->
    counter_goes_positive (l ++ X) c = true.
Proof.
  induction l as [|t l IH]; intros X c Hc Hb; cbn [balance] in Hb; [lia|].
  cbn [app counter_goes_positive]. destruct t.
  - destruct (Z.ltb_spec 0 (c + 1)); [reflexivity|]. apply IH; lia.
  - apply IH; lia.
  - apply IH; lia.
Qed.

Lemma Forall_map_eq {A B : Type} (f : A -> B) (v : B) l :
  Forall (fun x => f x = v) l -> Forall (fun t => t = v) (map f l).
Proof. induction 1; cbn [map]; constructor; assumption. Qed.

(** After a Normal segment that survives, only Normal segments survive:
    a later Back segment finds, behind itself, more Normal than Back
    segments. *)
Lemma survivors_after_kept_normal {A : Type} (ty : A -> cwk_segment_type) :
  forall rest behind l X c,
    (0 <= c)%Z ->
    counter_goes_negative (map ty rest) c = false ->
    map ty behind = l ++ X -> (c + 1 <= balance l)%Z ->
    Forall (fun x => ty x = CWK_NORMAL) (survivors ty false behind rest).
Proof.
  induction rest as [|x rest IH]; intros behind l X c Hc Hn Hb Hl;
    [constructor|].
  cbn [survivors map counter_goes_negative] in *.
  destruct (ty x) eqn:Ex.
  - apply Forall_app. split.
    + destruct (elided_by_rule _ _ _ _); constructor; [exact Ex|constructor].
    + apply (IH (x :: behind) (CWK_NORMAL :: l) X (c + 1)%Z); try lia.
      * exact Hn.
      * cbn [map app]. rewrite Ex, Hb. reflexivity.
      * cbn [balance]. lia.
  - cbn [elided_by_rule app].
    apply (IH (x :: behind) (CWK_CURRENT :: l) X c); try lia.
    + exact Hn.
    + cbn [map app]. rewrite Ex, Hb. reflexivity.
    + cbn [balance]. lia.
  - destruct (Z.ltb_spec (c - 1) 0); [discriminate|].
    cbn [elided_by_rule]. rewrite Hb.
    rewrite counter_goes_positive_rises by lia. cbn [app].
    apply (IH (x :: behind) (CWK_BACK :: l) X (c - 1)%Z); try lia.
    + exact Hn.
    + cbn [map app]. rewrite Ex, Hb. reflexivity.
    + cbn [balance]. lia.
Qed.

Lemma survivors_shape {A : Type} (ty : A -> cwk_segment_type) :
  forall l behind, backs_then_normals ty (survivors ty false behind l).
Proof.
  induction l as [|x l IH]; intros behind.
  - exists [], []. split; [reflexivity|]. split; constructor.
  - cbn [survivors]. destruct (ty x) eqn:Ex; cbn [elided_by_rule].
    + destruct (counter_goes_negative (map ty l) 0) eqn:En;
        cbn [app]; [apply IH|].
      exists [], (x :: survivors ty false (x :: behind) l).
      split; [reflexivity|]. split; [constructor|].
      constructor; [exact Ex|].
      apply (survivors_after_kept_normal ty l (x :: behind)
               [CWK_NORMAL] (map ty behind) 0%Z); try lia.
      * exact En.
      * cbn [map app]. rewrite Ex. reflexivity.
      * cbn [balance]. lia.
    + cbn [app]. apply IH.
    + destruct (counter_goes_positive (map ty behind) 0); cbn [app];
        [apply IH|].
      destruct (IH (x :: behind)) as (a & b & E & Ha & Hb).
      exists (x :: a), b. rewrite E. split; [reflexivity|].
      split; [constructor; assumption|assumption].
Qed.

Lemma survivors_normals {A : Type} (ty : A -> cwk_segment_type) absolute :
  forall l behind,
    Forall (fun x => ty x = CWK_NORMAL) l ->
    survivors ty absolute behind l = l.
Proof.
  induction l as [|x l IH]; intros behind H; [reflexivity|].
  inversion H as [|? ? Hx Hl]; subst. cbn [survivors].
  rewrite Hx. cbn [elided_by_rule].
  rewrite counter_goes_negative_normals by (apply Forall_map_eq, Hl).
  cbn [app]. f_equal. apply IH, Hl.
Qed.

Lemma survivors_backs_then_normals {A : Type} (ty : A -> cwk_segment_type) :
  forall a b behind,
    Forall (fun x => ty x = CWK_BACK) behind ->
    Forall (fun x => ty x = CWK_BACK) a ->
    Forall (fun x => ty x = CWK_NORMAL) b ->
    survivors ty false behind (a ++ b) = a ++ b.
Proof.
  induction a as [|x a IH]; intros b behind Hbehind Ha Hb.
  - apply survivors_normals, Hb.
  - inversion Ha as [|? ? Hx Ha']; subst. cbn [app survivors].
    rewrite Hx. cbn [elided_by_rule].
    rewrite counter_goes_positive_backs by (apply Forall_map_eq, Hbehind).
    cbn [app]. f_equal. apply IH; try assumption.
    constructor; assumption.
Qed.

Lemma survivors_absolute_normal {A : Type} (ty : A -> cwk_segment_type) :
  forall l behind,
    Forall (fun x => ty x = CWK_NORMAL) (survivors ty true behind l).
Proof.
  induction l as [|x l IH]; intros behind; [constructor|].
  cbn [survivors]. apply Forall_app. split; [|apply IH].
  destruct (ty x) eqn:Ex; cbn [elided_by_rule]; try constructor.
  destruct (counter_goes_negative (map ty l) 0); constructor;
    [exact Ex|constructor].
Qed.

(** What survives normalization survives it again. *)
Lemma survivors_idempotent {A : Type} (ty : A -> cwk_segment_type)
  absolute l :
  survivors ty absolute [] (survivors ty absolute [] l)
  = survivors ty absolute [] l.
Proof.
  destruct absolute.
  - apply survivors_normals, survivors_absolute_normal.
  - destruct (survivors_shape ty l []) as (a & b & E & Ha & Hb).
    rewrite E. apply survivors_backs_then_normals; try assumption.
    constructor.
Qed.

(** ** Reading back a rendered text *)

Lemma deref_app_r a b i : deref (a ++ b) (length a + i) = deref b i.
Proof. unfold deref. rewrite app_nth2_plus. reflexivity. Qed.

Lemma deref_app_l a b i : i < length a -> deref (a ++ b) i = deref a i.
Proof. intros H. unfold deref. apply app_nth1, H. Qed.

Lemma deref_end a : deref a (length a) = NUL.
Proof. unfold deref. apply nth_overflow. lia. Qed.

Lemma output_separator_char_is_separator st :
  is_separator st (output_separator_char st) = true.
Proof. destruct st; reflexivity. Qed.

Lemma render_head_not_regular st rest :
  regular st (deref (render st true rest) 0) = false.
Proof.
  destruct rest as [|t rest]; cbn [render].
  - reflexivity.
  - cbn [app]. apply separator_not_regular.
    apply output_separator_char_is_separator.
Qed.

Lemma segment_text_regs st pre t post :
  segment_text st t ->
  regs st (pre ++ t ++ post) (length pre) (length pre + length t).
Proof.
  intros [_ H] i Hi. replace i with (length pre + (i - length pre)) by lia.
  rewrite deref_app_r, deref_app_l by lia.
  rewrite Forall_forall in H. apply H. apply nth_In. lia.
Qed.

Lemma chain_render st :
  forall texts pre hso,
    Forall (segment_text st) texts ->
    chain st (pre ++ render st hso texts) (length pre)
      (layout (length pre) hso texts).
Proof.
  induction texts as [|t rest IH]; intros pre hso Hall.
  - cbn [render layout chain]. exists (length pre). split; [lia|].
    split; [intros i Hi; lia|].
    rewrite app_nil_r, deref_end. reflexivity.
  - inversion Hall as [|? ? Ht Hrest]; subst.
    cbn [render layout chain].
    set (gap := if hso then [output_separator_char st] else []).
    assert (Hb : (if hso then S (length pre) else length pre)
                 = length (pre ++ gap)).
    { rewrite length_app. unfold gap. destruct hso; cbn [length]; lia. }
    rewrite Hb.
    assert (Hs : pre ++ gap ++ t ++ render st true rest
                 = (pre ++ gap) ++ t ++ render st true rest)
      by (rewrite <- app_assoc; reflexivity).
    rewrite Hs. splits.
    + rewrite length_app. lia.
    + intros i Hi. rewrite length_app in Hi. unfold gap in *.
      destruct hso; cbn [length] in Hi; [|lia].
      assert (i = length pre) by lia. subst i.
      rewrite <- app_assoc. rewrite <- (Nat.add_0_r (length pre)).
      rewrite deref_app_r. cbn [app]. unfold deref. cbn [nth].
      apply output_separator_char_is_separator.
    + destruct Ht as [Hne _]. destruct t; [contradiction|].
      cbn [length]. lia.
    + apply segment_text_regs, Ht.
    + rewrite app_assoc, <- length_app.
      rewrite <- (Nat.add_0_r (length ((pre ++ gap) ++ t))).
      rewrite deref_app_r. apply render_head_not_regular.
    + specialize (IH ((pre ++ gap) ++ t) true Hrest).
      rewrite length_app in IH. rewrite <- app_assoc in IH. exact IH.
Qed.

Lemma slice_app pre t post :
  slice (pre ++ t ++ post) (length pre) (length pre + length t) = t.
Proof.
  unfold slice. replace (length pre + length t - length pre)
    with (length t) by lia.
  rewrite skipn_app, skipn_all, Nat.sub_diag. cbn [app skipn].
  rewrite firstn_app, firstn_all, Nat.sub_diag. cbn [firstn].
  apply app_nil_r.
Qed.

Lemma layout_texts st :
  forall texts pre hso,
    map (token_text (pre ++ render st hso texts))
      (layout (length pre) hso texts)
    = texts.
Proof.
  induction texts as [|t rest IH]; intros pre hso; [reflexivity|].
  cbn [render layout map].
  set (gap := if hso then [output_separator_char st] else []).
  assert (Hb : (if hso then S (length pre) else length pre)
               = length (pre ++ gap)).
  { rewrite length_app. unfold gap. destruct hso; cbn [length]; lia. }
  rewrite Hb.
  assert (Hs : pre ++ gap ++ t ++ render st true rest
               = (pre ++ gap) ++ t ++ render st true rest)
    by (rewrite <- app_assoc; reflexivity).
  rewrite Hs. f_equal.
  - unfold token_text. cbn [fst snd]. apply slice_app.
  - specialize (IH ((pre ++ gap) ++ t) true).
    rewrite length_app in IH. rewrite <- app_assoc in IH. exact IH.
Qed.

(** ** The root of a text that starts with the root of [p] *)

Lemma not_regular_not_separator_nul st ch :
  regular st ch = false -> is_separator st ch = false -> ch = NUL.
Proof.
  unfold regular. intros H Hs. rewrite Hs in H. cbn in H.
  rewrite andb_true_r in H. apply negb_false_iff in H.
  apply is_nul_true, H.
Qed.

Lemma regular_NUL st : regular st NUL = false.
Proof. reflexivity. Qed.

Lemma unc_tail_stable st p s c :
  (forall i, i < unc_tail st p c -> deref s i = deref p i) ->
  (deref s (unc_tail st p c) = NUL
   \/ regular st (deref s (unc_tail st p c)) = true
      /\ is_nul (deref p (unc_tail st p c)) = false) ->
  unc_tail st s c = unc_tail st p c.
Proof.
  unfold unc_tail.
  destruct (find_next_stop_spec st p c) as (L1 & R1 & S1).
  set (c1 := find_next_stop st p c) in *.
  destruct (skip_separators_spec st p c1) as (L2 & R2 & S2).
  set (c2 := skip_separators st p c1) in *.
  destruct (find_next_stop_spec st p c2) as (L3 & R3 & S3).
  set (c3 := find_next_stop st p c2) in *.
  destruct (is_separator st (deref p c3)) eqn:E3; intros Hagree Hend.
  - assert (A1 : find_next_stop st s c = c1).
    { apply find_next_stop_unique; [exact L1| |].
      - intros i Hi. rewrite Hagree by lia. apply R1, Hi.
      - rewrite Hagree by lia. exact S1. }
    rewrite A1.
    assert (A2 : skip_separators st s c1 = c2).
    { apply skip_separators_unique; [exact L2| |].
      - intros i Hi. rewrite Hagree by lia. apply R2, Hi.
      - rewrite Hagree by lia. exact S2. }
    rewrite A2.
    assert (A3 : find_next_stop st s c2 = c3).
    { apply find_next_stop_unique; [exact L3| |].
      - intros i Hi. rewrite Hagree by lia. apply R3, Hi.
      - rewrite Hagree by lia. exact S3. }
    rewrite A3, Hagree by lia. rewrite E3. reflexivity.
  - pose proof (not_regular_not_separator_nul st _ S3 E3) as Hnul.
    assert (Hs : deref s c3 = NUL).
    { destruct Hend as [H|[_ H]]; [exact H|].
      rewrite Hnul in H. discriminate. }
    assert (Hat : forall i, i <= c3 ->
              regular st (deref s i) = regular st (deref p i)
              /\ is_separator st (deref s i) = is_separator st (deref p i)).
    { intros i Hi. destruct (Nat.eq_dec i c3) as [->|].
      - rewrite Hs, Hnul. auto.
      - rewrite Hagree by lia. auto. }
    assert (A1 : find_next_stop st s c = c1).
    { apply find_next_stop_unique; [exact L1| |].
      - intros i Hi. rewrite Hagree by lia. apply R1, Hi.
      - destruct (Hat c1) as [-> _]; [lia|exact S1]. }
    rewrite A1.
    assert (A2 : skip_separators st s c1 = c2).
    { apply skip_separators_unique; [exact L2| |].
      - intros i Hi. rewrite Hagree by lia. apply R2, Hi.
      - destruct (Hat c2) as [_ ->]; [lia|exact S2]. }
    rewrite A2.
    assert (A3 : find_next_stop st s c2 = c3).
    { apply find_next_stop_unique; [exact L3| |].
      - intros i Hi. rewrite Hagree by lia. apply R3, Hi.
      - rewrite Hs. apply regular_NUL. }
    rewrite A3, Hs, is_separator_NUL. reflexivity.
Qed.

Lemma unc_tail_ge st p c : c <= unc_tail st p c.
Proof.
  unfold unc_tail.
  destruct (find_next_stop_spec st p c) as (L1 & _).
  destruct (skip_separators_spec st p (find_next_stop st p c)) as (L2 & _).
  destruct (find_next_stop_spec st p
              (skip_separators st p (find_next_stop st p c))) as (L3 & _).
  destruct (is_separator st _); lia.
Qed.

(** The last byte of a UNC root that stops where it started is the byte
    before it. *)
Lemma unc_tail_at_start st p c :
  unc_tail st p c = c -> deref p c = NUL.
Proof.
  unfold unc_tail.
  destruct (find_next_stop_spec st p c) as (L1 & _ & S1).
  set (c1 := find_next_stop st p c) in *.
  destruct (skip_separators_spec st p c1) as (L2 & _ & S2).
  set (c2 := skip_separators st p c1) in *.
  destruct (find_next_stop_spec st p c2) as (L3 & _ & S3).
  set (c3 := find_next_stop st p c2) in *.
  destruct (is_separator st (deref p c3)) eqn:E3; intros H; [lia|].
  assert (c3 = c) by lia. rewrite <- H.
  apply (not_regular_not_separator_nul st); assumption.
Qed.

Lemma end_not_separator st p s r :
  (deref s r = NUL
   \/ regular st (deref s r) = true /\ is_nul (deref p r) = false) ->
  is_separator st (deref s r) = false.
Proof.
  intros [H|[H _]].
  - rewrite H. apply is_separator_NUL.
  - apply (regular_not_separator st), H.
Qed.

Lemma colon_not_separator st : is_separator st ":" = false.
Proof. destruct st; reflexivity. Qed.

Lemma get_root_windows_stable st p s :
  0 < get_root_windows st p ->
  is_separator st (deref p (get_root_windows st p - 1)) = true ->
  (forall i, i < get_root_windows st p -> deref s i = deref p i) ->
  (deref s (get_root_windows st p) = NUL
   \/ regular st (deref s (get_root_windows st p)) = true
      /\ is_nul (deref p (get_root_windows st p)) = false) ->
  get_root_windows st s = get_root_windows st p.
Proof.
  rewrite (get_root_windows_unfold st s), (get_root_windows_unfold st p).
  destruct (is_nul (deref p 0)) eqn:E0; [lia|].
  destruct (is_separator st (deref p 0)) eqn:S0.
  - destruct (is_separator st (deref p 1)) eqn:S1; cbn [negb].
    + destruct (Ascii.eqb (deref p 2) "?" || Ascii.eqb (deref p 2) ".")
        eqn:M.
      * destruct (is_separator st (deref p 3)) eqn:S3;
          intros Hpos Habs Hagree Hend.
        -- rewrite !Hagree by lia. rewrite E0, S0, S1, M, S3. reflexivity.
        -- pose proof (unc_tail_ge st p 3) as Hge.
           rewrite !(Hagree 0), !(Hagree 1), !(Hagree 2) by lia.
           rewrite E0, S0, S1, M. cbn [negb].
           assert (H3 : is_separator st (deref s 3) = false).
           { destruct (Nat.eq_dec (unc_tail st p 3) 3) as [E|N].
             - rewrite E in Hend. apply (end_not_separator st p), Hend.
             - rewrite Hagree by lia. exact S3. }
           rewrite H3. apply unc_tail_stable; assumption.
      * intros Hpos Habs Hagree Hend.
        pose proof (unc_tail_ge st p 2) as Hge.
        rewrite !(Hagree 0), !(Hagree 1) by lia.
        rewrite E0, S0, S1. cbn [negb].
        assert (H2 : Ascii.eqb (deref s 2) "?" || Ascii.eqb (deref s 2) "."
                     = false).
        { destruct (Nat.eq_dec (unc_tail st p 2) 2) as [E|N].
          - pose proof (unc_tail_at_start st p 2 E) as Hp.
            rewrite E in Hend. destruct Hend as [H|[_ H]].
            + rewrite H. reflexivity.
            + rewrite Hp in H. discriminate.
          - rewrite Hagree by lia. exact M. }
        rewrite H2. apply unc_tail_stable; assumption.
    + intros Hpos Habs Hagree Hend.
      rewrite !(Hagree 0) by lia. rewrite E0, S0.
      rewrite (end_not_separator st p s 1 Hend). reflexivity.
  - destruct (Ascii.eqb (deref p 1) ":") eqn:C1; [|lia].
    destruct (is_separator st (deref p 2)) eqn:S2;
      intros Hpos Habs Hagree Hend.
    + rewrite !Hagree by lia. rewrite E0, S0, C1, S2. reflexivity.
    + cbn [Nat.sub] in Habs. apply Ascii.eqb_eq in C1.
      rewrite C1, colon_not_separator in Habs. discriminate.
Qed.

Lemma deref_root_text st p body i :
  i < get_root st p -> deref (root_text st p ++ body) i = deref p i.
Proof.
  intros Hi. rewrite deref_app_l by (rewrite length_root_text; exact Hi).
  unfold root_text, deref. rewrite nth_firstn.
  destruct (Nat.ltb_spec i (get_root st p)); [reflexivity|lia].
Qed.

Lemma deref_after_root_text st p body :
  deref (root_text st p ++ body) (get_root st p) = deref body 0.
Proof.
  replace (get_root st p) with (length (root_text st p) + 0)
    by (rewrite length_root_text; lia).
  apply deref_app_r.
Qed.

(** The root of an absolute path is the root of every text that starts
    with it and goes on with a segment byte or ends there. *)
Lemma get_root_stable_absolute st p body :
  is_absolute st p = true ->
  (deref body 0 = NUL
   \/ regular st (deref body 0) = true
      /\ is_nul (deref p (get_root st p)) = false) ->
  get_root st (root_text st p ++ body) = get_root st p.
Proof.
  intros Habs Hend.
  pose proof (deref_after_root_text st p body) as Hat.
  pose proof (deref_root_text st p body) as Hin.
  unfold is_absolute, is_root_absolute in Habs.
  destruct (Nat.eqb_spec (get_root st p) 0) as [|Hne]; [discriminate|].
  destruct st; unfold get_root in *.
  - apply get_root_windows_stable.
    + lia.
    + exact Habs.
    + exact Hin.
    + rewrite Hat. exact Hend.
  - unfold get_root_unix in *.
    destruct (is_separator CWK_STYLE_UNIX (deref p 0)) eqn:E;
      [|contradiction].
    rewrite Hin by lia. rewrite E. reflexivity.
Qed.

(** ** The segments of a normalized text *)

Lemma normalized_text_body st p ts :
  normalized_text st p ts
  = root_text st p ++ render st false (body_texts st p ts).
Proof.
  unfold normalized_text, body_texts. destruct ts as [|t post].
  - cbn [render]. rewrite app_nil_r. reflexivity.
  - destruct (kept_texts st p (t :: post)) as [|k K]; [|reflexivity].
    destruct (Nat.eqb_spec (get_root st p) 0) as [E|N].
    + unfold root_text. rewrite E. cbn [firstn render app].
      rewrite app_nil_r. reflexivity.
    + cbn [render]. rewrite app_nil_r. reflexivity.
Qed.

Lemma chain_token_text_ok st p c ts t :
  chain st p c ts -> In t ts -> segment_text st (token_text p t).
Proof.
  intros H Hin. apply in_split in Hin. destruct Hin as (pre & post & ->).
  destruct (chain_token_ok st p c pre t post H) as [Hok _].
  destruct Hok as (_ & Hbe & _ & Hregs & _). destruct t as [b e].
  cbn [token_segment path begin end_ fst snd] in *.
  unfold token_text. cbn [fst snd].
  rewrite <- (bytes_at_slice st p b e Hregs Hbe). split.
  - intros E. apply (f_equal (@length ascii)) in E.
    rewrite length_bytes_at in E. cbn [length] in E. lia.
  - unfold bytes_at. apply Forall_forall. intros ch Hch.
    apply in_map_iff in Hch. destruct Hch as (k & <- & Hk).
    apply in_seq in Hk. apply Hregs. lia.
Qed.

Lemma kept_texts_ok st p ts :
  chain st p (get_root st p) ts ->
  Forall (segment_text st) (kept_texts st p ts).
Proof.
  intros H. unfold kept_texts. apply Forall_forall. intros x Hx.
  apply in_map_iff in Hx. destruct Hx as (t & <- & Ht).
  apply (chain_token_text_ok st p _ ts t H).
  apply (survivors_incl _ _ _ _ _ Ht).
Qed.

Lemma dot_is_segment_text st : segment_text st (lit ".").
Proof.
  split; [discriminate|]. constructor; [|constructor].
  destruct st; reflexivity.
Qed.

Lemma body_texts_ok st p ts :
  chain st p (get_root st p) ts ->
  Forall (segment_text st) (body_texts st p ts).
Proof.
  intros H. pose proof (kept_texts_ok st p ts H) as HK.
  unfold body_texts. destruct ts as [|t post]; [constructor|].
  destruct (kept_texts st p (t :: post)) as [|k K]; [|exact HK].
  destruct (get_root st p =? 0); [|constructor].
  constructor; [apply dot_is_segment_text|constructor].
Qed.

(** Reading the normalized text back, from the root of [p] on. *)
Lemma chain_normalized_text st p ts :
  chain st p (get_root st p) ts ->
  chain st (normalized_text st p ts) (get_root st p)
    (layout (get_root st p) false (body_texts st p ts))
  /\ map (token_text (normalized_text st p ts))
       (layout (get_root st p) false (body_texts st p ts))
     = body_texts st p ts.
Proof.
  intros H. rewrite normalized_text_body.
  pose proof (chain_render st (body_texts st p ts) (root_text st p) false
                (body_texts_ok st p ts H)) as C.
  pose proof (layout_texts st (body_texts st p ts) (root_text st p) false)
    as L.
  rewrite length_root_text in C, L. split; assumption.
Qed.

Lemma iterated_tokens st s ts seg :
  chain st s (get_root st s) ts -> iterated st s seg ->
  exists pre t post,
    ts = pre ++ t :: post /\ seg = token_segment s (get_root st s) t.
Proof.
  intros H. induction 1 as [seg E|seg seg' _ IH E].
  - unfold get_first_segment in E. rewrite (chain_first st s _ ts H) in E.
    destruct ts as [|t post]; [discriminate|].
    inversion E; subst seg. exists [], t, post. auto.
  - destruct IH as (pre & t & post & -> & ->).
    destruct (chain_token_ok st s _ pre t post H) as [Hok Hch].
    destruct Hok as (_ & Hbe & _ & _ & Hstop & _).
    cbn [token_segment path begin end_] in Hbe, Hstop.
    rewrite (chain_next st s _ t post Hbe Hstop Hch) in E.
    destruct post as [|t' post]; [discriminate|].
    inversion E; subst seg'. exists (pre ++ [t]), t', post.
    rewrite <- app_assoc. auto.
Qed.

Lemma iterated_type st s ts seg :
  chain st s (get_root st s) ts -> iterated st s seg ->
  exists t, In t ts /\ get_segment_type seg = classify (token_text s t).
Proof.
  intros H Hit.
  destruct (iterated_tokens st s ts seg H Hit) as (pre & t & post & -> & ->).
  exists t. split; [apply in_or_app; right; left; reflexivity|].
  destruct (chain_token_ok st s _ pre t post H) as [Hok _].
  destruct Hok as (_ & Hbe & _ & Hregs & _). destruct t as [b e].
  apply (token_type st); assumption.
Qed.

(** ** No two separators in a row in a rendered text *)

Lemma render_no_double_from_text st :
  forall T i,
    Forall (segment_text st) T ->
    is_separator st (deref (render st false T) i)
    && is_separator st (deref (render st false T) (S i)) = false
    /\ is_separator st (deref (render st false T) 0) = false.
Proof.
  induction T as [|t rest IH]; intros i HT.
  - cbn [render]. unfold deref. destruct i; cbn [nth];
      rewrite is_separator_NUL; auto.
  - inversion HT as [|? ? Ht Hrest]; subst. cbn [render app].
    destruct Ht as [Hne Hreg]. rewrite Forall_forall in Hreg.
    assert (Hin : forall j, j < length t ->
              is_separator st (deref (t ++ render st true rest) j) = false).
    { intros j Hj. rewrite deref_app_l by exact Hj.
      apply (regular_not_separator st), Hreg, nth_In, Hj. }
    assert (Hlen : 0 < length t) by (destruct t; [contradiction|cbn; lia]).
    split; [|apply Hin, Hlen].
    destruct (Nat.lt_ge_cases i (length t)) as [Hlt|Hge].
    + rewrite (Hin i Hlt). reflexivity.
    + replace i with (length t + (i - length t)) by lia.
      replace (S (length t + (i - length t)))
        with (length t + S (i - length t)) by lia.
      rewrite !deref_app_r.
      destruct rest as [|t2 rest2].
      * cbn [render]. unfold deref. destruct (i - length t); cbn [nth];
          rewrite is_separator_NUL; reflexivity.
      * cbn [render app].
        destruct (i - length t) as [|j] eqn:Ej.
        -- destruct (IH 0 Hrest) as [_ H0]. cbn [render app] in H0.
           unfold deref at 2. cbn [nth]. fold (deref (t2 ++ render st true rest2) 0).
           rewrite H0. apply andb_false_r.
        -- destruct (IH j Hrest) as [Hj _]. cbn [render app] in Hj.
           unfold deref. cbn [nth]. exact Hj.
Qed.

(** ** Normalized absolute paths *)

Lemma normalize_result st p ts buf cap :
  chain st p (get_root st p) ts ->
  fst (normalize st p buf cap) < cap ->
  fst (normalize st p buf cap) = length (normalized_text st p ts)
  /\ buffer_prefix (snd (normalize st p buf cap))
       (fst (normalize st p buf cap))
     = normalized_text st p ts
  /\ snd (normalize st p buf cap) (fst (normalize st p buf cap)) = NUL.
Proof.
  intros H Hcap.
  destruct (normalize_writes st p ts buf
              (S (length (normalized_text st p ts))) H
              (Nat.lt_succ_diag_r _)) as (b' & E' & _).
  pose proof (join_and_normalize_multiple_measures st [p] buf buf cap
                (S (length (normalized_text st p ts)))) as HM.
  fold (normalize st p buf cap) in HM.
  fold (normalize st p buf (S (length (normalized_text st p ts)))) in HM.
  rewrite E' in HM. cbn [fst] in HM.
  rewrite HM in Hcap.
  destruct (normalize_writes st p ts buf cap H Hcap) as (b & E & P & T).
  rewrite E. cbn [fst snd]. auto.
Qed.

Lemma chain_start_not_nul st s c t ts :
  chain st s c (t :: ts) -> is_nul (deref s c) = false.
Proof.
  destruct t as [b e]. cbn [chain].
  intros (Hle & Hseps & Hbe & Hregs & _).
  destruct (Nat.eq_dec c b) as [->|Hne].
  - apply (regular_not_nul st), Hregs. lia.
  - apply (is_separator_not_nul st), Hseps. lia.
Qed.

Lemma absolute_root_not_0 st p : is_absolute st p = true -> get_root st p <> 0.
Proof.
  unfold is_absolute, is_root_absolute.
  destruct (Nat.eqb_spec (get_root st p) 0); [discriminate|auto].
Qed.



Lemma render_head st k K :
  segment_text st k ->
  regular st (deref (render st false (k :: K)) 0) = true.
Proof.
  intros [Hne Hreg]. cbn [render app]. destruct k as [|ch k]; [contradiction|].
  inversion Hreg; subst. assumption.
Qed.

Lemma get_root_normalized_absolute st p ts :
  chain st p (get_root st p) ts -> is_absolute st p = true ->
  get_root st (normalized_text st p ts) = get_root st p.
Proof.
  intros H Habs. rewrite normalized_text_body.
  apply get_root_stable_absolute; [exact Habs|].
  pose proof (body_texts_ok st p ts H) as Hok.
  destruct (body_texts st p ts) as [|k K] eqn:E; [left; reflexivity|right].
  inversion Hok; subst. split.
  - apply render_head; assumption.
  - destruct ts as [|t post]; [discriminate|].
    apply (chain_start_not_nul st p _ t post H).
Qed.

Lemma no_double_separator_after_root st p T i :
  Forall (segment_text st) T ->
  get_root st p <= S i ->
  is_separator st (deref (root_text st p ++ render st false T) i)
  && is_separator st (deref (root_text st p ++ render st false T) (S i))
  = false.
Proof.
  intros HT Hi.
  destruct (Nat.eq_dec (S i) (get_root st p)) as [E|N].
  - rewrite E, deref_after_root_text.
    destruct (render_no_double_from_text st T 0 HT) as [_ H0].
    rewrite H0. apply andb_false_r.
  - replace i with (length (root_text st p) + (i - get_root st p))
      by (rewrite length_root_text; lia).
    replace (S (length (root_text st p) + (i - get_root st p)))
      with (length (root_text st p) + S (i - get_root st p)) by lia.
    rewrite !deref_app_r.
    apply (render_no_double_from_text st T _ HT).
Qed.


(** ** Normalizing a normalized text *)

Lemma survivors_map {A B : Type} (f : A -> B) (ty : B -> cwk_segment_type)
  absolute :
  forall l behind,
    map f (survivors (fun x => ty (f x)) absolute behind l)
    = survivors ty absolute (map f behind) (map f l).
Proof.
  induction l as [|x l IH]; intros behind; [reflexivity|].
  cbn [survivors map]. rewrite map_app, (IH (x :: behind)), !map_map.
  cbn [map]. destruct (elided_by_rule _ _ _ _); reflexivity.
Qed.

Lemma kept_texts_survivors st p ts :
  kept_texts st p ts
  = survivors classify (is_absolute st p) [] (map (token_text p) ts).
Proof.
  unfold kept_texts, token_type_of.
  apply (survivors_map (token_text p) classify (is_absolute st p) ts []).
Qed.

Lemma get_root_normalized_unix p ts :
  chain CWK_STYLE_UNIX p (get_root CWK_STYLE_UNIX p) ts ->
  get_root CWK_STYLE_UNIX (normalized_text CWK_STYLE_UNIX p ts)
  = get_root CWK_STYLE_UNIX p.
Proof.
  intros H. rewrite normalized_text_body.
  pose proof (body_texts_ok _ p ts H) as Hok.
  pose proof (deref_root_text CWK_STYLE_UNIX p
                (render CWK_STYLE_UNIX false (body_texts CWK_STYLE_UNIX p ts)))
    as Hin.
  pose proof (deref_after_root_text CWK_STYLE_UNIX p
                (render CWK_STYLE_UNIX false (body_texts CWK_STYLE_UNIX p ts)))
    as Hat.
  destruct (render_no_double_from_text CWK_STYLE_UNIX _ 0 Hok) as [_ H0].
  unfold get_root, get_root_unix in *.
  destruct (is_separator CWK_STYLE_UNIX (deref p 0)) eqn:E.
  - rewrite Hin by lia. rewrite E. reflexivity.
  - rewrite Hat, H0. reflexivity.
Qed.

Lemma root_text_normalized st p ts :
  get_root st (normalized_text st p ts) = get_root st p ->
  root_text st (normalized_text st p ts) = root_text st p.
Proof.
  intros Hroot. unfold root_text at 1. rewrite Hroot, normalized_text_body.
  rewrite <- (length_root_text st p) at 1.
  rewrite firstn_app, Nat.sub_diag, firstn_all. cbn [firstn].
  apply app_nil_r.
Qed.

Lemma is_absolute_normalized st p ts :
  get_root st (normalized_text st p ts) = get_root st p ->
  is_absolute st (normalized_text st p ts) = is_absolute st p.
Proof.
  intros Hroot. unfold is_absolute, is_root_absolute. rewrite Hroot.
  destruct (Nat.eqb_spec (get_root st p) 0) as [|N]; [reflexivity|].
  rewrite normalized_text_body, deref_root_text by lia. reflexivity.
Qed.

Lemma layout_nil c hso texts : layout c hso texts = [] -> texts = [].
Proof. destruct texts; [reflexivity|discriminate]. Qed.

(** The normalized text is what normalizing it gives. *)
Lemma normalized_text_fixed st p ts :
  chain st p (get_root st p) ts ->
  get_root st (normalized_text st p ts) = get_root st p ->
  normalized_text st (normalized_text st p ts)
    (layout (get_root st p) false (body_texts st p ts))
  = normalized_text st p ts.
Proof.
  intros H Hroot.
  destruct (chain_normalized_text st p ts H) as [_ Htexts].
  rewrite (normalized_text_body st (normalized_text st p ts)).
  rewrite (root_text_normalized st p ts Hroot).
  transitivity (root_text st p ++ render st false (body_texts st p ts));
    [|symmetry; apply normalized_text_body].
  f_equal. f_equal.
  unfold body_texts at 1. rewrite Hroot.
  destruct (layout (get_root st p) false (body_texts st p ts)) as [|t' ts']
    eqn:EL.
  - apply layout_nil in EL. rewrite EL. reflexivity.
  - rewrite kept_texts_survivors, Htexts.
    rewrite (is_absolute_normalized st p ts Hroot).
    unfold body_texts in *. destruct ts as [|t post]; [discriminate|].
    destruct (kept_texts st p (t :: post)) as [|k K] eqn:EK.
    + destruct (Nat.eqb_spec (get_root st p) 0) as [E0|N0];
        [|discriminate].
      assert (Hrel : is_absolute st p = false).
      { unfold is_absolute, is_root_absolute. rewrite E0. reflexivity. }
      rewrite Hrel. reflexivity.
    + rewrite <- EK, kept_texts_survivors, survivors_idempotent.
      rewrite <- kept_texts_survivors, EK. reflexivity.
Qed.

Lemma normalize_length st p ts buf cap :
  chain st p (get_root st p) ts ->
  fst (normalize st p buf cap) = length (normalized_text st p ts).
Proof.
  intros H.
  destruct (normalize_writes st p ts buf
              (S (length (normalized_text st p ts))) H
              (Nat.lt_succ_diag_r _)) as (b' & E' & _).
  pose proof (join_and_normalize_multiple_measures st [p] buf buf cap
                (S (length (normalized_text st p ts)))) as HM.
  fold (normalize st p buf cap) in HM.
  fold (normalize st p buf (S (length (normalized_text st p ts)))) in HM.
  rewrite E' in HM. exact HM.
Qed.

(** C2, as the code has it.  When the text [normalize] writes for [p]
    has a root as long as the root of [p] -- which is so for every path
    of the Unix style and for every absolute path of either style --
    normalizing that text again returns the same length and, into a
    buffer that holds it, writes the same text. *)
Theorem normalize_idempotent_when_root_is_kept (st : cwk_path_style)
  (p : list ascii) (buf buf2 : buffer) (cap cap2 : nat) :
  fst (normalize st p buf cap) < cap ->
  st = CWK_STYLE_UNIX \/ is_absolute st p = true
  \/ get_root st (buffer_prefix (snd (normalize st p buf cap))
                    (fst (normalize st p buf cap)))
     = get_root st p ->
  let out :=
    buffer_prefix (snd (normalize st p buf cap))
      (fst (normalize st p buf cap)) in
  fst (normalize st out buf2 cap2) = fst (normalize st p buf cap)
  /\ (fst (normalize st p buf cap) < cap2 ->
      buffer_prefix (snd (normalize st out buf2 cap2))
        (fst (normalize st out buf2 cap2)) = out
      /\ snd (normalize st out buf2 cap2) (fst (normalize st out buf2 cap2))
         = NUL).
Proof.
  intros Hcap Hcase.
  destruct (chain_exists st p (S (length p - get_root st p)) (get_root st p)
              (Nat.lt_succ_diag_r _)) as [ts H].
  destruct (normalize_result st p ts buf cap H Hcap) as (Hn & Hout & _).
  rewrite Hout in *. cbv zeta. rewrite Hn.
  assert (Hroot : get_root st (normalized_text st p ts) = get_root st p).
  { destruct Hcase as [->|[Habs|Hr]].
    - apply get_root_normalized_unix, H.
    - apply get_root_normalized_absolute; assumption.
    - exact Hr. }
  destruct (chain_normalized_text st p ts H) as [Hch _].
  rewrite <- Hroot in Hch at 1.
  pose proof (normalized_text_fixed st p ts H Hroot) as Hfix.
  pose proof (normalize_length st _ _ buf2 cap2 Hch) as Hlen.
  rewrite Hfix in Hlen. split; [exact Hlen|].
  intros Hcap2.
  assert (Hc : fst (normalize st (normalized_text st p ts) buf2 cap2) < cap2)
    by (rewrite Hlen; exact Hcap2).
  destruct (normalize_result st _ _ buf2 cap2 Hch Hc) as (_ & P & T).
  rewrite Hfix in P. auto.
Qed.

(** ** Concrete runs *)

(** [normalize] is not idempotent under the Windows style: the
    normalized form [C:.] of the relative path [./C:.] starts with a
    drive root, and normalizing it again drops the dot: the second
    result is [C:], of length 2 instead of 3. *)
Lemma normalize_not_idempotent_on_windows_drive_text :
  buffer_prefix
    (snd (normalize CWK_STYLE_WINDOWS (lit "./C:.") (fun _ => NUL) 16))
    (fst (normalize CWK_STYLE_WINDOWS (lit "./C:.") (fun _ => NUL) 16))
  = lit "C:."
  /\ fst (normalize CWK_STYLE_WINDOWS
            (buffer_prefix
               (snd (normalize CWK_STYLE_WINDOWS (lit "./C:.")
                       (fun _ => NUL) 16))
               (fst (normalize CWK_STYLE_WINDOWS (lit "./C:.")
                       (fun _ => NUL) 16)))
            (fun _ => NUL) 16)
     <> fst (normalize CWK_STYLE_WINDOWS (lit "./C:.") (fun _ => NUL) 16)
  /\ buffer_prefix
       (snd (normalize CWK_STYLE_WINDOWS (lit "C:.") (fun _ => NUL) 16))
       (fst (normalize CWK_STYLE_WINDOWS (lit "C:.") (fun _ => NUL) 16))
     = lit "C:".
Proof.
  split; [vm_compute; reflexivity|].
  split; [vm_compute; discriminate|vm_compute; reflexivity].
Qed.



Lemma segment_iterator_round_trip_witness :
  get_previous_segment CWK_STYLE_UNIX (mk_segment (lit "/a//b") 1 4 5 1)
  = (true, mk_segment (lit "/a//b") 1 1 2 1)
  /\ get_previous_segment CWK_STYLE_UNIX (mk_segment (lit "/a//b") 1 1 2 1)
     = (false, mk_segment (lit "/a//b") 1 1 2 1).
Proof.
  destruct (segment_iterator_round_trip CWK_STYLE_UNIX (lit "/a//b"))
    as [H1 H2].
  split.
  - apply H1; [apply iterated_first|]; reflexivity.
  - apply H2. reflexivity.
Defined.

Lemma normalize_idempotent_when_root_is_kept_witness :
  fst (normalize CWK_STYLE_UNIX
         (buffer_prefix
            (snd (normalize CWK_STYLE_UNIX (lit "a/./b/../c")
                    (fun _ => NUL) 16))
            (fst (normalize CWK_STYLE_UNIX (lit "a/./b/../c")
                    (fun _ => NUL) 16)))
         (fun _ => NUL) 16)
  = fst (normalize CWK_STYLE_UNIX (lit "a/./b/../c") (fun _ => NUL) 16).
Proof.
  apply (normalize_idempotent_when_root_is_kept CWK_STYLE_UNIX
           (lit "a/./b/../c") (fun _ => NUL) (fun _ => NUL) 16 16).
  - vm_compute. lia.
  - left. reflexivity.
Defined.


(** ** The tokens of a path, computed *)

Lemma chain_tokens_from st s :
  forall fuel c, length s - c < fuel ->
    chain st s c (tokens_from st s fuel c).
Proof.
  induction fuel as [|fuel IH]; intros c Hf; [lia|].
  cbn [tokens_from].
  destruct (skip_separators_spec st s c) as (Hle & Hseps & Hns).
  set (b := skip_separators st s c) in *.
  destruct (is_nul (deref s b)) eqn:En.
  - exists b. auto.
  - destruct (find_next_stop_spec st s b) as (Hle' & Hregs & Hstop).
    set (e := find_next_stop st s b) in *.
    assert (Hbe : b < e).
    { destruct (Nat.eq_dec b e) as [E|]; [|lia].
      rewrite <- E in Hstop. unfold regular in Hstop.
      rewrite En, Hns in Hstop. discriminate. }
    pose proof (not_nul_in_range s b En) as Hb.
    cbn [chain]. splits; try assumption. apply IH. lia.
Qed.

Lemma chain_tokens st p : chain st p (get_root st p) (tokens st p).
Proof. apply chain_tokens_from. lia. Qed.

(** ** Skipping the invisible positions *)

Lemma walk_forward_ok st sj rest :
  walk_forward st sj rest -> position_ok st sj ->
  Forall (fun x => position_ok st x /\ paths x = paths sj) rest.
Proof.
  induction 1 as [sj sj' E|sj sj' rest E _ IH]; intros Hok; [constructor|].
  destruct (get_next_segment_joined_true st sj sj' Hok E) as (Hok' & Hp & _).
  constructor; [auto|].
  specialize (IH Hok'). rewrite Forall_forall in *.
  intros x Hx. destruct (IH x Hx) as [A B]. split; [exact A|congruence].
Qed.

Lemma walk_forward_length st sj rest :
  walk_forward st sj rest -> position_ok st sj ->
  length rest < stream_fuel (paths sj).
Proof.
  intros Hw Hok.
  destruct (walk_forward_exists st (S (ahead_measure sj)) sj Hok
              (Nat.lt_succ_diag_r _)) as (l & Hl & Hlen).
  rewrite (walk_forward_unique st sj rest Hw l Hl).
  destruct (measures_below_fuel st sj Hok) as [Hm _]. lia.
Qed.

Lemma skip_invisible_loop_unfold st fuel sj absolute :
  skip_invisible_loop st fuel sj absolute =
  if segment_will_be_removed st sj absolute then
    let '(r, sj') := get_next_segment_joined st sj in
    if negb r then (false, sj')
    else
      match fuel with
      | 0 => (false, sj')
      | S fuel' => skip_invisible_loop st fuel' sj' absolute
      end
  else (true, sj).
Proof. destruct fuel; reflexivity. Qed.

Lemma skip_invisible_loop_walk st absolute sj rest :
  walk_forward st sj rest ->
  forall fuel, length rest <= fuel ->
    match skip_removed st absolute (sj :: rest) with
    | [] => fst (skip_invisible_loop st fuel sj absolute) = false
    | x :: rest' =>
        skip_invisible_loop st fuel sj absolute = (true, x)
        /\ walk_forward st x rest'
    end.
Proof.
  induction 1 as [sj sj' E|sj sj' rest E Hw IH]; intros fuel Hf;
    rewrite skip_invisible_loop_unfold; cbn [skip_removed];
    destruct (segment_will_be_removed st sj absolute) eqn:Er.
  - rewrite E. reflexivity.
  - split; [reflexivity|]. eapply walk_forward_end, E.
  - rewrite E. cbn [negb]. destruct fuel as [|fuel];
      [cbn [length] in Hf; lia|].
    apply IH. cbn [length] in Hf. lia.
  - split; [reflexivity|]. eapply walk_forward_step; eassumption.
Qed.

Lemma filter_skip_removed st absolute l :
  filter (kept st absolute) (skip_removed st absolute l)
  = filter (kept st absolute) l.
Proof.
  induction l as [|x l IH]; [reflexivity|]. cbn [skip_removed].
  destruct (segment_will_be_removed st x absolute) eqn:E; [|reflexivity].
  cbn [filter]. unfold kept at 2. rewrite E. cbn [negb]. exact IH.
Qed.

Lemma skip_removed_head_kept st absolute l x rest :
  skip_removed st absolute l = x :: rest -> kept st absolute x = true.
Proof.
  induction l as [|y l IH]; [discriminate|]. cbn [skip_removed].
  destruct (segment_will_be_removed st y absolute) eqn:E; [exact IH|].
  intros H. inversion H; subst. unfold kept. rewrite E. reflexivity.
Qed.

Lemma skip_removed_suffix st absolute l x rest :
  skip_removed st absolute l = x :: rest -> length rest < length l.
Proof.
  induction l as [|y l IH]; [discriminate|]. cbn [skip_removed].
  destruct (segment_will_be_removed st y absolute).
  - intros H. specialize (IH H). cbn [length]. lia.
  - intros H. inversion H; subst. cbn [length]. lia.
Qed.

Lemma skip_removed_ok st absolute P l x rest :
  Forall P l -> skip_removed st absolute l = x :: rest -> Forall P (x :: rest).
Proof.
  induction 1 as [|y l Hy Hl IH]; [discriminate|]. cbn [skip_removed].
  destruct (segment_will_be_removed st y absolute); [exact IH|].
  intros H. inversion H; subst. constructor; assumption.
Qed.

(** Skipping from a position that stands on [l]. *)
Lemma skip_invisible_stands st absolute sj l :
  stands_at st absolute sj l ->
  match skip_removed st absolute l with
  | [] => fst (segment_joined_skip_invisible st sj absolute) = false
  | x :: rest =>
      segment_joined_skip_invisible st sj absolute = (true, x)
      /\ stands_at st absolute x (x :: rest)
  end.
Proof.
  destruct l as [|y rest]; cbn [stands_at].
  - intros H. exact H.
  - intros (-> & Hok & Hw).
    pose proof (walk_forward_length st y rest Hw Hok) as Hlen.
    pose proof (skip_invisible_loop_walk st absolute y rest Hw
                  (stream_fuel (paths y)) (Nat.lt_le_incl _ _ Hlen)) as H.
    pose proof (walk_forward_ok st y rest Hw Hok) as Hall.
    destruct (skip_removed st absolute (y :: rest)) as [|x rest'] eqn:E;
      [exact H|].
    destruct H as [H1 H2]. split; [exact H1|].
    cbn [stands_at]. split; [reflexivity|]. split; [|exact H2].
    assert (HP : Forall (position_ok st) (y :: rest)).
    { constructor; [exact Hok|].
      rewrite Forall_forall in *. intros z Hz. apply (Hall z Hz). }
    pose proof (skip_removed_ok st absolute _ _ _ _ HP E) as HP'.
    inversion HP'; assumption.
Qed.

Lemma stands_at_next st absolute x rest :
  stands_at st absolute x (x :: rest) ->
  match rest with
  | [] => fst (get_next_segment_joined st x) = false
  | y :: rest' =>
      get_next_segment_joined st x = (true, y)
      /\ stands_at st absolute y (y :: rest')
  end.
Proof.
  cbn [stands_at]. intros (_ & Hok & Hw).
  inversion Hw as [? sj' E|? sj' rest' E Hw']; subst.
  - rewrite E. reflexivity.
  - split; [exact E|]. cbn [stands_at]. split; [reflexivity|].
    split; [|exact Hw'].
    apply (get_next_segment_joined_true st x sj' Hok E).
Qed.

(** ** The divergence walk *)

Lemma skip_segments_until_diverge_loop_unfold st fuel bsj osj absolute :
  skip_segments_until_diverge_loop st fuel bsj osj absolute =
  let '(base_available, bsj) := segment_joined_skip_invisible st bsj absolute in
  let '(other_available, osj) :=
    segment_joined_skip_invisible st osj absolute in
  if negb base_available || negb other_available
  then (bsj, osj, base_available, other_available)
  else if negb (segments_equal st bsj osj)
  then (bsj, osj, base_available, other_available)
  else
    let '(base_available, bsj) := get_next_segment_joined st bsj in
    let '(other_available, osj) := get_next_segment_joined st osj in
    if base_available && other_available then
      match fuel with
      | 0 => (bsj, osj, base_available, other_available)
      | S fuel' => skip_segments_until_diverge_loop st fuel' bsj osj absolute
      end
    else (bsj, osj, base_available, other_available).
Proof. destruct fuel; reflexivity. Qed.

Lemma filter_kept_head st absolute l x rest :
  skip_removed st absolute l = x :: rest ->
  filter (kept st absolute) l = x :: filter (kept st absolute) rest.
Proof.
  intros E. rewrite <- filter_skip_removed, E. cbn [filter].
  rewrite (skip_removed_head_kept st absolute l x rest E). reflexivity.
Qed.

Lemma filter_kept_none st absolute l :
  skip_removed st absolute l = [] -> filter (kept st absolute) l = [].
Proof. intros E. rewrite <- filter_skip_removed, E. reflexivity. Qed.

Lemma left_over_skipped st absolute sj l :
  stands_at st absolute sj l ->
  exists r sj',
    segment_joined_skip_invisible st sj absolute = (r, sj')
    /\ match skip_removed st absolute l with
       | [] => r = false
       | x :: rest =>
           r = true /\ sj' = x /\ stands_at st absolute x (x :: rest)
       end.
Proof.
  intros H. pose proof (skip_invisible_stands st absolute sj l H) as S.
  destruct (segment_joined_skip_invisible st sj absolute) as [r sj'].
  exists r, sj'. split; [reflexivity|].
  destruct (skip_removed st absolute l) as [|x rest]; [exact S|].
  destruct S as [S1 S2]. inversion S1; subst. auto.
Qed.

Lemma left_over_next st absolute x rest :
  stands_at st absolute x (x :: rest) ->
  exists r sj',
    get_next_segment_joined st x = (r, sj')
    /\ match rest with
       | [] => r = false
       | y :: rest' =>
           r = true /\ sj' = y /\ stands_at st absolute y (y :: rest')
       end.
Proof.
  intros H. pose proof (stands_at_next st absolute x rest H) as S.
  destruct (get_next_segment_joined st x) as [r sj'].
  exists r, sj'. split; [reflexivity|].
  destruct rest as [|y rest']; [exact S|].
  destruct S as [S1 S2]. inversion S1; subst. auto.
Qed.

Lemma common_nil_r st B : common st B [] = 0.
Proof. destruct B; reflexivity. Qed.

Lemma filter_kept_stands st absolute l x rest :
  skip_removed st absolute l = x :: rest ->
  filter (kept st absolute) (x :: rest) = filter (kept st absolute) l.
Proof. intros E. rewrite <- E. apply filter_skip_removed. Qed.

Lemma left_over_after_skip st absolute sj l r sj' :
  segment_joined_skip_invisible st sj absolute = (r, sj') ->
  match skip_removed st absolute l with
  | [] => r = false
  | x :: rest => r = true /\ sj' = x /\ stands_at st absolute x (x :: rest)
  end ->
  left_over st absolute sj' r (filter (kept st absolute) l).
Proof.
  intros _ S. destruct (skip_removed st absolute l) as [|x rest] eqn:E.
  - subst r. cbn [left_over]. apply filter_kept_none, E.
  - destruct S as (-> & -> & S). cbn [left_over]. exists (x :: rest).
    split; [exact S|]. apply (filter_kept_stands st absolute l x rest E).
Qed.

Lemma left_over_after_next st absolute rest r sj' :
  match rest with
  | [] => r = false
  | y :: rest' =>
      r = true /\ sj' = y /\ stands_at st absolute y (y :: rest')
  end ->
  left_over st absolute sj' r (filter (kept st absolute) rest).
Proof.
  intros S. destruct rest as [|y rest'].
  - subst r. reflexivity.
  - destruct S as (-> & -> & S). cbn [left_over]. exists (y :: rest').
    split; [exact S|reflexivity].
Qed.

Lemma skip_segments_until_diverge_loop_spec st absolute :
  forall fuel Lb Lo bsj osj,
    length Lb <= fuel ->
    stands_at st absolute bsj Lb -> stands_at st absolute osj Lo ->
    exists bsj' osj' ba oa,
      skip_segments_until_diverge_loop st fuel bsj osj absolute
      = (bsj', osj', ba, oa)
      /\ left_over st absolute bsj' ba
           (skipn (common st (filter (kept st absolute) Lb)
                             (filter (kept st absolute) Lo))
                  (filter (kept st absolute) Lb))
      /\ left_over st absolute osj' oa
           (skipn (common st (filter (kept st absolute) Lb)
                             (filter (kept st absolute) Lo))
                  (filter (kept st absolute) Lo)).
Proof.
  induction fuel as [|fuel IH]; intros Lb Lo bsj osj Hf Hb Ho;
    rewrite skip_segments_until_diverge_loop_unfold;
    destruct (left_over_skipped st absolute bsj Lb Hb) as (rb & b1 & Eb & Sb);
    destruct (left_over_skipped st absolute osj Lo Ho) as (ro & o1 & Eo & So);
    pose proof (left_over_after_skip st absolute osj Lo ro o1 Eo So) as LO;
    rewrite Eb, Eo;
    destruct (skip_removed st absolute Lb) as [|b Kb] eqn:EKb.
  1, 3: subst rb; cbn [negb orb];
    rewrite (filter_kept_none st absolute Lb EKb); cbn [common skipn];
    exists b1, o1, false, ro; split; [reflexivity|];
    split; [reflexivity|exact LO].
  - destruct Lb; [discriminate|cbn [length] in Hf; lia].
  - destruct Sb as (-> & -> & Sb).
    pose proof (skip_removed_suffix st absolute Lb b Kb EKb) as Hlen.
    rewrite (filter_kept_head st absolute Lb b Kb EKb).
    destruct (skip_removed st absolute Lo) as [|o Ko] eqn:EKo.
    { subst ro. cbn [negb orb].
      rewrite (filter_kept_none st absolute Lo EKo), common_nil_r.
      cbn [skipn]. exists b, o1, true, false. split; [reflexivity|].
      split; [|reflexivity]. cbn [left_over]. exists (b :: Kb).
      split; [exact Sb|].
      rewrite (filter_kept_stands st absolute Lb b Kb EKb).
      apply (filter_kept_head st absolute Lb b Kb EKb). }
    destruct So as (-> & -> & So).
    rewrite (filter_kept_head st absolute Lo o Ko EKo).
    cbn [negb orb common].
    destruct (segments_equal st b o) eqn:Eq; cbn [negb skipn].
    2: { exists b, o, true, true. split; [reflexivity|].
         split; cbn [left_over].
         - exists (b :: Kb). split; [exact Sb|].
           rewrite (filter_kept_stands st absolute Lb b Kb EKb).
           apply (filter_kept_head st absolute Lb b Kb EKb).
         - exists (o :: Ko). split; [exact So|].
           rewrite (filter_kept_stands st absolute Lo o Ko EKo).
           apply (filter_kept_head st absolute Lo o Ko EKo). }
    destruct (left_over_next st absolute b Kb Sb) as (rb2 & b2 & Enb & Snb).
    destruct (left_over_next st absolute o Ko So) as (ro2 & o2 & Eno & Sno).
    pose proof (left_over_after_next st absolute Kb rb2 b2 Snb) as LB2.
    pose proof (left_over_after_next st absolute Ko ro2 o2 Sno) as LO2.
    rewrite Enb, Eno.
    destruct Kb as [|y Kb'].
    { subst rb2. cbn [andb filter common skipn].
      exists b2, o2, false, ro2. split; [reflexivity|].
      split; [reflexivity|exact LO2]. }
    destruct Snb as (-> & -> & Snb).
    destruct Ko as [|z Ko'].
    { subst ro2. cbn [andb]. rewrite common_nil_r. cbn [skipn filter].
      exists y, o2, true, false. split; [reflexivity|].
      split; [exact LB2|reflexivity]. }
    destruct Sno as (-> & -> & Sno). cbn [andb].
    cbn [length] in Hlen.
    destruct (IH (y :: Kb') (z :: Ko') y z) as
      (bsj' & osj' & ba & oa & E & L1 & L2);
      [cbn [length]; lia|exact Snb|exact Sno|].
    exists bsj', osj', ba, oa. split; [exact E|]. split; assumption.
Qed.

(** ** The two loops of [get_relative] *)

Lemma relative_back_loop_unfold st fuel bsj absolute pos ho buf cap :
  relative_back_loop st fuel bsj absolute pos ho buf cap =
  let '(r, bsj) := segment_joined_skip_invisible st bsj absolute in
  if negb r then (pos, ho, buf)
  else
    let has_output := true in
    let '(n, buf) := output_back buf cap pos in
    let pos := pos + n in
    let '(n, buf) := output_separator st buf cap pos in
    let pos := pos + n in
    let '(r, bsj) := get_next_segment_joined st bsj in
    if negb r then (pos, has_output, buf)
    else
      match fuel with
      | 0 => (pos, has_output, buf)
      | S fuel' =>
          relative_back_loop st fuel' bsj absolute pos has_output buf cap
      end.
Proof. destruct fuel; reflexivity. Qed.

Lemma relative_other_loop_unfold st fuel osj absolute pos ho buf cap :
  relative_other_loop st fuel osj absolute pos ho buf cap =
  let '(r, osj) := segment_joined_skip_invisible st osj absolute in
  if negb r then (pos, ho, buf)
  else
    let has_output := true in
    let '(n, buf) :=
      output_sized buf cap pos (path (segment osj))
        (begin (segment osj)) (size (segment osj)) in
    let pos := pos + n in
    let '(n, buf) := output_separator st buf cap pos in
    let pos := pos + n in
    let '(r, osj) := get_next_segment_joined st osj in
    if negb r then (pos, has_output, buf)
    else
      match fuel with
      | 0 => (pos, has_output, buf)
      | S fuel' =>
          relative_other_loop st fuel' osj absolute pos has_output buf cap
      end.
Proof. destruct fuel; reflexivity. Qed.

(** Writing a text and then the separator. *)
Lemma output_item st buf cap pos str off len :
  pos + len + 1 <= cap ->
  exists b1 b2,
    output_sized buf cap pos str off len = (len, b1)
    /\ output_separator st b1 cap (pos + len) = (1, b2)
    /\ buffer_prefix b2 (pos + (len + 1))
       = buffer_prefix buf pos
         ++ (bytes_at str off len ++ [output_separator_char st]).
Proof.
  intros Hfit.
  pose proof (output_sized_fits_le buf cap pos str off len) as P1.
  destruct (output_sized buf cap pos str off len) as [n1 b1] eqn:E1.
  assert (n1 = len) by (unfold output_sized in E1; congruence). subst n1.
  cbn [snd] in P1. unfold output_separator.
  pose proof (output_sized_fits_le b1 cap (pos + len) (separators st) 0 1)
    as P2.
  destruct (output_sized b1 cap (pos + len) (separators st) 0 1)
    as [n2 b2] eqn:E2.
  assert (n2 = 1) by (unfold output_sized in E2; congruence). subst n2.
  cbn [snd] in P2. exists b1, b2. split; [reflexivity|].
  split; [exact E2|].
  rewrite Nat.add_assoc, P2, P1 by lia. rewrite <- app_assoc. reflexivity.
Qed.

Lemma trailing_cons st t items :
  trailing st (t :: items)
  = (t ++ [output_separator_char st]) ++ trailing st items.
Proof. reflexivity. Qed.

Lemma length_item st (t : list ascii) :
  length (t ++ [output_separator_char st]) = length t + 1.
Proof. rewrite length_app. reflexivity. Qed.

Lemma relative_back_loop_spec st absolute cap :
  forall fuel l sj pos ho buf,
    length l <= fuel -> stands_at st absolute sj l ->
    pos + length (trailing st (map (fun _ => lit "..")
                                  (filter (kept st absolute) l))) <= cap ->
    exists buf',
      relative_back_loop st fuel sj absolute pos ho buf cap
      = (pos + length (trailing st (map (fun _ => lit "..")
                                      (filter (kept st absolute) l))),
         ho || existsb (kept st absolute) l, buf')
      /\ buffer_prefix buf'
           (pos + length (trailing st (map (fun _ => lit "..")
                                         (filter (kept st absolute) l))))
         = buffer_prefix buf pos
           ++ trailing st (map (fun _ => lit "..")
                             (filter (kept st absolute) l)).
Proof.
  induction fuel as [|fuel IH]; intros l sj pos ho buf Hf Hs;
    rewrite relative_back_loop_unfold, existsb_filter;
    destruct (left_over_skipped st absolute sj l Hs) as (r & sj1 & E & S);
    rewrite E;
    destruct (skip_removed st absolute l) as [|x rest] eqn:EK.
  1, 3: subst r; rewrite (filter_kept_none st absolute l EK);
    cbn [map trailing concat length negb]; intros _; exists buf;
    rewrite Nat.add_0_r, orb_false_r, app_nil_r; auto.
  - destruct l; [discriminate|cbn [length] in Hf; lia].
  - destruct S as (-> & -> & S).
    pose proof (skip_removed_suffix st absolute l x rest EK) as Hlen.
    rewrite (filter_kept_head st absolute l x rest EK).
    cbn [map negb]. rewrite trailing_cons, length_app, length_item.
    intros Hfit. unfold output_back.
    destruct (output_item st buf cap pos (lit "..") 0 2)
      as (b1 & b2 & O1 & O2 & P); [change (length (lit "..")) with 2 in Hfit; lia|].
    rewrite O1. cbn beta iota zeta. rewrite O2. cbn beta iota zeta.
    destruct (left_over_next st absolute x rest S) as (r2 & sj2 & En & Sn).
    rewrite En. rewrite orb_true_r.
    destruct rest as [|y rest'].
    + subst r2. cbn [negb filter map trailing concat length].
      exists b2. rewrite Nat.add_0_r, app_nil_r.
      change (length (lit "..")) with 2 in *.
      split; [f_equal; f_equal; lia|].
      replace (pos + 2 + 1) with (pos + (2 + 1)) by lia. exact P.
    + destruct Sn as (-> & -> & Sn). cbn [negb].
      cbn [length] in Hlen, Hf.
      destruct (IH (y :: rest') y (pos + 2 + 1) true b2) as (b3 & E3 & P3);
        [cbn [length]; lia|exact Sn|
         change (length (lit "..")) with 2 in Hfit; lia|].
      rewrite E3. exists b3. change (length (lit "..")) with 2 in *.
      split; [f_equal; f_equal; lia|].
      replace (pos + (2 + 1 + length (trailing st (map (fun _ => lit "..")
                 (filter (kept st absolute) (y :: rest'))))))
        with (pos + 2 + 1 + length (trailing st (map (fun _ => lit "..")
                 (filter (kept st absolute) (y :: rest'))))) by lia.
      rewrite P3. replace (pos + 2 + 1) with (pos + (2 + 1)) by lia.
      rewrite P, <- app_assoc. reflexivity.
Qed.

Lemma length_position_bytes sj :
  length (position_bytes sj) = size (segment sj).
Proof. apply length_bytes_at. Qed.

Lemma relative_other_loop_spec st absolute cap :
  forall fuel l sj pos ho buf,
    length l <= fuel -> stands_at st absolute sj l ->
    pos + length (trailing st (map position_bytes
                                  (filter (kept st absolute) l))) <= cap ->
    exists buf',
      relative_other_loop st fuel sj absolute pos ho buf cap
      = (pos + length (trailing st (map position_bytes
                                      (filter (kept st absolute) l))),
         ho || existsb (kept st absolute) l, buf')
      /\ buffer_prefix buf'
           (pos + length (trailing st (map position_bytes
                                         (filter (kept st absolute) l))))
         = buffer_prefix buf pos
           ++ trailing st (map position_bytes
                             (filter (kept st absolute) l)).
Proof.
  induction fuel as [|fuel IH]; intros l sj pos ho buf Hf Hs;
    rewrite relative_other_loop_unfold, existsb_filter;
    destruct (left_over_skipped st absolute sj l Hs) as (r & sj1 & E & S);
    rewrite E;
    destruct (skip_removed st absolute l) as [|x rest] eqn:EK.
  1, 3: subst r; rewrite (filter_kept_none st absolute l EK);
    cbn [map trailing concat length negb]; intros _; exists buf;
    rewrite Nat.add_0_r, orb_false_r, app_nil_r; auto.
  - destruct l; [discriminate|cbn [length] in Hf; lia].
  - destruct S as (-> & -> & S).
    pose proof (skip_removed_suffix st absolute l x rest EK) as Hlen.
    rewrite (filter_kept_head st absolute l x rest EK).
    cbn [map negb]. rewrite trailing_cons, length_app, length_item.
    rewrite length_position_bytes.
    intros Hfit.
    destruct (output_item st buf cap pos (path (segment x))
                (begin (segment x)) (size (segment x)))
      as (b1 & b2 & O1 & O2 & P); [lia|].
    rewrite O1. cbn beta iota zeta. rewrite O2. cbn beta iota zeta.
    destruct (left_over_next st absolute x rest S) as (r2 & sj2 & En & Sn).
    rewrite En. rewrite orb_true_r.
    fold (position_bytes x) in P.
    destruct rest as [|y rest'].
    + subst r2. cbn [negb filter map trailing concat length].
      exists b2. rewrite Nat.add_0_r, app_nil_r.
      split; [f_equal; f_equal; lia|].
      replace (pos + size (segment x) + 1)
        with (pos + (size (segment x) + 1)) by lia. exact P.
    + destruct Sn as (-> & -> & Sn). cbn [negb].
      cbn [length] in Hlen, Hf.
      destruct (IH (y :: rest') y (pos + size (segment x) + 1) true b2)
        as (b3 & E3 & P3); [cbn [length]; lia|exact Sn|lia|].
      rewrite E3. exists b3.
      split; [f_equal; f_equal; lia|].
      replace (pos + (size (segment x) + 1
                      + length (trailing st (map position_bytes
                          (filter (kept st absolute) (y :: rest'))))))
        with (pos + size (segment x) + 1
              + length (trailing st (map position_bytes
                  (filter (kept st absolute) (y :: rest'))))) by lia.
      rewrite P3.
      replace (pos + size (segment x) + 1)
        with (pos + (size (segment x) + 1)) by lia.
      rewrite P, <- app_assoc. reflexivity.
Qed.

(** ** The text [get_relative] writes *)

Lemma junk_position_exhausted st absolute p c :
  fst (segment_joined_skip_invisible st
         (mk_joined (mk_segment p c c c 0) [p] 1) absolute) = false.
Proof.
  unfold segment_joined_skip_invisible.
  rewrite skip_invisible_loop_unfold.
  unfold segment_will_be_removed, get_segment_type.
  cbn [segment size strncmp_eq].
  unfold get_next_segment_joined, path_at. cbn [paths path_index nth_error].
  reflexivity.
Qed.

Lemma single_stands st absolute p ts sj r :
  chain st p (get_root st p) ts ->
  get_first_segment_joined st [p] = (r, sj) ->
  stands_at st absolute sj (positions st p ts).
Proof.
  intros H E. rewrite (single_first st p ts H) in E.
  destruct ts as [|t post]; inversion E; subst; cbn [positions map stands_at].
  - apply junk_position_exhausted.
  - split; [reflexivity|]. split.
    + apply (single_position_ok st p [] t post H).
    + apply (single_walk_forward st p post [] t H).
Qed.

Lemma stands_at_length st absolute sj l :
  stands_at st absolute sj l -> l <> [] ->
  length l <= stream_fuel (paths sj).
Proof.
  destruct l as [|x rest]; [contradiction|]. cbn [stands_at].
  intros (-> & Hok & Hw) _.
  pose proof (walk_forward_length st x rest Hw Hok). cbn [length]. lia.
Qed.

Lemma existsb_kept_left st absolute R K :
  filter (kept st absolute) R = K ->
  existsb (kept st absolute) R = match K with [] => false | _ :: _ => true end.
Proof. intros <-. apply existsb_filter. Qed.

Lemma back_phase st absolute cap bsj ba K pos ho buf :
  left_over st absolute bsj ba K ->
  pos + length (trailing st (map (fun _ => lit "..") K)) <= cap ->
  exists buf',
    (if ba
     then relative_back_loop st (stream_fuel (paths bsj)) bsj absolute pos
            ho buf cap
     else (pos, ho, buf))
    = (pos + length (trailing st (map (fun _ => lit "..") K)),
       ho || match K with [] => false | _ :: _ => true end, buf')
    /\ buffer_prefix buf'
         (pos + length (trailing st (map (fun _ => lit "..") K)))
       = buffer_prefix buf pos ++ trailing st (map (fun _ => lit "..") K).
Proof.
  unfold left_over. destruct ba.
  - intros (R & Hs & <-) Hfit.
    rewrite <- (existsb_kept_left st absolute R _ eq_refl).
    destruct R as [|x rest].
    + rewrite relative_back_loop_unfold. cbn [stands_at] in Hs.
      destruct (segment_joined_skip_invisible st bsj absolute) as [r sj'].
      cbn [fst] in Hs. subst r.
      cbn [negb filter map trailing concat length existsb].
      exists buf. rewrite Nat.add_0_r, orb_false_r, app_nil_r. auto.
    + apply relative_back_loop_spec; [|exact Hs|exact Hfit].
      apply (stands_at_length st absolute bsj (x :: rest) Hs). discriminate.
  - intros -> _. cbn [map trailing concat length]. exists buf.
    rewrite Nat.add_0_r, orb_false_r, app_nil_r. auto.
Qed.

Lemma other_phase st absolute cap osj oa K pos ho buf :
  left_over st absolute osj oa K ->
  pos + length (trailing st (map position_bytes K)) <= cap ->
  exists buf',
    (if oa
     then relative_other_loop st (stream_fuel (paths osj)) osj absolute pos
            ho buf cap
     else (pos, ho, buf))
    = (pos + length (trailing st (map position_bytes K)),
       ho || match K with [] => false | _ :: _ => true end, buf')
    /\ buffer_prefix buf'
         (pos + length (trailing st (map position_bytes K)))
       = buffer_prefix buf pos ++ trailing st (map position_bytes K).
Proof.
  unfold left_over. destruct oa.
  - intros (R & Hs & <-) Hfit.
    rewrite <- (existsb_kept_left st absolute R _ eq_refl).
    destruct R as [|x rest].
    + rewrite relative_other_loop_unfold. cbn [stands_at] in Hs.
      destruct (segment_joined_skip_invisible st osj absolute) as [r sj'].
      cbn [fst] in Hs. subst r.
      cbn [negb filter map trailing concat length existsb].
      exists buf. rewrite Nat.add_0_r, orb_false_r, app_nil_r. auto.
    + apply relative_other_loop_spec; [|exact Hs|exact Hfit].
      apply (stands_at_length st absolute osj (x :: rest) Hs). discriminate.
  - intros -> _. cbn [map trailing concat length]. exists buf.
    rewrite Nat.add_0_r, orb_false_r, app_nil_r. auto.
Qed.

Lemma trailing_app st a b :
  trailing st (a ++ b) = trailing st a ++ trailing st b.
Proof. unfold trailing. rewrite map_app, concat_app. reflexivity. Qed.

Lemma buffer_prefix_firstn buf n m :
  n <= m -> buffer_prefix buf n = firstn n (buffer_prefix buf m).
Proof.
  intros H. replace m with (n + (m - n)) by lia.
  rewrite buffer_prefix_app, firstn_app, length_buffer_prefix, Nat.sub_diag.
  cbn [firstn]. rewrite app_nil_r.
  rewrite <- (length_buffer_prefix buf n) at 2. rewrite firstn_all.
  reflexivity.
Qed.

Lemma length_trailing_pos st t items : 0 < length (trailing st (t :: items)).
Proof.
  rewrite trailing_cons, !length_app. cbn [length]. lia.
Qed.

Lemma length_relative_text st t items :
  length (relative_text st (t :: items))
  = length (trailing st (t :: items)) - 1.
Proof.
  unfold relative_text. rewrite removelast_firstn_len, length_firstn. lia.
Qed.

(** With a buffer that holds it, [get_relative] writes [relative_text]
    of the items left after the divergence walk. *)
Lemma get_relative_writes st base target tsb tso buf cap :
  chain st base (get_root st base) tsb ->
  chain st target (get_root st target) tso ->
  get_root st base = get_root st target ->
  is_string_equal st base target (get_root st base) = true ->
  length (relative_text st
            (relative_items st (is_absolute st base)
               (positions st base tsb) (positions st target tso))) < cap ->
  exists buf',
    get_relative st base target buf cap
    = (length (relative_text st
                 (relative_items st (is_absolute st base)
                    (positions st base tsb) (positions st target tso))),
       buf')
    /\ buffer_prefix buf'
         (length (relative_text st
                    (relative_items st (is_absolute st base)
                       (positions st base tsb) (positions st target tso))))
       = relative_text st
           (relative_items st (is_absolute st base)
              (positions st base tsb) (positions st target tso))
    /\ buf' (length (relative_text st
                       (relative_items st (is_absolute st base)
                          (positions st base tsb) (positions st target tso))))
       = NUL.
Proof.
  intros Hb Ho Hroot Heq. unfold get_relative.
  rewrite <- Hroot, Nat.eqb_refl, Heq. cbn [negb orb].
  change (is_root_absolute st base (get_root st base))
    with (is_absolute st base).
  set (absolute := is_absolute st base).
  destruct (get_first_segment_joined st [base]) as [r1 bsj] eqn:E1.
  destruct (get_first_segment_joined st [target]) as [r2 osj] eqn:E2.
  pose proof (single_stands st absolute base tsb bsj r1 Hb E1) as Sb.
  pose proof (single_stands st absolute target tso osj r2 Ho E2) as So.
  assert (Hlen : length (positions st base tsb) <= stream_fuel (paths bsj)).
  { destruct (positions st base tsb) as [|x rest] eqn:EP;
      [cbn [length]; lia|].
    apply (stands_at_length st absolute bsj (x :: rest) Sb). discriminate. }
  unfold skip_segments_until_diverge.
  destruct (skip_segments_until_diverge_loop_spec st absolute
              (stream_fuel (paths bsj)) _ _ bsj osj Hlen Sb So)
    as (bsj' & osj' & ba & oa & E & L1 & L2).
  rewrite E. unfold relative_items. fold absolute.
  set (B := filter (kept st absolute) (positions st base tsb)) in *.
  set (T := filter (kept st absolute) (positions st target tso)) in *.
  set (m := common st B T) in *.
  set (KB := skipn m B) in *. set (KT := skipn m T) in *.
  intros Hcap.
  assert (Hfit : length (trailing st (map (fun _ => lit "..") KB ++
                                      map position_bytes KT)) <= cap).
  { destruct (map (fun _ => lit "..") KB ++ map position_bytes KT)
      as [|t items] eqn:EI; [cbn [trailing map concat length]; lia|].
    rewrite length_relative_text in Hcap.
    pose proof (length_trailing_pos st t items). lia. }
  rewrite trailing_app, length_app in Hfit.
  destruct (back_phase st absolute cap bsj' ba KB 0 false buf L1)
    as (b1 & P1 & Q1); [lia|].
  rewrite P1. cbn [orb Nat.add] in *.
  destruct (other_phase st absolute cap osj' oa KT
              (length (trailing st (map (fun _ => lit "..") KB)))
              (match KB with [] => false | _ :: _ => true end) b1 L2)
    as (b2 & P2 & Q2); [lia|].
  rewrite P2. rewrite Q1 in Q2. cbn [buffer_prefix seq map app] in Q2.
  rewrite <- length_app, <- trailing_app in *.
  destruct (map (fun _ => lit "..") KB ++ map position_bytes KT)
    as [|t items] eqn:EI.
  - apply app_eq_nil in EI. destruct EI as [EB ET].
    apply map_eq_nil in EB. apply map_eq_nil in ET. rewrite EB, ET.
    cbn [orb trailing map concat length relative_text] in *.
    unfold output_current.
    pose proof (output_sized_fits b2 cap 0 (lit ".") 0 1) as P3.
    destruct (output_sized b2 cap 0 (lit ".") 0 1) as [n3 b3] eqn:E3.
    assert (n3 = 1) by (unfold output_sized in E3; congruence). subst n3.
    cbn [snd Nat.add] in P3.
    change (length (lit ".")) with 1 in *.
    destruct (terminate_output_fits b3 cap 1) as [T1 T2]; [lia|].
    eexists. split; [reflexivity|]. split; [|exact T2].
    cbn [Nat.add]. rewrite T1, P3 by lia. rewrite Q2. reflexivity.
  - assert (Hout : (match KB with [] => false | _ :: _ => true end)
                   || (match KT with [] => false | _ :: _ => true end)
                   = true).
    { destruct KB; [|reflexivity]. destruct KT; [discriminate|reflexivity]. }
    rewrite Hout. rewrite length_relative_text in *.
    pose proof (length_trailing_pos st t items) as Hpos.
    destruct (terminate_output_fits b2 cap
                (length (trailing st (t :: items)) - 1)) as [T1 T2]; [lia|].
    eexists. split; [reflexivity|]. split; [|exact T2].
    rewrite T1. rewrite (buffer_prefix_firstn b2 _
                           (length (trailing st (t :: items)))) by lia.
    rewrite Q2. unfold relative_text. rewrite removelast_firstn_len.
    f_equal. lia.
Qed.

(** ** Appending to an absolute path, segment by segment *)

Lemma low_nonpositive l : (low l <= 0)%Z.
Proof. induction l as [|[] l IH]; cbn [low]; lia. Qed.

Lemma counter_goes_negative_low :
  forall l c, (0 <= c)%Z ->
    counter_goes_negative l c = negb (0 <=? c + low l)%Z.
Proof.
  induction l as [|t l IH]; intros c Hc; cbn [counter_goes_negative low].
  - destruct (Z.leb_spec 0 (c + 0)); [reflexivity|lia].
  - pose proof (low_nonpositive l). destruct t.
    + rewrite IH by lia.
      destruct (Z.leb_spec 0 (c + 1 + low l));
        destruct (Z.leb_spec 0 (c + Z.min 0 (1 + low l)));
        try reflexivity; lia.
    + apply IH, Hc.
    + destruct (Z.ltb_spec (c - 1) 0).
      * destruct (Z.leb_spec 0 (c + (low l - 1))); [lia|reflexivity].
      * rewrite IH by lia.
        destruct (Z.leb_spec 0 (c - 1 + low l));
          destruct (Z.leb_spec 0 (c + (low l - 1))); try reflexivity; lia.
Qed.

Lemma low_app_back l :
  low (l ++ [CWK_BACK]) = Z.min (low l) (balance l - 1).
Proof.
  induction l as [|[] l IH]; cbn [app low balance]; try rewrite IH; lia.
Qed.

Lemma counter_goes_negative_app_keep l t :
  t <> CWK_BACK ->
  forall c, counter_goes_negative (l ++ [t]) c = counter_goes_negative l c.
Proof.
  intros Ht. induction l as [|x l IH]; intros c.
  - destruct t; [reflexivity|reflexivity|contradiction].
  - cbn [app counter_goes_negative]. destruct x; rewrite ?IH; reflexivity.
Qed.

Lemma survivors_length {A : Type} (ty : A -> cwk_segment_type) :
  forall l behind,
    Z.of_nat (length (survivors ty true behind l))
    = (balance (map ty l) - low (map ty l))%Z.
Proof.
  induction l as [|x l IH]; intros behind; [reflexivity|].
  cbn [survivors map]. rewrite length_app, Nat2Z.inj_add, (IH (x :: behind)).
  pose proof (low_nonpositive (map ty l)).
  destruct (ty x); cbn [elided_by_rule balance low length]; try lia.
  rewrite counter_goes_negative_low by lia.
  destruct (Z.leb_spec 0 (0 + low (map ty l))); cbn [negb length]; lia.
Qed.

Lemma survivors_app_back {A : Type} (ty : A -> cwk_segment_type) x :
  ty x = CWK_BACK ->
  forall l behind,
    survivors ty true behind (l ++ [x])
    = removelast (survivors ty true behind l).
Proof.
  intros Hx. induction l as [|y l IH]; intros behind.
  - cbn [app survivors]. rewrite Hx. reflexivity.
  - cbn [app survivors]. rewrite (IH (y :: behind)), map_app. cbn [map].
    rewrite Hx.
    pose proof (survivors_length ty l (y :: behind)) as HL.
    pose proof (low_nonpositive (map ty l)).
    destruct (ty y); cbn [elided_by_rule app]; try reflexivity.
    rewrite !counter_goes_negative_low, low_app_back by lia.
    destruct (survivors ty true (y :: behind) l) as [|a S'];
      cbn [length] in HL;
      destruct (Z.leb_spec 0 (0 + low (map ty l)));
      destruct (Z.leb_spec 0
                  (0 + Z.min (low (map ty l)) (balance (map ty l) - 1)));
      cbn [negb app removelast]; try reflexivity; lia.
Qed.

Lemma survivors_app_keep {A : Type} (ty : A -> cwk_segment_type) x :
  ty x <> CWK_BACK ->
  forall l behind,
    survivors ty true behind (l ++ [x])
    = survivors ty true behind l
      ++ (match ty x with CWK_NORMAL => [x] | _ => [] end).
Proof.
  intros Hx. induction l as [|y l IH]; intros behind.
  - cbn [app survivors map]. destruct (ty x); reflexivity.
  - cbn [app survivors]. rewrite (IH (y :: behind)), map_app. cbn [map].
    destruct (ty y); cbn [elided_by_rule];
      rewrite ?counter_goes_negative_app_keep by exact Hx;
      rewrite app_assoc; reflexivity.
Qed.

Lemma survivors_app_backs {A : Type} (ty : A -> cwk_segment_type) X :
  forall K, Forall (fun x => ty x = CWK_BACK) K ->
    survivors ty true [] (X ++ K)
    = firstn (length (survivors ty true [] X) - length K)
        (survivors ty true [] X).
Proof.
  induction K as [|x K IH] using rev_ind; intros HK.
  - rewrite app_nil_r. cbn [length]. rewrite Nat.sub_0_r, firstn_all.
    reflexivity.
  - apply Forall_app in HK. destruct HK as [HK Hx].
    inversion Hx as [|? ? Hx' _]; subst.
    rewrite app_assoc, (survivors_app_back ty x Hx'), (IH HK).
    rewrite removelast_firstn_len, firstn_firstn, length_firstn, length_app.
    cbn [length]. f_equal. lia.
Qed.

Lemma survivors_app_normals {A : Type} (ty : A -> cwk_segment_type) X :
  forall N, Forall (fun x => ty x = CWK_NORMAL) N ->
    survivors ty true [] (X ++ N) = survivors ty true [] X ++ N.
Proof.
  induction N as [|x N IH] using rev_ind; intros HN.
  - rewrite !app_nil_r. reflexivity.
  - apply Forall_app in HN. destruct HN as [HN Hx].
    inversion Hx as [|? ? Hx' _]; subst.
    rewrite app_assoc, survivors_app_keep by (rewrite Hx'; discriminate).
    rewrite Hx', (IH HN), app_assoc. reflexivity.
Qed.

(** Joining, to the segments [X] of an absolute path, [K] Back segments
    and then Normal segments [N]: the Back segments take away the last
    kept segments of [X], the Normal ones follow. *)
Lemma survivors_app_relative {A : Type} (ty : A -> cwk_segment_type) X K N :
  Forall (fun x => ty x = CWK_BACK) K ->
  Forall (fun x => ty x = CWK_NORMAL) N ->
  survivors ty true [] (X ++ K ++ N)
  = firstn (length (survivors ty true [] X) - length K)
      (survivors ty true [] X) ++ N.
Proof.
  intros HK HN.
  rewrite app_assoc, (survivors_app_normals ty (X ++ K) N HN).
  rewrite (survivors_app_backs ty X K HK). reflexivity.
Qed.


(** ** Comparing segments, Unix style *)

Lemma hd_skipn (l : list ascii) :
  forall k, hd NUL (skipn k l) = deref l k.
Proof.
  unfold deref. induction l as [|x l IH]; intros k.
  - destruct k; reflexivity.
  - destruct k as [|k]; [reflexivity|]. cbn [skipn nth]. apply IH.
Qed.

(** [strncmp] over the length of the first text, when the first text has
    segment bytes only and the second one is followed by a byte that is
    not of a segment. *)
Lemma strncmp_eq_prefix st :
  forall ta ra tc rc,
    Forall (fun ch => regular st ch = true) ta ->
    Forall (fun ch => regular st ch = true) tc ->
    regular st (hd NUL rc) = false ->
    strncmp_eq (ta ++ ra) (tc ++ rc) (length ta) = text_prefix ta tc.
Proof.
  induction ta as [|x ta IH]; intros ra tc rc Ha Hc Hstop; [reflexivity|].
  inversion Ha as [|? ? Hx Ha']; subst.
  cbn [length strncmp_eq app hd tl]. destruct tc as [|y tc].
  - cbn [app text_prefix]. destruct (Ascii.eqb_spec x (hd NUL rc)) as [E|N];
      [|reflexivity].
    rewrite <- E in Hstop. congruence.
  - inversion Hc as [|? ? Hy Hc']; subst. cbn [app hd tl text_prefix].
    destruct (Ascii.eqb_spec x y) as [E|N]; [|reflexivity].
    cbn [negb andb]. rewrite (regular_not_nul st x Hx).
    apply IH; assumption.
Qed.


(** The string at a segment: the bytes of the segment, then a byte that
    is not of a segment. *)
Lemma segment_ok_text st seg :
  segment_ok st seg ->
  skipn (begin seg) (path seg)
  = bytes_at (path seg) (begin seg) (size seg) ++ skipn (end_ seg) (path seg)
  /\ Forall (fun ch => regular st ch = true)
       (bytes_at (path seg) (begin seg) (size seg))
  /\ regular st (hd NUL (skipn (end_ seg) (path seg))) = false
  /\ bytes_at (path seg) (begin seg) (size seg)
     = slice (path seg) (begin seg) (end_ seg).
Proof.
  intros (_ & Hbe & Hs & Hregs & Hstop & _). rewrite Hs.
  pose proof (regs_in_range st _ _ _ Hregs Hbe) as Hr.
  rewrite (bytes_at_slice st _ _ _ Hregs Hbe). splits.
  - unfold slice.
    rewrite <- (firstn_skipn (end_ seg - begin seg)
                  (skipn (begin seg) (path seg))) at 1.
    rewrite skipn_skipn. do 2 f_equal. lia.
  - rewrite <- (bytes_at_slice st _ _ _ Hregs Hbe).
    unfold bytes_at. apply Forall_forall. intros ch Hch.
    apply in_map_iff in Hch. destruct Hch as (k & <- & Hk).
    apply in_seq in Hk. apply Hregs. lia.
  - rewrite hd_skipn. exact Hstop.
  - reflexivity.
Qed.

Lemma tolower_separator x :
  is_separator CWK_STYLE_WINDOWS (tolower x) = true ->
  is_separator CWK_STYLE_WINDOWS x = true.
Proof.
  destruct x as [[] [] [] [] [] [] [] []]; vm_compute; intros H; exact H.
Qed.

Lemma tolower_of_separator y :
  is_separator CWK_STYLE_WINDOWS y = true -> tolower y = y.
Proof.
  rewrite is_separator_spec. intros H. apply orb_prop in H.
  destruct H as [H|H]; apply Ascii.eqb_eq in H; subst y; reflexivity.
Qed.

(** The comparison of the Windows style over the length of the first
    text, when the first text has segment bytes only and the second one
    is followed by a byte that is not of a segment. *)
Lemma is_string_equal_loop_prefix :
  forall ta ra tc rc,
    Forall (fun ch => regular CWK_STYLE_WINDOWS ch = true) ta ->
    Forall (fun ch => regular CWK_STYLE_WINDOWS ch = true) tc ->
    regular CWK_STYLE_WINDOWS (hd NUL rc) = false ->
    is_string_equal_loop (ta ++ ra) (tc ++ rc) (length ta)
    = text_prefix (map tolower ta) (map tolower tc).
Proof.
  induction ta as [|x ta IH]; intros ra tc rc Ha Hc Hstop; [reflexivity|].
  inversion Ha as [|? ? Hx Ha']; subst.
  cbn [length is_string_equal_loop app hd tl map].
  rewrite (regular_not_nul _ x Hx). cbn [negb andb].
  destruct tc as [|y tc].
  - cbn [app map text_prefix].
    destruct (is_nul (hd NUL rc)) eqn:En; [reflexivity|]. cbn [negb].
    pose proof (not_regular_not_nul_separator _ _ Hstop En) as Hs.
    destruct (Ascii.eqb_spec (tolower x) (tolower (hd NUL rc))) as [E|N];
      [|reflexivity].
    rewrite (tolower_of_separator _ Hs) in E. rewrite <- E in Hs.
    apply tolower_separator in Hs.
    rewrite (regular_not_separator _ x Hx) in Hs. discriminate.
  - inversion Hc as [|? ? Hy Hc']; subst. cbn [app hd tl map text_prefix].
    rewrite (regular_not_nul _ y Hy). cbn [negb].
    destruct (Ascii.eqb_spec (tolower x) (tolower y)) as [E|N];
      [|reflexivity].
    cbn [negb andb]. apply IH; assumption.
Qed.

Lemma segments_equal_match st b o :
  segment_ok st (segment b) -> segment_ok st (segment o) ->
  segments_equal st b o
  = segments_match st (position_bytes b) (position_bytes o).
Proof.
  intros Hb Ho. unfold segments_equal, is_string_equal, position_bytes.
  destruct (segment_ok_text _ _ Hb) as (Eb & Fb & _ & _).
  destruct (segment_ok_text _ _ Ho) as (Eo & Fo & So & _).
  rewrite Eb, Eo. destruct st; cbn [segments_match].
  - pose proof (is_string_equal_loop_prefix _
                  (skipn (end_ (segment b)) (path (segment b))) _ _
                  Fb Fo So) as H.
    rewrite length_bytes_at in H. exact H.
  - pose proof (strncmp_eq_prefix CWK_STYLE_UNIX _
                  (skipn (end_ (segment b)) (path (segment b))) _ _
                  Fb Fo So) as H.
    rewrite length_bytes_at in H. exact H.
Qed.



(** Equal root texts pass the test of the roots. *)
Lemma strncmp_eq_same :
  forall n a b, firstn n a = firstn n b -> strncmp_eq a b n = true.
Proof.
  induction n as [|n IH]; intros a b H; [reflexivity|].
  cbn [strncmp_eq]. destruct a as [|x a], b as [|y b]; cbn [firstn hd tl] in *;
    try discriminate; [reflexivity|].
  inversion H; subst. rewrite Ascii.eqb_refl. cbn [negb].
  destruct (is_nul y); [reflexivity|]. apply IH. assumption.
Qed.

Lemma is_string_equal_loop_same :
  forall n a b, firstn n a = firstn n b -> is_string_equal_loop a b n = true.
Proof.
  induction n as [|n IH]; intros a b H; [reflexivity|].
  cbn [is_string_equal_loop].
  destruct a as [|x a], b as [|y b]; cbn [firstn hd tl] in *;
    try discriminate; [reflexivity|].
  inversion H; subst. rewrite Ascii.eqb_refl. cbn [negb].
  destruct (is_nul y); [reflexivity|]. cbn [negb andb]. apply IH. assumption.
Qed.


(** ** The resolver on an absolute stream *)

Lemma survivors_absolute_ext {A : Type} (ty1 ty2 : A -> cwk_segment_type) :
  forall l b1 b2,
    (forall x, In x l -> ty1 x = ty2 x) ->
    survivors ty1 true b1 l = survivors ty2 true b2 l.
Proof.
  induction l as [|x l IH]; intros b1 b2 H; [reflexivity|].
  cbn [survivors]. rewrite (IH (x :: b1) (x :: b2))
    by (intros y Hy; apply H; right; exact Hy).
  rewrite (H x) by (left; reflexivity).
  rewrite (map_ext_in ty1 ty2 l) by (intros y Hy; apply H; right; exact Hy).
  destruct (ty2 x); reflexivity.
Qed.

Lemma position_type st x :
  position_ok st x -> type_of x = classify (position_bytes x).
Proof.
  intros (_ & _ & Hok & _).
  destruct (segment_ok_text st _ Hok) as (_ & _ & _ & E).
  unfold position_bytes. rewrite E.
  destruct Hok as (_ & Hbe & Hs & Hregs & _).
  unfold type_of. rewrite (segment_eta (segment x)) at 1. rewrite Hs.
  apply (token_type st (path (segment x)) (segments (segment x))
           (begin (segment x)) (end_ (segment x)) Hregs Hbe).
Qed.

Lemma absolute_kept st :
  forall l x,
    walk_forward st x l -> position_ok st x ->
    filter (kept st true) (x :: l) = survivors type_of true [] (x :: l).
Proof.
  induction l as [|y l IH]; intros x Hw Hok.
  - cbn [filter survivors]. unfold kept.
    rewrite (segment_will_be_removed_absolute st x _ Hok Hw).
    destruct (elided_by_rule _ _ _ _); reflexivity.
  - inversion Hw as [|? ? ? E Hw']; subst.
    destruct (get_next_segment_joined_true st x y Hok E) as (Hok' & _).
    change (filter (kept st true) (x :: y :: l))
      with (if kept st true x then x :: filter (kept st true) (y :: l)
            else filter (kept st true) (y :: l)).
    change (survivors type_of true [] (x :: y :: l))
      with ((if elided_by_rule (type_of x) true (map type_of [])
                  (map type_of (y :: l))
             then [] else [x])
            ++ survivors type_of true [x] (y :: l)).
    rewrite (IH y Hw' Hok').
    rewrite (survivors_absolute_ext type_of type_of (y :: l) [x] [])
      by reflexivity.
    unfold kept. rewrite (segment_will_be_removed_absolute st x _ Hok Hw).
    destruct (elided_by_rule _ _ _ _); reflexivity.
Qed.

Lemma absolute_kept_texts st l x :
  walk_forward st x l -> position_ok st x ->
  map position_bytes (filter (kept st true) (x :: l))
  = survivors classify true [] (map position_bytes (x :: l)).
Proof.
  intros Hw Hok. rewrite (absolute_kept st l x Hw Hok).
  pose proof (survivors_map position_bytes classify true (x :: l) []) as M.
  change (map position_bytes []) with (@nil (list ascii)) in M.
  rewrite <- M. f_equal. apply survivors_absolute_ext. intros y Hy.
  apply (position_type st). destruct Hy as [<-|Hy]; [exact Hok|].
  pose proof (walk_forward_ok st x l Hw Hok) as HF.
  rewrite Forall_forall in HF. apply (HF y Hy).
Qed.

(** ** The stream of a path joined with a relative path *)

Lemma pair_next_second st a r pre t post :
  chain st r 0 (pre ++ t :: post) ->
  get_next_segment_joined st (token_position [a; r] 1 0 t) =
  match post with
  | [] => (false, mk_joined (token_segment r 0 t) [a; r] 2)
  | t' :: _ => (true, token_position [a; r] 1 0 t')
  end.
Proof.
  intros H. destruct (chain_token_ok st r _ pre t post H) as [Hok Hch].
  destruct Hok as (_ & Hbe & _ & _ & Hstop & _).
  unfold get_next_segment_joined, token_position, path_at.
  cbn [paths path_index segment nth_error nth].
  rewrite (chain_next st r _ t post Hbe Hstop Hch).
  destruct post; reflexivity.
Qed.

Lemma pair_next_first st a r pre t post t0 tsr :
  chain st a (get_root st a) (pre ++ t :: post) ->
  chain st r 0 (t0 :: tsr) ->
  get_next_segment_joined st (token_position [a; r] 0 (get_root st a) t) =
  (true,
   match post with
   | [] => token_position [a; r] 1 0 t0
   | t' :: _ => token_position [a; r] 0 (get_root st a) t'
   end).
Proof.
  intros H Hr. destruct (chain_token_ok st a _ pre t post H) as [Hok Hch].
  destruct Hok as (_ & Hbe & _ & _ & Hstop & _).
  unfold get_next_segment_joined, token_position, path_at.
  cbn [paths path_index segment nth_error nth].
  rewrite (chain_next st a _ t post Hbe Hstop Hch).
  destruct post; [|reflexivity].
  cbn [skipn next_path_loop]. rewrite (chain_first st r 0 _ Hr).
  reflexivity.
Qed.

Lemma pair_walk_second st a r :
  forall post pre t,
    chain st r 0 (pre ++ t :: post) ->
    walk_forward st (token_position [a; r] 1 0 t)
      (map (token_position [a; r] 1 0) post).
Proof.
  induction post as [|t' post IH]; intros pre t H.
  - eapply walk_forward_end. apply (pair_next_second st a r pre t [] H).
  - cbn [map]. eapply walk_forward_step.
    + apply (pair_next_second st a r pre t (t' :: post) H).
    + apply (IH (pre ++ [t]) t'). rewrite <- app_assoc. exact H.
Qed.

Lemma pair_walk_first st a r t0 tsr :
  chain st r 0 (t0 :: tsr) ->
  forall post pre t,
    chain st a (get_root st a) (pre ++ t :: post) ->
    walk_forward st (token_position [a; r] 0 (get_root st a) t)
      (pair_positions st a r post (t0 :: tsr)).
Proof.
  intros Hr. unfold pair_positions.
  induction post as [|t' post IH]; intros pre t H.
  - cbn [map app]. eapply walk_forward_step.
    + apply (pair_next_first st a r pre t [] t0 tsr H Hr).
    + apply (pair_walk_second st a r tsr [] t0 Hr).
  - cbn [map app]. eapply walk_forward_step.
    + apply (pair_next_first st a r pre t (t' :: post) t0 tsr H Hr).
    + apply (IH (pre ++ [t]) t'). rewrite <- app_assoc. exact H.
Qed.

Lemma pair_position_ok_first st a r pre t post :
  chain st a (get_root st a) (pre ++ t :: post) ->
  position_ok st (token_position [a; r] 0 (get_root st a) t).
Proof.
  intros H. unfold position_ok, token_position.
  cbn [paths path_index segment length nth].
  split; [lia|]. split; [reflexivity|]. split.
  - apply (chain_token_ok st a _ pre t post H).
  - unfold within, token_segment. cbn [path end_].
    apply (chain_within st a pre _ t post H), get_root_within.
Qed.

Lemma pair_position_ok_second st a r pre t post :
  chain st r 0 (pre ++ t :: post) ->
  position_ok st (token_position [a; r] 1 0 t).
Proof.
  intros H. unfold position_ok, token_position.
  cbn [paths path_index segment length nth].
  split; [lia|]. split; [reflexivity|]. split.
  - apply (chain_token_ok st r _ pre t post H).
  - unfold within, token_segment. cbn [path end_].
    apply (chain_within st r pre _ t post H). intros i Hi. lia.
Qed.

Lemma token_position_bytes st ps i segs c ts t :
  chain st (nth i ps []) c ts -> In t ts ->
  position_bytes (token_position ps i segs t) = token_text (nth i ps []) t.
Proof.
  intros H Hin. apply in_split in Hin. destruct Hin as (pre & post & ->).
  destruct (chain_token_ok st _ _ pre t post H) as [Hok _].
  destruct Hok as (_ & Hbe & _ & Hregs & _). destruct t as [b e].
  unfold position_bytes, token_position, token_text.
  cbn [segment token_segment path begin size fst snd] in *.
  apply (bytes_at_slice st); assumption.
Qed.

Lemma pair_bytes st a r tsa tsr :
  chain st a (get_root st a) tsa -> chain st r 0 tsr ->
  map position_bytes (pair_positions st a r tsa tsr)
  = map (token_text a) tsa ++ map (token_text r) tsr.
Proof.
  intros Ha Hr. unfold pair_positions. rewrite map_app, !map_map. f_equal.
  - apply map_ext_in. intros t Ht.
    apply (token_position_bytes st [a; r] 0 _ _ tsa t Ha Ht).
  - apply map_ext_in. intros t Ht.
    apply (token_position_bytes st [a; r] 1 _ _ tsr t Hr Ht).
Qed.

(** The stream of [a] and [r] starts at the first of the positions and
    walks through them. *)
Lemma pair_stream st a r tsa t0 tsr :
  chain st a (get_root st a) tsa -> chain st r 0 (t0 :: tsr) ->
  get_root st r = 0 ->
  exists x l,
    pair_positions st a r tsa (t0 :: tsr) = x :: l
    /\ get_first_segment_joined st [a; r] = (true, x)
    /\ position_ok st x /\ walk_forward st x l.
Proof.
  intros Ha Hr Hroot. unfold get_first_segment_joined.
  cbn [first_segment_joined_loop]. unfold get_first_segment.
  rewrite (chain_first st a _ tsa Ha). destruct tsa as [|t post].
  - rewrite Hroot, (chain_first st r 0 _ Hr).
    exists (token_position [a; r] 1 0 t0),
      (map (token_position [a; r] 1 0) tsr).
    split; [reflexivity|]. split; [reflexivity|]. split.
    + apply (pair_position_ok_second st a r [] t0 tsr Hr).
    + apply (pair_walk_second st a r tsr [] t0 Hr).
  - exists (token_position [a; r] 0 (get_root st a) t),
      (pair_positions st a r post (t0 :: tsr)).
    split; [reflexivity|]. split; [reflexivity|]. split.
    + apply (pair_position_ok_first st a r [] t post Ha).
    + apply (pair_walk_first st a r t0 tsr Hr post [] t Ha).
Qed.

(** With a buffer that holds it, joining the absolute path [a] and the
    rootless path [r] writes the root of [a] and the segments the
    resolver keeps of the segments of [a] followed by those of [r]. *)
Lemma pair_writes st a r tsa t0 tsr buf cap :
  chain st a (get_root st a) tsa -> chain st r 0 (t0 :: tsr) ->
  get_root st r = 0 -> is_absolute st a = true ->
  length (root_text st a
          ++ render st false
               (survivors classify true []
                  (map (token_text a) tsa ++ map (token_text r) (t0 :: tsr))))
  < cap ->
  exists buf',
    join_and_normalize_multiple st [a; r] buf cap
    = (length (root_text st a
               ++ render st false
                    (survivors classify true []
                       (map (token_text a) tsa
                        ++ map (token_text r) (t0 :: tsr)))),
       buf')
    /\ buffer_prefix buf'
         (length (root_text st a
                  ++ render st false
                       (survivors classify true []
                          (map (token_text a) tsa
                           ++ map (token_text r) (t0 :: tsr)))))
       = root_text st a
         ++ render st false
              (survivors classify true []
                 (map (token_text a) tsa ++ map (token_text r) (t0 :: tsr)))
    /\ buf' (length (root_text st a
                     ++ render st false
                          (survivors classify true []
                             (map (token_text a) tsa
                              ++ map (token_text r) (t0 :: tsr)))))
       = NUL.
Proof.
  intros Ha Hr Hroot Habs.
  destruct (pair_stream st a r tsa t0 tsr Ha Hr Hroot)
    as (x & l & EP & EF & Hok & Hw).
  pose proof (pair_bytes st a r tsa (t0 :: tsr) Ha Hr) as HB.
  rewrite EP in HB. rewrite <- HB.
  rewrite <- (absolute_kept_texts st l x Hw Hok).
  set (texts := map position_bytes (filter (kept st true) (x :: l))).
  rewrite length_app, length_root_text. intros Hcap.
  unfold join_and_normalize_multiple. cbn [nth].
  change (is_root_absolute st a (get_root st a)) with (is_absolute st a).
  rewrite Habs, EF. cbn [negb].
  assert (Hrc : 0 + get_root st a < cap) by lia.
  pose proof (output_sized_fits buf cap 0 a 0 (get_root st a) Hrc) as P0.
  destruct (output_sized buf cap 0 a 0 (get_root st a)) as [n0 b0].
  cbn [snd] in P0. rewrite buffer_prefix_0, bytes_at_root in P0.
  cbn [app Nat.add] in P0.
  destruct (join_loop_walk st true cap x l Hw (stream_fuel [a; r])
              (get_root st a) false b0) as (b1 & E1 & P1).
  - pose proof (walk_forward_length st x l Hw Hok) as HL.
    destruct (in_stream_first_ok st [a; r] x EF) as [_ Hp].
    rewrite Hp in HL. lia.
  - exact Hcap.
  - fold (kept st true) in E1, P1. fold texts in E1, P1.
    rewrite E1.
    pose proof (absolute_root_not_0 st a Habs) as Hn0.
    destruct (Nat.eqb_spec (get_root st a + length (render st false texts))
                0) as [E0|_]; [lia|].
    rewrite andb_false_r.
    destruct (terminate_output_fits b1 cap
                (get_root st a + length (render st false texts)))
      as [T1 T2]; [lia|].
    eexists. split; [reflexivity|]. split; [|exact T2].
    rewrite T1, P1, P0. reflexivity.
Qed.

(** ** The relative path, read back *)

Lemma render_trailing st :
  forall rest,
    render st true rest ++ [output_separator_char st]
    = output_separator_char st :: trailing st rest.
Proof.
  induction rest as [|t rest IH]; [reflexivity|].
  cbn [render]. rewrite trailing_cons. cbn [app].
  rewrite <- !app_assoc, IH. reflexivity.
Qed.

Lemma relative_text_render st items :
  relative_text st items
  = render st false (match items with [] => [lit "."] | _ :: _ => items end).
Proof.
  destruct items as [|t rest]; [reflexivity|].
  unfold relative_text. rewrite trailing_cons. cbn [render app].
  rewrite <- app_assoc. cbn [app]. rewrite <- render_trailing, app_assoc.
  apply removelast_last.
Qed.

Lemma Forall_after {A : Type} (P : A -> Prop) n l :
  Forall P l -> Forall P (skipn n l).
Proof.
  intros H. rewrite <- (firstn_skipn n l) in H.
  apply Forall_app in H. apply H.
Qed.

Lemma back_is_segment_text st : segment_text st (lit "..").
Proof.
  split; [discriminate|]. repeat constructor; destruct st; reflexivity.
Qed.



Lemma positions_ok st p ts :
  chain st p (get_root st p) ts ->
  Forall (position_ok st) (positions st p ts).
Proof.
  intros H. apply Forall_forall. intros x Hx. unfold positions in Hx.
  apply in_map_iff in Hx. destruct Hx as (t & <- & Ht).
  apply in_split in Ht. destruct Ht as (pre & post & ->).
  apply (single_position_ok st p pre t post H).
Qed.

Lemma kept_positions_ok st absolute p ts :
  chain st p (get_root st p) ts ->
  Forall (position_ok st) (filter (kept st absolute) (positions st p ts)).
Proof.
  intros H. pose proof (positions_ok st p ts H) as HF.
  rewrite Forall_forall in *. intros x Hx. apply filter_In in Hx.
  apply HF, Hx.
Qed.



(** ** The round trip *)

Lemma position_bytes_ok st x :
  position_ok st x -> segment_text st (position_bytes x).
Proof.
  intros (_ & _ & Hok & _).
  destruct (segment_ok_text st _ Hok) as (_ & F & _ & _).
  split; [|exact F]. intros E. apply (f_equal (@length ascii)) in E.
  unfold position_bytes in E. rewrite length_bytes_at in E.
  destruct Hok as (_ & Hbe & Hs & _). cbn [length] in E. lia.
Qed.

(** The text [get_relative] writes is a rendering of segment texts, at
    least one. *)
Lemma relative_text_rendered st absolute Lb Lo :
  Forall (position_ok st) Lo ->
  exists t rest,
    relative_text st (relative_items st absolute Lb Lo)
    = render st false (t :: rest)
    /\ Forall (segment_text st) (t :: rest).
Proof.
  intros HLo. rewrite relative_text_render. unfold relative_items.
  set (B := filter (kept st absolute) Lb).
  set (T := filter (kept st absolute) Lo).
  set (K := map (fun _ : cwk_segment_joined => lit "..")
              (skipn (common st B T) B)).
  set (N := map position_bytes (skipn (common st B T) T)).
  assert (HK : Forall (segment_text st) K).
  { apply Forall_forall. intros x Hx. apply in_map_iff in Hx.
    destruct Hx as (y & <- & _). apply back_is_segment_text. }
  assert (HN : Forall (segment_text st) N).
  { apply Forall_forall. intros x Hx. apply in_map_iff in Hx.
    destruct Hx as (y & <- & Hy). apply position_bytes_ok.
    assert (HT : Forall (position_ok st) (skipn (common st B T) T)).
    { apply Forall_after. rewrite Forall_forall in *. intros z Hz.
      apply filter_In in Hz. apply HLo, Hz. }
    rewrite Forall_forall in HT. apply HT, Hy. }
  destruct (K ++ N) as [|t rest] eqn:E.
  - exists (lit "."), []. split; [reflexivity|].
    constructor; [apply dot_is_segment_text|constructor].
  - exists t, rest. split; [reflexivity|]. rewrite <- E.
    apply Forall_app. split; assumption.
Qed.




Lemma get_relative_result st base target tsb tso buf cap :
  chain st base (get_root st base) tsb ->
  chain st target (get_root st target) tso ->
  get_root st base = get_root st target ->
  is_string_equal st base target (get_root st base) = true ->
  fst (get_relative st base target buf cap) < cap ->
  buffer_prefix (snd (get_relative st base target buf cap))
    (fst (get_relative st base target buf cap))
  = relative_text st
      (relative_items st (is_absolute st base) (positions st base tsb)
         (positions st target tso)).
Proof.
  intros Hb Ho Hroot Heq Hcap.
  set (R := relative_text st
              (relative_items st (is_absolute st base)
                 (positions st base tsb) (positions st target tso))) in *.
  destruct (get_relative_writes st base target tsb tso buf (S (length R))
              Hb Ho Hroot Heq (Nat.lt_succ_diag_r _)) as (b' & E' & _).
  pose proof (get_relative_measures st base target buf buf cap
                (S (length R))) as HM.
  fold R in E'. rewrite E' in HM. cbn [fst] in HM. rewrite HM in Hcap.
  destruct (get_relative_writes st base target tsb tso buf cap
              Hb Ho Hroot Heq Hcap) as (b & E & P & _).
  fold R in E, P. rewrite E. cbn [fst snd]. exact P.
Qed.

Lemma pair_result st a r tsa t0 tsr buf cap :
  chain st a (get_root st a) tsa -> chain st r 0 (t0 :: tsr) ->
  get_root st r = 0 -> is_absolute st a = true ->
  fst (join_and_normalize_multiple st [a; r] buf cap) < cap ->
  fst (join_and_normalize_multiple st [a; r] buf cap)
  = length (root_text st a
            ++ render st false
                 (survivors classify true []
                    (map (token_text a) tsa
                     ++ map (token_text r) (t0 :: tsr))))
  /\ buffer_prefix (snd (join_and_normalize_multiple st [a; r] buf cap))
       (fst (join_and_normalize_multiple st [a; r] buf cap))
     = root_text st a
       ++ render st false
            (survivors classify true []
               (map (token_text a) tsa ++ map (token_text r) (t0 :: tsr))).
Proof.
  intros Ha Hr Hroot Habs Hcap.
  set (W := root_text st a
            ++ render st false
                 (survivors classify true []
                    (map (token_text a) tsa
                     ++ map (token_text r) (t0 :: tsr)))) in *.
  destruct (pair_writes st a r tsa t0 tsr buf (S (length W))
              Ha Hr Hroot Habs (Nat.lt_succ_diag_r _)) as (b' & E' & _).
  pose proof (join_and_normalize_multiple_measures st [a; r] buf buf cap
                (S (length W))) as HM.
  fold W in E'. rewrite E' in HM. cbn [fst] in HM. rewrite HM in Hcap.
  destruct (pair_writes st a r tsa t0 tsr buf cap Ha Hr Hroot Habs Hcap)
    as (b & E & P & _).
  fold W in E, P. rewrite E. cbn [fst snd]. auto.
Qed.



(** Under the Windows style a segment of the target can read as a root
    once it stands first: from [C:\] to [C:\D:\x] the relative path is
    [D:\x], an absolute path, and [get_absolute] gives [D:\x], not the
    normalized target [C:\D:\x]. *)
Lemma relative_round_trip_fails_on_windows_root_like_segment :
  is_absolute CWK_STYLE_WINDOWS (lit "C:\") = true
  /\ is_absolute CWK_STYLE_WINDOWS (lit "C:\D:\x") = true
  /\ buffer_prefix
       (snd (get_relative CWK_STYLE_WINDOWS (lit "C:\") (lit "C:\D:\x")
               (fun _ => NUL) 32))
       (fst (get_relative CWK_STYLE_WINDOWS (lit "C:\") (lit "C:\D:\x")
               (fun _ => NUL) 32))
     = lit "D:\x"
  /\ buffer_prefix
       (snd (get_absolute CWK_STYLE_WINDOWS (lit "C:\") (lit "D:\x")
               (fun _ => NUL) 32))
       (fst (get_absolute CWK_STYLE_WINDOWS (lit "C:\") (lit "D:\x")
               (fun _ => NUL) 32))
     = lit "D:\x"
  /\ buffer_prefix
       (snd (normalize CWK_STYLE_WINDOWS (lit "C:\D:\x") (fun _ => NUL) 32))
       (fst (normalize CWK_STYLE_WINDOWS (lit "C:\D:\x") (fun _ => NUL) 32))
     = lit "C:\D:\x".
Proof. repeat split; vm_compute; reflexivity. Qed.

(** The comparison of two segments looks at as many bytes as the segment
    of the base has: under the Unix style, from [/ab] to [/abc] the
    relative path is [.], which leads to [/ab], not to [/abc]. *)
Lemma relative_round_trip_fails_on_prefix_segment :
  is_absolute CWK_STYLE_UNIX (lit "/ab") = true
  /\ is_absolute CWK_STYLE_UNIX (lit "/abc") = true
  /\ buffer_prefix
       (snd (get_relative CWK_STYLE_UNIX (lit "/ab") (lit "/abc")
               (fun _ => NUL) 32))
       (fst (get_relative CWK_STYLE_UNIX (lit "/ab") (lit "/abc")
               (fun _ => NUL) 32))
     = lit "."
  /\ buffer_prefix
       (snd (get_absolute CWK_STYLE_UNIX (lit "/ab") (lit ".")
               (fun _ => NUL) 32))
       (fst (get_absolute CWK_STYLE_UNIX (lit "/ab") (lit ".")
               (fun _ => NUL) 32))
     = lit "/ab"
  /\ buffer_prefix
       (snd (normalize CWK_STYLE_UNIX (lit "/abc") (fun _ => NUL) 32))
       (fst (normalize CWK_STYLE_UNIX (lit "/abc") (fun _ => NUL) 32))
     = lit "/abc".
Proof. repeat split; vm_compute; reflexivity. Qed.


(* ================================================================== *)
(** * Further properties of the library *)
(* ================================================================== *)

(** ** The length of a string *)

Lemma strlen_from_spec :
  forall l,
    (forall i, i < strlen_from l -> is_nul (nth i l NUL) = false)
    /\ is_nul (nth (strlen_from l) l NUL) = true.
Proof.
  induction l as [|x l [IH1 IH2]]; cbn [strlen_from].
  - split; [intros i Hi; lia|reflexivity].
  - destruct (is_nul x) eqn:E.
    + split; [intros i Hi; lia|exact E].
    + split; [|exact IH2]. intros [|i] Hi; [exact E|].
      cbn [nth]. apply IH1. lia.
Qed.

Lemma strlen_spec p off :
  (forall i, off <= i < off + strlen p off -> is_nul (deref p i) = false)
  /\ is_nul (deref p (off + strlen p off)) = true.
Proof.
  unfold strlen, deref.
  destruct (strlen_from_spec (skipn off p)) as [H1 H2]. split.
  - intros i Hi. replace i with (off + (i - off)) by lia.
    rewrite <- nth_skipn. apply H1. lia.
  - rewrite <- nth_skipn. exact H2.
Qed.

Lemma strlen_unique p off n :
  (forall i, off <= i < off + n -> is_nul (deref p i) = false) ->
  is_nul (deref p (off + n)) = true ->
  strlen p off = n.
Proof.
  intros H1 H2. destruct (strlen_spec p off) as [S1 S2].
  destruct (Nat.lt_trichotomy (strlen p off) n) as [Hlt|[Heq|Hgt]].
  - rewrite H1 in S2 by lia. discriminate.
  - exact Heq.
  - rewrite S1 in H2 by lia. discriminate.
Qed.

Lemma strlen_ge p off n :
  (forall i, off <= i < off + n -> is_nul (deref p i) = false) ->
  n <= strlen p off.
Proof.
  intros H. destruct (strlen_spec p off) as [_ S2].
  destruct (Nat.le_gt_cases n (strlen p off)) as [Hle|Hgt]; [exact Hle|].
  rewrite H in S2 by lia. discriminate.
Qed.

Lemma no_nul_before_strlen p n : no_nul_before p n -> n <= strlen p 0.
Proof. intros H. apply strlen_ge. intros i Hi. apply H. lia. Qed.

(** X1.  The root [get_root] finds lies inside the string: no terminator
    stands before its end, so its length is at most [strlen] of the
    path. *)
Theorem root_lies_within_the_string (st : cwk_path_style) (p : list ascii) :
  get_root st p <= strlen p 0
  /\ forall i, i < get_root st p -> is_nul (deref p i) = false.
Proof.
  split; [|apply get_root_within].
  apply no_nul_before_strlen, get_root_within.
Qed.

(** ** The segments of the iterator *)

(** X2.  Every segment the iterator delivers on a path -- through
    [get_first_segment] and then [get_next_segment] -- is a segment of
    that path after its root: it is not empty, lies between the root
    and the terminator, holds no separator, ends before a separator or
    the terminator and starts at the root or after a separator; its
    [size] is [end - begin]. *)
Theorem iterator_yields_segments (st : cwk_path_style) (p : list ascii)
  (seg : cwk_segment) :
  iterated st p seg ->
  path seg = p /\ segments seg = get_root st p
  /\ get_root st p <= begin seg /\ begin seg < end_ seg
  /\ end_ seg <= strlen p 0
  /\ size seg = end_ seg - begin seg
  /\ (forall i, begin seg <= i < end_ seg ->
        is_separator st (deref p i) = false /\ is_nul (deref p i) = false)
  /\ (is_separator st (deref p (end_ seg)) = true
      \/ is_nul (deref p (end_ seg)) = true)
  /\ (begin seg = get_root st p
      \/ is_separator st (deref p (begin seg - 1)) = true).
Proof.
  intros Hit. pose proof (chain_tokens st p) as H.
  destruct (iterated_tokens st p _ seg H Hit) as (pre & t & post & E & ->).
  rewrite E in H.
  destruct (chain_token_ok st p _ pre t post H) as [Hok _].
  pose proof (chain_within st p pre _ t post H (get_root_within st p)) as Hin.
  destruct Hok as (A1 & A2 & A3 & A4 & A5 & A6).
  cbn [token_segment path segments begin end_ size] in *.
  splits; try assumption; try reflexivity.
  - apply no_nul_before_strlen, Hin.
  - intros i Hi. split.
    + apply (regular_not_separator st), A4, Hi.
    + apply (regular_not_nul st), A4, Hi.
  - destruct (is_nul (deref p (snd t))) eqn:En; [right; reflexivity|left].
    apply not_regular_not_nul_separator; assumption.
Qed.

Lemma iterator_yields_segments_witness :
  path (mk_segment (lit "/a/bc") 1 3 5 2) = lit "/a/bc"
  /\ segments (mk_segment (lit "/a/bc") 1 3 5 2)
     = get_root CWK_STYLE_UNIX (lit "/a/bc")
  /\ get_root CWK_STYLE_UNIX (lit "/a/bc")
     <= begin (mk_segment (lit "/a/bc") 1 3 5 2)
  /\ begin (mk_segment (lit "/a/bc") 1 3 5 2)
     < end_ (mk_segment (lit "/a/bc") 1 3 5 2)
  /\ end_ (mk_segment (lit "/a/bc") 1 3 5 2) <= strlen (lit "/a/bc") 0
  /\ size (mk_segment (lit "/a/bc") 1 3 5 2)
     = end_ (mk_segment (lit "/a/bc") 1 3 5 2)
       - begin (mk_segment (lit "/a/bc") 1 3 5 2)
  /\ (forall i,
        begin (mk_segment (lit "/a/bc") 1 3 5 2) <= i
        < end_ (mk_segment (lit "/a/bc") 1 3 5 2) ->
        is_separator CWK_STYLE_UNIX (deref (lit "/a/bc") i) = false
        /\ is_nul (deref (lit "/a/bc") i) = false)
  /\ (is_separator CWK_STYLE_UNIX
        (deref (lit "/a/bc") (end_ (mk_segment (lit "/a/bc") 1 3 5 2)))
      = true
      \/ is_nul
           (deref (lit "/a/bc") (end_ (mk_segment (lit "/a/bc") 1 3 5 2)))
         = true)
  /\ (begin (mk_segment (lit "/a/bc") 1 3 5 2)
      = get_root CWK_STYLE_UNIX (lit "/a/bc")
      \/ is_separator CWK_STYLE_UNIX
           (deref (lit "/a/bc")
              (begin (mk_segment (lit "/a/bc") 1 3 5 2) - 1))
         = true).
Proof.
  apply (iterator_yields_segments CWK_STYLE_UNIX (lit "/a/bc")
           (mk_segment (lit "/a/bc") 1 3 5 2)).
  apply (iterated_next CWK_STYLE_UNIX (lit "/a/bc")
           (mk_segment (lit "/a/bc") 1 1 2 1)).
  - apply iterated_first. reflexivity.
  - reflexivity.
Defined.

(** ** The type of a segment *)

Lemma classify_exact st t :
  segment_text st t ->
  (classify t = CWK_CURRENT <-> t = lit ".")
  /\ (classify t = CWK_BACK <-> t = lit "..").
Proof.
  intros [Hne Hall].
  assert (Hn : Forall (fun ch => is_nul ch = false) t).
  { rewrite Forall_forall in *. intros ch Hch.
    apply (regular_not_nul st), Hall, Hch. }
  clear Hall. unfold classify, get_segment_type.
  cbn [path begin size skipn].
  destruct t as [|a [|b [|c t]]]; [contradiction| | |].
  - inversion Hn as [|? ? Ha _]; subst.
    cbn [length strncmp_eq hd tl lit list_ascii_of_string].
    destruct (Ascii.eqb_spec a "."%char) as [->|N]; cbn [negb].
    + split; split; intros H; try reflexivity; discriminate.
    + split; split; intros H; try discriminate; congruence.
  - inversion Hn as [|? ? Ha Hn']; subst.
    inversion Hn' as [|? ? Hb _]; subst.
    cbn [length strncmp_eq hd tl lit list_ascii_of_string].
    destruct (Ascii.eqb_spec a "."%char) as [->|N]; cbn [negb].
    + change (is_nul ".") with false. cbv iota.
      destruct (Ascii.eqb_spec b NUL) as [->|Nb]; [discriminate|].
      cbn [negb].
      destruct (Ascii.eqb_spec b "."%char) as [->|N2]; cbn [negb].
      * split; split; intros H; try reflexivity; discriminate.
      * split; split; intros H; try discriminate; congruence.
    + split; split; intros H; try discriminate; congruence.
  - inversion Hn as [|? ? Ha Hn']; subst.
    inversion Hn' as [|? ? Hb Hn'']; subst.
    inversion Hn'' as [|? ? Hc _]; subst.
    cbn [length strncmp_eq hd tl lit list_ascii_of_string].
    destruct (Ascii.eqb_spec a "."%char) as [->|N]; cbn [negb].
    + change (is_nul ".") with false. cbv iota.
      destruct (Ascii.eqb_spec b NUL) as [->|Nb]; [discriminate|].
      cbn [negb].
      destruct (Ascii.eqb_spec b "."%char) as [->|N2]; cbn [negb].
      * change (is_nul ".") with false. cbv iota.
        destruct (Ascii.eqb_spec c NUL) as [->|Nc]; [discriminate|].
        cbn [negb]. split; split; intros H; discriminate.
      * split; split; intros H; try discriminate.
    + split; split; intros H; try discriminate.
Qed.

(** X3.  The classification of a segment is exact: a segment the
    iterator delivers is a Current segment exactly when its text is one
    dot and a Back segment exactly when its text is two dots; a longer
    text that starts with dots is a Normal segment. *)
Theorem segment_type_is_exact (st : cwk_path_style) (p : list ascii)
  (seg : cwk_segment) :
  iterated st p seg ->
  (get_segment_type seg = CWK_CURRENT
   <-> slice p (begin seg) (end_ seg) = lit ".")
  /\ (get_segment_type seg = CWK_BACK
      <-> slice p (begin seg) (end_ seg) = lit "..").
Proof.
  intros Hit. pose proof (chain_tokens st p) as H.
  destruct (iterated_tokens st p _ seg H Hit) as (pre & t & post & E & ->).
  rewrite E in H.
  destruct (chain_token_ok st p _ pre t post H) as [Hok _].
  destruct Hok as (_ & Hbe & _ & Hregs & _). destruct t as [b e].
  cbn [token_segment path begin end_ fst snd] in *.
  rewrite (token_type st p _ b e Hregs Hbe).
  apply (classify_exact st).
  apply (chain_token_text_ok st p _ _ (b, e) H).
  apply in_or_app. right. left. reflexivity.
Qed.

Lemma segment_type_is_exact_witness :
  (get_segment_type (mk_segment (lit "a/..") 0 2 4 2) = CWK_CURRENT
   <-> slice (lit "a/..") (begin (mk_segment (lit "a/..") 0 2 4 2))
         (end_ (mk_segment (lit "a/..") 0 2 4 2)) = lit ".")
  /\ (get_segment_type (mk_segment (lit "a/..") 0 2 4 2) = CWK_BACK
      <-> slice (lit "a/..") (begin (mk_segment (lit "a/..") 0 2 4 2))
            (end_ (mk_segment (lit "a/..") 0 2 4 2)) = lit "..").
Proof.
  apply (segment_type_is_exact CWK_STYLE_UNIX (lit "a/..")
           (mk_segment (lit "a/..") 0 2 4 2)).
  apply (iterated_next CWK_STYLE_UNIX (lit "a/..")
           (mk_segment (lit "a/..") 0 0 1 1)).
  - apply iterated_first. reflexivity.
  - reflexivity.
Defined.

(** ** Relative paths: the edges *)

Lemma is_string_equal_refl st a n : is_string_equal st a a n = true.
Proof.
  unfold is_string_equal. destruct st.
  - apply is_string_equal_loop_same. reflexivity.
  - apply strncmp_eq_same. reflexivity.
Qed.

Lemma common_self st : forall B, common st B B = length B.
Proof.
  induction B as [|b B IH]; [reflexivity|]. cbn [common length].
  unfold segments_equal. rewrite is_string_equal_refl, IH. reflexivity.
Qed.

Lemma relative_items_self st absolute L :
  relative_items st absolute L L = [].
Proof.
  unfold relative_items. rewrite common_self, skipn_all. reflexivity.
Qed.

(** X4.  The relative path from a path to itself is a single dot,
    whatever the path and the style: [get_relative] returns 1 and, into
    a buffer of more than one byte, writes [.] and the terminator. *)
Theorem relative_path_to_itself (st : cwk_path_style) (p : list ascii)
  (buf : buffer) (cap : nat) :
  fst (get_relative st p p buf cap) = 1
  /\ (1 < cap ->
      buffer_prefix (snd (get_relative st p p buf cap)) 1 = lit "."
      /\ snd (get_relative st p p buf cap) 1 = NUL).
Proof.
  pose proof (chain_tokens st p) as H.
  assert (W : forall b c, 1 < c ->
            exists b', get_relative st p p b c = (1, b')
                       /\ buffer_prefix b' 1 = lit "." /\ b' 1 = NUL).
  { intros b c Hc.
    pose proof (get_relative_writes st p p _ _ b c H H eq_refl
                  (is_string_equal_refl st p _)) as G.
    rewrite relative_items_self in G. apply G. exact Hc. }
  split.
  - destruct (W buf 2 (Nat.lt_succ_diag_r 1)) as (b' & E & _).
    pose proof (get_relative_measures st p p buf buf cap 2) as HM.
    rewrite E in HM. exact HM.
  - intros Hc. destruct (W buf cap Hc) as (b' & E & P & T).
    rewrite E. cbn [snd]. auto.
Qed.

Lemma relative_path_to_itself_witness :
  buffer_prefix
    (snd (get_relative CWK_STYLE_WINDOWS (lit "C:\a\..\b") (lit "C:\a\..\b")
            (fun _ => "x"%char) 4)) 1 = lit "."
  /\ snd (get_relative CWK_STYLE_WINDOWS (lit "C:\a\..\b") (lit "C:\a\..\b")
            (fun _ => "x"%char) 4) 1 = NUL.
Proof.
  apply (relative_path_to_itself CWK_STYLE_WINDOWS (lit "C:\a\..\b")
           (fun _ => "x"%char) 4).
  lia.
Defined.

(** X5.  [get_relative] gives the empty path exactly when the roots of
    the two paths do not pass its test: when the root lengths differ or
    the comparison of the first path's root with the start of the second
    path fails, it returns 0 and only terminates the buffer at index 0;
    when the roots pass the test, the length it returns is never 0. *)
Theorem relative_path_is_empty_iff_roots_differ (st : cwk_path_style)
  (base target : list ascii) (buf : buffer) (cap : nat) :
  (get_root st base <> get_root st target
   \/ is_string_equal st base target (get_root st base) = false ->
   get_relative st base target buf cap = (0, terminate_output buf cap 0))
  /\ (get_root st base = get_root st target ->
      is_string_equal st base target (get_root st base) = true ->
      0 < fst (get_relative st base target buf cap)).
Proof.
  split.
  - intros H. unfold get_relative.
    destruct (Nat.eqb_spec (get_root st base) (get_root st target))
      as [E|N]; [|reflexivity].
    destruct H as [H|H]; [contradiction|]. rewrite H. reflexivity.
  - intros Hroot Heq.
    pose proof (chain_tokens st base) as Hb.
    pose proof (chain_tokens st target) as Ho.
    set (R := relative_text st
                (relative_items st (is_absolute st base)
                   (positions st base (tokens st base))
                   (positions st target (tokens st target)))).
    destruct (get_relative_writes st base target _ _ buf (S (length R))
                Hb Ho Hroot Heq (Nat.lt_succ_diag_r _)) as (b' & E' & _).
    pose proof (get_relative_measures st base target buf buf cap
                  (S (length R))) as HM.
    fold R in E'. rewrite E' in HM. cbn [fst] in HM. rewrite HM.
    destruct (relative_text_rendered st (is_absolute st base)
                (positions st base (tokens st base))
                (positions st target (tokens st target))
                (positions_ok st target _ Ho))
      as (t & rest & ER & Hall).
    fold R in ER. rewrite ER. inversion Hall as [|? ? [Hne _] _]; subst.
    cbn [render app]. rewrite length_app.
    destruct t; [contradiction|cbn [length]; lia].
Qed.

Lemma relative_path_is_empty_iff_roots_differ_witness :
  get_relative CWK_STYLE_WINDOWS (lit "C:\a") (lit "D:\a")
    (fun _ => "x"%char) 4
  = (0, terminate_output (fun _ => "x"%char) 4 0).
Proof.
  apply (proj1 (relative_path_is_empty_iff_roots_differ CWK_STYLE_WINDOWS
                  (lit "C:\a") (lit "D:\a") (fun _ => "x"%char) 4)).
  right. vm_compute. reflexivity.
Defined.

(** ** The size and the shape of a normalized path *)



Lemma survivors_not_current {A : Type} (ty : A -> cwk_segment_type)
  absolute :
  forall l behind x,
    In x (survivors ty absolute behind l) -> ty x <> CWK_CURRENT.
Proof.
  induction l as [|y l IH]; intros behind x Hx; [destruct Hx|].
  cbn [survivors] in Hx. apply in_app_or in Hx. destruct Hx as [Hx|Hx].
  - destruct (ty y) eqn:Ey; cbn [elided_by_rule] in Hx.
    + destruct (counter_goes_negative (map ty l) 0); [destruct Hx|].
      destruct Hx as [<-|[]]. congruence.
    + destruct Hx.
    + destruct (if absolute then true
                else counter_goes_positive (map ty behind) 0);
        [destruct Hx|].
      destruct Hx as [<-|[]]. congruence.
  - apply (IH _ _ Hx).
Qed.

Lemma backs_then_normals_next {A : Type} (ty : A -> cwk_segment_type)
  l1 x y l2 :
  backs_then_normals ty (l1 ++ x :: y :: l2) ->
  ty x = CWK_NORMAL -> ty y = CWK_NORMAL.
Proof.
  intros (a & b & E & Ha & Hb) Hx. revert l1 E.
  induction Ha as [|z a Hz Ha IH]; intros l1 E.
  - cbn [app] in E. rewrite <- E in Hb. apply Forall_app in Hb.
    destruct Hb as [_ Hb]. inversion Hb as [|? ? _ Hb']; subst.
    inversion Hb'; assumption.
  - destruct l1 as [|w l1]; cbn [app] in E; inversion E; subst.
    + congruence.
    + apply (IH l1). assumption.
Qed.

Lemma kept_texts_shape st p ts :
  backs_then_normals classify (kept_texts st p ts).
Proof.
  rewrite kept_texts_survivors. destruct (is_absolute st p).
  - exists [], (survivors classify true [] (map (token_text p) ts)).
    split; [reflexivity|]. split; [constructor|].
    apply survivors_absolute_normal.
  - apply survivors_shape.
Qed.

(** X7.  The shape of a normalized path.  In the text [normalize]
    writes (for a path of the Unix style, an absolute path, or any path
    whose normal form keeps the length of the root) a Current segment
    occurs only when the whole text is a single dot, and the segment
    after a Normal segment is Normal: the Back segments that are left
    all stand at the front. *)
Theorem normalized_path_shape (st : cwk_path_style) (p : list ascii)
  (buf : buffer) (cap : nat) :
  fst (normalize st p buf cap) < cap ->
  st = CWK_STYLE_UNIX \/ is_absolute st p = true
  \/ get_root st (buffer_prefix (snd (normalize st p buf cap))
                    (fst (normalize st p buf cap)))
     = get_root st p ->
  let out :=
    buffer_prefix (snd (normalize st p buf cap))
      (fst (normalize st p buf cap)) in
  (forall seg,
     iterated st out seg -> get_segment_type seg = CWK_CURRENT ->
     out = lit ".")
  /\ (forall seg seg',
        iterated st out seg -> get_next_segment st seg = (true, seg') ->
        get_segment_type seg = CWK_NORMAL ->
        get_segment_type seg' = CWK_NORMAL).
Proof.
  intros Hcap Hcase. pose proof (chain_tokens st p) as H.
  destruct (normalize_result st p _ buf cap H Hcap) as (_ & Hout & _).
  rewrite Hout in *. cbv zeta.
  set (ts := tokens st p) in *.
  assert (Hroot : get_root st (normalized_text st p ts) = get_root st p).
  { destruct Hcase as [->|[Habs|Hr]].
    - apply get_root_normalized_unix, H.
    - apply get_root_normalized_absolute; assumption.
    - exact Hr. }
  destruct (chain_normalized_text st p ts H) as [Hch Htexts].
  rewrite <- Hroot in Hch at 1.
  assert (Htype : forall pre t post,
            layout (get_root st p) false (body_texts st p ts)
            = pre ++ t :: post ->
            get_segment_type
              (token_segment (normalized_text st p ts)
                 (get_root st (normalized_text st p ts)) t)
            = classify (token_text (normalized_text st p ts) t)).
  { intros pre t post E. rewrite E in Hch.
    destruct (chain_token_ok st _ _ pre t post Hch) as [Hok _].
    destruct Hok as (_ & Hbe & _ & Hregs & _). destruct t as [b e].
    apply (token_type st); assumption. }
  split.
  - intros seg Hit Hty.
    destruct (iterated_tokens st _ _ seg Hch Hit)
      as (pre & t & post & E & ->).
    rewrite (Htype pre t post E) in Hty.
    assert (Hin : In (token_text (normalized_text st p ts) t)
                    (body_texts st p ts)).
    { rewrite <- Htexts, E. apply in_map, in_or_app. right. left.
      reflexivity. }
    set (x := token_text (normalized_text st p ts) t) in *. clearbody x.
    clear Htype Hit Hch Htexts E Hroot Hout.
    unfold body_texts, normalized_text in *.
    destruct ts as [|t1 post1]; [destruct Hin|].
    destruct (kept_texts st p (t1 :: post1)) as [|k K] eqn:EK.
    + destruct (get_root st p =? 0); [reflexivity|destruct Hin].
    + rewrite <- EK in Hin. unfold kept_texts in Hin.
      apply in_map_iff in Hin. destruct Hin as (t' & Et' & Hin).
      apply survivors_not_current in Hin. unfold token_type_of in Hin.
      rewrite Et' in Hin. contradiction.
  - intros seg seg' Hit Hnext Hty.
    destruct (iterated_tokens st _ _ seg Hch Hit)
      as (pre & t & post & E & ->).
    pose proof Hch as Hch'. rewrite E in Hch'.
    destruct (chain_token_ok st _ _ pre t post Hch') as [Hok Hrest].
    destruct Hok as (_ & Hbe & _ & _ & Hstop & _).
    cbn [token_segment path begin end_] in Hbe, Hstop.
    rewrite (chain_next st _ _ t post Hbe Hstop Hrest) in Hnext.
    destruct post as [|t' post]; [discriminate|].
    inversion Hnext; subst seg'; clear Hnext.
    rewrite (Htype pre t (t' :: post) E) in Hty.
    assert (E' : layout (get_root st p) false (body_texts st p ts)
                 = (pre ++ [t]) ++ t' :: post)
      by (rewrite <- app_assoc; exact E).
    rewrite (Htype (pre ++ [t]) t' post E').
    assert (HB : body_texts st p ts
                 = map (token_text (normalized_text st p ts)) pre
                   ++ token_text (normalized_text st p ts) t
                      :: token_text (normalized_text st p ts) t'
                      :: map (token_text (normalized_text st p ts)) post).
    { rewrite <- Htexts, E, map_app. reflexivity. }
    assert (HS : backs_then_normals classify (body_texts st p ts)).
    { unfold body_texts in *. destruct ts as [|t1 post1].
      - destruct pre; discriminate.
      - destruct (kept_texts st p (t1 :: post1)) as [|k K] eqn:EK.
        + destruct (get_root st p =? 0).
          * destruct pre as [|? [|? ?]]; discriminate.
          * destruct pre; discriminate.
        + rewrite <- EK. apply kept_texts_shape. }
    rewrite HB in HS.
    apply (backs_then_normals_next classify _ _ _ _ HS Hty).
Qed.

Lemma normalized_path_shape_witness :
  (forall seg,
     iterated CWK_STYLE_UNIX
       (buffer_prefix
          (snd (normalize CWK_STYLE_UNIX (lit "a/../../b/./c")
                  (fun _ => NUL) 16))
          (fst (normalize CWK_STYLE_UNIX (lit "a/../../b/./c")
                  (fun _ => NUL) 16))) seg ->
     get_segment_type seg = CWK_CURRENT ->
     buffer_prefix
       (snd (normalize CWK_STYLE_UNIX (lit "a/../../b/./c")
               (fun _ => NUL) 16))
       (fst (normalize CWK_STYLE_UNIX (lit "a/../../b/./c")
               (fun _ => NUL) 16)) = lit ".")
  /\ (forall seg seg',
        iterated CWK_STYLE_UNIX
          (buffer_prefix
             (snd (normalize CWK_STYLE_UNIX (lit "a/../../b/./c")
                     (fun _ => NUL) 16))
             (fst (normalize CWK_STYLE_UNIX (lit "a/../../b/./c")
                     (fun _ => NUL) 16))) seg ->
        get_next_segment CWK_STYLE_UNIX seg = (true, seg') ->
        get_segment_type seg = CWK_NORMAL ->
        get_segment_type seg' = CWK_NORMAL).
Proof.
  apply (normalized_path_shape CWK_STYLE_UNIX (lit "a/../../b/./c")
           (fun _ => NUL) 16).
  - vm_compute. lia.
  - left. reflexivity.
Defined.

(** ** The intersection lies within the base *)

Lemma skip_invisible_loop_ok st absolute :
  forall fuel sj sj',
    position_ok st sj ->
    skip_invisible_loop st fuel sj absolute = (true, sj') ->
    position_ok st sj' /\ paths sj' = paths sj.
Proof.
  induction fuel as [|fuel IH]; intros sj sj' Hok;
    rewrite skip_invisible_loop_unfold;
    destruct (segment_will_be_removed st sj absolute);
    try (intros H; inversion H; subst; auto; fail);
    destruct (get_next_segment_joined st sj) as [[] sj1] eqn:E;
    cbn [negb]; try discriminate.
  destruct (get_next_segment_joined_true st sj sj1 Hok E) as (Hok1 & Hp & _).
  intros H. destruct (IH sj1 sj' Hok1 H) as [A B].
  split; [exact A|congruence].
Qed.

(** The loop of [get_intersection] returns the offset it was given or
    the end of a segment of the base. *)
Lemma intersection_loop_result st absolute :
  forall fuel base other e,
    position_ok st base ->
    intersection_loop st fuel base other absolute e = e
    \/ exists sj, position_ok st sj /\ paths sj = paths base
                  /\ intersection_loop st fuel base other absolute e
                     = end_ (segment sj).
Proof.
  induction fuel as [|fuel IH]; intros base other e Hok;
    cbn [intersection_loop]; unfold segment_joined_skip_invisible;
    destruct (skip_invisible_loop st (stream_fuel (paths base)) base absolute)
      as [[] base1] eqn:E1; cbn [negb]; auto;
    destruct (skip_invisible_loop st (stream_fuel (paths other)) other
                absolute) as [[] other1]; cbn [negb]; auto;
    destruct (is_string_equal st _ _ _); cbn [negb]; auto;
    destruct (skip_invisible_loop_ok st absolute _ base base1 Hok E1)
      as [Hok1 Hp1];
    assert (Hend : exists sj, position_ok st sj /\ paths sj = paths base
                              /\ end_ (segment base1) = end_ (segment sj))
      by (exists base1; auto);
    destruct (get_next_segment_joined st base1) as [[] base2] eqn:E2;
    cbn [negb]; auto;
    destruct (get_next_segment_joined st other1) as [[] other2];
    cbn [negb]; auto.
  destruct (get_next_segment_joined_true st base1 base2 Hok1 E2)
    as (Hok2 & Hp2 & _).
  destruct (IH base2 other2 (end_ (segment base1)) Hok2)
    as [->|(sj & A & B & C)]; [auto|].
  right. exists sj. split; [exact A|]. split; [congruence|exact C].
Qed.

(** X8.  The offset [get_intersection] returns lies within the base
    path and cuts it cleanly: it is at most [strlen] of the base, and it
    is 0, the length of the root of the base, or the end of a segment
    of the base -- the byte before it belongs to a segment and the byte
    at it is a separator or the terminator. *)
Theorem intersection_lies_within_the_base (st : cwk_path_style)
  (base other : list ascii) :
  get_intersection st base other <= strlen base 0
  /\ (get_intersection st base other = 0
      \/ get_intersection st base other = get_root st base
      \/ (regular st (deref base (get_intersection st base other - 1)) = true
          /\ regular st (deref base (get_intersection st base other))
             = false)).
Proof.
  pose proof (no_nul_before_strlen base _ (get_root_within st base)) as Hr.
  unfold get_intersection.
  destruct (is_string_equal st base other (get_root st base)); cbn [negb];
    [|split; [lia|auto]].
  destruct (get_first_segment_joined st [base]) as [[] bsj] eqn:E1;
    cbn [negb]; [|split; [exact Hr|auto]].
  destruct (get_first_segment_joined st [other]) as [[] osj]; cbn [negb];
    [|split; [exact Hr|auto]].
  destruct (in_stream_first_ok st [base] bsj E1) as [Hok Hp].
  destruct (intersection_loop_result st
              (is_root_absolute st base (get_root st base))
              (stream_fuel [base]) bsj osj (get_root st base) Hok)
    as [->|(sj & (Hi & Hpath & Hsok & Hin) & Hps & ->)];
    [split; [exact Hr|auto]|].
  rewrite Hp in Hps. rewrite Hps in Hi, Hpath. cbn [length] in Hi.
  assert (path_index sj = 0) by lia.
  replace (path_index sj) with 0 in Hpath. cbn [nth] in Hpath.
  unfold within in Hin. rewrite Hpath in Hin.
  destruct Hsok as (_ & Hbe & _ & Hregs & Hstop & _).
  rewrite Hpath in Hregs, Hstop. split.
  - apply no_nul_before_strlen. exact Hin.
  - right. right. split; [|exact Hstop]. apply Hregs. lia.
Qed.

(** ** The last segment *)

Lemma chain_count st p :
  forall ts c, chain st p c ts -> length ts <= length p - c.
Proof.
  induction ts as [|[b e] ts IH]; intros c H; [cbn [length]; lia|].
  cbn [chain] in H. destruct H as (Hle & _ & Hbe & Hregs & _ & H).
  pose proof (regs_in_range st p b e Hregs Hbe).
  specialize (IH e H). cbn [length]. lia.
Qed.

Lemma last_cons_default {A : Type} :
  forall (l : list A) a d d', last (a :: l) d = last (a :: l) d'.
Proof.
  induction l as [|b l IH]; intros a d d'; [reflexivity|].
  change (last (a :: b :: l) d) with (last (b :: l) d).
  change (last (a :: b :: l) d') with (last (b :: l) d'). apply IH.
Qed.

Lemma last_segment_loop_chain st p segs :
  forall post pre t fuel,
    chain st p segs (pre ++ t :: post) -> length post <= fuel ->
    last_segment_loop st fuel (token_segment p segs t)
    = token_segment p segs (last post t).
Proof.
  induction post as [|t' post IH]; intros pre t fuel H Hf;
    destruct (chain_token_ok st p segs pre t _ H) as [Hok Hch];
    destruct Hok as (_ & Hbe & _ & _ & Hstop & _);
    cbn [token_segment path begin end_] in Hbe, Hstop.
  - destruct fuel as [|fuel]; [reflexivity|].
    cbn [last_segment_loop]. rewrite (chain_next st p segs t [] Hbe Hstop Hch).
    reflexivity.
  - destruct fuel as [|fuel]; [cbn [length] in Hf; lia|].
    cbn [last_segment_loop].
    rewrite (chain_next st p segs t (t' :: post) Hbe Hstop Hch).
    rewrite (IH (pre ++ [t]) t' fuel).
    + destruct post as [|t2 post]; [reflexivity|].
      change (last (t' :: t2 :: post) t) with (last (t2 :: post) t).
      f_equal. apply last_cons_default.
    + rewrite <- app_assoc. exact H.
    + cbn [length] in Hf. lia.
Qed.

Lemma get_last_segment_chain st p ts :
  chain st p (get_root st p) ts ->
  get_last_segment st p =
  match ts with
  | [] => (false,
           mk_segment p (get_root st p) (get_root st p) (get_root st p) 0)
  | t :: post => (true, token_segment p (get_root st p) (last post t))
  end.
Proof.
  intros H. unfold get_last_segment, get_first_segment.
  rewrite (chain_first st p _ ts H). destruct ts as [|t post]; [reflexivity|].
  cbn [negb]. f_equal.
  apply (last_segment_loop_chain st p _ post [] t (length p) H).
  pose proof (chain_count st p _ _ H) as Hc. cbn [length] in Hc. lia.
Qed.

Lemma tokens_iterated st p :
  forall pre t post,
    chain st p (get_root st p) (pre ++ t :: post) ->
    iterated st p (token_segment p (get_root st p) t).
Proof.
  induction pre as [|t0 pre IH] using rev_ind; intros t post H.
  - apply iterated_first. unfold get_first_segment.
    rewrite (chain_first st p _ _ H). reflexivity.
  - rewrite <- app_assoc in H. cbn [app] in H.
    apply (iterated_next st p (token_segment p (get_root st p) t0)).
    + apply (IH t0 (t :: post) H).
    + destruct (chain_token_ok st p _ pre t0 _ H) as [Hok Hch].
      destruct Hok as (_ & Hbe & _ & _ & Hstop & _).
      cbn [token_segment path begin end_] in Hbe, Hstop.
      rewrite (chain_next st p _ t0 (t :: post) Hbe Hstop Hch). reflexivity.
Qed.

Lemma chain_nil_seps st p c :
  chain st p c [] -> no_nul_before p c ->
  forall i, c <= i < strlen p 0 -> is_separator st (deref p i) = true.
Proof.
  intros (z & Hle & Hseps & Hz) Hc i Hi.
  assert (E : strlen p 0 = z).
  { apply strlen_unique; [|exact Hz].
    intros j Hj. apply (no_nul_before_seps st p c z Hc Hseps). lia. }
  apply Hseps. lia.
Qed.

Lemma last_split {A : Type} (t : A) post :
  exists pre, t :: post = pre ++ [last post t].
Proof.
  revert t. induction post as [|t' post IH]; intros t.
  - exists []. reflexivity.
  - destruct (IH t') as [pre E]. exists (t :: pre).
    assert (EL : last (t' :: post) t = last post t').
    { destruct post as [|t2 post]; [reflexivity|].
      change (last (t' :: t2 :: post) t) with (last (t2 :: post) t).
      apply last_cons_default. }
    rewrite EL. cbn [app]. rewrite <- E. reflexivity.
Qed.

(** What [get_last_segment] finds, on the layout of the path. *)
Lemma get_last_segment_spec st p :
  match get_last_segment st p with
  | (true, seg) =>
      iterated st p seg
      /\ get_next_segment st seg = (false, seg)
      /\ within seg
      /\ (forall i, end_ seg <= i < strlen p 0 ->
            is_separator st (deref p i) = true)
      /\ segment_ok st seg /\ path seg = p
      /\ segments seg = get_root st p
  | (false, _) =>
      fst (get_first_segment st p) = false
      /\ forall i, get_root st p <= i < strlen p 0 ->
           is_separator st (deref p i) = true
  end.
Proof.
  pose proof (chain_tokens st p) as H.
  rewrite (get_last_segment_chain st p _ H).
  unfold get_first_segment. rewrite (chain_first st p _ _ H).
  destruct (tokens st p) as [|t post].
  - split; [reflexivity|].
    apply (chain_nil_seps st p _ H (get_root_within st p)).
  - destruct (last_split t post) as [pre E]. rewrite E in H.
    destruct (chain_token_ok st p _ pre _ [] H) as [Hok Hch].
    pose proof (chain_within st p pre _ _ [] H (get_root_within st p))
      as Hin.
    split; [apply (tokens_iterated st p pre _ [] H)|].
    split; [|split; [|split; [|split; [|split]]]].
    + destruct Hok as (_ & Hbe & _ & _ & Hstop & _).
      cbn [token_segment path begin end_] in Hbe, Hstop.
      apply (chain_next st p _ _ [] Hbe Hstop Hch).
    + exact Hin.
    + cbn [token_segment end_]. apply (chain_nil_seps st p _ Hch Hin).
    + exact Hok.
    + reflexivity.
    + reflexivity.
Qed.

(** X9.  [get_last_segment] finds the last segment of the iteration:
    when it succeeds, its segment is one the iterator delivers,
    [get_next_segment] fails on it and only separators stand between
    its end and the terminator; it fails exactly when
    [get_first_segment] fails, and then only separators follow the
    root. *)
Theorem last_segment_is_the_last (st : cwk_path_style) (p : list ascii) :
  (forall seg,
     get_last_segment st p = (true, seg) ->
     iterated st p seg
     /\ get_next_segment st seg = (false, seg)
     /\ forall i, end_ seg <= i < strlen p 0 ->
          is_separator st (deref p i) = true)
  /\ (fst (get_last_segment st p) = false ->
      fst (get_first_segment st p) = false
      /\ forall i, get_root st p <= i < strlen p 0 ->
           is_separator st (deref p i) = true).
Proof.
  pose proof (get_last_segment_spec st p) as H.
  destruct (get_last_segment st p) as [[] seg0]; split.
  - intros seg E. inversion E; subst. tauto.
  - discriminate.
  - discriminate.
  - intros _. exact H.
Qed.

Lemma last_segment_is_the_last_witness :
  iterated CWK_STYLE_WINDOWS (lit "C:\a\bc\/")
    (mk_segment (lit "C:\a\bc\/") 3 5 7 2)
  /\ get_next_segment CWK_STYLE_WINDOWS (mk_segment (lit "C:\a\bc\/") 3 5 7 2)
     = (false, mk_segment (lit "C:\a\bc\/") 3 5 7 2)
  /\ forall i,
       end_ (mk_segment (lit "C:\a\bc\/") 3 5 7 2) <= i
       < strlen (lit "C:\a\bc\/") 0 ->
       is_separator CWK_STYLE_WINDOWS (deref (lit "C:\a\bc\/") i) = true.
Proof.
  apply (proj1 (last_segment_is_the_last CWK_STYLE_WINDOWS
                  (lit "C:\a\bc\/"))).
  reflexivity.
Defined.

(** ** The basename, the dirname and the extension *)

(** X10.  [get_dirname] and [get_basename] split a path: when the path
    has a segment, the dirname ends where the basename begins, the
    basename is not empty, lies after the root, holds no separator and
    is followed by separators only up to the terminator; when it has
    none, the basename is [NULL] with length 0, the dirname has length
    0 and only separators follow the root. *)
Theorem basename_and_dirname_split (st : cwk_path_style) (p : list ascii) :
  match get_basename st p with
  | (Some b, n) =>
      get_dirname st p = b
      /\ get_root st p <= b /\ 0 < n /\ b + n <= strlen p 0
      /\ (forall i, b <= i < b + n ->
            is_separator st (deref p i) = false)
      /\ (forall i, b + n <= i < strlen p 0 ->
            is_separator st (deref p i) = true)
  | (None, n) =>
      n = 0 /\ get_dirname st p = 0
      /\ forall i, get_root st p <= i < strlen p 0 ->
           is_separator st (deref p i) = true
  end.
Proof.
  pose proof (get_last_segment_spec st p) as H.
  unfold get_basename, get_dirname.
  destruct (get_last_segment st p) as [[] seg]; cbn [negb].
  - destruct H as (_ & _ & Hin & Htail & Hok & Hp & Hs).
    destruct Hok as (A & B & D & F & _). unfold within in Hin.
    rewrite Hp in Hin, F. rewrite Hs in A.
    pose proof (no_nul_before_strlen p _ Hin) as Hlen.
    rewrite D. replace (begin seg + (end_ seg - begin seg)) with (end_ seg)
      by lia.
    splits; try assumption; try reflexivity; try lia.
    intros i Hi. apply (regular_not_separator st), F, Hi.
  - destruct H as [_ H]. auto.
Qed.

Lemma find_extension_spec s b :
  forall n,
    match find_extension s b n with
    | Some c =>
        b <= c <= b + n /\ deref s c = "."%char
        /\ forall i, c < i <= b + n -> deref s i <> "."%char
    | None => forall i, b <= i <= b + n -> deref s i <> "."%char
    end.
Proof.
  induction n as [|n IH]; cbn [find_extension];
    destruct (Ascii.eqb_spec (deref s (b + 0)) "."%char) as [E0|N0];
    try destruct (Ascii.eqb_spec (deref s (b + S n)) "."%char) as [E|N].
  - split; [lia|]. split; [exact E0|]. intros i Hi. lia.
  - intros i Hi. replace i with (b + 0) by lia. exact N0.
  - split; [lia|]. split; [exact E|]. intros i Hi. lia.
  - destruct (find_extension s b n) as [c|].
    + destruct IH as (A & B & C). split; [lia|]. split; [exact B|].
      intros i Hi. destruct (Nat.eq_dec i (b + S n)) as [->|];
        [exact N|apply C; lia].
    + intros i Hi. destruct (Nat.eq_dec i (b + S n)) as [->|];
        [exact N|apply IH; lia].
  - split; [lia|]. split; [exact E|]. intros i Hi. lia.
  - destruct (find_extension s b n) as [c|].
    + destruct IH as (A & B & C). split; [lia|]. split; [exact B|].
      intros i Hi. destruct (Nat.eq_dec i (b + S n)) as [->|];
        [exact N|apply C; lia].
    + intros i Hi. destruct (Nat.eq_dec i (b + S n)) as [->|];
        [exact N|apply IH; lia].
Qed.

Lemma dot_is_regular st : regular st "." = true.
Proof. destruct st; reflexivity. Qed.

(** X11.  The extension is the end of the basename from its last dot
    on: when [get_extension] succeeds, the extension starts at a dot
    inside the basename, ends where the basename ends and holds no
    other dot; when it fails, the path has no basename or the basename
    holds no dot.  [has_extension] is true exactly when the basename
    holds a dot. *)
Theorem extension_is_from_last_dot (st : cwk_path_style) (p : list ascii) :
  match get_extension st p with
  | Some (c, n) =>
      exists b len,
        get_basename st p = (Some b, len)
        /\ b <= c < b + len /\ c + n = b + len
        /\ deref p c = "."%char
        /\ forall i, c < i < b + len -> deref p i <> "."%char
  | None =>
      forall b len, get_basename st p = (Some b, len) ->
        forall i, b <= i < b + len -> deref p i <> "."%char
  end
  /\ (has_extension st p = true <->
      exists b len i,
        get_basename st p = (Some b, len)
        /\ b <= i < b + len /\ deref p i = "."%char).
Proof.
  pose proof (get_last_segment_spec st p) as H.
  unfold has_extension, get_extension, get_basename.
  destruct (get_last_segment st p) as [[] seg]; cbn [negb].
  - destruct H as (_ & _ & _ & _ & Hok & Hp & _).
    destruct Hok as (_ & Hbe & Hs & _ & Hstop & _). rewrite Hp in *.
    assert (Hend : deref p (end_ seg) <> "."%char).
    { intros E. rewrite E, dot_is_regular in Hstop. discriminate. }
    pose proof (find_extension_spec p (begin seg) (end_ seg - begin seg))
      as HF.
    replace (begin seg + (end_ seg - begin seg)) with (end_ seg) in HF
      by lia.
    rewrite Hs.
    replace (begin seg + (end_ seg - begin seg)) with (end_ seg) by lia.
    destruct (find_extension p (begin seg) (end_ seg - begin seg)) as [c|].
    + destruct HF as (A & B & C).
      assert (c <> end_ seg) by (intros ->; contradiction).
      split.
      * exists (begin seg), (end_ seg - begin seg).
        replace (begin seg + (end_ seg - begin seg)) with (end_ seg) by lia.
        splits; try reflexivity; try lia; try assumption.
        intros i Hi. apply C. lia.
      * split; [|reflexivity]. intros _.
        exists (begin seg), (end_ seg - begin seg), c.
        split; [reflexivity|]. split; [lia|exact B].
    + split.
      * intros b len E i Hi. inversion E; subst. apply HF. lia.
      * split; [discriminate|].
        intros (b & len & i & E & Hi & Hd). inversion E; subst.
        exfalso. apply (HF i); [lia|exact Hd].
  - split.
    + intros b len E. discriminate.
    + split; [discriminate|]. intros (b & len & i & E & _). discriminate.
Qed.

(** ** What the buffer holds, byte by byte *)

Lemma output_sized_at buf cap pos str off len i :
  pos + len <= cap ->
  snd (output_sized buf cap pos str off len) i
  = if (pos <=? i) && (i <? pos + len)
    then deref str (off + (i - pos))
    else buf i.
Proof.
  intros H. unfold output_sized. cbn [snd].
  destruct (Nat.ltb_spec (pos + len) cap) as [H1|H1].
  - destruct (Nat.ltb_spec 0 len) as [H2|H2]; [reflexivity|].
    destruct (Nat.leb_spec pos i); destruct (Nat.ltb_spec i (pos + len));
      cbn [andb]; try reflexivity; lia.
  - destruct (Nat.ltb_spec pos cap) as [H2|H2].
    + replace (cap - pos) with len by lia.
      destruct (Nat.ltb_spec 0 len) as [H3|H3]; [reflexivity|lia].
    + assert (len = 0) by lia. subst len. rewrite Nat.add_0_r.
      destruct (Nat.leb_spec pos i); destruct (Nat.ltb_spec i pos);
        cbn [andb]; try reflexivity; lia.
Qed.

Lemma terminate_output_at buf cap pos i :
  pos < cap ->
  terminate_output buf cap pos i = if i =? pos then NUL else buf i.
Proof.
  intros H. unfold terminate_output, store.
  destruct (Nat.ltb_spec 0 cap); [|lia].
  destruct (Nat.leb_spec cap pos); [lia|reflexivity].
Qed.

Lemma buffer_prefix_ext buf n l :
  length l = n -> (forall i, i < n -> buf i = nth i l NUL) ->
  buffer_prefix buf n = l.
Proof.
  intros Hl H. apply (nth_ext _ _ NUL NUL).
  - rewrite length_buffer_prefix. symmetry. exact Hl.
  - intros i Hi. rewrite length_buffer_prefix in Hi.
    unfold buffer_prefix.
    rewrite (nth_indep (map buf (seq 0 n)) NUL (buf 0))
      by (rewrite length_map, length_seq; exact Hi).
    rewrite map_nth, seq_nth by exact Hi. apply (H i Hi).
Qed.

Lemma nth_bytes_at s off n i :
  i < n -> nth i (bytes_at s off n) NUL = deref s (off + i).
Proof.
  intros Hi. unfold bytes_at.
  rewrite (nth_indep _ NUL (deref s (off + 0)))
    by (rewrite length_map, length_seq; exact Hi).
  rewrite (map_nth (fun k => deref s (off + k))), seq_nth by exact Hi.
  reflexivity.
Qed.

(** ** The text of a string *)

Lemma strlen_le_length p : strlen p 0 <= length p.
Proof.
  destruct (strlen p 0) as [|n] eqn:E; [lia|].
  destruct (strlen_spec p 0) as [H _]. rewrite E in H.
  specialize (H n). cbn [Nat.add] in H.
  pose proof (not_nul_in_range p n (H ltac:(lia))). lia.
Qed.

Lemma strlen_shift p k : k <= strlen p 0 -> strlen p k = strlen p 0 - k.
Proof.
  intros Hk. destruct (strlen_spec p 0) as [H1 H2]. cbn [Nat.add] in *.
  apply strlen_unique.
  - intros i Hi. apply H1. lia.
  - replace (k + (strlen p 0 - k)) with (strlen p 0) by lia. exact H2.
Qed.

Lemma text_of_bytes p : text_of p = bytes_at p 0 (strlen p 0).
Proof.
  unfold text_of. rewrite bytes_at_firstn; [reflexivity|].
  pose proof (strlen_le_length p). lia.
Qed.

Lemma skipn_text_of p k :
  k <= strlen p 0 -> skipn k (text_of p) = bytes_at p k (strlen p 0 - k).
Proof.
  intros Hk. unfold text_of. rewrite skipn_firstn_comm.
  symmetry. apply bytes_at_firstn. pose proof (strlen_le_length p). lia.
Qed.

Lemma firstn_text_of p k : k <= strlen p 0 -> firstn k (text_of p) = firstn k p.
Proof.
  intros Hk. unfold text_of. rewrite firstn_firstn. f_equal. lia.
Qed.

(** ** Changing the root *)

(** With a buffer that holds it, [change_root] writes the new root and
    then what follows the root of the path. *)
Lemma change_root_writes st p new_root buf cap :
  strlen new_root 0 + (strlen p 0 - get_root st p) < cap ->
  exists buf',
    change_root st p new_root buf cap
    = (strlen new_root 0 + (strlen p 0 - get_root st p), buf')
    /\ buffer_prefix buf' (strlen new_root 0 + (strlen p 0 - get_root st p))
       = text_of new_root ++ skipn (get_root st p) (text_of p)
    /\ buf' (strlen new_root 0 + (strlen p 0 - get_root st p)) = NUL.
Proof.
  intros Hcap. unfold change_root.
  pose proof (no_nul_before_strlen p _ (get_root_within st p)) as Hr.
  set (r := get_root st p) in *. set (n := strlen new_root 0) in *.
  set (t := strlen p 0 - r) in *.
  pose proof (output_sized_at buf cap n p r t) as W1.
  destruct (output_sized buf cap n p r t) as [k1 b1]. cbn [snd] in W1.
  pose proof (output_sized_at b1 cap 0 new_root 0 n) as W2.
  destruct (output_sized b1 cap 0 new_root 0 n) as [k2 b2]. cbn [snd] in W2.
  rewrite (Nat.add_comm t n). eexists. split; [reflexivity|]. split.
  - apply buffer_prefix_ext.
    + rewrite length_app, text_of_bytes, skipn_text_of, !length_bytes_at
        by exact Hr. reflexivity.
    + intros i Hi. rewrite terminate_output_at by lia.
      destruct (Nat.eqb_spec i (n + t)); [lia|].
      rewrite W2 by lia. rewrite text_of_bytes, skipn_text_of by exact Hr.
      fold n t. cbn [Nat.add]. rewrite Nat.sub_0_r.
      destruct (Nat.ltb_spec i n) as [H1|H1]; cbn [Nat.leb andb].
      * rewrite app_nth1 by (rewrite length_bytes_at; exact H1).
        rewrite nth_bytes_at by exact H1. reflexivity.
      * rewrite app_nth2 by (rewrite length_bytes_at; exact H1).
        rewrite length_bytes_at, nth_bytes_at by lia.
        rewrite W1 by lia.
        destruct (Nat.leb_spec n i); [|lia].
        destruct (Nat.ltb_spec i (n + t)); [|lia]. reflexivity.
  - rewrite terminate_output_at by lia. rewrite Nat.eqb_refl. reflexivity.
Qed.



Lemma strlen_root_text st p : strlen (root_text st p) 0 = get_root st p.
Proof.
  apply strlen_unique.
  - intros i Hi. cbn [Nat.add] in Hi. unfold root_text, deref.
    rewrite nth_firstn. destruct (Nat.ltb_spec i (get_root st p)); [|lia].
    apply (get_root_within st p i). lia.
  - cbn [Nat.add]. rewrite <- (length_root_text st p) at 1.
    rewrite deref_end. reflexivity.
Qed.

(** X13.  Changing the root of a path to the root it has gives the path
    back: the length returned is [strlen] of the path and the text
    written is the text of the path. *)
Theorem change_root_to_own_root (st : cwk_path_style) (p : list ascii)
  (buf : buffer) (cap : nat) :
  fst (change_root st p (root_text st p) buf cap) = strlen p 0
  /\ (strlen p 0 < cap ->
      buffer_prefix (snd (change_root st p (root_text st p) buf cap))
        (strlen p 0)
      = text_of p
      /\ snd (change_root st p (root_text st p) buf cap) (strlen p 0) = NUL).
Proof.
  pose proof (no_nul_before_strlen p _ (get_root_within st p)) as Hr.
  assert (E : strlen (root_text st p) 0 + (strlen p 0 - get_root st p)
              = strlen p 0)
    by (rewrite strlen_root_text; lia).
  split.
  - unfold change_root. repeat step_output. cbn [fst].
    rewrite strlen_root_text. lia.
  - intros Hcap.
    destruct (change_root_writes st p (root_text st p) buf cap)
      as (b & Eb & P & T); [lia|].
    rewrite Eb. cbn [snd]. rewrite E in P, T. split; [|exact T].
    rewrite P. unfold text_of at 1. rewrite strlen_root_text.
    unfold root_text. rewrite firstn_firstn, Nat.min_id.
    rewrite <- (firstn_text_of p _ Hr). apply firstn_skipn.
Qed.

Lemma change_root_to_own_root_witness :
  buffer_prefix
    (snd (change_root CWK_STYLE_UNIX (lit "/a//b/")
            (root_text CWK_STYLE_UNIX (lit "/a//b/")) (fun _ => "x"%char) 16))
    (strlen (lit "/a//b/") 0)
  = text_of (lit "/a//b/")
  /\ snd (change_root CWK_STYLE_UNIX (lit "/a//b/")
            (root_text CWK_STYLE_UNIX (lit "/a//b/")) (fun _ => "x"%char) 16)
       (strlen (lit "/a//b/") 0) = NUL.
Proof.
  apply (proj2 (change_root_to_own_root CWK_STYLE_UNIX (lit "/a//b/")
                  (fun _ => "x"%char) 16)).
  vm_compute. lia.
Defined.

(** ** Changing a segment *)

Lemma trim_trailing_spec st value off :
  forall n,
    trim_trailing st value off n <= n
    /\ (forall i, off + trim_trailing st value off n <= i < off + n ->
          is_separator st (deref value i) = true)
    /\ (trim_trailing st value off n = 0
        \/ is_separator st
             (deref value (off + (trim_trailing st value off n - 1)))
           = false).
Proof.
  induction n as [|n (IH1 & IH2 & IH3)]; cbn [trim_trailing].
  - split; [lia|]. split; [intros i Hi; lia|left; reflexivity].
  - destruct (is_separator st (deref value (off + n))) eqn:E.
    + split; [lia|]. split; [|exact IH3].
      intros i Hi. destruct (Nat.eq_dec i (off + n)) as [->|];
        [exact E|apply IH2; lia].
    + split; [lia|]. split; [intros i Hi; lia|right].
      cbn [Nat.sub]. rewrite Nat.sub_0_r. exact E.
Qed.

(** With a buffer that holds it, [change_segment] writes the path up to
    the segment, the trimmed value, and the path from the end of the
    segment on. *)
Lemma change_segment_writes st seg value buf cap :
  begin seg <= end_ seg -> end_ seg <= strlen (path seg) 0 ->
  begin seg + length (trimmed st value) + (strlen (path seg) 0 - end_ seg)
  < cap ->
  exists buf',
    change_segment st seg value buf cap
    = (begin seg + length (trimmed st value)
       + (strlen (path seg) 0 - end_ seg), buf')
    /\ buffer_prefix buf'
         (begin seg + length (trimmed st value)
          + (strlen (path seg) 0 - end_ seg))
       = firstn (begin seg) (path seg) ++ trimmed st value
         ++ skipn (end_ seg) (text_of (path seg))
    /\ buf' (begin seg + length (trimmed st value)
             + (strlen (path seg) 0 - end_ seg)) = NUL.
Proof.
  intros Hbe He. unfold trimmed, change_segment.
  rewrite length_bytes_at, (strlen_shift (path seg) (end_ seg) He).
  set (p := path seg) in *. set (b := begin seg) in *.
  set (e := end_ seg) in *. set (off := skip_separators st value 0).
  set (n := trim_trailing st value off (strlen value off)).
  set (t := strlen p 0 - e). intros Hcap.
  pose proof (strlen_le_length p) as Hlen.
  pose proof (output_sized_at buf cap 0 p 0 b) as W1.
  destruct (output_sized buf cap 0 p 0 b) as [k1 b1] eqn:E1.
  assert (k1 = b) by (unfold output_sized in E1; congruence). subst k1.
  cbn [snd] in W1.
  pose proof (output_sized_at b1 cap (b + n) p e t) as W2.
  destruct (output_sized b1 cap (b + n) p e t) as [k2 b2]. cbn [snd] in W2.
  pose proof (output_sized_at b2 cap b value off n) as W3.
  destruct (output_sized b2 cap b value off n) as [k3 b3] eqn:E3.
  assert (k3 = n) by (unfold output_sized in E3; congruence). subst k3.
  cbn [snd] in W3.
  eexists. split; [reflexivity|]. split.
  - apply buffer_prefix_ext.
    + rewrite !length_app, length_firstn, length_bytes_at,
        (skipn_text_of p e He), length_bytes_at. fold t. lia.
    + intros i Hi. rewrite terminate_output_at by lia.
      destruct (Nat.eqb_spec i (b + n + t)); [lia|].
      rewrite W3 by lia. rewrite (skipn_text_of p e He). fold t.
      destruct (Nat.ltb_spec i b) as [H1|H1].
      * rewrite app_nth1 by (rewrite length_firstn; lia).
        rewrite nth_firstn. destruct (Nat.ltb_spec i b); [|lia].
        destruct (Nat.leb_spec b i); [lia|]. cbn [andb].
        rewrite W2 by lia. destruct (Nat.leb_spec (b + n) i); [lia|].
        cbn [andb]. rewrite W1 by lia. cbn [Nat.leb Nat.add andb].
        destruct (Nat.ltb_spec i b); [|lia]. rewrite Nat.sub_0_r.
        reflexivity.
      * rewrite app_nth2 by (rewrite length_firstn; lia).
        rewrite length_firstn.
        replace (Nat.min b (length p)) with b by lia.
        destruct (Nat.leb_spec b i); [|lia].
        destruct (Nat.ltb_spec i (b + n)) as [H2|H2]; cbn [andb].
        -- rewrite app_nth1 by (rewrite length_bytes_at; lia).
           rewrite nth_bytes_at by lia. reflexivity.
        -- rewrite app_nth2 by (rewrite length_bytes_at; lia).
           rewrite length_bytes_at, nth_bytes_at by lia.
           rewrite W2 by lia. destruct (Nat.leb_spec (b + n) i); [|lia].
           destruct (Nat.ltb_spec i (b + n + t)); [|lia]. cbn [andb].
           f_equal. lia.
  - rewrite terminate_output_at by lia. rewrite Nat.eqb_refl. reflexivity.
Qed.

Lemma change_segment_length st seg value buf cap :
  end_ seg <= strlen (path seg) 0 ->
  fst (change_segment st seg value buf cap)
  = begin seg + length (trimmed st value) + (strlen (path seg) 0 - end_ seg).
Proof.
  intros He. unfold trimmed, change_segment.
  rewrite length_bytes_at, (strlen_shift (path seg) (end_ seg) He).
  repeat step_output. reflexivity.
Qed.

(** X14.  [change_segment] replaces a segment of the iteration by the
    trimmed value and leaves the rest of the path as it is: the length
    it returns is that of the path before the segment, the trimmed
    value and the path after the segment, and into a buffer that holds
    the result it writes these three parts and the terminator. *)
Theorem change_segment_replaces_the_segment (st : cwk_path_style)
  (p : list ascii) (seg : cwk_segment) (value : list ascii)
  (buf : buffer) (cap : nat) :
  iterated st p seg ->
  fst (change_segment st seg value buf cap)
  = begin seg + length (trimmed st value) + (strlen p 0 - end_ seg)
  /\ (fst (change_segment st seg value buf cap) < cap ->
      buffer_prefix (snd (change_segment st seg value buf cap))
        (fst (change_segment st seg value buf cap))
      = firstn (begin seg) p ++ trimmed st value
        ++ skipn (end_ seg) (text_of p)
      /\ snd (change_segment st seg value buf cap)
           (fst (change_segment st seg value buf cap)) = NUL).
Proof.
  intros Hit. pose proof (chain_tokens st p) as H.
  destruct (iterated_tokens st p _ seg H Hit) as (pre & t & post & E & ->).
  rewrite E in H.
  destruct (chain_token_ok st p _ pre t post H) as [(_ & Hbe & _) _].
  pose proof (chain_within st p pre _ t post H (get_root_within st p)) as Hin.
  apply no_nul_before_strlen in Hin.
  set (seg := token_segment p (get_root st p) t) in *.
  assert (He : end_ seg <= strlen (path seg) 0) by exact Hin.
  pose proof (change_segment_length st seg value buf cap He) as EL.
  split; [exact EL|]. rewrite EL. intros Hcap.
  destruct (change_segment_writes st seg value buf cap
              (Nat.lt_le_incl _ _ Hbe) He Hcap) as (b & Eb & P & T).
  rewrite Eb. cbn [snd]. auto.
Qed.

Lemma change_segment_replaces_the_segment_witness :
  fst (change_segment CWK_STYLE_UNIX (mk_segment (lit "/a/bc/d") 1 3 5 2)
         (lit "//xyz/") (fun _ => "x"%char) 16)
  = begin (mk_segment (lit "/a/bc/d") 1 3 5 2)
    + length (trimmed CWK_STYLE_UNIX (lit "//xyz/"))
    + (strlen (lit "/a/bc/d") 0 - end_ (mk_segment (lit "/a/bc/d") 1 3 5 2))
  /\ (fst (change_segment CWK_STYLE_UNIX
             (mk_segment (lit "/a/bc/d") 1 3 5 2)
             (lit "//xyz/") (fun _ => "x"%char) 16) < 16 ->
      buffer_prefix
        (snd (change_segment CWK_STYLE_UNIX
                (mk_segment (lit "/a/bc/d") 1 3 5 2)
                (lit "//xyz/") (fun _ => "x"%char) 16))
        (fst (change_segment CWK_STYLE_UNIX
                (mk_segment (lit "/a/bc/d") 1 3 5 2)
                (lit "//xyz/") (fun _ => "x"%char) 16))
      = firstn (begin (mk_segment (lit "/a/bc/d") 1 3 5 2)) (lit "/a/bc/d")
        ++ trimmed CWK_STYLE_UNIX (lit "//xyz/")
        ++ skipn (end_ (mk_segment (lit "/a/bc/d") 1 3 5 2))
             (text_of (lit "/a/bc/d"))
      /\ snd (change_segment CWK_STYLE_UNIX
                (mk_segment (lit "/a/bc/d") 1 3 5 2)
                (lit "//xyz/") (fun _ => "x"%char) 16)
           (fst (change_segment CWK_STYLE_UNIX
                   (mk_segment (lit "/a/bc/d") 1 3 5 2)
                   (lit "//xyz/") (fun _ => "x"%char) 16)) = NUL).
Proof.
  apply (change_segment_replaces_the_segment CWK_STYLE_UNIX (lit "/a/bc/d")
           (mk_segment (lit "/a/bc/d") 1 3 5 2) (lit "//xyz/")
           (fun _ => "x"%char) 16).
  apply (iterated_next CWK_STYLE_UNIX (lit "/a/bc/d")
           (mk_segment (lit "/a/bc/d") 1 1 2 1)).
  - apply iterated_first. reflexivity.
  - reflexivity.
Defined.

Lemma bytes_at_app s a x y :
  bytes_at s a (x + y) = bytes_at s a x ++ bytes_at s (a + x) y.
Proof.
  unfold bytes_at. rewrite seq_app, map_app. f_equal. cbn [Nat.add].
  rewrite (map_seq_shift (fun k => deref s (a + k)) y x).
  apply map_ext. intros k. f_equal. lia.
Qed.

Lemma bytes_at_separators st s a n :
  seps st s a (a + n) ->
  Forall (fun ch => is_separator st ch = true) (bytes_at s a n).
Proof.
  intros H. unfold bytes_at. apply Forall_forall. intros ch Hch.
  apply in_map_iff in Hch. destruct Hch as (k & <- & Hk).
  apply in_seq in Hk. apply H. lia.
Qed.

(** X15.  The value [change_segment] and [change_basename] put in
    place of a segment is the given value without the separators at
    its two ends: the text of the value is separators, then the trimmed
    value, then separators, and the trimmed value neither starts nor
    ends with a separator. *)
Theorem trimmed_value_has_no_outer_separators (st : cwk_path_style)
  (value : list ascii) :
  (exists a c,
     text_of value = a ++ trimmed st value ++ c
     /\ Forall (fun ch => is_separator st ch = true) a
     /\ Forall (fun ch => is_separator st ch = true) c)
  /\ is_separator st (deref (trimmed st value) 0) = false
  /\ is_separator st
       (deref (trimmed st value) (length (trimmed st value) - 1)) = false.
Proof.
  unfold trimmed.
  destruct (skip_separators_spec st value 0) as (_ & Hseps & Hns).
  set (off := skip_separators st value 0) in *.
  assert (Hoff : off <= strlen value 0).
  { apply no_nul_before_strlen. intros i Hi.
    apply (is_separator_not_nul st), Hseps. lia. }
  destruct (trim_trailing_spec st value off (strlen value off))
    as (Hle & Htail & Hlast).
  set (n := trim_trailing st value off (strlen value off)) in *.
  rewrite (strlen_shift value off Hoff) in *.
  split; [|split].
  - exists (bytes_at value 0 off),
      (bytes_at value (off + n) (strlen value 0 - off - n)).
    split; [|split].
    + rewrite text_of_bytes.
      replace (strlen value 0)
        with (off + (n + (strlen value 0 - off - n))) at 1 by lia.
      rewrite !bytes_at_app. reflexivity.
    + apply (bytes_at_separators st). exact Hseps.
    + apply (bytes_at_separators st). intros i Hi. apply Htail. lia.
  - destruct n as [|n']; [apply is_separator_NUL|].
    unfold deref at 1. rewrite nth_bytes_at by lia.
    rewrite Nat.add_0_r. exact Hns.
  - rewrite length_bytes_at. destruct Hlast as [E|Hlast].
    + rewrite E. apply is_separator_NUL.
    + destruct n as [|n']; [apply is_separator_NUL|].
      unfold deref at 1. rewrite nth_bytes_at by lia. exact Hlast.
Qed.

Lemma trimmed_segment_text st v : segment_text st v -> trimmed st v = v.
Proof.
  intros [Hne Hall]. rewrite Forall_forall in Hall.
  assert (Hreg : forall i, i < length v -> regular st (deref v i) = true).
  { intros i Hi. apply Hall, nth_In, Hi. }
  assert (Hlen : 0 < length v) by (destruct v; [contradiction|cbn; lia]).
  unfold trimmed.
  assert (E0 : skip_separators st v 0 = 0).
  { apply skip_separators_unique; [lia|intros i Hi; lia|].
    apply regular_not_separator, Hreg, Hlen. }
  rewrite E0.
  assert (E1 : strlen v 0 = length v).
  { apply strlen_unique.
    - intros i Hi. apply (regular_not_nul st), Hreg. lia.
    - cbn [Nat.add]. rewrite deref_end. reflexivity. }
  rewrite E1.
  assert (E2 : trim_trailing st v 0 (length v) = length v).
  { destruct (length v) as [|m] eqn:Em; [reflexivity|].
    cbn [trim_trailing Nat.add].
    rewrite (regular_not_separator st) by (apply Hreg; lia). reflexivity. }
  rewrite E2, bytes_at_firstn by (cbn [Nat.add]; lia).
  cbn [skipn]. apply firstn_all.
Qed.

Lemma three_parts {A : Type} (T : list A) b e :
  b <= e ->
  firstn b T ++ firstn (e - b) (skipn b T) ++ skipn e T = T.
Proof.
  intros H. rewrite <- (firstn_skipn b T) at 4. f_equal.
  rewrite <- (firstn_skipn (e - b) (skipn b T)) at 2. f_equal.
  rewrite skipn_skipn. f_equal. lia.
Qed.

(** X16.  Changing the basename of a path to the basename it has gives
    the path back: the length returned is [strlen] of the path and the
    text written is the text of the path, whatever separators stand
    between and after its segments. *)
Theorem change_basename_to_own_basename (st : cwk_path_style)
  (p : list ascii) (buf : buffer) (cap : nat) (b n : nat) :
  get_basename st p = (Some b, n) ->
  fst (change_basename st p (bytes_at p b n) buf cap) = strlen p 0
  /\ (strlen p 0 < cap ->
      buffer_prefix (snd (change_basename st p (bytes_at p b n) buf cap))
        (strlen p 0)
      = text_of p
      /\ snd (change_basename st p (bytes_at p b n) buf cap) (strlen p 0)
         = NUL).
Proof.
  pose proof (get_last_segment_spec st p) as H.
  unfold get_basename, change_basename.
  destruct (get_last_segment st p) as [[] seg]; cbn [negb]; [|discriminate].
  intros E. inversion E; subst b n; clear E.
  destruct H as (_ & _ & Hin & _ & Hok & Hp & _).
  pose proof (position_bytes_ok st (mk_joined seg [p] 0)) as Hv.
  unfold position_bytes in Hv. cbn [segment] in Hv. rewrite Hp in Hv.
  assert (Hv' : segment_text st (bytes_at p (begin seg) (size seg))).
  { apply Hv. unfold position_ok. cbn [paths path_index segment length nth].
    splits; try assumption; lia. }
  clear Hv. destruct Hok as (_ & Hbe & Hs & Hregs & _).
  unfold within in Hin. rewrite Hp in Hin, Hregs.
  pose proof (no_nul_before_strlen p _ Hin) as He.
  pose proof (strlen_le_length p) as Hlen.
  assert (He' : end_ seg <= strlen (path seg) 0) by (rewrite Hp; exact He).
  assert (EL : begin seg
               + length (trimmed st (bytes_at p (begin seg) (size seg)))
               + (strlen (path seg) 0 - end_ seg) = strlen p 0).
  { rewrite (trimmed_segment_text st _ Hv'), length_bytes_at, Hp. lia. }
  split.
  - rewrite (change_segment_length st seg _ buf cap He'). exact EL.
  - intros Hcap.
    destruct (change_segment_writes st seg
                (bytes_at p (begin seg) (size seg)) buf cap
                (Nat.lt_le_incl _ _ Hbe) He') as (b' & Eb & P & T);
      [rewrite EL; exact Hcap|].
    rewrite Eb. cbn [snd]. rewrite EL in P, T. split; [|exact T].
    rewrite P, (trimmed_segment_text st _ Hv'), Hp, Hs.
    rewrite <- (firstn_text_of p (begin seg)) by lia.
    rewrite bytes_at_firstn by lia.
    replace (firstn (end_ seg - begin seg) (skipn (begin seg) p))
      with (firstn (end_ seg - begin seg) (skipn (begin seg) (text_of p))).
    + apply three_parts. lia.
    + unfold text_of. rewrite skipn_firstn_comm, firstn_firstn.
      f_equal. lia.
Qed.

Lemma change_basename_to_own_basename_witness :
  fst (change_basename CWK_STYLE_WINDOWS (lit "C:\a\\bc.txt\/")
         (bytes_at (lit "C:\a\\bc.txt\/") 6 6) (fun _ => "x"%char) 32)
  = strlen (lit "C:\a\\bc.txt\/") 0
  /\ (strlen (lit "C:\a\\bc.txt\/") 0 < 32 ->
      buffer_prefix
        (snd (change_basename CWK_STYLE_WINDOWS (lit "C:\a\\bc.txt\/")
                (bytes_at (lit "C:\a\\bc.txt\/") 6 6)
                (fun _ => "x"%char) 32))
        (strlen (lit "C:\a\\bc.txt\/") 0)
      = text_of (lit "C:\a\\bc.txt\/")
      /\ snd (change_basename CWK_STYLE_WINDOWS (lit "C:\a\\bc.txt\/")
                (bytes_at (lit "C:\a\\bc.txt\/") 6 6)
                (fun _ => "x"%char) 32)
           (strlen (lit "C:\a\\bc.txt\/") 0) = NUL).
Proof.
  apply (change_basename_to_own_basename CWK_STYLE_WINDOWS
           (lit "C:\a\\bc.txt\/") (fun _ => "x"%char) 32 6 6).
  reflexivity.
Defined.

(** ** Changing the extension *)

Lemma find_old_extension_spec s :
  forall n c old,
    (find_old_extension s c n old = old
     /\ forall i, c <= i < c + n -> deref s i <> "."%char)
    \/ (c <= find_old_extension s c n old < c + n
        /\ deref s (find_old_extension s c n old) = "."%char
        /\ forall i, find_old_extension s c n old < i < c + n ->
             deref s i <> "."%char).
Proof.
  induction n as [|n IH]; intros c old; cbn [find_old_extension].
  - left. split; [reflexivity|]. intros i Hi. lia.
  - destruct (Ascii.eqb_spec (deref s c) "."%char) as [E|N].
    + destruct (IH (S c) c) as [[E1 H1]|(A & B & C)].
      * right. rewrite E1. split; [lia|]. split; [exact E|].
        intros i Hi. apply H1. lia.
      * right. split; [lia|]. split; [exact B|]. intros i Hi. apply C. lia.
    + destruct (IH (S c) old) as [[E1 H1]|(A & B & C)].
      * left. split; [exact E1|]. intros i Hi.
        destruct (Nat.eq_dec i c) as [->|]; [exact N|apply H1; lia].
      * right. split; [lia|]. split; [exact B|]. intros i Hi. apply C. lia.
Qed.

(** The dot [change_extension] replaces from is the dot [get_extension]
    finds; without a dot both stand at the end of the segment. *)
Lemma find_old_extension_find_extension s b e :
  b <= e -> deref s e <> "."%char ->
  find_old_extension s b (e - b) e
  = match find_extension s b (e - b) with
    | Some c => c
    | None => e
    end.
Proof.
  intros Hbe He.
  pose proof (find_extension_spec s b (e - b)) as HF.
  replace (b + (e - b)) with e in HF by lia.
  destruct (find_old_extension_spec s (e - b) b e) as [[E1 H1]|(A & B & C)];
    replace (b + (e - b)) with e in * by lia.
  - rewrite E1. destruct (find_extension s b (e - b)) as [c|]; [|reflexivity].
    destruct HF as (A & B & _).
    destruct (Nat.eq_dec c e) as [->|]; [reflexivity|].
    exfalso. apply (H1 c); [lia|exact B].
  - set (r := find_old_extension s b (e - b) e) in *.
    destruct (find_extension s b (e - b)) as [c|].
    + destruct HF as (A' & B' & C').
      destruct (Nat.lt_trichotomy r c) as [H|[H|H]]; [|exact H|].
      * destruct (Nat.eq_dec c e) as [->|]; [contradiction|].
        exfalso. apply (C c); [lia|exact B'].
      * exfalso. apply (C' r); [lia|exact B].
    + exfalso. apply (HF r); [lia|exact B].
Qed.

Lemma output_length buf cap pos str off :
  fst (output buf cap pos str off) = strlen str off.
Proof. reflexivity. Qed.

(** With a buffer that holds it, [change_extension] on a path with a
    segment writes the path up to the old extension, a dot, the new
    extension and the path from the end of the segment on. *)
Lemma change_extension_writes_segment seg new_extension buf cap oe :
  end_ seg <= strlen (path seg) 0 -> oe <= end_ seg ->
  oe + 1 + length (extension_text new_extension)
  + (strlen (path seg) 0 - end_ seg) < cap ->
  exists buf',
    (let old_extension := oe in
     let '(pos, buf) :=
       output_sized buf cap 0 (path seg) 0 old_extension in
     let ext_off := if Ascii.eqb (deref new_extension 0) "." then 1 else 0 in
     let new_extension_size := strlen new_extension ext_off + 1 in
     let '(trail_size, buf) :=
       output buf cap (pos + new_extension_size) (path seg) (end_ seg) in
     let '(n, buf) := output_dot buf cap pos in
     let pos := pos + n in
     let '(n, buf) := output buf cap pos new_extension ext_off in
     let pos := pos + n in
     let pos := pos + trail_size in
     (pos, terminate_output buf cap pos))
    = (oe + 1 + length (extension_text new_extension)
       + (strlen (path seg) 0 - end_ seg), buf')
    /\ buffer_prefix buf'
         (oe + 1 + length (extension_text new_extension)
          + (strlen (path seg) 0 - end_ seg))
       = firstn oe (path seg) ++ lit "." ++ extension_text new_extension
         ++ skipn (end_ seg) (text_of (path seg))
    /\ buf' (oe + 1 + length (extension_text new_extension)
             + (strlen (path seg) 0 - end_ seg)) = NUL.
Proof.
  intros He Hoe. unfold extension_text, output, output_dot.
  rewrite length_bytes_at, (strlen_shift (path seg) (end_ seg) He).
  set (p := path seg) in *. set (e := end_ seg) in *.
  set (off := if Ascii.eqb (deref new_extension 0) "." then 1 else 0).
  set (n := strlen new_extension off). set (t := strlen p 0 - e).
  intros Hcap. cbv zeta.
  pose proof (strlen_le_length p) as Hlen.
  pose proof (output_sized_at buf cap 0 p 0 oe) as W1.
  destruct (output_sized buf cap 0 p 0 oe) as [k1 b1] eqn:E1.
  assert (k1 = oe) by (unfold output_sized in E1; congruence). subst k1.
  cbn [snd] in W1.
  pose proof (output_sized_at b1 cap (oe + (n + 1)) p e t) as W2.
  destruct (output_sized b1 cap (oe + (n + 1)) p e t) as [k2 b2] eqn:E2.
  assert (k2 = t) by (unfold output_sized in E2; congruence). subst k2.
  cbn [snd] in W2.
  pose proof (output_sized_at b2 cap oe (lit ".") 0 1) as W3.
  destruct (output_sized b2 cap oe (lit ".") 0 1) as [k3 b3] eqn:E3.
  assert (k3 = 1) by (unfold output_sized in E3; congruence). subst k3.
  cbn [snd] in W3.
  pose proof (output_sized_at b3 cap (oe + 1) new_extension off n) as W4.
  destruct (output_sized b3 cap (oe + 1) new_extension off n)
    as [k4 b4] eqn:E4.
  assert (k4 = n) by (unfold output_sized in E4; congruence). subst k4.
  cbn [snd] in W4.
  eexists. split; [reflexivity|]. split.
  - apply buffer_prefix_ext.
    + rewrite !length_app, length_firstn, length_bytes_at,
        (skipn_text_of p e He), length_bytes_at. fold t.
      change (length (lit ".")) with 1. lia.
    + intros i Hi. rewrite terminate_output_at by lia.
      destruct (Nat.eqb_spec i (oe + 1 + n + t)); [lia|].
      rewrite W4 by lia. rewrite (skipn_text_of p e He). fold t.
      destruct (Nat.ltb_spec i oe) as [H1|H1].
      * rewrite app_nth1 by (rewrite length_firstn; lia).
        rewrite nth_firstn. destruct (Nat.ltb_spec i oe); [|lia].
        destruct (Nat.leb_spec (oe + 1) i); [lia|]. cbn [andb].
        rewrite W3 by lia. destruct (Nat.leb_spec oe i); [lia|].
        cbn [andb]. rewrite W2 by lia.
        destruct (Nat.leb_spec (oe + (n + 1)) i); [lia|]. cbn [andb].
        rewrite W1 by lia. cbn [Nat.leb Nat.add andb].
        destruct (Nat.ltb_spec i oe); [|lia]. rewrite Nat.sub_0_r.
        reflexivity.
      * rewrite app_nth2 by (rewrite length_firstn; lia).
        rewrite length_firstn.
        replace (Nat.min oe (length p)) with oe by lia.
        destruct (Nat.eq_dec i oe) as [->|Hne].
        -- rewrite Nat.sub_diag. cbn [lit list_ascii_of_string app nth].
           destruct (Nat.leb_spec (oe + 1) oe); [lia|]. cbn [andb].
           rewrite W3 by lia. destruct (Nat.leb_spec oe oe); [|lia].
           destruct (Nat.ltb_spec oe (oe + 1)); [|lia]. cbn [andb].
           rewrite Nat.sub_diag. reflexivity.
        -- rewrite app_nth2 by (change (length (lit ".")) with 1; lia).
           change (length (lit ".")) with 1.
           destruct (Nat.leb_spec (oe + 1) i); [|lia].
           destruct (Nat.ltb_spec i (oe + 1 + n)) as [H2|H2]; cbn [andb].
           ++ rewrite app_nth1 by (rewrite length_bytes_at; lia).
              rewrite nth_bytes_at by lia. f_equal. lia.
           ++ rewrite app_nth2 by (rewrite length_bytes_at; lia).
              rewrite length_bytes_at, nth_bytes_at by lia.
              rewrite W3 by lia. destruct (Nat.ltb_spec i (oe + 1)); [lia|].
              rewrite andb_false_r. rewrite W2 by lia.
              destruct (Nat.leb_spec (oe + (n + 1)) i); [|lia].
              destruct (Nat.ltb_spec i (oe + (n + 1) + t)); [|lia].
              cbn [andb]. f_equal. lia.
  - rewrite terminate_output_at by lia. rewrite Nat.eqb_refl. reflexivity.
Qed.

Lemma strlen_S s k :
  is_nul (deref s k) = false -> strlen s k = S (strlen s (S k)).
Proof.
  intros H. destruct (strlen_spec s (S k)) as [H1 H2]. apply strlen_unique.
  - intros i Hi. destruct (Nat.eq_dec i k) as [->|]; [exact H|].
    apply H1. lia.
  - replace (k + S (strlen s (S k))) with (S k + strlen s (S k)) by lia.
    exact H2.
Qed.

Lemma dot_extension_text ext :
  deref ext 0 = "."%char ->
  bytes_at ext 0 (strlen ext 0) = lit "." ++ extension_text ext.
Proof.
  intros E. unfold extension_text. rewrite E. cbn [Ascii.eqb].
  change (Ascii.eqb "." ".") with true. cbv iota.
  rewrite (strlen_S ext 0) by (rewrite E; reflexivity).
  rewrite bytes_at_S, E. reflexivity.
Qed.

(** With a buffer that holds it, [change_extension] on a path without a
    segment writes the root, a dot and the new extension. *)
Lemma change_extension_writes_root st p new_extension buf cap :
  get_root st p + 1 + length (extension_text new_extension) < cap ->
  exists buf',
    (let root_size := get_root st p in
     let '(pos, buf) := output_sized buf cap 0 p 0 root_size in
     let '(pos, buf) :=
       if negb (Ascii.eqb (deref new_extension 0) ".") then
         let '(n, buf) := output_dot buf cap pos in
         (pos + n, buf)
       else (pos, buf) in
     let '(n, buf) := output buf cap pos new_extension 0 in
     let pos := pos + n in
     (pos, terminate_output buf cap pos))
    = (get_root st p + 1 + length (extension_text new_extension), buf')
    /\ buffer_prefix buf'
         (get_root st p + 1 + length (extension_text new_extension))
       = root_text st p ++ lit "." ++ extension_text new_extension
    /\ buf' (get_root st p + 1 + length (extension_text new_extension))
       = NUL.
Proof.
  unfold output, output_dot. cbv zeta. set (r := get_root st p).
  pose proof (get_root_le_length st p) as Hr. fold r in Hr.
  assert (Hrt : root_text st p = bytes_at p 0 r)
    by (symmetry; apply bytes_at_root).
  destruct (Ascii.eqb_spec (deref new_extension 0) "."%char) as [E|N];
    cbn [negb].
  - rewrite <- (dot_extension_text new_extension E).
    pose proof (f_equal (@length ascii) (dot_extension_text new_extension E))
      as EL.
    rewrite length_app, length_bytes_at in EL.
    change (length (lit ".")) with 1 in EL.
    replace (r + 1 + length (extension_text new_extension))
      with (r + strlen new_extension 0) by lia.
    set (n := strlen new_extension 0) in *. intros Hcap.
    pose proof (output_sized_at buf cap 0 p 0 r) as W1.
    destruct (output_sized buf cap 0 p 0 r) as [k1 b1] eqn:E1.
    assert (k1 = r) by (unfold output_sized in E1; congruence). subst k1.
    cbn [snd] in W1.
    pose proof (output_sized_at b1 cap r new_extension 0 n) as W2.
    destruct (output_sized b1 cap r new_extension 0 n) as [k2 b2] eqn:E2.
    assert (k2 = n) by (unfold output_sized in E2; congruence). subst k2.
    cbn [snd] in W2.
    eexists. split; [reflexivity|]. split.
    + apply buffer_prefix_ext.
      * rewrite length_app, Hrt, !length_bytes_at. reflexivity.
      * intros i Hi. rewrite terminate_output_at by lia.
        destruct (Nat.eqb_spec i (r + n)); [lia|]. rewrite W2 by lia.
        rewrite Hrt. destruct (Nat.ltb_spec i r) as [H1|H1].
        -- rewrite app_nth1 by (rewrite length_bytes_at; lia).
           rewrite nth_bytes_at by lia.
           destruct (Nat.leb_spec r i); [lia|]. cbn [andb].
           rewrite W1 by lia. cbn [Nat.leb Nat.add andb].
           destruct (Nat.ltb_spec i r); [|lia]. rewrite Nat.sub_0_r.
           reflexivity.
        -- rewrite app_nth2 by (rewrite length_bytes_at; lia).
           rewrite length_bytes_at, nth_bytes_at by lia.
           destruct (Nat.leb_spec r i); [|lia].
           destruct (Nat.ltb_spec i (r + n)); [|lia]. reflexivity.
    + rewrite terminate_output_at by lia. rewrite Nat.eqb_refl. reflexivity.
  - unfold extension_text.
    destruct (Ascii.eqb_spec (deref new_extension 0) "."%char) as [E|_];
      [contradiction|].
    rewrite length_bytes_at. set (n := strlen new_extension 0). intros Hcap.
    pose proof (output_sized_at buf cap 0 p 0 r) as W1.
    destruct (output_sized buf cap 0 p 0 r) as [k1 b1] eqn:E1.
    assert (k1 = r) by (unfold output_sized in E1; congruence). subst k1.
    cbn [snd] in W1.
    pose proof (output_sized_at b1 cap r (lit ".") 0 1) as W2.
    destruct (output_sized b1 cap r (lit ".") 0 1) as [k2 b2] eqn:E2.
    assert (k2 = 1) by (unfold output_sized in E2; congruence). subst k2.
    cbn [snd] in W2.
    pose proof (output_sized_at b2 cap (r + 1) new_extension 0 n) as W3.
    destruct (output_sized b2 cap (r + 1) new_extension 0 n)
      as [k3 b3] eqn:E3.
    assert (k3 = n) by (unfold output_sized in E3; congruence). subst k3.
    cbn [snd] in W3.
    eexists. split; [reflexivity|]. split.
    + apply buffer_prefix_ext.
      * rewrite !length_app, Hrt, !length_bytes_at.
        change (length (lit ".")) with 1. lia.
      * intros i Hi. rewrite terminate_output_at by lia.
        destruct (Nat.eqb_spec i (r + 1 + n)); [lia|]. rewrite W3 by lia.
        rewrite Hrt. destruct (Nat.ltb_spec i r) as [H1|H1].
        -- rewrite app_nth1 by (rewrite length_bytes_at; lia).
           rewrite nth_bytes_at by lia.
           destruct (Nat.leb_spec (r + 1) i); [lia|]. cbn [andb].
           rewrite W2 by lia. destruct (Nat.leb_spec r i); [lia|].
           cbn [andb]. rewrite W1 by lia. cbn [Nat.leb Nat.add andb].
           destruct (Nat.ltb_spec i r); [|lia]. rewrite Nat.sub_0_r.
           reflexivity.
        -- rewrite app_nth2 by (rewrite length_bytes_at; lia).
           rewrite length_bytes_at.
           destruct (Nat.eq_dec i r) as [->|Hne].
           ++ rewrite Nat.sub_diag. cbn [lit list_ascii_of_string app nth].
              destruct (Nat.leb_spec (r + 1) r); [lia|]. cbn [andb].
              rewrite W2 by lia. destruct (Nat.leb_spec r r); [|lia].
              destruct (Nat.ltb_spec r (r + 1)); [|lia]. cbn [andb].
              rewrite Nat.sub_diag. reflexivity.
           ++ rewrite app_nth2 by (change (length (lit ".")) with 1; lia).
              change (length (lit ".")) with 1.
              rewrite nth_bytes_at by lia.
              destruct (Nat.leb_spec (r + 1) i); [|lia].
              destruct (Nat.ltb_spec i (r + 1 + n)); [|lia]. cbn [andb].
              f_equal. lia.
    + rewrite terminate_output_at by lia. rewrite Nat.eqb_refl. reflexivity.
Qed.

(** X17.  [change_extension] replaces what [get_extension] reports:
    the result is the path up to the extension [get_extension] finds
    (up to the end of the basename when there is none; the root alone
    when the path has no segment), then one dot, then the new extension
    without the dot it may start with, then what follows the basename.
    The length returned is the length of these parts, and a buffer that
    holds the result receives them and the terminator. *)
Theorem change_extension_replaces_the_extension (st : cwk_path_style)
  (p new_extension : list ascii) (buf : buffer) (cap : nat) :
  let head :=
    match get_basename st p with
    | (Some b, n) =>
        match get_extension st p with
        | Some (c, _) => c
        | None => b + n
        end
    | (None, _) => get_root st p
    end in
  let tail :=
    match get_basename st p with
    | (Some b, n) => skipn (b + n) (text_of p)
    | (None, _) => []
    end in
  fst (change_extension st p new_extension buf cap)
  = head + 1 + length (extension_text new_extension) + length tail
  /\ (fst (change_extension st p new_extension buf cap) < cap ->
      buffer_prefix (snd (change_extension st p new_extension buf cap))
        (fst (change_extension st p new_extension buf cap))
      = firstn head p ++ lit "." ++ extension_text new_extension ++ tail
      /\ snd (change_extension st p new_extension buf cap)
           (fst (change_extension st p new_extension buf cap)) = NUL).
Proof.
  cbv zeta.
  assert (G : forall n text,
            (forall c, n < c ->
               exists buf',
                 change_extension st p new_extension buf c = (n, buf')
                 /\ buffer_prefix buf' n = text /\ buf' n = NUL) ->
            fst (change_extension st p new_extension buf cap) = n
            /\ (fst (change_extension st p new_extension buf cap) < cap ->
                buffer_prefix
                  (snd (change_extension st p new_extension buf cap))
                  (fst (change_extension st p new_extension buf cap))
                = text
                /\ snd (change_extension st p new_extension buf cap)
                     (fst (change_extension st p new_extension buf cap))
                   = NUL)).
  { intros n text W.
    assert (E : fst (change_extension st p new_extension buf cap) = n).
    { destruct (W (S n) (Nat.lt_succ_diag_r n)) as (b' & E' & _).
      pose proof (change_extension_measures st p new_extension buf buf cap
                    (S n)) as HM.
      rewrite E' in HM. exact HM. }
    split; [exact E|]. rewrite E. intros Hc.
    destruct (W cap Hc) as (b' & E' & P & T). rewrite E'. cbn [snd]. auto. }
  pose proof (get_last_segment_spec st p) as H.
  unfold get_basename, get_extension.
  destruct (get_last_segment st p) as [[] seg] eqn:EL; cbn [negb].
  - destruct H as (_ & _ & Hin & _ & Hok & Hp & _).
    destruct Hok as (_ & Hbe & Hs & _ & Hstop & _).
    unfold within in Hin. rewrite Hp in Hin, Hstop.
    pose proof (no_nul_before_strlen p _ Hin) as He.
    assert (Hend : deref p (end_ seg) <> "."%char).
    { intros E. rewrite E, dot_is_regular in Hstop. discriminate. }
    pose proof (find_old_extension_find_extension p (begin seg) (end_ seg)
                  (Nat.lt_le_incl _ _ Hbe) Hend) as EO.
    pose proof (find_extension_spec p (begin seg) (end_ seg - begin seg))
      as HF.
    rewrite Hs, Hp.
    replace (begin seg + (end_ seg - begin seg)) with (end_ seg) in * by lia.
    set (oe := match find_extension p (begin seg) (end_ seg - begin seg) with
               | Some c => c
               | None => end_ seg
               end) in *.
    assert (Hoe : oe <= end_ seg).
    { unfold oe.
      destruct (find_extension p (begin seg) (end_ seg - begin seg));
        [lia|lia]. }
    assert (Ehead : match
                      match find_extension p (begin seg)
                              (end_ seg - begin seg) with
                      | Some c => Some (c, end_ seg - c)
                      | None => None
                      end
                    with
                    | Some (c, _) => c
                    | None => end_ seg
                    end = oe).
    { unfold oe.
      destruct (find_extension p (begin seg) (end_ seg - begin seg));
        reflexivity. }
    rewrite Ehead.
    rewrite (skipn_text_of p _ He), length_bytes_at.
    rewrite <- (skipn_text_of p _ He).
    apply G. intros c Hc. unfold change_extension. rewrite EL. cbn [negb].
    rewrite Hp, EO.
    pose proof (change_extension_writes_segment seg new_extension buf c oe)
      as W.
    rewrite Hp in W. apply W; assumption.
  - destruct H as [_ _]. cbn [length]. rewrite Nat.add_0_r, app_nil_r.
    apply G. intros c Hc. unfold change_extension. rewrite EL. cbn [negb].
    apply (change_extension_writes_root st p new_extension buf c Hc).
Qed.

Lemma change_extension_replaces_the_extension_witness :
  buffer_prefix
    (snd (change_extension CWK_STYLE_UNIX (lit "/a/b.tar.gz//") (lit ".xz")
            (fun _ => "x"%char) 32))
    (fst (change_extension CWK_STYLE_UNIX (lit "/a/b.tar.gz//") (lit ".xz")
            (fun _ => "x"%char) 32))
  = firstn
      match get_basename CWK_STYLE_UNIX (lit "/a/b.tar.gz//") with
      | (Some b, n) =>
          match get_extension CWK_STYLE_UNIX (lit "/a/b.tar.gz//") with
          | Some (c, _) => c
          | None => b + n
          end
      | (None, _) => get_root CWK_STYLE_UNIX (lit "/a/b.tar.gz//")
      end (lit "/a/b.tar.gz//")
    ++ lit "." ++ extension_text (lit ".xz")
    ++ match get_basename CWK_STYLE_UNIX (lit "/a/b.tar.gz//") with
       | (Some b, n) => skipn (b + n) (text_of (lit "/a/b.tar.gz//"))
       | (None, _) => []
       end
  /\ snd (change_extension CWK_STYLE_UNIX (lit "/a/b.tar.gz//") (lit ".xz")
            (fun _ => "x"%char) 32)
       (fst (change_extension CWK_STYLE_UNIX (lit "/a/b.tar.gz//")
               (lit ".xz") (fun _ => "x"%char) 32)) = NUL.
Proof.
  apply (proj2 (change_extension_replaces_the_extension CWK_STYLE_UNIX
                  (lit "/a/b.tar.gz//") (lit ".xz")
                  (fun _ => "x"%char) 32)).
  vm_compute. lia.
Defined.

(** ** Reading a changed path back *)

Lemma chain_last_begin st p b0 e0 :
  forall pre c,
    chain st p c (pre ++ [(b0, e0)]) ->
    c <= b0 /\ regular st (deref p b0) = true.
Proof.
  induction pre as [|[b e] pre IH]; intros c H; cbn [app chain] in H.
  - destruct H as (Hle & _ & Hbe & Hregs & _). split; [exact Hle|].
    apply Hregs. lia.
  - destruct H as (Hle & _ & Hbe & _ & _ & H).
    destruct (IH e H) as [A B]. split; [lia|exact B].
Qed.

(** The layout of a path whose last segment is replaced: the segments
    before it stay, the last one ends where the new text ends. *)
Lemma chain_replace_last st p out b0 e0 e' :
  (forall i, i < b0 -> deref out i = deref p i) ->
  regs st out b0 e' -> b0 < e' -> chain st out e' [] ->
  forall pre c,
    chain st p c (pre ++ [(b0, e0)]) ->
    chain st out c (pre ++ [(b0, e')]).
Proof.
  intros Hag Hregs' Hbe' Hend'.
  assert (Hstop' : regular st (deref out e') = false).
  { destruct Hend' as (z & Hle & Hseps & Hz).
    destruct (Nat.eq_dec z e') as [->|Hne].
    - apply is_nul_true in Hz. rewrite Hz. apply regular_NUL.
    - apply separator_not_regular, Hseps. lia. }
  induction pre as [|[b e] pre IH]; intros c H; cbn [app chain] in *.
  - destruct H as (Hle & Hseps & _). splits; try assumption.
    intros i Hi. rewrite Hag by lia. apply Hseps, Hi.
  - destruct H as (Hle & Hseps & Hbe & Hregs & Hstop & H).
    destruct (chain_last_begin st p b0 e0 pre e H) as [Heb Hb0].
    assert (e <> b0) by (intros ->; congruence).
    splits; try assumption.
    + intros i Hi. rewrite Hag by lia. apply Hseps, Hi.
    + intros i Hi. rewrite Hag by lia. apply Hregs, Hi.
    + rewrite Hag by lia. exact Hstop.
    + apply IH, H.
Qed.

Lemma deref_three_parts (a w c : list ascii) i :
  deref (a ++ w ++ c) i
  = if i <? length a then deref a i
    else if i <? length a + length w then deref w (i - length a)
         else deref c (i - length a - length w).
Proof.
  unfold deref. destruct (Nat.ltb_spec i (length a)) as [H|H].
  - apply app_nth1, H.
  - rewrite app_nth2 by exact H.
    destruct (Nat.ltb_spec i (length a + length w)) as [H2|H2].
    + apply app_nth1. lia.
    + rewrite app_nth2 by lia. reflexivity.
Qed.

Lemma get_last_segment_last st p pre t :
  chain st p (get_root st p) (pre ++ [t]) ->
  get_last_segment st p = (true, token_segment p (get_root st p) t).
Proof.
  intros H. rewrite (get_last_segment_chain st p _ H).
  destruct pre as [|t1 pre]; [reflexivity|].
  cbn [app]. rewrite last_last. reflexivity.
Qed.

Lemma get_last_segment_tokens st p seg :
  get_last_segment st p = (true, seg) ->
  exists pre,
    tokens st p = pre ++ [(begin seg, end_ seg)]
    /\ seg = token_segment p (get_root st p) (begin seg, end_ seg).
Proof.
  intros E. pose proof (chain_tokens st p) as H.
  rewrite (get_last_segment_chain st p _ H) in E.
  destruct (tokens st p) as [|t post]; [discriminate|].
  destruct (last_split t post) as [pre Ep]. exists pre.
  inversion E; subst seg. cbn [token_segment begin end_].
  rewrite <- surjective_pairing. auto.
Qed.

(** The path that has [w] in place of the end of its last segment, from
    [h] on: its layout, when its root is as long as before. *)
Lemma replaced_layout st p pre b0 e0 h w :
  chain st p (get_root st p) (pre ++ [(b0, e0)]) ->
  b0 <= h <= e0 -> segment_text st w ->
  chain st (firstn h p ++ w ++ skipn e0 (text_of p)) (get_root st p)
    (pre ++ [(b0, h + length w)])
  /\ (forall i, i < h ->
        deref (firstn h p ++ w ++ skipn e0 (text_of p)) i = deref p i)
  /\ (forall i, i < length w ->
        deref (firstn h p ++ w ++ skipn e0 (text_of p)) (h + i) = deref w i).
Proof.
  intros H Hh [Hne Hw].
  destruct (chain_token_ok st p _ pre (b0, e0) [] H) as [Hok Hend].
  pose proof (chain_within st p pre _ (b0, e0) [] H (get_root_within st p))
    as Hin.
  cbn [snd] in Hin, Hend.
  pose proof (no_nul_before_strlen p _ Hin) as He.
  pose proof (strlen_le_length p) as Hlen.
  destruct Hok as (_ & Hbe & _ & Hregs & _).
  cbn [token_segment path begin end_ fst snd] in Hbe, Hregs.
  pose proof (chain_nil_seps st p e0 Hend Hin) as Htail.
  set (out := firstn h p ++ w ++ skipn e0 (text_of p)).
  assert (La : length (firstn h p) = h) by (rewrite length_firstn; lia).
  assert (D1 : forall i, i < h -> deref out i = deref p i).
  { intros i Hi. unfold out. rewrite deref_three_parts, La.
    destruct (Nat.ltb_spec i h); [|lia]. unfold deref.
    rewrite nth_firstn. destruct (Nat.ltb_spec i h); [reflexivity|lia]. }
  assert (D2 : forall i, i < length w -> deref out (h + i) = deref w i).
  { intros i Hi. unfold out. rewrite deref_three_parts, La.
    destruct (Nat.ltb_spec (h + i) h); [lia|].
    destruct (Nat.ltb_spec (h + i) (h + length w)); [|lia].
    f_equal. lia. }
  assert (D3 : forall i, h + length w <= i ->
            deref out i
            = deref (bytes_at p e0 (strlen p 0 - e0)) (i - h - length w)).
  { intros i Hi. unfold out. rewrite deref_three_parts, La.
    destruct (Nat.ltb_spec i h); [lia|].
    destruct (Nat.ltb_spec i (h + length w)); [lia|].
    rewrite (skipn_text_of p e0 He). reflexivity. }
  assert (Hlw : 0 < length w) by (destruct w; [contradiction|cbn; lia]).
  rewrite Forall_forall in Hw.
  split; [|split; assumption].
  apply (chain_replace_last st p out b0 e0 (h + length w)).
  - intros i Hi. apply D1. lia.
  - intros i Hi. destruct (Nat.lt_ge_cases i h) as [H1|H1].
    + rewrite D1 by exact H1. apply Hregs. lia.
    + replace i with (h + (i - h)) by lia. rewrite D2 by lia.
      apply Hw. apply nth_In. lia.
  - lia.
  - exists (h + length w + (strlen p 0 - e0)). split; [lia|]. split.
    + intros i Hi. rewrite D3 by lia. unfold deref.
      rewrite nth_bytes_at by lia. apply Htail. lia.
    + rewrite D3 by lia. unfold deref at 1.
      rewrite nth_overflow by (rewrite length_bytes_at; lia). reflexivity.
  - exact H.
Qed.

Lemma get_root_unix_same_head p q :
  deref q 0 = deref p 0 ->
  get_root CWK_STYLE_UNIX q = get_root CWK_STYLE_UNIX p.
Proof. intros E. unfold get_root, get_root_unix. rewrite E. reflexivity. Qed.

(** Under the Unix style the path keeps its root when the end of its
    last segment is replaced. *)
Lemma replaced_root_unix p pre b0 e0 h w :
  chain CWK_STYLE_UNIX p (get_root CWK_STYLE_UNIX p) (pre ++ [(b0, e0)]) ->
  b0 <= h <= e0 -> segment_text CWK_STYLE_UNIX w ->
  get_root CWK_STYLE_UNIX (firstn h p ++ w ++ skipn e0 (text_of p))
  = get_root CWK_STYLE_UNIX p.
Proof.
  intros H Hh Hw.
  destruct (replaced_layout _ p pre b0 e0 h w H Hh Hw) as (_ & D1 & D2).
  destruct (chain_last_begin _ p b0 e0 pre _ H) as [Hrb Hb0].
  destruct (Nat.eq_dec h 0) as [->|Hne].
  - assert (b0 = 0) by lia. subst b0.
    destruct Hw as [Hne Hw]. rewrite Forall_forall in Hw.
    assert (Hlw : 0 < length w) by (destruct w; [contradiction|cbn; lia]).
    specialize (D2 0 Hlw). cbn [Nat.add] in D2.
    unfold get_root, get_root_unix. rewrite D2.
    rewrite (regular_not_separator CWK_STYLE_UNIX (deref w 0))
      by (apply Hw, nth_In, Hlw).
    rewrite (regular_not_separator CWK_STYLE_UNIX _ Hb0). reflexivity.
  - apply get_root_unix_same_head. apply D1. lia.
Qed.

(** With a buffer that holds it, [change_basename] on a path without a
    segment writes the root and the trimmed value. *)
Lemma change_basename_writes_root st p value buf cap :
  get_root st p + length (trimmed st value) < cap ->
  exists buf',
    (let root_size := get_root st p in
     let '(pos, buf) := output_sized buf cap 0 p 0 root_size in
     let off := skip_separators st value 0 in
     let new_basename_size := strlen value off in
     let new_basename_size := trim_trailing st value off new_basename_size in
     let '(n, buf) := output_sized buf cap pos value off new_basename_size in
     let pos := pos + n in
     (pos, terminate_output buf cap pos))
    = (get_root st p + length (trimmed st value), buf')
    /\ buffer_prefix buf' (get_root st p + length (trimmed st value))
       = root_text st p ++ trimmed st value
    /\ buf' (get_root st p + length (trimmed st value)) = NUL.
Proof.
  unfold trimmed. cbv zeta. rewrite length_bytes_at.
  set (r := get_root st p). set (off := skip_separators st value 0).
  set (n := trim_trailing st value off (strlen value off)). intros Hcap.
  pose proof (get_root_le_length st p) as Hr. fold r in Hr.
  assert (Hrt : root_text st p = bytes_at p 0 r)
    by (symmetry; apply bytes_at_root).
  pose proof (output_sized_at buf cap 0 p 0 r) as W1.
  destruct (output_sized buf cap 0 p 0 r) as [k1 b1] eqn:E1.
  assert (k1 = r) by (unfold output_sized in E1; congruence). subst k1.
  cbn [snd] in W1.
  pose proof (output_sized_at b1 cap r value off n) as W2.
  destruct (output_sized b1 cap r value off n) as [k2 b2] eqn:E2.
  assert (k2 = n) by (unfold output_sized in E2; congruence). subst k2.
  cbn [snd] in W2.
  eexists. split; [reflexivity|]. split.
  - apply buffer_prefix_ext.
    + rewrite length_app, Hrt, !length_bytes_at. reflexivity.
    + intros i Hi. rewrite terminate_output_at by lia.
      destruct (Nat.eqb_spec i (r + n)); [lia|]. rewrite W2 by lia.
      rewrite Hrt. destruct (Nat.ltb_spec i r) as [H1|H1].
      * rewrite app_nth1 by (rewrite length_bytes_at; lia).
        rewrite nth_bytes_at by lia.
        destruct (Nat.leb_spec r i); [lia|]. cbn [andb].
        rewrite W1 by lia. cbn [Nat.leb Nat.add andb].
        destruct (Nat.ltb_spec i r); [|lia]. rewrite Nat.sub_0_r.
        reflexivity.
      * rewrite app_nth2 by (rewrite length_bytes_at; lia).
        rewrite length_bytes_at, nth_bytes_at by lia.
        destruct (Nat.leb_spec r i); [|lia].
        destruct (Nat.ltb_spec i (r + n)); [|lia]. reflexivity.
  - rewrite terminate_output_at by lia. rewrite Nat.eqb_refl. reflexivity.
Qed.

(** The text [change_basename] writes into a buffer that holds it. *)
Lemma change_basename_text st p value buf cap :
  fst (change_basename st p value buf cap) < cap ->
  buffer_prefix (snd (change_basename st p value buf cap))
    (fst (change_basename st p value buf cap))
  = match get_last_segment st p with
    | (true, seg) =>
        firstn (begin seg) p ++ trimmed st value
        ++ skipn (end_ seg) (text_of p)
    | (false, _) => root_text st p ++ trimmed st value
    end.
Proof.
  assert (G : forall n text,
            (forall c, n < c ->
               exists buf',
                 change_basename st p value buf c = (n, buf')
                 /\ buffer_prefix buf' n = text /\ buf' n = NUL) ->
            fst (change_basename st p value buf cap) < cap ->
            buffer_prefix (snd (change_basename st p value buf cap))
              (fst (change_basename st p value buf cap)) = text).
  { intros n text W.
    assert (E : fst (change_basename st p value buf cap) = n).
    { destruct (W (S n) (Nat.lt_succ_diag_r n)) as (b' & E' & _).
      pose proof (change_basename_measures st p value buf buf cap (S n))
        as HM.
      rewrite E' in HM. exact HM. }
    rewrite E. intros Hc.
    destruct (W cap Hc) as (b' & E' & P & T). rewrite E'. exact P. }
  pose proof (get_last_segment_spec st p) as H.
  destruct (get_last_segment st p) as [[] seg] eqn:EL.
  - destruct H as (_ & _ & Hin & _ & Hok & Hp & _).
    destruct Hok as (_ & Hbe & _). unfold within in Hin.
    assert (He : end_ seg <= strlen (path seg) 0)
      by (apply no_nul_before_strlen; exact Hin).
    apply (G (begin seg + length (trimmed st value)
              + (strlen (path seg) 0 - end_ seg))).
    intros c Hc. unfold change_basename. rewrite EL. cbn [negb].
    rewrite <- Hp.
    apply (change_segment_writes st seg value buf c
             (Nat.lt_le_incl _ _ Hbe) He Hc).
  - apply (G (get_root st p + length (trimmed st value))).
    intros c Hc. unfold change_basename. rewrite EL. cbn [negb].
    apply (change_basename_writes_root st p value buf c Hc).
Qed.

Lemma bytes_at_eq s h w :
  (forall i, i < length w -> deref s (h + i) = deref w i) ->
  bytes_at s h (length w) = w.
Proof.
  intros H. apply (nth_ext _ _ NUL NUL).
  - apply length_bytes_at.
  - intros i Hi. rewrite length_bytes_at in Hi.
    rewrite nth_bytes_at by exact Hi. apply H, Hi.
Qed.

(** X18.  Reading the basename back.  After [change_basename] has put
    a plain segment text -- not empty, no separator -- in place of the
    basename, [get_basename] on the result finds that text, at the place
    of the old basename (right after the root when the path had no
    segment).  This holds under the Unix style and whenever the result
    has a root as long as the root of the path. *)
Theorem basename_after_change_basename (st : cwk_path_style)
  (p value : list ascii) (buf : buffer) (cap : nat) :
  segment_text st value ->
  fst (change_basename st p value buf cap) < cap ->
  let out :=
    buffer_prefix (snd (change_basename st p value buf cap))
      (fst (change_basename st p value buf cap)) in
  st = CWK_STYLE_UNIX \/ get_root st out = get_root st p ->
  let b :=
    match get_basename st p with
    | (Some b0, _) => b0
    | (None, _) => get_root st p
    end in
  get_basename st out = (Some b, length value)
  /\ get_dirname st out = b
  /\ bytes_at out b (length value) = value.
Proof.
  intros Hv Hcap. cbv zeta.
  rewrite (change_basename_text st p value buf cap Hcap).
  rewrite (trimmed_segment_text st value Hv).
  unfold get_basename at 2 3 4.
  destruct (get_last_segment st p) as [[] seg] eqn:EL; cbn [negb].
  - destruct (get_last_segment_tokens st p seg EL) as (pre & ET & _).
    pose proof (chain_tokens st p) as H. rewrite ET in H.
    destruct (chain_token_ok st p _ pre _ [] H) as [(_ & Hbe & _) _].
    cbn [token_segment begin end_ fst snd] in Hbe.
    intros Hcase.
    destruct (replaced_layout st p pre (begin seg) (end_ seg) (begin seg)
                value H ltac:(lia) Hv) as (Hch & _ & D2).
    set (out := firstn (begin seg) p ++ value
                ++ skipn (end_ seg) (text_of p)) in *.
    assert (Hroot : get_root st out = get_root st p).
    { destruct Hcase as [->|Hr]; [|exact Hr].
      apply (replaced_root_unix p pre (begin seg) (end_ seg) (begin seg)
               value H ltac:(lia) Hv). }
    rewrite <- Hroot in Hch.
    pose proof (get_last_segment_last st out pre _ Hch) as EO.
    unfold get_basename, get_dirname. rewrite EO. cbn [negb].
    cbn [token_segment begin size fst snd].
    split; [f_equal; lia|]. split; [reflexivity|].
    apply bytes_at_eq, D2.
  - intros Hcase.
    set (out := root_text st p ++ value) in *.
    destruct Hv as [Hne Hw]. pose proof Hw as Hw'.
    rewrite Forall_forall in Hw'.
    assert (Hlw : 0 < length value)
      by (destruct value; [contradiction|cbn; lia]).
    pose proof (chain_render st [value] (root_text st p) false) as Hch.
    cbn [render layout app] in Hch. rewrite app_nil_r in Hch.
    rewrite length_root_text in Hch. fold out in Hch.
    specialize (Hch (Forall_cons _ (conj Hne Hw) (Forall_nil _))).
    assert (Hroot : get_root st out = get_root st p).
    { destruct Hcase as [->|Hr]; [|exact Hr].
      unfold out, root_text, get_root, get_root_unix.
      destruct (is_separator CWK_STYLE_UNIX (deref p 0)) eqn:Es.
      - destruct p as [|ch p']; [discriminate|]. cbn [firstn app].
        unfold deref in *. cbn [nth] in *. rewrite Es. reflexivity.
      - cbn [firstn app].
        rewrite (regular_not_separator CWK_STYLE_UNIX (deref value 0))
          by (apply Hw', nth_In, Hlw).
        reflexivity. }
    rewrite <- Hroot in Hch at 1.
    pose proof (get_last_segment_last st out [] _ Hch) as EO.
    unfold get_basename, get_dirname. rewrite EO. cbn [negb].
    cbn [token_segment begin size fst snd].
    split; [f_equal; lia|]. split; [reflexivity|].
    apply bytes_at_eq. intros i Hi. unfold out.
    rewrite <- (length_root_text st p) at 1. apply deref_app_r.
Qed.

Lemma basename_after_change_basename_witness :
  get_basename CWK_STYLE_UNIX
    (buffer_prefix
       (snd (change_basename CWK_STYLE_UNIX (lit "/a/b.c//") (lit "name")
               (fun _ => "x"%char) 32))
       (fst (change_basename CWK_STYLE_UNIX (lit "/a/b.c//") (lit "name")
               (fun _ => "x"%char) 32)))
  = (Some
       match get_basename CWK_STYLE_UNIX (lit "/a/b.c//") with
       | (Some b0, _) => b0
       | (None, _) => get_root CWK_STYLE_UNIX (lit "/a/b.c//")
       end, length (lit "name"))
  /\ get_dirname CWK_STYLE_UNIX
       (buffer_prefix
          (snd (change_basename CWK_STYLE_UNIX (lit "/a/b.c//") (lit "name")
                  (fun _ => "x"%char) 32))
          (fst (change_basename CWK_STYLE_UNIX (lit "/a/b.c//") (lit "name")
                  (fun _ => "x"%char) 32)))
     = match get_basename CWK_STYLE_UNIX (lit "/a/b.c//") with
       | (Some b0, _) => b0
       | (None, _) => get_root CWK_STYLE_UNIX (lit "/a/b.c//")
       end
  /\ bytes_at
       (buffer_prefix
          (snd (change_basename CWK_STYLE_UNIX (lit "/a/b.c//") (lit "name")
                  (fun _ => "x"%char) 32))
          (fst (change_basename CWK_STYLE_UNIX (lit "/a/b.c//") (lit "name")
                  (fun _ => "x"%char) 32)))
       match get_basename CWK_STYLE_UNIX (lit "/a/b.c//") with
       | (Some b0, _) => b0
       | (None, _) => get_root CWK_STYLE_UNIX (lit "/a/b.c//")
       end (length (lit "name"))
     = lit "name".
Proof.
  apply (basename_after_change_basename CWK_STYLE_UNIX (lit "/a/b.c//")
           (lit "name") (fun _ => "x"%char) 32).
  - split; [discriminate|]. repeat constructor.
  - vm_compute. lia.
  - left. reflexivity.
Defined.

Lemma find_extension_at s b c e :
  b <= c <= e -> deref s c = "."%char ->
  (forall i, c < i <= e -> deref s i <> "."%char) ->
  find_extension s b (e - b) = Some c.
Proof.
  intros Hc Hdot Hno.
  pose proof (find_extension_spec s b (e - b)) as HF.
  replace (b + (e - b)) with e in HF by lia.
  destruct (find_extension s b (e - b)) as [c'|].
  - destruct HF as (A & B & C).
    destruct (Nat.lt_trichotomy c' c) as [H|[H|H]].
    + exfalso. apply (C c); [lia|exact Hdot].
    + congruence.
    + exfalso. apply (Hno c'); [lia|exact B].
  - exfalso. apply (HF c); [lia|exact Hdot].
Qed.

(** The extension of a path whose last segment holds its last dot at
    [c]. *)
Lemma get_extension_of_last st out pre b0 e' c :
  chain st out (get_root st out) (pre ++ [(b0, e')]) ->
  b0 <= c < e' -> deref out c = "."%char ->
  (forall i, c < i < e' -> deref out i <> "."%char) ->
  get_extension st out = Some (c, e' - c).
Proof.
  intros Hch Hc Hdot Hno.
  destruct (chain_token_ok st out _ pre _ [] Hch) as [(_ & _ & _ & _ & Hstop & _) _].
  cbn [token_segment path end_ fst snd] in Hstop.
  unfold get_extension. rewrite (get_last_segment_last st out pre _ Hch).
  cbn [negb token_segment path begin end_ fst snd].
  rewrite (find_extension_at out b0 c e'); [reflexivity|lia|exact Hdot|].
  intros i Hi. destruct (Nat.eq_dec i e') as [->|Hne].
  - intros E. rewrite E, dot_is_regular in Hstop. discriminate.
  - apply Hno. lia.
Qed.

(** The text [change_extension] writes into a buffer that holds it. *)
Lemma change_extension_text st p new_extension buf cap :
  fst (change_extension st p new_extension buf cap) < cap ->
  buffer_prefix (snd (change_extension st p new_extension buf cap))
    (fst (change_extension st p new_extension buf cap))
  = match get_last_segment st p with
    | (true, seg) =>
        firstn
          match find_extension p (begin seg) (end_ seg - begin seg) with
          | Some c => c
          | None => end_ seg
          end p
        ++ (lit "." ++ extension_text new_extension)
        ++ skipn (end_ seg) (text_of p)
    | (false, _) =>
        root_text st p ++ lit "." ++ extension_text new_extension
    end.
Proof.
  assert (G : forall n text,
            (forall c, n < c ->
               exists buf',
                 change_extension st p new_extension buf c = (n, buf')
                 /\ buffer_prefix buf' n = text /\ buf' n = NUL) ->
            fst (change_extension st p new_extension buf cap) < cap ->
            buffer_prefix
              (snd (change_extension st p new_extension buf cap))
              (fst (change_extension st p new_extension buf cap)) = text).
  { intros n text W.
    assert (E : fst (change_extension st p new_extension buf cap) = n).
    { destruct (W (S n) (Nat.lt_succ_diag_r n)) as (b' & E' & _).
      pose proof (change_extension_measures st p new_extension buf buf cap
                    (S n)) as HM.
      rewrite E' in HM. exact HM. }
    rewrite E. intros Hc.
    destruct (W cap Hc) as (b' & E' & P & T). rewrite E'. exact P. }
  pose proof (get_last_segment_spec st p) as H.
  destruct (get_last_segment st p) as [[] seg] eqn:EL.
  - destruct H as (_ & _ & Hin & _ & Hok & Hp & _).
    destruct Hok as (_ & Hbe & Hs & _ & Hstop & _).
    unfold within in Hin. rewrite Hp in Hin, Hstop.
    pose proof (no_nul_before_strlen p _ Hin) as He.
    assert (Hend : deref p (end_ seg) <> "."%char).
    { intros E. rewrite E, dot_is_regular in Hstop. discriminate. }
    pose proof (find_old_extension_find_extension p (begin seg) (end_ seg)
                  (Nat.lt_le_incl _ _ Hbe) Hend) as EO.
    pose proof (find_extension_spec p (begin seg) (end_ seg - begin seg))
      as HF.
    replace (begin seg + (end_ seg - begin seg)) with (end_ seg) in * by lia.
    set (oe := match find_extension p (begin seg) (end_ seg - begin seg) with
               | Some c => c
               | None => end_ seg
               end) in *.
    assert (Hoe : oe <= end_ seg).
    { unfold oe.
      destruct (find_extension p (begin seg) (end_ seg - begin seg));
        [lia|lia]. }
    rewrite <- app_assoc.
    apply (G (oe + 1 + length (extension_text new_extension)
              + (strlen p 0 - end_ seg))).
    intros c Hc. unfold change_extension. rewrite EL. cbn [negb].
    rewrite Hp, EO.
    pose proof (change_extension_writes_segment seg new_extension buf c oe)
      as W.
    rewrite Hp in W. apply W; assumption.
  - apply (G (get_root st p + 1 + length (extension_text new_extension))).
    intros c Hc. unfold change_extension. rewrite EL. cbn [negb].
    apply (change_extension_writes_root st p new_extension buf c Hc).
Qed.

(** X19.  Reading the extension back.  When the new extension, without
    the dot it may start with, holds no dot, no separator and no
    terminator, [get_extension] on the result of [change_extension]
    finds the dot [change_extension] wrote and the new extension after
    it: the extension starts where the old one started (at the end of
    the basename when there was none, right after the root when the
    path had no segment) and is one byte longer than the new extension.
    This holds under the Unix style and whenever the result has a root
    as long as the root of the path. *)
Theorem extension_after_change_extension (st : cwk_path_style)
  (p new_extension : list ascii) (buf : buffer) (cap : nat) :
  Forall (fun ch => regular st ch = true /\ ch <> "."%char)
    (extension_text new_extension) ->
  fst (change_extension st p new_extension buf cap) < cap ->
  let out :=
    buffer_prefix (snd (change_extension st p new_extension buf cap))
      (fst (change_extension st p new_extension buf cap)) in
  st = CWK_STYLE_UNIX \/ get_root st out = get_root st p ->
  let head :=
    match get_basename st p with
    | (Some b, n) =>
        match get_extension st p with
        | Some (c, _) => c
        | None => b + n
        end
    | (None, _) => get_root st p
    end in
  get_extension st out
  = Some (head, 1 + length (extension_text new_extension))
  /\ has_extension st out = true
  /\ bytes_at out head (1 + length (extension_text new_extension))
     = lit "." ++ extension_text new_extension.
Proof.
  intros Hext Hcap. cbv zeta.
  rewrite (change_extension_text st p new_extension buf cap Hcap).
  set (ext := extension_text new_extension) in *.
  set (w := lit "." ++ ext).
  assert (Hw : segment_text st w).
  { split; [discriminate|]. apply Forall_cons; [apply dot_is_regular|].
    eapply Forall_impl; [|exact Hext]. cbv beta. intros a [A _]. exact A. }
  assert (Hlw : length w = 1 + length ext) by reflexivity.
  assert (Hnodot : forall i, 0 < i < length w -> deref w i <> "."%char).
  { intros i Hi. destruct i as [|i]; [lia|].
    change (deref w (S i)) with (nth i ext NUL).
    rewrite Forall_forall in Hext.
    assert (Hin : i < length ext) by (rewrite Hlw in Hi; lia).
    apply (proj2 (Hext _ (nth_In ext NUL Hin))). }
  assert (Hfin : forall out head,
             get_extension st out = Some (head, head + length w - head) ->
             (forall i, i < length w -> deref out (head + i) = deref w i) ->
             get_extension st out = Some (head, 1 + length ext)
             /\ has_extension st out = true
             /\ bytes_at out head (1 + length ext) = w).
  { intros out head E D.
    assert (E' : get_extension st out = Some (head, 1 + length ext))
      by (rewrite E, Hlw; f_equal; f_equal; lia).
    split; [exact E'|]. split; [unfold has_extension; rewrite E'; reflexivity|].
    rewrite <- Hlw. apply bytes_at_eq, D. }
  pose proof (get_last_segment_spec st p) as HS.
  unfold get_basename, get_extension at 2 3.
  destruct (get_last_segment st p) as [[] seg] eqn:EL; cbn [negb].
  - destruct HS as (_ & _ & _ & _ & Hok & _ & _).
    destruct Hok as (_ & Hbe & Hs & _).
    destruct (get_last_segment_tokens st p seg EL) as (pre & ET & Eseg).
    assert (Hp : path seg = p) by (rewrite Eseg; reflexivity).
    rewrite Hp, Hs.
    pose proof (chain_tokens st p) as H. rewrite ET in H.
    pose proof (find_extension_spec p (begin seg) (end_ seg - begin seg))
      as HF.
    replace (begin seg + (end_ seg - begin seg)) with (end_ seg) in * by lia.
    set (oe := match find_extension p (begin seg) (end_ seg - begin seg) with
               | Some c => c
               | None => end_ seg
               end) in *.
    assert (Hoe : begin seg <= oe <= end_ seg).
    { unfold oe.
      destruct (find_extension p (begin seg) (end_ seg - begin seg));
        [lia|lia]. }
    assert (Ehead : match
                      match find_extension p (begin seg)
                              (end_ seg - begin seg) with
                      | Some c => Some (c, end_ seg - c)
                      | None => None
                      end
                    with
                    | Some (c, _) => c
                    | None => end_ seg
                    end = oe).
    { unfold oe.
      destruct (find_extension p (begin seg) (end_ seg - begin seg));
        reflexivity. }
    rewrite Ehead. intros Hcase.
    destruct (replaced_layout st p pre (begin seg) (end_ seg) oe
                w H Hoe Hw) as (Hch & _ & D2).
    set (out := firstn oe p ++ w ++ skipn (end_ seg) (text_of p)) in *.
    assert (Hroot : get_root st out = get_root st p).
    { destruct Hcase as [->|Hr]; [|exact Hr].
      apply (replaced_root_unix p pre (begin seg) (end_ seg) oe
               w H Hoe Hw). }
    rewrite <- Hroot in Hch.
    apply Hfin; [|exact D2].
    apply (get_extension_of_last st out pre (begin seg) (oe + length w) oe
             Hch).
    + rewrite Hlw. lia.
    + rewrite <- (Nat.add_0_r oe) at 1. rewrite D2 by (rewrite Hlw; lia).
      reflexivity.
    + intros i Hi. replace i with (oe + (i - oe)) by lia.
      rewrite D2 by lia. apply Hnodot. lia.
  - intros Hcase.
    set (out := root_text st p ++ w) in *.
    destruct Hw as [Hne Hwr]. pose proof Hwr as Hw'.
    rewrite Forall_forall in Hw'.
    pose proof (chain_render st [w] (root_text st p) false) as Hch.
    cbn [render layout app] in Hch. rewrite app_nil_r in Hch.
    rewrite length_root_text in Hch. fold out in Hch.
    specialize (Hch (Forall_cons _ (conj Hne Hwr) (Forall_nil _))).
    assert (Hroot : get_root st out = get_root st p).
    { destruct Hcase as [->|Hr]; [|exact Hr].
      unfold out, root_text, get_root, get_root_unix.
      destruct (is_separator CWK_STYLE_UNIX (deref p 0)) eqn:Es.
      - destruct p as [|ch p']; [discriminate|]. cbn [firstn app].
        unfold deref in *. cbn [nth] in *. rewrite Es. reflexivity.
      - reflexivity. }
    rewrite <- Hroot in Hch at 1.
    assert (D2 : forall i, i < length w ->
                   deref out (get_root st p + i) = deref w i).
    { intros i Hi. unfold out.
      rewrite <- (length_root_text st p) at 1. apply deref_app_r. }
    apply Hfin; [|exact D2].
    apply (get_extension_of_last st out [] (get_root st p)
             (get_root st p + length w) (get_root st p) Hch).
    + rewrite Hlw. lia.
    + rewrite <- (Nat.add_0_r (get_root st p)) at 1.
      rewrite D2 by (rewrite Hlw; lia). reflexivity.
    + intros i Hi.
      replace i with (get_root st p + (i - get_root st p)) by lia.
      rewrite D2 by lia. apply Hnodot. lia.
Qed.

Lemma extension_after_change_extension_witness :
  get_extension CWK_STYLE_UNIX
    (buffer_prefix
       (snd (change_extension CWK_STYLE_UNIX (lit "/a/b.tar.gz//")
               (lit ".xz") (fun _ => "x"%char) 32))
       (fst (change_extension CWK_STYLE_UNIX (lit "/a/b.tar.gz//")
               (lit ".xz") (fun _ => "x"%char) 32)))
  = Some
      (match get_basename CWK_STYLE_UNIX (lit "/a/b.tar.gz//") with
       | (Some b, n) =>
           match get_extension CWK_STYLE_UNIX (lit "/a/b.tar.gz//") with
           | Some (c, _) => c
           | None => b + n
           end
       | (None, _) => get_root CWK_STYLE_UNIX (lit "/a/b.tar.gz//")
       end, 1 + length (extension_text (lit ".xz")))
  /\ has_extension CWK_STYLE_UNIX
       (buffer_prefix
          (snd (change_extension CWK_STYLE_UNIX (lit "/a/b.tar.gz//")
                  (lit ".xz") (fun _ => "x"%char) 32))
          (fst (change_extension CWK_STYLE_UNIX (lit "/a/b.tar.gz//")
                  (lit ".xz") (fun _ => "x"%char) 32))) = true
  /\ bytes_at
       (buffer_prefix
          (snd (change_extension CWK_STYLE_UNIX (lit "/a/b.tar.gz//")
                  (lit ".xz") (fun _ => "x"%char) 32))
          (fst (change_extension CWK_STYLE_UNIX (lit "/a/b.tar.gz//")
                  (lit ".xz") (fun _ => "x"%char) 32)))
       match get_basename CWK_STYLE_UNIX (lit "/a/b.tar.gz//") with
       | (Some b, n) =>
           match get_extension CWK_STYLE_UNIX (lit "/a/b.tar.gz//") with
           | Some (c, _) => c
           | None => b + n
           end
       | (None, _) => get_root CWK_STYLE_UNIX (lit "/a/b.tar.gz//")
       end (1 + length (extension_text (lit ".xz")))
     = lit "." ++ extension_text (lit ".xz").
Proof.
  apply (extension_after_change_extension CWK_STYLE_UNIX
           (lit "/a/b.tar.gz//") (lit ".xz") (fun _ => "x"%char) 32).
  - repeat constructor; discriminate.
  - vm_compute. lia.
  - left. reflexivity.
Defined.

(** ** Joining onto an absolute first path *)

Lemma kept_absolute_normal st x :
  kept st true x = true -> type_of x = CWK_NORMAL.
Proof.
  unfold kept, segment_will_be_removed, type_of. cbv zeta.
  destruct (get_segment_type (segment x)); cbn [negb];
    [reflexivity|discriminate|discriminate].
Qed.

(** With a buffer that holds it, joining paths of which the first is
    absolute writes the root of the first and the segments the resolver
    keeps of the stream. *)
Lemma joined_absolute_writes st ps sj rest buf cap :
  get_first_segment_joined st ps = (true, sj) ->
  walk_forward st sj rest ->
  is_absolute st (nth 0 ps []) = true ->
  get_root st (nth 0 ps [])
  + length (render st false
              (map position_bytes (filter (kept st true) (sj :: rest))))
  < cap ->
  exists buf',
    join_and_normalize_multiple st ps buf cap
    = (get_root st (nth 0 ps [])
       + length (render st false
                   (map position_bytes
                      (filter (kept st true) (sj :: rest)))),
       buf')
    /\ buffer_prefix buf'
         (get_root st (nth 0 ps [])
          + length (render st false
                      (map position_bytes
                         (filter (kept st true) (sj :: rest)))))
       = root_text st (nth 0 ps [])
         ++ render st false
              (map position_bytes (filter (kept st true) (sj :: rest)))
    /\ buf' (get_root st (nth 0 ps [])
             + length (render st false
                         (map position_bytes
                            (filter (kept st true) (sj :: rest)))))
       = NUL.
Proof.
  intros EF Hw Habs.
  set (a := nth 0 ps []) in *.
  set (texts := map position_bytes (filter (kept st true) (sj :: rest))).
  intros Hcap.
  destruct (in_stream_first_ok st ps sj EF) as [Hok Hp].
  unfold join_and_normalize_multiple. cbv zeta. fold a.
  change (is_root_absolute st a (get_root st a)) with (is_absolute st a).
  rewrite Habs, EF. cbn [negb].
  assert (Hrc : 0 + get_root st a < cap) by lia.
  pose proof (output_sized_fits buf cap 0 a 0 (get_root st a) Hrc) as P0.
  destruct (output_sized buf cap 0 a 0 (get_root st a)) as [n0 b0].
  cbn [snd] in P0. rewrite buffer_prefix_0, bytes_at_root in P0.
  cbn [app Nat.add] in P0.
  destruct (join_loop_walk st true cap sj rest Hw (stream_fuel ps)
              (get_root st a) false b0) as (b1 & E1 & P1).
  - pose proof (walk_forward_length st sj rest Hw Hok) as HL.
    rewrite Hp in HL. lia.
  - exact Hcap.
  - fold (kept st true) in E1, P1. fold texts in E1, P1.
    rewrite E1.
    pose proof (absolute_root_not_0 st a Habs) as Hn0.
    destruct (Nat.eqb_spec (get_root st a + length (render st false texts))
                0) as [E0|_]; [lia|].
    rewrite andb_false_r.
    destruct (terminate_output_fits b1 cap
                (get_root st a + length (render st false texts)))
      as [T1 T2]; [lia|].
    eexists. split; [reflexivity|]. split; [|exact T2].
    rewrite T1, P1, P0. reflexivity.
Qed.

(** Without a segment in any of the paths, the root of the first is all
    that is written. *)
Lemma joined_root_writes st ps sj buf cap :
  get_first_segment_joined st ps = (false, sj) ->
  get_root st (nth 0 ps []) < cap ->
  exists buf',
    join_and_normalize_multiple st ps buf cap
    = (get_root st (nth 0 ps []), buf')
    /\ buffer_prefix buf' (get_root st (nth 0 ps []))
       = root_text st (nth 0 ps [])
    /\ buf' (get_root st (nth 0 ps [])) = NUL.
Proof.
  intros EF Hcap. set (a := nth 0 ps []) in *.
  unfold join_and_normalize_multiple. cbv zeta. fold a.
  rewrite EF. cbn [negb].
  assert (Hrc : 0 + get_root st a < cap) by lia.
  pose proof (output_sized_fits buf cap 0 a 0 (get_root st a) Hrc) as P0.
  destruct (output_sized buf cap 0 a 0 (get_root st a)) as [n0 b0].
  cbn [snd] in P0. rewrite buffer_prefix_0, bytes_at_root in P0.
  cbn [app Nat.add] in P0.
  destruct (terminate_output_fits b0 cap (get_root st a)) as [T1 T2];
    [lia|].
  eexists. split; [reflexivity|]. split; [|exact T2].
  rewrite T1. exact P0.
Qed.

(** The text of a join onto an absolute first path: its root, then
    Normal segments with one separator between them. *)
Lemma joined_absolute_text st ps buf cap :
  is_absolute st (nth 0 ps []) = true ->
  fst (join_and_normalize_multiple st ps buf cap) < cap ->
  exists K,
    Forall (segment_text st) K
    /\ Forall (fun t => classify t = CWK_NORMAL) K
    /\ (fst (get_first_segment_joined st ps) = false -> K = [])
    /\ buffer_prefix (snd (join_and_normalize_multiple st ps buf cap))
         (fst (join_and_normalize_multiple st ps buf cap))
       = root_text st (nth 0 ps []) ++ render st false K.
Proof.
  intros Habs.
  assert (G : forall n text,
            (forall c, n < c ->
               exists buf',
                 join_and_normalize_multiple st ps buf c = (n, buf')
                 /\ buffer_prefix buf' n = text /\ buf' n = NUL) ->
            fst (join_and_normalize_multiple st ps buf cap) < cap ->
            buffer_prefix (snd (join_and_normalize_multiple st ps buf cap))
              (fst (join_and_normalize_multiple st ps buf cap)) = text).
  { intros n text W.
    assert (E : fst (join_and_normalize_multiple st ps buf cap) = n).
    { destruct (W (S n) (Nat.lt_succ_diag_r n)) as (b' & E' & _).
      pose proof (join_and_normalize_multiple_measures st ps buf buf cap
                    (S n)) as HM.
      rewrite E' in HM. exact HM. }
    rewrite E. intros Hc.
    destruct (W cap Hc) as (b' & E' & P & T). rewrite E'. exact P. }
  destruct (get_first_segment_joined st ps) as [[] sj] eqn:EF.
  - destruct (in_stream_first_ok st ps sj EF) as [Hok Hp].
    destruct (walk_forward_exists st (S (ahead_measure sj)) sj Hok
                (Nat.lt_succ_diag_r _)) as (rest & Hw & _).
    pose proof (walk_forward_ok st sj rest Hw Hok) as Hall.
    assert (Hall' : Forall (position_ok st) (sj :: rest)).
    { constructor; [exact Hok|]. eapply Forall_impl; [|exact Hall].
      cbv beta. intros x [A _]. exact A. }
    intros Hcap.
    exists (map position_bytes (filter (kept st true) (sj :: rest))).
    split; [|split; [|split]].
    + apply Forall_forall. intros t Ht. apply in_map_iff in Ht.
      destruct Ht as (x & <- & Hx). apply filter_In in Hx.
      rewrite Forall_forall in Hall'.
      apply position_bytes_ok, Hall', Hx.
    + apply Forall_forall. intros t Ht. apply in_map_iff in Ht.
      destruct Ht as (x & <- & Hx). apply filter_In in Hx.
      destruct Hx as [Hx Hk]. rewrite Forall_forall in Hall'.
      rewrite <- (position_type st x (Hall' x Hx)).
      apply (kept_absolute_normal st x Hk).
    + cbn [fst]. discriminate.
    + revert Hcap.
      apply (G (get_root st (nth 0 ps [])
                + length (render st false
                            (map position_bytes
                               (filter (kept st true) (sj :: rest)))))).
      intros c Hc.
      apply (joined_absolute_writes st ps sj rest buf c EF Hw Habs Hc).
  - intros Hcap. exists []. split; [constructor|]. split; [constructor|].
    split; [reflexivity|]. cbn [render]. rewrite app_nil_r.
    revert Hcap. apply (G (get_root st (nth 0 ps []))). intros c Hc.
    apply (joined_root_writes st ps sj buf c EF Hc).
Qed.

(** The root of an absolute path that does not start with two
    separators is the root of every text that starts with it and goes
    on with a segment byte or ends there. *)
Lemma get_root_stable_plain st p body :
  is_absolute st p = true ->
  is_separator st (deref p 1) = false ->
  (deref body 0 = NUL \/ regular st (deref body 0) = true) ->
  get_root st (root_text st p ++ body) = get_root st p.
Proof.
  intros Habs H1 Hend.
  pose proof (deref_after_root_text st p body) as Hat.
  pose proof (deref_root_text st p body) as Hin.
  assert (Hb : is_separator st (deref body 0) = false).
  { destruct Hend as [E|E].
    - rewrite E. apply is_separator_NUL.
    - apply regular_not_separator, E. }
  unfold is_absolute, is_root_absolute in Habs.
  destruct (Nat.eqb_spec (get_root st p) 0) as [|Hne]; [discriminate|].
  destruct st; unfold get_root in *.
  - pose proof (get_root_windows_unfold CWK_STYLE_WINDOWS p) as U.
    rewrite (get_root_windows_unfold CWK_STYLE_WINDOWS
               (root_text CWK_STYLE_WINDOWS p ++ body)).
    destruct (is_nul (deref p 0)) eqn:E0; [lia|].
    destruct (is_separator CWK_STYLE_WINDOWS (deref p 0)) eqn:S0.
    + rewrite H1 in U. cbn [negb] in U. rewrite U in *.
      rewrite (Hin 0) by lia. rewrite E0, S0, Hat, Hb. reflexivity.
    + destruct (Ascii.eqb (deref p 1) ":") eqn:C1; [|lia].
      destruct (is_separator CWK_STYLE_WINDOWS (deref p 2)) eqn:S2.
      * rewrite U in *. rewrite (Hin 0), (Hin 1), (Hin 2) by lia.
        rewrite E0, S0, C1, S2. reflexivity.
      * rewrite U in Habs. cbn [Nat.sub] in Habs.
        apply Ascii.eqb_eq in C1.
        rewrite C1, colon_not_separator in Habs. discriminate.
  - unfold get_root_unix in *.
    destruct (is_separator CWK_STYLE_UNIX (deref p 0)) eqn:E;
      [|contradiction].
    rewrite Hin by lia. rewrite E. reflexivity.
Qed.

(** A text made of the root of an absolute path and Normal segments has
    that root, is absolute and has these segments. *)
Lemma rendered_after_absolute_root st p K :
  is_absolute st p = true ->
  K = [] \/ is_separator st (deref p 1) = false
  \/ is_nul (deref p (get_root st p)) = false ->
  Forall (segment_text st) K ->
  Forall (fun t => classify t = CWK_NORMAL) K ->
  get_root st (root_text st p ++ render st false K) = get_root st p
  /\ root_text st (root_text st p ++ render st false K) = root_text st p
  /\ is_absolute st (root_text st p ++ render st false K) = true
  /\ (forall seg,
        iterated st (root_text st p ++ render st false K) seg ->
        get_segment_type seg = CWK_NORMAL).
Proof.
  intros Habs Hcond HK HN.
  set (out := root_text st p ++ render st false K).
  assert (Hroot : get_root st out = get_root st p).
  { unfold out. destruct K as [|k K'].
    - apply get_root_stable_absolute; [exact Habs|left; reflexivity].
    - inversion HK; subst.
      pose proof (render_head st k K' ltac:(assumption)) as Hh.
      destruct Hcond as [E|[Hs|Hn]]; [discriminate| |].
      + apply get_root_stable_plain; [exact Habs|exact Hs|right; exact Hh].
      + apply get_root_stable_absolute; [exact Habs|right; auto]. }
  split; [exact Hroot|].
  pose proof (absolute_root_not_0 st p Habs) as Hn0.
  split; [|split].
  - unfold root_text at 1. rewrite Hroot. unfold out.
    rewrite firstn_app, length_root_text, Nat.sub_diag. cbn [firstn].
    rewrite app_nil_r. apply firstn_all2. rewrite length_root_text. lia.
  - unfold is_absolute, is_root_absolute in *. rewrite Hroot.
    destruct (Nat.eqb_spec (get_root st p) 0); [contradiction|].
    unfold out. rewrite deref_root_text by lia. exact Habs.
  - intros seg Hit.
    pose proof (chain_render st K (root_text st p) false HK) as Hch.
    pose proof (layout_texts st K (root_text st p) false) as Htexts.
    rewrite length_root_text in Hch, Htexts. fold out in Hch, Htexts.
    rewrite <- Hroot in Hch.
    destruct (iterated_type st _ _ seg Hch Hit) as (t & Ht & ->).
    rewrite <- Htexts in HN. rewrite Forall_forall in HN. apply HN.
    rewrite Hroot in Ht. apply in_map, Ht.
Qed.

(** X20.  Joining onto an absolute path gives a normalized absolute
    path.  When the first of the paths is absolute, and it either does
    not start with two separators or its root does not end at its
    terminator, the text [join_multiple] writes starts with the root of
    the first path as it is, is absolute, has only Normal segments (no
    [.] and no [..] is left, whatever the later paths hold) and, from
    the last byte of the root on, never has two separators in a row. *)
Theorem join_multiple_onto_absolute_path (st : cwk_path_style)
  (ps : list (list ascii)) (buf : buffer) (cap : nat) :
  is_absolute st (nth 0 ps []) = true ->
  is_separator st (deref (nth 0 ps []) 1) = false
  \/ is_nul (deref (nth 0 ps []) (get_root st (nth 0 ps []))) = false ->
  fst (join_multiple st ps buf cap) < cap ->
  let out :=
    buffer_prefix (snd (join_multiple st ps buf cap))
      (fst (join_multiple st ps buf cap)) in
  root_text st out = root_text st (nth 0 ps [])
  /\ is_absolute st out = true
  /\ (forall seg, iterated st out seg -> get_segment_type seg = CWK_NORMAL)
  /\ (forall i, get_root st out <= S i ->
        is_separator st (deref out i) && is_separator st (deref out (S i))
        = false).
Proof.
  intros Habs Hcond Hcap. unfold join_multiple in *. cbv zeta.
  destruct (joined_absolute_text st ps buf cap Habs Hcap)
    as (K & HK & HN & _ & ->).
  destruct (rendered_after_absolute_root st (nth 0 ps []) K Habs
              (or_intror Hcond) HK HN) as (Hroot & Htext & Ha & Hty).
  split; [exact Htext|]. split; [exact Ha|]. split; [exact Hty|].
  intros i Hi. rewrite Hroot in Hi.
  apply no_double_separator_after_root; assumption.
Qed.

Lemma join_multiple_onto_absolute_path_witness :
  let out :=
    buffer_prefix
      (snd (join_multiple CWK_STYLE_WINDOWS
              [lit "C:\a\.\b"; lit "..\c"; lit "d\\e\"]
              (fun _ => "x"%char) 32))
      (fst (join_multiple CWK_STYLE_WINDOWS
              [lit "C:\a\.\b"; lit "..\c"; lit "d\\e\"]
              (fun _ => "x"%char) 32)) in
  root_text CWK_STYLE_WINDOWS out
  = root_text CWK_STYLE_WINDOWS
      (nth 0 [lit "C:\a\.\b"; lit "..\c"; lit "d\\e\"] [])
  /\ is_absolute CWK_STYLE_WINDOWS out = true
  /\ (forall seg, iterated CWK_STYLE_WINDOWS out seg ->
        get_segment_type seg = CWK_NORMAL)
  /\ (forall i, get_root CWK_STYLE_WINDOWS out <= S i ->
        is_separator CWK_STYLE_WINDOWS (deref out i)
        && is_separator CWK_STYLE_WINDOWS (deref out (S i))
        = false).
Proof.
  apply (join_multiple_onto_absolute_path CWK_STYLE_WINDOWS
           [lit "C:\a\.\b"; lit "..\c"; lit "d\\e\"]
           (fun _ => "x"%char) 32).
  - reflexivity.
  - left. reflexivity.
  - vm_compute. lia.
Defined.



(** Without the proviso the result can be a relative path: under the
    Windows style the base [\\server\] is absolute, and joined with [x]
    it gives [\\server\x], whose root is the whole text. *)
Example get_absolute_onto_open_unc_root_is_relative :
  is_absolute CWK_STYLE_WINDOWS (lit "\\server\") = true
  /\ is_absolute CWK_STYLE_WINDOWS (lit "x") = false
  /\ buffer_prefix
       (snd (get_absolute CWK_STYLE_WINDOWS (lit "\\server\") (lit "x")
               (fun _ => "x"%char) 32))
       (fst (get_absolute CWK_STYLE_WINDOWS (lit "\\server\") (lit "x")
               (fun _ => "x"%char) 32))
     = lit "\\server\x"
  /\ is_absolute CWK_STYLE_WINDOWS (lit "\\server\x") = false.
Proof. vm_compute. repeat split; reflexivity. Qed.

(** X22.  Joining steps back and then down.  Let [a] be absolute and
    let [r] have no root and consist of some [..] segments followed by
    Normal segments (at least one segment in all).  Then [join] of [a]
    and [r] writes the root of [a], the segments that survive in [a]
    without as many of the last ones as [r] has [..] segments (all of
    them gone when there are fewer), and then the Normal segments of
    [r], with one separator between segments. *)
Theorem join_steps_back_then_down (st : cwk_path_style)
  (a r : list ascii) (K N : list (list ascii)) (buf : buffer) (cap : nat) :
  is_absolute st a = true ->
  get_root st r = 0 ->
  map (token_text r) (tokens st r) = K ++ N ->
  K ++ N <> [] ->
  Forall (fun t => classify t = CWK_BACK) K ->
  Forall (fun t => classify t = CWK_NORMAL) N ->
  fst (join st a r buf cap) < cap ->
  buffer_prefix (snd (join st a r buf cap)) (fst (join st a r buf cap))
  = root_text st a
    ++ render st false
         (firstn (length (visible_segments st a) - length K)
            (visible_segments st a) ++ N).
Proof.
  intros Habs Hroot HKN Hne HK HN Hcap. unfold join in *.
  pose proof (chain_tokens st a) as Ha.
  pose proof (chain_tokens st r) as Hr. rewrite Hroot in Hr.
  destruct (tokens st r) as [|t0 tsr] eqn:ET.
  - cbn [map] in HKN. symmetry in HKN. contradiction.
  - destruct (pair_result st a r (tokens st a) t0 tsr buf cap Ha Hr Hroot
                Habs Hcap) as [_ ->].
    rewrite HKN, (survivors_app_relative classify _ K N HK HN).
    unfold visible_segments. rewrite kept_texts_survivors, Habs.
    reflexivity.
Qed.

Lemma join_steps_back_then_down_witness :
  buffer_prefix
    (snd (join CWK_STYLE_UNIX (lit "/a/./b//c") (lit "../../d/e/")
            (fun _ => "x"%char) 32))
    (fst (join CWK_STYLE_UNIX (lit "/a/./b//c") (lit "../../d/e/")
            (fun _ => "x"%char) 32))
  = root_text CWK_STYLE_UNIX (lit "/a/./b//c")
    ++ render CWK_STYLE_UNIX false
         (firstn
            (length (visible_segments CWK_STYLE_UNIX (lit "/a/./b//c"))
             - length [lit ".."; lit ".."])
            (visible_segments CWK_STYLE_UNIX (lit "/a/./b//c"))
          ++ [lit "d"; lit "e"]).
Proof.
  apply (join_steps_back_then_down CWK_STYLE_UNIX (lit "/a/./b//c")
           (lit "../../d/e/") [lit ".."; lit ".."] [lit "d"; lit "e"]
           (fun _ => "x"%char) 32).
  - reflexivity.
  - reflexivity.
  - reflexivity.
  - discriminate.
  - repeat constructor.
  - repeat constructor.
  - vm_compute. lia.
Defined.

(** ** The stream of two paths, in both directions *)

Lemma linked_forward st :
  forall l x, linked st x l -> walk_forward st x l.
Proof.
  induction l as [|y l IH]; intros x H; cbn [linked] in H.
  - destruct (get_next_segment_joined st x) as [r z] eqn:E.
    cbn [fst] in H. subst r. eapply walk_forward_end. exact E.
  - destruct H as (E & _ & H). eapply walk_forward_step; [exact E|].
    apply IH, H.
Qed.

Lemma survivors_ext {A : Type} (ty1 ty2 : A -> cwk_segment_type) absolute :
  forall l behind,
    (forall x, In x (behind ++ l) -> ty1 x = ty2 x) ->
    survivors ty1 absolute behind l = survivors ty2 absolute behind l.
Proof.
  induction l as [|x l IH]; intros behind H; [reflexivity|].
  cbn [survivors]. rewrite (IH (x :: behind)).
  - rewrite (H x) by (apply in_or_app; right; left; reflexivity).
    rewrite (map_ext_in ty1 ty2 behind)
      by (intros y Hy; apply H, in_or_app; left; exact Hy).
    rewrite (map_ext_in ty1 ty2 l)
      by (intros y Hy; apply H, in_or_app; right; right; exact Hy).
    reflexivity.
  - intros y Hy. apply H. cbn [app] in Hy. destruct Hy as [<-|Hy].
    + apply in_or_app. right. left. reflexivity.
    + apply in_app_or in Hy. apply in_or_app.
      destruct Hy as [Hy|Hy]; [left; exact Hy|right; right; exact Hy].
Qed.

(** On positions linked in both directions the resolver keeps what the
    rule keeps. *)
Lemma linked_filter st absolute :
  forall l x behind,
    position_ok st x -> walk_backward st x behind -> linked st x l ->
    filter (kept st absolute) (x :: l)
    = survivors type_of absolute behind (x :: l).
Proof.
  induction l as [|y l IH]; intros x behind Hok Hb Hl.
  - cbn [filter survivors]. unfold kept.
    rewrite (segment_will_be_removed_rule st x absolute behind []
               Hok Hb (linked_forward st [] x Hl)).
    destruct (elided_by_rule _ _ _ _); reflexivity.
  - pose proof (linked_forward st (y :: l) x Hl) as Hw.
    destruct Hl as (En & Ep & Hl).
    destruct (get_next_segment_joined_true st x y Hok En) as (Hok' & _).
    assert (Hb' : walk_backward st y (x :: behind))
      by (eapply walk_backward_step; eassumption).
    change (filter (kept st absolute) (x :: y :: l))
      with (if kept st absolute x
            then x :: filter (kept st absolute) (y :: l)
            else filter (kept st absolute) (y :: l)).
    change (survivors type_of absolute behind (x :: y :: l))
      with ((if elided_by_rule (type_of x) absolute (map type_of behind)
                  (map type_of (y :: l))
             then [] else [x])
            ++ survivors type_of absolute (x :: behind) (y :: l)).
    rewrite (IH y (x :: behind) Hok' Hb' Hl). unfold kept.
    rewrite (segment_will_be_removed_rule st x absolute behind (y :: l)
               Hok Hb Hw).
    destruct (elided_by_rule _ _ _ _); reflexivity.
Qed.

Lemma linked_kept_texts st absolute l x :
  position_ok st x -> walk_backward st x [] -> linked st x l ->
  map position_bytes (filter (kept st absolute) (x :: l))
  = survivors classify absolute [] (map position_bytes (x :: l)).
Proof.
  intros Hok Hb Hl. rewrite (linked_filter st absolute l x [] Hok Hb Hl).
  pose proof (survivors_map position_bytes classify absolute (x :: l) [])
    as M.
  change (map position_bytes []) with (@nil (list ascii)) in M.
  rewrite <- M. f_equal. apply survivors_ext. cbn [app]. intros y Hy.
  apply (position_type st). destruct Hy as [<-|Hy]; [exact Hok|].
  pose proof (walk_forward_ok st x l (linked_forward st l x Hl) Hok) as HF.
  rewrite Forall_forall in HF. apply (HF y Hy).
Qed.

Lemma pair_next_last st a r pre t :
  chain st a (get_root st a) (pre ++ [t]) -> chain st r 0 [] ->
  fst (get_next_segment_joined st (token_position [a; r] 0 (get_root st a) t))
  = false.
Proof.
  intros H Hr. destruct (chain_token_ok st a _ pre t [] H) as [Hok Hch].
  destruct Hok as (_ & Hbe & _ & _ & Hstop & _).
  unfold get_next_segment_joined, token_position, path_at.
  cbn [paths path_index segment nth_error nth].
  rewrite (chain_next st a _ t [] Hbe Hstop Hch).
  cbn [skipn next_path_loop]. rewrite (chain_first st r 0 _ Hr).
  reflexivity.
Qed.

Lemma pair_previous_first st a r pre t1 t2 post :
  chain st a (get_root st a) (pre ++ t1 :: t2 :: post) ->
  get_previous_segment_joined st
    (token_position [a; r] 0 (get_root st a) t2)
  = (true, token_position [a; r] 0 (get_root st a) t1).
Proof.
  intros H. unfold get_previous_segment_joined, token_position, path_at.
  cbn [paths path_index segment nth_error nth].
  rewrite (chain_previous st a _ pre t1 t2 post H). reflexivity.
Qed.

Lemma pair_previous_second st a r pre t1 t2 post :
  chain st r 0 (pre ++ t1 :: t2 :: post) ->
  get_previous_segment_joined st (token_position [a; r] 1 0 t2)
  = (true, token_position [a; r] 1 0 t1).
Proof.
  intros H. unfold get_previous_segment_joined, token_position, path_at.
  cbn [paths path_index segment nth_error nth].
  rewrite (chain_previous st r _ pre t1 t2 post H). reflexivity.
Qed.

Lemma pair_previous_cross st a r pre t t0 tsr :
  chain st a (get_root st a) (pre ++ [t]) -> chain st r 0 (t0 :: tsr) ->
  get_previous_segment_joined st (token_position [a; r] 1 0 t0)
  = (true, token_position [a; r] 0 (get_root st a) t).
Proof.
  intros H Hr. unfold get_previous_segment_joined, token_position, path_at.
  cbn [paths path_index segment nth_error nth].
  rewrite (chain_previous_first st r _ t0 tsr Hr).
  cbn [previous_path_loop Nat.eqb nth].
  rewrite (get_last_segment_last st a pre t H). reflexivity.
Qed.

Lemma pair_previous_start_first st a r t post :
  chain st a (get_root st a) (t :: post) ->
  get_previous_segment_joined st (token_position [a; r] 0 (get_root st a) t)
  = (false, token_position [a; r] 0 (get_root st a) t).
Proof.
  intros H. unfold get_previous_segment_joined, token_position, path_at.
  cbn [paths path_index segment nth_error nth].
  rewrite (chain_previous_first st a _ t post H). reflexivity.
Qed.

Lemma pair_previous_start_second st a r t0 tsr :
  chain st a (get_root st a) [] -> chain st r 0 (t0 :: tsr) ->
  fst (get_previous_segment_joined st (token_position [a; r] 1 0 t0))
  = false.
Proof.
  intros H Hr. unfold get_previous_segment_joined, token_position, path_at.
  cbn [paths path_index segment nth_error nth].
  rewrite (chain_previous_first st r _ t0 tsr Hr).
  cbn [previous_path_loop Nat.eqb nth].
  rewrite (get_last_segment_chain st a _ H). reflexivity.
Qed.

Lemma pair_linked_second st a r :
  forall post pre t,
    chain st r 0 (pre ++ t :: post) ->
    linked st (token_position [a; r] 1 0 t)
      (map (token_position [a; r] 1 0) post).
Proof.
  induction post as [|t' post IH]; intros pre t H; cbn [map linked].
  - rewrite (pair_next_second st a r pre t [] H). reflexivity.
  - split; [apply (pair_next_second st a r pre t (t' :: post) H)|].
    split; [apply (pair_previous_second st a r pre t t' post H)|].
    apply (IH (pre ++ [t]) t'). rewrite <- app_assoc. exact H.
Qed.

Lemma pair_linked_first st a r tsr :
  chain st r 0 tsr ->
  forall post pre t,
    chain st a (get_root st a) (pre ++ t :: post) ->
    linked st (token_position [a; r] 0 (get_root st a) t)
      (pair_positions st a r post tsr).
Proof.
  intros Hr. unfold pair_positions.
  induction post as [|t' post IH]; intros pre t H; cbn [map app].
  - destruct tsr as [|t0 tsr]; cbn [map linked].
    + apply (pair_next_last st a r pre t H Hr).
    + split; [apply (pair_next_first st a r pre t [] t0 tsr H Hr)|].
      split; [apply (pair_previous_cross st a r pre t t0 tsr H Hr)|].
      apply (pair_linked_second st a r tsr [] t0 Hr).
  - cbn [linked]. destruct tsr as [|t0 tsr].
    + destruct (chain_token_ok st a _ pre t (t' :: post) H) as [Hok Hch].
      destruct Hok as (_ & Hbe & _ & _ & Hstop & _).
      split.
      * unfold get_next_segment_joined, token_position, path_at.
        cbn [paths path_index segment nth_error nth].
        rewrite (chain_next st a _ t (t' :: post) Hbe Hstop Hch).
        reflexivity.
      * split; [apply (pair_previous_first st a r pre t t' post H)|].
        apply (IH (pre ++ [t]) t'). rewrite <- app_assoc. exact H.
    + split;
        [apply (pair_next_first st a r pre t (t' :: post) t0 tsr H Hr)|].
      split; [apply (pair_previous_first st a r pre t t' post H)|].
      apply (IH (pre ++ [t]) t'). rewrite <- app_assoc. exact H.
Qed.

(** The stream of [a] and a rootless [r]: it starts at the first of the
    positions, nothing stands before that one, and the positions are
    linked in both directions. *)
Lemma pair_stream_linked st a r tsa tsr :
  chain st a (get_root st a) tsa -> chain st r 0 tsr ->
  get_root st r = 0 ->
  match pair_positions st a r tsa tsr with
  | [] => fst (get_first_segment_joined st [a; r]) = false
  | x :: l =>
      get_first_segment_joined st [a; r] = (true, x)
      /\ position_ok st x /\ walk_backward st x [] /\ linked st x l
  end.
Proof.
  intros Ha Hr Hroot. unfold get_first_segment_joined.
  cbn [first_segment_joined_loop]. unfold get_first_segment.
  rewrite (chain_first st a _ tsa Ha). destruct tsa as [|t post].
  - rewrite Hroot, (chain_first st r 0 _ Hr). unfold pair_positions.
    cbn [map app]. destruct tsr as [|t0 tsr]; cbn [map]; [reflexivity|].
    split; [reflexivity|]. split; [|split].
    + apply (pair_position_ok_second st a r [] t0 tsr Hr).
    + pose proof (pair_previous_start_second st a r t0 tsr Ha Hr) as E.
      destruct (get_previous_segment_joined st
                  (token_position [a; r] 1 0 t0)) as [b z] eqn:Ez.
      cbn [fst] in E. subst b. eapply walk_backward_end. exact Ez.
    + apply (pair_linked_second st a r tsr [] t0 Hr).
  - unfold pair_positions. cbn [map app].
    split; [reflexivity|]. split; [|split].
    + apply (pair_position_ok_first st a r [] t post Ha).
    + eapply walk_backward_end.
      apply (pair_previous_start_first st a r t post Ha).
    + apply (pair_linked_first st a r tsr Hr post [] t Ha).
Qed.

(** With a buffer that holds it, [join] of [a] and a rootless [r]
    writes [joined_text], terminated, and returns its length. *)
Lemma pair_join_writes st a r buf cap :
  get_root st r = 0 ->
  length (joined_text st a r) < cap ->
  exists buf',
    join_and_normalize_multiple st [a; r] buf cap
    = (length (joined_text st a r), buf')
    /\ buffer_prefix buf' (length (joined_text st a r)) = joined_text st a r
    /\ buf' (length (joined_text st a r)) = NUL.
Proof.
  intros Hroot.
  pose proof (chain_tokens st a) as Ha.
  pose proof (chain_tokens st r) as Hr. rewrite Hroot in Hr.
  pose proof (pair_stream_linked st a r _ _ Ha Hr Hroot) as HS.
  pose proof (pair_bytes st a r _ _ Ha Hr) as HB.
  unfold joined_text. cbv zeta. rewrite <- HB.
  pose proof (length_root_text st a) as Hlr.
  unfold join_and_normalize_multiple. cbv zeta. cbn [nth].
  change (is_root_absolute st a (get_root st a)) with (is_absolute st a).
  destruct (pair_positions st a r (tokens st a) (tokens st r)) as [|x l].
  - cbn [map]. rewrite Hlr. intros Hcap.
    destruct (get_first_segment_joined st [a; r]) as [b sj].
    cbn [fst] in HS. subst b. cbn [negb].
    assert (Hrc : 0 + get_root st a < cap) by lia.
    pose proof (output_sized_fits buf cap 0 a 0 (get_root st a) Hrc) as P0.
    destruct (output_sized buf cap 0 a 0 (get_root st a)) as [n0 b0].
    cbn [snd] in P0. rewrite buffer_prefix_0, bytes_at_root in P0.
    cbn [app Nat.add] in P0.
    destruct (terminate_output_fits b0 cap (get_root st a)) as [T1 T2];
      [lia|].
    eexists. split; [reflexivity|]. split; [|exact T2].
    rewrite T1. exact P0.
  - destruct HS as (EF & Hok & Hb & Hl).
    rewrite <- (linked_kept_texts st (is_absolute st a) l x Hok Hb Hl).
    remember (map position_bytes
                (filter (kept st (is_absolute st a)) (x :: l))) as K eqn:EK0.
    cbn [map]. intros Hcap. rewrite EF. cbn [negb].
    assert (Hrc : 0 + get_root st a < cap).
    { destruct K.
      - destruct (Nat.eqb_spec (get_root st a) 0); [lia|]. lia.
      - rewrite length_app in Hcap. lia. }
    pose proof (output_sized_fits buf cap 0 a 0 (get_root st a) Hrc) as P0.
    destruct (output_sized buf cap 0 a 0 (get_root st a)) as [n0 b0].
    cbn [snd] in P0. rewrite buffer_prefix_0, bytes_at_root in P0.
    cbn [app Nat.add] in P0.
    destruct (join_loop_walk st (is_absolute st a) cap x l
                (linked_forward st l x Hl) (stream_fuel [a; r])
                (get_root st a) false b0) as (b1 & E1 & P1).
    + pose proof (walk_forward_length st x l (linked_forward st l x Hl) Hok)
        as HL.
      destruct (in_stream_first_ok st [a; r] x EF) as [_ Hp].
      rewrite Hp in HL. lia.
    + fold (kept st (is_absolute st a)). rewrite <- EK0. destruct K.
      * cbn [render length]. lia.
      * rewrite length_app in Hcap. lia.
    + fold (kept st (is_absolute st a)) in E1, P1.
      rewrite existsb_filter in E1. rewrite <- EK0 in E1, P1.
      rewrite E1. cbn [orb]. destruct K as [|k K'].
      * cbn [render length negb andb] in *. rewrite Nat.add_0_r in *.
        rewrite app_nil_r in P1.
        assert (EK : filter (kept st (is_absolute st a)) (x :: l) = []).
        { destruct (filter (kept st (is_absolute st a)) (x :: l));
            [reflexivity|discriminate EK0]. }
        rewrite EK. cbn [negb andb].
        destruct (Nat.eqb_spec (get_root st a) 0) as [E0|N0].
        -- rewrite E0 in *. unfold output_current.
           pose proof (output_sized_fits b1 cap 0 (lit ".") 0 1) as P2.
           destruct (output_sized b1 cap 0 (lit ".") 0 1) as [n2 b2] eqn:E2.
           assert (n2 = 1) by (unfold output_sized in E2; congruence).
           subst n2. cbn [snd] in P2. cbn [length lit list_ascii_of_string]
             in Hcap |- *.
           destruct (terminate_output_fits b2 cap 1) as [T1 T2]; [lia|].
           cbn [Nat.add]. eexists. split; [reflexivity|].
           split; [|exact T2].
           rewrite T1. cbn [Nat.add] in P2. rewrite P2 by lia.
           reflexivity.
        -- rewrite Hlr in *.
           destruct (terminate_output_fits b1 cap (get_root st a))
             as [T1 T2]; [lia|].
           eexists. split; [reflexivity|]. split; [|exact T2].
           rewrite T1, P1. exact P0.
      * assert (EK : exists y Y,
                   filter (kept st (is_absolute st a)) (x :: l) = y :: Y).
        { destruct (filter (kept st (is_absolute st a)) (x :: l)) as [|y Y];
            [discriminate EK0|eauto]. }
        destruct EK as (y & Y & EK). rewrite EK. cbn [negb andb].
        rewrite length_app, Hlr in *.
        destruct (terminate_output_fits b1 cap
                    (get_root st a + length (render st false (k :: K'))))
          as [T1 T2]; [lia|].
        eexists. split; [reflexivity|]. split; [|exact T2].
        rewrite T1, P1, P0. reflexivity.
Qed.

Lemma pair_join_result st a r buf cap :
  get_root st r = 0 ->
  fst (join_and_normalize_multiple st [a; r] buf cap)
  = length (joined_text st a r)
  /\ (fst (join_and_normalize_multiple st [a; r] buf cap) < cap ->
      buffer_prefix (snd (join_and_normalize_multiple st [a; r] buf cap))
        (fst (join_and_normalize_multiple st [a; r] buf cap))
      = joined_text st a r
      /\ snd (join_and_normalize_multiple st [a; r] buf cap)
           (fst (join_and_normalize_multiple st [a; r] buf cap)) = NUL).
Proof.
  intros Hroot.
  assert (E : fst (join_and_normalize_multiple st [a; r] buf cap)
              = length (joined_text st a r)).
  { destruct (pair_join_writes st a r buf (S (length (joined_text st a r)))
                Hroot (Nat.lt_succ_diag_r _)) as (b' & E' & _).
    pose proof (join_and_normalize_multiple_measures st [a; r] buf buf cap
                  (S (length (joined_text st a r)))) as HM.
    rewrite E' in HM. exact HM. }
  split; [exact E|]. rewrite E. intros Hcap.
  destruct (pair_join_writes st a r buf cap Hroot Hcap) as (b & E1 & P & T).
  rewrite E1. cbn [snd]. auto.
Qed.

(** X23.  What [join] writes.  For every path [a], absolute or not,
    and every path [r] without a root, [join] of [a] and [r] returns
    the length of, and writes into a buffer that holds it, the root of
    [a] followed by the segments the counter rule keeps of the segments
    of [a] followed by those of [r], with one separator between them;
    when there are segments, none is kept and [a] has no root, it is a
    single dot. *)
Theorem join_writes_the_joined_text (st : cwk_path_style)
  (a r : list ascii) (buf : buffer) (cap : nat) :
  get_root st r = 0 ->
  let texts :=
    map (token_text a) (tokens st a) ++ map (token_text r) (tokens st r) in
  let keep := survivors classify (is_absolute st a) [] texts in
  let text :=
    match texts, keep with
    | [], _ => root_text st a
    | _ :: _, [] => if get_root st a =? 0 then lit "." else root_text st a
    | _ :: _, _ :: _ => root_text st a ++ render st false keep
    end in
  fst (join st a r buf cap) = length text
  /\ (fst (join st a r buf cap) < cap ->
      buffer_prefix (snd (join st a r buf cap)) (fst (join st a r buf cap))
      = text
      /\ snd (join st a r buf cap) (fst (join st a r buf cap)) = NUL).
Proof.
  intros Hroot. cbv zeta. unfold join.
  pose proof (pair_join_result st a r buf cap Hroot) as H.
  unfold joined_text in H. cbv zeta in H.
  destruct (map (token_text a) (tokens st a)
            ++ map (token_text r) (tokens st r)) as [|t T]; [exact H|].
  destruct (survivors classify (is_absolute st a) [] (t :: T));
    exact H.
Qed.

Lemma join_writes_the_joined_text_witness :
  let texts :=
    map (token_text (lit "a/../../b"))
      (tokens CWK_STYLE_UNIX (lit "a/../../b"))
    ++ map (token_text (lit "./c/../../d//"))
         (tokens CWK_STYLE_UNIX (lit "./c/../../d//")) in
  let keep :=
    survivors classify (is_absolute CWK_STYLE_UNIX (lit "a/../../b")) []
      texts in
  let text :=
    match texts, keep with
    | [], _ => root_text CWK_STYLE_UNIX (lit "a/../../b")
    | _ :: _, [] =>
        if get_root CWK_STYLE_UNIX (lit "a/../../b") =? 0 then lit "."
        else root_text CWK_STYLE_UNIX (lit "a/../../b")
    | _ :: _, _ :: _ =>
        root_text CWK_STYLE_UNIX (lit "a/../../b")
        ++ render CWK_STYLE_UNIX false keep
    end in
  fst (join CWK_STYLE_UNIX (lit "a/../../b") (lit "./c/../../d//")
         (fun _ => "x"%char) 32) = length text
  /\ (fst (join CWK_STYLE_UNIX (lit "a/../../b") (lit "./c/../../d//")
             (fun _ => "x"%char) 32) < 32 ->
      buffer_prefix
        (snd (join CWK_STYLE_UNIX (lit "a/../../b") (lit "./c/../../d//")
                (fun _ => "x"%char) 32))
        (fst (join CWK_STYLE_UNIX (lit "a/../../b") (lit "./c/../../d//")
                (fun _ => "x"%char) 32))
      = text
      /\ snd (join CWK_STYLE_UNIX (lit "a/../../b") (lit "./c/../../d//")
                (fun _ => "x"%char) 32)
           (fst (join CWK_STYLE_UNIX (lit "a/../../b") (lit "./c/../../d//")
                   (fun _ => "x"%char) 32)) = NUL).
Proof.
  apply (join_writes_the_joined_text CWK_STYLE_UNIX (lit "a/../../b")
           (lit "./c/../../d//") (fun _ => "x"%char) 32).
  reflexivity.
Defined.

Lemma get_root_of_empty st r : deref r 0 = NUL -> get_root st r = 0.
Proof.
  intros E. destruct st; unfold get_root.
  - rewrite get_root_windows_unfold, E. reflexivity.
  - unfold get_root_unix. rewrite E. reflexivity.
Qed.

Lemma tokens_of_empty st r : deref r 0 = NUL -> tokens st r = [].
Proof.
  intros E. pose proof (chain_tokens st r) as H.
  rewrite (get_root_of_empty st r E) in H.
  destruct (tokens st r) as [|t post]; [reflexivity|].
  pose proof (chain_start_not_nul st r 0 t post H) as N.
  rewrite E in N. discriminate.
Qed.

Lemma joined_text_with_empty st a r :
  deref r 0 = NUL ->
  joined_text st a r = normalized_text st a (tokens st a).
Proof.
  intros E. unfold joined_text, normalized_text. cbv zeta.
  rewrite (tokens_of_empty st r E). cbn [map]. rewrite app_nil_r.
  rewrite kept_texts_survivors.
  destruct (tokens st a) as [|t T]; [reflexivity|]. cbn [map].
  destruct (survivors classify (is_absolute st a) []
              (token_text a t :: map (token_text a) T)); reflexivity.
Qed.

(** X24.  Joining with the empty path normalizes.  For every path [a],
    [join] of [a] and an empty path returns the length [normalize]
    returns for [a], and writes the text [normalize] writes, each into
    a buffer that holds it. *)
Theorem join_with_empty_path_normalizes (st : cwk_path_style)
  (a r : list ascii) (buf1 buf2 : buffer) (cap1 cap2 : nat) :
  deref r 0 = NUL ->
  fst (join st a r buf1 cap1) = fst (normalize st a buf2 cap2)
  /\ (fst (join st a r buf1 cap1) < cap1 ->
      fst (normalize st a buf2 cap2) < cap2 ->
      buffer_prefix (snd (join st a r buf1 cap1))
        (fst (join st a r buf1 cap1))
      = buffer_prefix (snd (normalize st a buf2 cap2))
          (fst (normalize st a buf2 cap2))).
Proof.
  intros E. unfold join.
  destruct (pair_join_result st a r buf1 cap1 (get_root_of_empty st r E))
    as [L W].
  rewrite (joined_text_with_empty st a r E) in L, W.
  pose proof (chain_tokens st a) as Ha.
  assert (LN : fst (normalize st a buf2 cap2)
               = length (normalized_text st a (tokens st a))).
  { pose proof (normalize_length st a (tokens st a) buf2 cap2 Ha) as H.
    exact H. }
  split; [congruence|]. intros H1 H2.
  destruct (W H1) as [-> _].
  destruct (normalize_result st a (tokens st a) buf2 cap2 Ha H2)
    as (_ & -> & _).
  reflexivity.
Qed.

Lemma join_with_empty_path_normalizes_witness :
  fst (join CWK_STYLE_WINDOWS (lit "C:a\..\..\b\.\") (lit "")
         (fun _ => "x"%char) 32)
  = fst (normalize CWK_STYLE_WINDOWS (lit "C:a\..\..\b\.\")
           (fun _ => "y"%char) 24)
  /\ (fst (join CWK_STYLE_WINDOWS (lit "C:a\..\..\b\.\") (lit "")
             (fun _ => "x"%char) 32) < 32 ->
      fst (normalize CWK_STYLE_WINDOWS (lit "C:a\..\..\b\.\")
             (fun _ => "y"%char) 24) < 24 ->
      buffer_prefix
        (snd (join CWK_STYLE_WINDOWS (lit "C:a\..\..\b\.\") (lit "")
                (fun _ => "x"%char) 32))
        (fst (join CWK_STYLE_WINDOWS (lit "C:a\..\..\b\.\") (lit "")
                (fun _ => "x"%char) 32))
      = buffer_prefix
          (snd (normalize CWK_STYLE_WINDOWS (lit "C:a\..\..\b\.\")
                  (fun _ => "y"%char) 24))
          (fst (normalize CWK_STYLE_WINDOWS (lit "C:a\..\..\b\.\")
                  (fun _ => "y"%char) 24))).
Proof.
  apply (join_with_empty_path_normalizes CWK_STYLE_WINDOWS
           (lit "C:a\..\..\b\.\") (lit "") (fun _ => "x"%char)
           (fun _ => "y"%char) 32 24).
  reflexivity.
Defined.

(** ** Guessing the style *)

Lemma text_of_cons ch l :
  text_of (ch :: l) = if is_nul ch then [] else ch :: text_of l.
Proof.
  unfold text_of, strlen. cbn [skipn strlen_from].
  destruct (is_nul ch); reflexivity.
Qed.

Lemma first_slash_find p :
  first_slash p
  = match find (fun ch => Ascii.eqb ch "/" || Ascii.eqb ch "\")
            (text_of p) with
    | Some ch =>
        Some (if Ascii.eqb ch "/" then CWK_STYLE_UNIX
              else CWK_STYLE_WINDOWS)
    | None => None
    end.
Proof.
  induction p as [|ch p IH]; [reflexivity|].
  rewrite text_of_cons. cbn [first_slash].
  change (deref (separators CWK_STYLE_UNIX) 0) with "/"%char.
  change (deref (separators CWK_STYLE_WINDOWS) 0) with "\"%char.
  destruct (is_nul ch); [reflexivity|]. cbn [find].
  destruct (Ascii.eqb ch "/") eqn:E1; cbn [orb]; [rewrite E1; reflexivity|].
  destruct (Ascii.eqb ch "\") eqn:E2; [rewrite E1; reflexivity|].
  exact IH.
Qed.

Lemma dot_ahead_exists p :
  dot_ahead p = existsb (fun ch => Ascii.eqb ch ".") (text_of p).
Proof.
  induction p as [|ch p IH]; [reflexivity|].
  rewrite text_of_cons. cbn [dot_ahead].
  destruct (is_nul ch); [reflexivity|]. cbn [existsb].
  destruct (Ascii.eqb ch "."); [reflexivity|]. exact IH.
Qed.

Lemma deref_text_of p i : i < strlen p 0 -> deref (text_of p) i = deref p i.
Proof.
  intros Hi. unfold text_of, deref. rewrite nth_firstn.
  destruct (Nat.ltb_spec i (strlen p 0)); [reflexivity|lia].
Qed.

Lemma length_text_of p : length (text_of p) = strlen p 0.
Proof.
  unfold text_of. rewrite length_firstn.
  pose proof (strlen_le_length p). lia.
Qed.

Lemma no_slash_no_separator st p :
  find (fun ch => Ascii.eqb ch "/" || Ascii.eqb ch "\") (text_of p) = None ->
  forall i, i < strlen p 0 -> is_separator st (deref p i) = false.
Proof.
  intros H i Hi.
  pose proof (find_none _ _ H (deref p i)) as N. cbv beta in N.
  assert (Hin : In (deref p i) (text_of p)).
  { rewrite <- (deref_text_of p i Hi). apply nth_In.
    rewrite length_text_of. exact Hi. }
  specialize (N Hin). apply orb_false_iff in N. destruct N as [N1 N2].
  rewrite is_separator_spec.
  rewrite (Ascii.eqb_sym "\" (deref p i)), (Ascii.eqb_sym "/" (deref p i)).
  destruct st; rewrite ?N1, ?N2; reflexivity.
Qed.

(** X25.  How [guess_style] decides.  A path whose Windows root is
    longer than one byte is taken for a Windows path.  Otherwise the
    first slash of the path decides: a forward slash gives Unix, a
    backslash Windows.  A path without any slash is taken for a Windows
    path exactly when it holds a dot and does not start with one; for
    such a path the configured style plays no part, and the segment the
    code looks at is the whole path. *)
Theorem guess_style_decision (st : cwk_path_style) (p : list ascii) :
  guess_style st p
  = if 1 <? get_root_windows st p then CWK_STYLE_WINDOWS
    else
      match find (fun ch => Ascii.eqb ch "/" || Ascii.eqb ch "\")
              (text_of p) with
      | Some ch =>
          if Ascii.eqb ch "/" then CWK_STYLE_UNIX else CWK_STYLE_WINDOWS
      | None =>
          if Ascii.eqb (deref p 0) "." then CWK_STYLE_UNIX
          else if existsb (fun ch => Ascii.eqb ch ".") (text_of p)
          then CWK_STYLE_WINDOWS
          else CWK_STYLE_UNIX
      end.
Proof.
  unfold guess_style. cbv zeta.
  destruct (Nat.ltb_spec 1 (get_root_windows st p)) as [|Hw];
    [reflexivity|].
  rewrite first_slash_find.
  destruct (find (fun ch => Ascii.eqb ch "/" || Ascii.eqb ch "\")
              (text_of p)) as [ch|] eqn:EF; [reflexivity|].
  pose proof (no_slash_no_separator st p EF) as Hns.
  destruct (strlen_spec p 0) as [_ Hnul]. cbn [Nat.add] in Hnul.
  assert (H0 : is_separator st (deref p 0) = false).
  { destruct (Nat.eq_dec (strlen p 0) 0) as [E|N].
    - rewrite E in Hnul. apply is_nul_true in Hnul. rewrite Hnul.
      apply is_separator_NUL.
    - apply Hns. lia. }
  assert (Hroot : get_root st p = 0).
  { destruct st; unfold get_root.
    - rewrite get_root_windows_unfold in Hw |- *.
      destruct (is_nul (deref p 0)); [reflexivity|].
      rewrite H0 in Hw |- *.
      destruct (Ascii.eqb (deref p 1) ":"); [|reflexivity].
      destruct (is_separator CWK_STYLE_WINDOWS (deref p 2)); lia.
    - unfold get_root_unix. rewrite H0. reflexivity. }
  pose proof (get_last_segment_spec st p) as HS.
  destruct (get_last_segment st p) as [[] seg]; cbn [negb].
  - destruct HS as (_ & _ & Hin & _ & Hok & Hp & Hsegs).
    destruct Hok as (Hsb & Hbe & _ & _ & _ & Hstart).
    unfold within in Hin. rewrite Hp in Hin, Hstart.
    pose proof (no_nul_before_strlen p _ Hin) as He.
    assert (Hb : begin seg = 0).
    { destruct Hstart as [E|E]; [rewrite E, Hsegs; exact Hroot|].
      destruct (Nat.eq_dec (begin seg) 0) as [|N]; [assumption|].
      rewrite Hns in E by lia. discriminate. }
    rewrite Hp, Hb. cbn [skipn]. rewrite dot_ahead_exists. reflexivity.
  - destruct HS as [_ Hseps]. rewrite Hroot in Hseps.
    assert (E : strlen p 0 = 0).
    { destruct (Nat.eq_dec (strlen p 0) 0) as [|N]; [assumption|].
      rewrite Hseps in H0 by lia. discriminate. }
    rewrite E in Hnul. apply is_nul_true in Hnul. rewrite Hnul.
    unfold text_of. rewrite E. reflexivity.
Qed.

(** ** The relative path, in texts *)

Lemma kept_positions_any_texts st absolute p ts :
  chain st p (get_root st p) ts ->
  map position_bytes (filter (kept st absolute) (positions st p ts))
  = survivors classify absolute [] (map (token_text p) ts).
Proof.
  intros H. unfold positions, kept.
  rewrite (single_filter st p absolute ts [] H). cbn [rev].
  pose proof (survivors_map (token_text p) classify absolute ts []) as M.
  change (map (token_text p) []) with (@nil (list ascii)) in M.
  rewrite <- M. rewrite map_map. apply map_ext_in. intros t Ht.
  apply (single_token_bytes st p ts t H).
  apply (survivors_incl _ _ _ _ _ Ht).
Qed.

Lemma common_map st :
  forall B T,
    Forall (position_ok st) B -> Forall (position_ok st) T ->
    common st B T
    = common_texts st (map position_bytes B) (map position_bytes T).
Proof.
  induction B as [|b B IH]; intros [|t T] HB HT;
    cbn [common common_texts map]; try reflexivity.
  inversion HB as [|? ? Hb HB']; inversion HT as [|? ? Ht HT']; subst.
  destruct Hb as (_ & _ & Hb & _). destruct Ht as (_ & _ & Ht & _).
  rewrite (segments_equal_match st b t Hb Ht).
  destruct (segments_match st (position_bytes b) (position_bytes t));
    [|reflexivity].
  f_equal. apply IH; assumption.
Qed.

(** X26.  What [get_relative] writes.  When the two roots pass its
    test, [get_relative] goes through the segments normalization keeps
    of the base and of the target (both resolved as the base is:
    absolute or not), leaves out the leading pairs its comparison takes
    for equal -- the text of the base segment is the start of the text
    of the target segment, without regard to case under the Windows
    style -- and writes one [..] for every base segment that is left,
    then the target segments that are left, with one separator between
    them; when nothing is left it writes a single dot. *)
Theorem relative_path_steps_back_then_down (st : cwk_path_style)
  (base target : list ascii) (buf : buffer) (cap : nat) :
  get_root st base = get_root st target ->
  is_string_equal st base target (get_root st base) = true ->
  fst (get_relative st base target buf cap) < cap ->
  let absolute := is_absolute st base in
  let B :=
    survivors classify absolute [] (map (token_text base) (tokens st base)) in
  let T :=
    survivors classify absolute []
      (map (token_text target) (tokens st target)) in
  let n := common_texts st B T in
  buffer_prefix (snd (get_relative st base target buf cap))
    (fst (get_relative st base target buf cap))
  = match map (fun _ => lit "..") (skipn n B) ++ skipn n T with
    | [] => lit "."
    | t :: rest => render st false (t :: rest)
    end.
Proof.
  intros Hroot Heq Hcap. cbv zeta.
  pose proof (chain_tokens st base) as Hb.
  pose proof (chain_tokens st target) as Ho.
  rewrite (get_relative_result st base target _ _ buf cap Hb Ho Hroot Heq
             Hcap).
  rewrite relative_text_render. unfold relative_items. cbv zeta.
  set (absolute := is_absolute st base).
  set (B := filter (kept st absolute) (positions st base (tokens st base))).
  set (T := filter (kept st absolute)
              (positions st target (tokens st target))).
  pose proof (kept_positions_ok st absolute base _ Hb) as HB.
  pose proof (kept_positions_ok st absolute target _ Ho) as HT.
  fold B in HB. fold T in HT.
  rewrite <- (kept_positions_any_texts st absolute base _ Hb).
  rewrite <- (kept_positions_any_texts st absolute target _ Ho).
  fold B T. rewrite <- (common_map st B T HB HT).
  rewrite !skipn_map, map_map.
  destruct (map (fun _ : cwk_segment_joined => lit "..")
              (skipn (common st B T) B)
            ++ map position_bytes (skipn (common st B T) T)) as [|t rest];
    [reflexivity|reflexivity].
Qed.

Lemma relative_path_steps_back_then_down_witness :
  let absolute := is_absolute CWK_STYLE_WINDOWS (lit "C:\a\.\B\c\d") in
  let B :=
    survivors classify absolute []
      (map (token_text (lit "C:\a\.\B\c\d"))
         (tokens CWK_STYLE_WINDOWS (lit "C:\a\.\B\c\d"))) in
  let T :=
    survivors classify absolute []
      (map (token_text (lit "c:\A\b\x\..\e"))
         (tokens CWK_STYLE_WINDOWS (lit "c:\A\b\x\..\e"))) in
  let n := common_texts CWK_STYLE_WINDOWS B T in
  buffer_prefix
    (snd (get_relative CWK_STYLE_WINDOWS (lit "C:\a\.\B\c\d")
            (lit "c:\A\b\x\..\e") (fun _ => "x"%char) 32))
    (fst (get_relative CWK_STYLE_WINDOWS (lit "C:\a\.\B\c\d")
            (lit "c:\A\b\x\..\e") (fun _ => "x"%char) 32))
  = match map (fun _ => lit "..") (skipn n B) ++ skipn n T with
    | [] => lit "."
    | t :: rest => render CWK_STYLE_WINDOWS false (t :: rest)
    end.
Proof.
  apply (relative_path_steps_back_then_down CWK_STYLE_WINDOWS
           (lit "C:\a\.\B\c\d") (lit "c:\A\b\x\..\e")
           (fun _ => "x"%char) 32).
  - reflexivity.
  - reflexivity.
  - vm_compute. lia.
Defined.

(** ** The intersection, in segments *)

Lemma intersection_loop_unfold st fuel base other absolute e :
  intersection_loop st fuel base other absolute e =
  let '(rb, base) := segment_joined_skip_invisible st base absolute in
  if negb rb then e
  else
    let '(ro, other) := segment_joined_skip_invisible st other absolute in
    if negb ro then e
    else if negb (segments_equal st base other) then e
    else
      let e := end_ (segment base) in
      let '(rb, base) := get_next_segment_joined st base in
      if negb rb then e
      else
        let '(ro, other) := get_next_segment_joined st other in
        if negb ro then e
        else
          match fuel with
          | 0 => e
          | S fuel' => intersection_loop st fuel' base other absolute e
          end.
Proof. destruct fuel; reflexivity. Qed.

Lemma common_texts_nil_r st B : common_texts st B [] = 0.
Proof. destruct B; reflexivity. Qed.

(** The loop of [get_intersection] returns the end of the last of the
    leading kept base segments that the comparison takes for equal to
    those of the other path, and the offset it was given when there is
    none. *)
Lemma intersection_loop_spec st absolute :
  forall fuel Lb Lo bsj osj e,
    length Lb <= fuel ->
    stands_at st absolute bsj Lb -> stands_at st absolute osj Lo ->
    intersection_loop st fuel bsj osj absolute e
    = last (map (fun x => end_ (segment x))
              (firstn (common st (filter (kept st absolute) Lb)
                                 (filter (kept st absolute) Lo))
                 (filter (kept st absolute) Lb))) e.
Proof.
  induction fuel as [|fuel IH]; intros Lb Lo bsj osj e Hf Hb Ho;
    rewrite intersection_loop_unfold;
    destruct (left_over_skipped st absolute bsj Lb Hb) as (rb & b1 & Eb & Sb);
    rewrite Eb;
    destruct (skip_removed st absolute Lb) as [|b Kb] eqn:EKb.
  1, 3: subst rb; cbn [negb];
    rewrite (filter_kept_none st absolute Lb EKb); reflexivity.
  - destruct Lb; [discriminate|cbn [length] in Hf; lia].
  - destruct Sb as (-> & -> & Sb). cbn [negb].
    pose proof (skip_removed_suffix st absolute Lb b Kb EKb) as Hlen.
    rewrite (filter_kept_head st absolute Lb b Kb EKb).
    destruct (left_over_skipped st absolute osj Lo Ho)
      as (ro & o1 & Eo & So).
    rewrite Eo.
    destruct (skip_removed st absolute Lo) as [|o Ko] eqn:EKo.
    { subst ro. cbn [negb].
      rewrite (filter_kept_none st absolute Lo EKo), common_nil_r.
      reflexivity. }
    destruct So as (-> & -> & So). cbn [negb].
    rewrite (filter_kept_head st absolute Lo o Ko EKo). cbn [common].
    destruct (segments_equal st b o) eqn:Eq; cbn [negb]; [|reflexivity].
    cbn [firstn map].
    destruct (left_over_next st absolute b Kb Sb) as (rb2 & b2 & Enb & Snb).
    rewrite Enb. destruct Kb as [|y Kb'].
    { subst rb2. reflexivity. }
    destruct Snb as (-> & -> & Snb). cbn [negb].
    destruct (left_over_next st absolute o Ko So) as (ro2 & o2 & Eno & Sno).
    rewrite Eno. destruct Ko as [|z Ko'].
    { subst ro2. cbn [negb filter]. rewrite common_nil_r. reflexivity. }
    destruct Sno as (-> & -> & Sno). cbn [negb].
    cbn [length] in Hlen.
    rewrite (IH (y :: Kb') (z :: Ko') y z (end_ (segment b)));
      [|cbn [length]; lia|exact Snb|exact Sno].
    destruct (firstn _ (filter (kept st absolute) (y :: Kb'))) as [|u U];
      [reflexivity|].
    cbn [map]. symmetry.
    change (last (end_ (segment b) :: end_ (segment u)
                  :: map (fun x => end_ (segment x)) U) e)
      with (last (end_ (segment u)
                  :: map (fun x => end_ (segment x)) U) e).
    apply last_cons_default.
Qed.

(** X27.  What [get_intersection] returns.  When the root of the base
    fails the test against the other path it returns 0.  Otherwise it
    takes the segments normalization keeps of the two paths (both
    resolved as the base is: absolute or not), counts the leading pairs
    its comparison takes for equal -- the text of the base segment is
    the start of the text of the other segment, without regard to case
    under the Windows style -- and returns the offset at which the last
    of these base segments ends; the length of the root of the base
    when no pair is equal. *)
Theorem intersection_is_the_common_start (st : cwk_path_style)
  (base other : list ascii) :
  get_intersection st base other
  = if negb (is_string_equal st base other (get_root st base)) then 0
    else
      let absolute := is_absolute st base in
      let B :=
        survivors (fun t => classify (token_text base t)) absolute []
          (tokens st base) in
      let T :=
        survivors classify absolute []
          (map (token_text other) (tokens st other)) in
      let n := common_texts st (map (token_text base) B) T in
      last (map snd (firstn n B)) (get_root st base).
Proof.
  unfold get_intersection. cbv zeta.
  destruct (is_string_equal st base other (get_root st base)); cbn [negb];
    [|reflexivity].
  change (is_root_absolute st base (get_root st base))
    with (is_absolute st base).
  set (absolute := is_absolute st base).
  pose proof (chain_tokens st base) as Hb.
  pose proof (chain_tokens st other) as Ho.
  destruct (get_first_segment_joined st [base]) as [r1 bsj] eqn:E1.
  destruct (get_first_segment_joined st [other]) as [r2 osj] eqn:E2.
  pose proof (single_stands st absolute base _ bsj r1 Hb E1) as Sb.
  pose proof (single_stands st absolute other _ osj r2 Ho E2) as So.
  pose proof (single_first st base _ Hb) as F1. rewrite E1 in F1.
  pose proof (single_first st other _ Ho) as F2. rewrite E2 in F2.
  destruct r1; cbn [negb].
  2: { destruct (tokens st base); [reflexivity|discriminate]. }
  destruct r2; cbn [negb].
  2: { destruct (tokens st other); [|discriminate]. cbn [map survivors].
       rewrite common_texts_nil_r. reflexivity. }
  destruct (in_stream_first_ok st [base] bsj E1) as [_ Hp].
  assert (Hlen : length (positions st base (tokens st base))
                 <= stream_fuel [base]).
  { rewrite <- Hp.
    apply (stands_at_length st absolute bsj _ Sb).
    destruct (tokens st base); discriminate. }
  rewrite (intersection_loop_spec st absolute (stream_fuel [base]) _ _
             bsj osj (get_root st base) Hlen Sb So).
  pose proof (kept_positions_ok st absolute base _ Hb) as HB.
  pose proof (kept_positions_ok st absolute other _ Ho) as HT.
  rewrite (common_map st _ _ HB HT).
  rewrite (kept_positions_any_texts st absolute base _ Hb).
  rewrite (kept_positions_any_texts st absolute other _ Ho).
  pose proof (survivors_map (token_text base) classify absolute
                (tokens st base) []) as M.
  change (map (token_text base) []) with (@nil (list ascii)) in M.
  rewrite <- M.
  unfold positions, kept.
  rewrite (single_filter st base absolute (tokens st base) [] Hb).
  cbn [rev]. rewrite firstn_map, map_map. reflexivity.
Qed.
